(** * org-viewer: the two text interchange engines

    A shallow embedding of [src/utils/csvImport.ts] (the fuzzy CSV importer)
    and of the generator and parser of [src/components/MarkdownView.tsx],
    with the properties of the specification stated over them.

    Conventions of the embedding.
    - A JavaScript string is the list of its code units.  Code units are
      held in [ascii], so the embedding covers the strings whose code units
      lie in U+0000..U+00FF; white space, line terminators and the case
      mappings are those of ECMAScript on that range.
    - A JavaScript number that counts something (a length, a line number, a
      quantity prefix) is a [nat]; the onshore target and a similarity
      score are binary64 floats ([PrimFloat]), with the operations of the
      source.
    - [crypto.randomUUID()] is an explicit identifier source: a function
      from the number of identifiers already drawn to the next identifier.
    - An optional property ([name?: string]) is an [option]; JavaScript
      truthiness of a string (defined and not empty) is [truthy]. *)

From Stdlib Require Import List Ascii Arith Lia Bool PeanoNat Permutation ZArith.
From Stdlib Require String.
Import String.StringSyntax.
From Stdlib Require Import Floats SpecFloat Uint63.
From Stdlib Require DecimalString Decimal DecimalNat.
Import ListNotations.

Open Scope string_scope.
Open Scope list_scope.
Set Warnings "-inexact-float".

(** ** Strings *)

Definition str := list ascii.

Coercion String.list_ascii_of_string : String.string >-> list.

Module Js.

(** [a === b] on strings. *)
Fixpoint eqs (a b : str) : bool :=
  match a, b with
  | [], [] => true
  | x :: a', y :: b' => Ascii.eqb x y && eqs a' b'
  | _, _ => false
  end.

(** Truthiness of a string value: the empty string is falsy. *)
Definition nonEmpty (s : str) : bool :=
  match s with [] => false | _ :: _ => true end.

(** Truthiness of an optional string: [undefined] and [''] are falsy. *)
Definition truthy (o : option str) : bool :=
  match o with Some s => nonEmpty s | None => false end.

(** [o || d] for an optional string. *)
Definition orElse (o : option str) (d : str) : str :=
  match o with Some (c :: s) => c :: s | _ => d end.

(** [o ?? d]. *)
Definition nullish {A} (o : option A) (d : A) : A :=
  match o with Some a => a | None => d end.

Definition code (c : ascii) : nat := nat_of_ascii c.

(** WhiteSpace and LineTerminator code units below U+0100: TAB, LF, VT, FF,
    CR, SP and NBSP.  This is the class [\s] and what [trim] strips. *)
Definition isSpace (c : ascii) : bool :=
  let n := code c in
  (9 <=? n) && (n <=? 13) || (n =? 32) || (n =? 160).

(** What [.] refuses: LF and CR. *)
Definition isLineTerminator (c : ascii) : bool :=
  let n := code c in (n =? 10) || (n =? 13).

Definition isDigit (c : ascii) : bool :=
  let n := code c in (48 <=? n) && (n <=? 57).

Fixpoint takeWhile {A} (f : A -> bool) (l : list A) : list A :=
  match l with
  | [] => []
  | x :: r => if f x then x :: takeWhile f r else []
  end.

Fixpoint dropWhile {A} (f : A -> bool) (l : list A) : list A :=
  match l with
  | [] => []
  | x :: r => if f x then dropWhile f r else x :: r
  end.

Definition trimStart (s : str) : str := dropWhile isSpace s.
Definition trimEnd (s : str) : str := rev (dropWhile isSpace (rev s)).
Definition trim (s : str) : str := trimEnd (trimStart s).

(** [s.split(sep)] for a one-character separator: never empty. *)
Fixpoint split (sep : ascii) (s : str) : list str :=
  match s with
  | [] => [[]]
  | c :: r =>
      if Ascii.eqb c sep then [] :: split sep r
      else match split sep r with
           | [] => [[c]]
           | h :: t => (c :: h) :: t
           end
  end.

(** [l.join(sep)]. *)
Fixpoint join (sep : str) (l : list str) : str :=
  match l with
  | [] => []
  | [s] => s
  | s :: r => s ++ sep ++ join sep r
  end.

(** [s.startsWith(p)]. *)
Fixpoint startsWith (p s : str) : bool :=
  match p, s with
  | [], _ => true
  | x :: p', y :: s' => Ascii.eqb x y && startsWith p' s'
  | _ :: _, [] => false
  end.

(** [s.includes(p)]. *)
Fixpoint includes (s p : str) : bool :=
  startsWith p s ||
  match s with
  | [] => false
  | _ :: r => includes r p
  end.

(** [s.slice(a, b)] for [0 <= a] and [0 <= b]. *)
Definition slice (a b : nat) (s : str) : str := firstn (b - a) (skipn a s).

(** [s.slice(1, -1)]. *)
Definition slice1m1 (s : str) : str := removelast (tl s).

(** [toLowerCase] of one code unit: A-Z, and U+00C0..U+00DE but U+00D7. *)
Definition lowerChar (c : ascii) : ascii :=
  let n := code c in
  if (65 <=? n) && (n <=? 90) then ascii_of_nat (n + 32)
  else if (192 <=? n) && (n <=? 222) && negb (n =? 215) then ascii_of_nat (n + 32)
  else c.

Definition toLowerCase (s : str) : str := map lowerChar s.

(** [toUpperCase]: a-z, U+00E0..U+00FE but U+00F7, and U+00DF to "SS".
    U+00B5 and U+00FF, whose capitals lie beyond U+00FF, stay in place;
    the source only compares the result with ['M&S'], from every character
    of which they differ either way. *)
Definition upperChar (c : ascii) : str :=
  let n := code c in
  if (97 <=? n) && (n <=? 122) then [ascii_of_nat (n - 32)]
  else if (224 <=? n) && (n <=? 254) && negb (n =? 247) then [ascii_of_nat (n - 32)]
  else if n =? 223 then "SS"
  else [c].

Definition toUpperCase (s : str) : str := flat_map upperChar s.

(** Case-insensitive comparison of a code unit with a pattern character
    under the [i] flag: only the ASCII letters fold. *)
Definition foldChar (c : ascii) : ascii :=
  let n := code c in
  if (65 <=? n) && (n <=? 90) then ascii_of_nat (n + 32) else c.

Definition ciEq (c d : ascii) : bool := Ascii.eqb (foldChar c) (foldChar d).

(** [lastIndexOf(c)]: [None] is [-1]. *)
Fixpoint lastIndexOf (c : ascii) (s : str) : option nat :=
  match s with
  | [] => None
  | x :: r =>
      match lastIndexOf c r with
      | Some i => Some (S i)
      | None => if Ascii.eqb x c then Some 0 else None
      end
  end.

(** [parseInt(ds, 10)] on a run of decimal digits: the integer that the
    digits denote.  The number that [parseInt] returns is that integer
    rounded to binary64, [numberOfNat] of it; the onshore target is read
    so.  The count of a quantity prefix is used as the integer itself:
    the two differ from 2^53 on only, past the length of any array. *)
Definition parseInt (ds : str) : nat :=
  fold_left (fun acc c => 10 * acc + (code c - 48)) ds 0.

(** [`${n}`] for a count or a length: the decimal digits of a
    non-negative integer (below 10^21, as the length of an array is). *)
Definition ofNat (n : nat) : str :=
  String.list_ascii_of_string (DecimalString.NilZero.string_of_uint (Nat.to_uint n)).

(** *** Numbers

    A JavaScript number is a binary64 float.  [numberOfNat n] is the number
    value of the integer [n], rounded to the nearest float, ties to even,
    and [numberToString] is the conversion of a number to a string, the one
    of a template literal: the shortest run of decimal digits that reads
    back as the number, written plainly when its decimal exponent is
    between -6 and 21 and with an exponent otherwise. *)
Definition numberOfNat (n : nat) : float :=
  SF2Prim (binary_normalize prec emax (Z.of_nat n) 0 false).

Section NumberToString.
Local Open Scope Z_scope.

(** The order of [s * 10^p] and [c * 2^q]. *)
Definition compareScaled (s p c q : Z) : comparison :=
  Z.compare (s * 10 ^ Z.max p 0 * 2 ^ Z.max (- q) 0)
            (c * 2 ^ Z.max q 0 * 10 ^ Z.max (- p) 0).

(** The integer part of [m * 2^e / 10^p]. *)
Definition floorScaled (m e p : Z) : Z :=
  (m * 2 ^ Z.max e 0 * 10 ^ Z.max (- p) 0) / (2 ^ Z.max (- e) 0 * 10 ^ Z.max p 0).

(** [n] with [10^(n-1) <= m * 2^e < 10^n], looked for downwards from an
    upper estimate: [m * 2^e] is below [2^bits], and [log 2] below
    [0.30103]. *)
Fixpoint decimalExponentFrom (fuel : nat) (n m e : Z) : Z :=
  match fuel with
  | O => n
  | S fuel' =>
      match compareScaled 1 (n - 1) m e with
      | Gt => decimalExponentFrom fuel' (n - 1) m e
      | _ => n
      end
  end.

Definition decimalExponent (m e : Z) : Z :=
  let bits := Z.log2 m + e + 1 in
  decimalExponentFrom 8 (bits * 30103 / 100000 + 2) m e.

(** Whether [s * 10^p] rounds to the float [m * 2^e]: it lies between the
    middle points to the neighbouring floats, which count when [m] is
    even. *)
Definition roundsTo (m e s p : Z) : bool :=
  let '(lm, le) := if (m =? 2 ^ 52) && (-1074 <? e) then (4 * m - 1, e - 2)
                   else (2 * m - 1, e - 1) in
  match compareScaled s p lm le, compareScaled s p (2 * m + 1) (e - 1) with
  | Gt, Lt => true
  | Eq, Lt | Gt, Eq => Z.even m
  | _, _ => false
  end.

(** The distance of [s * 10^p] to [m * 2^e], times a power of 10 and of 2
    that the candidates of one search share. *)
Definition distance (m e k n0 s n : Z) : Z :=
  let P := Z.max (k - n0) 0 in
  let E := Z.max (- e) 0 in
  Z.abs (s * 10 ^ (n - k + P) * 2 ^ E - m * 2 ^ (e + E) * 10 ^ P).

(** The candidates with [k] digits: [(n, s)] with [10^(k-1) <= s < 10^k]
    and [s * 10^(n-k)] rounding to the float. *)
Definition candidates (m e k n0 : Z) : list (Z * Z) :=
  let q0 := floorScaled m e (n0 - k) in
  let q1 := floorScaled m e (n0 + 1 - k) in
  filter (fun '(n, s) => (10 ^ (k - 1) <=? s) && (s <? 10 ^ k) && roundsTo m e s (n - k))
         [(n0, q0); (n0, q0 + 1); (n0 + 1, q1); (n0 + 1, q1 + 1)].

(** The candidate closest to the float; of two at the same distance, the
    one with [s] even. *)
Definition closest (m e k n0 : Z) (cs : list (Z * Z)) : option (Z * Z) :=
  fold_left (fun best c =>
               match best with
               | None => Some c
               | Some b =>
                   match Z.compare (distance m e k n0 (snd c) (fst c))
                                   (distance m e k n0 (snd b) (fst b)) with
                   | Lt => Some c
                   | Eq => if Z.even (snd c) then Some c else best
                   | Gt => best
                   end
               end) cs None.

(** The least number of digits that has a candidate, from [k] on. *)
Fixpoint shortest (fuel : nat) (m e k n0 : Z) : Z * Z * Z :=
  match fuel with
  | O => (k, n0, 0)
  | S fuel' =>
      match closest m e k n0 (candidates m e k n0) with
      | Some (n, s) => (k, n, s)
      | None => shortest fuel' m e (k + 1) n0
      end
  end.

End NumberToString.

Definition zeros (n : Z) : str := repeat "0"%char (Z.to_nat n).
(** The decimal digits of an integer that is not negative. *)
Definition digitsOf (z : Z) : str :=
  String.list_ascii_of_string (DecimalString.NilZero.string_of_uint (N.to_uint (Z.to_N z))).

(** The digits [s] of a number with [k] digits and decimal exponent [n],
    as [Number::toString] lays them out. *)
Definition layout (k n s : Z) : str :=
  let digits := digitsOf s in
  if ((k <=? n) && (n <=? 21))%Z then digits ++ zeros (n - k)
  else if ((0 <? n) && (n <=? 21))%Z then
    firstn (Z.to_nat n) digits ++ "." ++ skipn (Z.to_nat n) digits
  else if ((-6 <? n) && (n <=? 0))%Z then "0." ++ zeros (- n) ++ digits
  else
    let exponent := (if (n - 1 <? 0)%Z then "-" else "+") ++ digitsOf (Z.abs (n - 1)) in
    if (k =? 1)%Z then digits ++ "e" ++ exponent
    else firstn 1 digits ++ "." ++ skipn 1 digits ++ "e" ++ exponent.

(** [`${x}`] for a number. *)
Definition numberToString (x : float) : str :=
  match Prim2SF x with
  | S754_nan => "NaN"
  | S754_zero _ => "0"
  | S754_infinity s => (if s then "-" else []) ++ "Infinity"
  | S754_finite s m e =>
      let '(k, n, digits) :=
        shortest 17 (Z.pos m) e 1 (decimalExponent (Z.pos m) e) in
      (if s then "-" else []) ++ layout k n digits
  end.


(** *** Regular expressions

    A pattern without [^] is searched for at each start position, left to
    right; [search m] does that for the matcher [m] of the pattern at one
    position, and returns the index of the match with what [m] returns. *)
Fixpoint searchFrom {A} (m : str -> option A) (i : nat) (s : str)
  : option (nat * A) :=
  match m s with
  | Some a => Some (i, a)
  | None =>
      match s with
      | [] => None
      | _ :: r => searchFrom m (S i) r
      end
  end.

Definition search {A} (m : str -> option A) (s : str) : option (nat * A) :=
  searchFrom m 0 s.

(** [(.+)$] at the start of [s]: the whole of [s], not empty and free of
    line terminators. *)
Definition dotPlusEnd (s : str) : option str :=
  if nonEmpty s && forallb (fun c => negb (isLineTerminator c)) s
  then Some s else None.

(** The last white-space character given back to [(.+)] when nothing
    follows the white space. *)
Definition giveBack (w : str) : option str :=
  match rev w with
  | c :: _ => if isLineTerminator c then None else Some [c]
  | [] => None
  end.

(** [\s*(.+)$] at the start of [s]; the result is group 1. *)
Definition wsStarRest (s : str) : option str :=
  let w := takeWhile isSpace s in
  let r := dropWhile isSpace s in
  match r with
  | [] => giveBack w
  | _ => dotPlusEnd r
  end.

(** [\s+(.+)$] at the start of [s]; the result is group 1. *)
Definition wsPlusRest (s : str) : option str :=
  let w := takeWhile isSpace s in
  let r := dropWhile isSpace s in
  match w, r with
  | [], _ => None
  | _, [] => if 2 <=? length w then giveBack w else None
  | _, _ => dotPlusEnd r
  end.

(** A literal under the [i] flag at the start of [s]; the rest of [s]. *)
Fixpoint ciLit (p s : str) : option str :=
  match p, s with
  | [], _ => Some s
  | x :: p', y :: s' => if ciEq x y then ciLit p' s' else None
  | _ :: _, [] => None
  end.

(** A literal at the start of [s]; the rest of [s]. *)
Fixpoint lit (p s : str) : option str :=
  match p, s with
  | [], _ => Some s
  | x :: p', y :: s' => if Ascii.eqb x y then lit p' s' else None
  | _ :: _, [] => None
  end.

End Js.

Import Js.

(** ** The organisation tree ([src/types/org.ts]) *)

Inductive Location := onshore | nearshore | offshore.
Inductive EmployeeType := employee | contractor.
Inductive Role :=
  | engineer | senior_engineer | staff_engineer
  | engineering_manager | head_of_engineering | principal_engineer.



Definition Role_eqb (a b : Role) : bool :=
  match a, b with
  | engineer, engineer | senior_engineer, senior_engineer
  | staff_engineer, staff_engineer
  | engineering_manager, engineering_manager
  | head_of_engineering, head_of_engineering
  | principal_engineer, principal_engineer => true
  | _, _ => false
  end.

(** The records are indexed by the type [R] of what the [role] property
    holds: [Role] for the values the generator and the importer read; the
    parser stores what a property read of its label table returned, a
    [RoleValue] (see [ROLE_FROM_LABEL]). *)
Module Person.
Record t (R : Type) := mk {
  id : str;
  name : option str;
  role : R;
  type : EmployeeType;
  vendor : option str;
  location : option Location
}.
Arguments mk {R}. Arguments id {R}. Arguments name {R}. Arguments role {R}.
Arguments type {R}. Arguments vendor {R}. Arguments location {R}.
End Person.

Module Team.
Record t (R : Type) := mk {
  id : str;
  name : str;
  members : list (Person.t R)
}.
Arguments mk {R}. Arguments id {R}. Arguments name {R}. Arguments members {R}.
End Team.

Module Group.
Record t (R : Type) := mk {
  id : str;
  name : str;
  manager : option (Person.t R);
  managedBy : option str;
  staffEngineers : list (Person.t R);
  teams : list (Team.t R)
}.
Arguments mk {R}. Arguments id {R}. Arguments name {R}. Arguments manager {R}.
Arguments managedBy {R}. Arguments staffEngineers {R}. Arguments teams {R}.
End Group.

Module Division.
Record t (R : Type) := mk {
  id : str;
  name : str;
  groups : list (Group.t R)
}.
Arguments mk {R}. Arguments id {R}. Arguments name {R}. Arguments groups {R}.
End Division.

Module Portfolio.
Record t (R : Type) := mk {
  id : str;
  name : str;
  headOfEngineering : option (Person.t R);
  principalEngineers : list (Person.t R);
  divisions : option (list (Division.t R));
  groups : list (Group.t R);
  onshoreTargetPercentage : option float
}.
Arguments mk {R}. Arguments id {R}. Arguments name {R}.
Arguments headOfEngineering {R}. Arguments principalEngineers {R}.
Arguments divisions {R}. Arguments groups {R}.
Arguments onshoreTargetPercentage {R}.
End Portfolio.

Definition ROLE_LABELS (r : Role) : str :=
  match r with
  | engineer => "Engineer"
  | senior_engineer => "Senior Engineer"
  | staff_engineer => "Staff Engineer"
  | engineering_manager => "Engineering Manager"
  | head_of_engineering => "Head of Engineering"
  | principal_engineer => "Principal Engineer"
  end.

(** The string a [Location] value is. *)
Definition Location_str (l : Location) : str :=
  match l with
  | onshore => "onshore" | nearshore => "nearshore" | offshore => "offshore"
  end.

(** The string an [EmployeeType] value is. *)
Definition EmployeeType_str (t : EmployeeType) : str :=
  match t with employee => "employee" | contractor => "contractor" end.

(** The string a [Role] value is. *)
Definition Role_str (r : Role) : str :=
  match r with
  | engineer => "engineer"
  | senior_engineer => "senior_engineer"
  | staff_engineer => "staff_engineer"
  | engineering_manager => "engineering_manager"
  | head_of_engineering => "head_of_engineering"
  | principal_engineer => "principal_engineer"
  end.

(** An identifier source: [ids n] is the value of the [n]-th call of
    [crypto.randomUUID()]. *)
Definition IdSource := nat -> str.

(** ** The CSV importer ([src/utils/csvImport.ts]) *)

Definition LF : ascii := "010"%char.
Definition COMMA : ascii := ","%char.
Definition SPACE : ascii := " "%char.

Module CsvRow.
Record t := mk {
  portfolio : str;
  csvGroup : str;
  teamName : str;
  role : str;
  location : str;
  vendor : str;
  name : str;
  lineNumber : nat
}.
End CsvRow.

(** [parts.slice(a, b)]. *)
Definition sliceParts {A} (a b : nat) (l : list A) : list A :=
  firstn (b - a) (skipn a l).

(** The body of the loop of [parseCsv] for the line at index [i]: the row
    it pushes, or [None] when it runs [continue]. *)
Definition parseCsvLine (i : nat) (raw : str) : option CsvRow.t :=
  let line := trim raw in
  if negb (nonEmpty line) then None
  else
    let parts := split COMMA line in
    let n := length parts in
    if n <? 7 then None
    else
      Some {| CsvRow.portfolio := trim (nth 0 parts []);
              CsvRow.csvGroup := trim (nth 1 parts []);
              CsvRow.name := trim (nth (n - 1) parts []);
              CsvRow.vendor := trim (nth (n - 2) parts []);
              CsvRow.location := trim (nth (n - 3) parts []);
              CsvRow.role := trim (nth (n - 4) parts []);
              CsvRow.teamName := trim (join [COMMA] (sliceParts 2 (n - 4) parts));
              CsvRow.lineNumber := i + 1 |}.

Fixpoint parseCsvFrom (i : nat) (lines : list str) : list CsvRow.t :=
  match lines with
  | [] => []
  | raw :: rest =>
      match parseCsvLine i raw with
      | Some row => row :: parseCsvFrom (S i) rest
      | None => parseCsvFrom (S i) rest
      end
  end.

(** [csvText.trim().split('\n').filter(line => line.trim())]. *)
Definition csvLines (csvText : str) : list str :=
  filter (fun line => nonEmpty (trim line)) (split LF (trim csvText)).

Definition parseCsv (csvText : str) : list CsvRow.t :=
  parseCsvFrom 0 (csvLines csvText).

(** *** Fuzzy name matching *)

(** [replace(/\s+/g, ' ')]: each run of white space becomes one space. *)
Fixpoint collapseWs (s : str) : str :=
  match s with
  | [] => []
  | c :: r =>
      if isSpace c then
        match r with
        | c' :: _ => if isSpace c' then collapseWs r else SPACE :: collapseWs r
        | [] => [SPACE]
        end
      else c :: collapseWs r
  end.

(** The class [[a-z0-9\s&-]]. *)
Definition isKept (c : ascii) : bool :=
  let n := code c in
  (97 <=? n) && (n <=? 122) || isDigit c || isSpace c
  || (n =? 38) || (n =? 45).

Definition normalise (s : str) : str :=
  trim (collapseWs (filter isKept (toLowerCase s))).

(** [\.?] at the start of [s]. *)
Definition optDot (s : str) : str :=
  match s with
  | c :: r => if Ascii.eqb c "."%char then r else s
  | [] => s
  end.

(** [replace(/^(mr\.?|ms\.?|mrs\.?|miss\.?|dr\.?)\s*/i, '')]: the first
    alternative that matches wins, in the order of the pattern. *)
Definition stripTitle (name : str) : str :=
  match ciLit "mr" name with
  | Some r => dropWhile isSpace (optDot r)
  | None =>
  match ciLit "ms" name with
  | Some r => dropWhile isSpace (optDot r)
  | None =>
  match ciLit "mrs" name with
  | Some r => dropWhile isSpace (optDot r)
  | None =>
  match ciLit "miss" name with
  | Some r => dropWhile isSpace (optDot r)
  | None =>
  match ciLit "dr" name with
  | Some r => dropWhile isSpace (optDot r)
  | None => name
  end end end end end.

Definition normaliseName (name : str) : str :=
  trim (collapseWs (stripTitle name)).

(** The separators of [split(/[\s&-]+/)]. *)
Definition isTokenSep (c : ascii) : bool :=
  isSpace c || (code c =? 38) || (code c =? 45).

(** A split at every character of a class. *)
Fixpoint splitBy (f : ascii -> bool) (s : str) : list str :=
  match s with
  | [] => [[]]
  | c :: r =>
      if f c then [] :: splitBy f r
      else match splitBy f r with
           | [] => [[c]]
           | h :: t => (c :: h) :: t
           end
  end.

(** [split(/[\s&-]+/).filter(Boolean)]: the pieces between runs of
    separators that are not empty, which are the pieces between single
    separators that are not empty. *)
Definition tokens (s : str) : list str :=
  filter nonEmpty (splitBy isTokenSep s).

Definition has (l : list str) (x : str) : bool := existsb (eqs x) l.

(** [new Set(l)]: the distinct elements, in the order of first insertion. *)
Definition toSet (l : list str) : list str :=
  fold_left (fun acc x => if has acc x then acc else acc ++ [x]) l [].

Definition ofLen (n : nat) : float := PrimFloat.of_uint63 (Uint63.of_nat n).

Definition similarityScore (a b : str) : float :=
  let na := normalise a in
  let nb := normalise b in
  if eqs na nb then 1.0%float
  else if includes na nb || includes nb na then
    let shorter := if length na <? length nb then na else nb in
    let longer := if length na <? length nb then nb else na in
    (0.7 + 0.3 * (ofLen (length shorter) / ofLen (length longer)))%float
  else
    let tokensA := toSet (tokens na) in
    let tokensB := toSet (tokens nb) in
    if (length tokensA =? 0) || (length tokensB =? 0) then 0%float
    else
      let intersection := length (filter (has tokensB) tokensA) in
      let union := length (toSet (tokensA ++ tokensB)) in
      (ofLen intersection / ofLen union)%float.

(** [x[0] === y[0]]: both [undefined], or the same code unit. *)
Definition sameFirst (x y : str) : bool :=
  match x, y with
  | [], [] => true
  | c :: _, d :: _ => Ascii.eqb c d
  | _, _ => false
  end.

Definition namesMatch (csvName : str) (appName : option str) : bool :=
  if negb (truthy appName) then false
  else
    let a := toLowerCase (normaliseName csvName) in
    let b := toLowerCase (normaliseName (nullish appName [])) in
    if eqs a b then true
    else if includes a b || includes b a then true
    else
      let aLast := last (split SPACE a) [] in
      let bLast := last (split SPACE b) [] in
      if (2 <? length aLast) && eqs aLast bLast then
        let aFirst := hd [] (split SPACE a) in
        let bFirst := hd [] (split SPACE b) in
        if sameFirst aFirst bFirst then true else false
      else false.

(** *** Role and type mapping *)

Definition mapRole (csvRole : str) : option Role :=
  let r := trim (toLowerCase csvRole) in
  if eqs r "engineer" then Some engineer
  else if eqs r "senior engineer" then Some senior_engineer
  else if eqs r "staff engineer" then Some staff_engineer
  else if eqs r "engineering manager" then Some engineering_manager
  else if eqs r "head of engineering" then Some head_of_engineering
  else if eqs r "principal engineer" then Some principal_engineer
  else None.

Definition mapLocation (csvLocation : str) : Location :=
  let l := trim (toLowerCase csvLocation) in
  if eqs l "offshore" then offshore
  else if eqs l "nearshore" then nearshore
  else onshore.

Definition mapTypeAndVendor (vendor : str) : EmployeeType * option str :=
  if eqs (toUpperCase vendor) "M&S" then (employee, None)
  else (contractor, Some vendor).

(** *** Matching engine *)

Module AppTeamLocation.
Record t := mk {
  divisionId : option str;
  divisionName : option str;
  groupId : str;
  groupName : str;
  teamId : str;
  teamName : str;
  managerName : option str
}.
End AppTeamLocation.

(** The closure [processGroup] of [enumerateTeams]: what it pushes. *)
Definition processGroup (group : Group.t Role) (divisionId divisionName : option str)
  : list AppTeamLocation.t :=
  map (fun team =>
         {| AppTeamLocation.divisionId := divisionId;
            AppTeamLocation.divisionName := divisionName;
            AppTeamLocation.groupId := Group.id group;
            AppTeamLocation.groupName := Group.name group;
            AppTeamLocation.teamId := Team.id team;
            AppTeamLocation.teamName := Team.name team;
            AppTeamLocation.managerName :=
              match Group.manager group with
              | Some m => Person.name m
              | None => None
              end |})
      (Group.teams group).

Definition enumerateTeams (portfolio : Portfolio.t Role) : list AppTeamLocation.t :=
  flat_map (fun division =>
              flat_map (fun group =>
                          processGroup group (Some (Division.id division))
                                       (Some (Division.name division)))
                       (Division.groups division))
           (nullish (Portfolio.divisions portfolio) [])
  ++ flat_map (fun group => processGroup group None None)
              (Portfolio.groups portfolio).

Module CsvTeamGroup.
Record t := mk {
  csvGroup : str;
  csvTeam : str;
  rows : list CsvRow.t;
  managers : list CsvRow.t;
  engineers : list CsvRow.t
}.
End CsvTeamGroup.

(** The key of the [Map] of [groupCsvRows]. *)
Definition groupKey (row : CsvRow.t) : str :=
  CsvRow.csvGroup row ++ "|||" ++ CsvRow.teamName row.

(** The pushes of one iteration of [groupCsvRows] on the group of the key. *)
Definition addRow (row : CsvRow.t) (group : CsvTeamGroup.t) : CsvTeamGroup.t :=
  let role := mapRole (CsvRow.role row) in
  {| CsvTeamGroup.csvGroup := CsvTeamGroup.csvGroup group;
     CsvTeamGroup.csvTeam := CsvTeamGroup.csvTeam group;
     CsvTeamGroup.rows := CsvTeamGroup.rows group ++ [row];
     CsvTeamGroup.managers :=
       match role with
       | Some engineering_manager => CsvTeamGroup.managers group ++ [row]
       | _ => CsvTeamGroup.managers group
       end;
     CsvTeamGroup.engineers :=
       match role with
       | Some engineer | Some senior_engineer => CsvTeamGroup.engineers group ++ [row]
       | _ => CsvTeamGroup.engineers group
       end |}.

(** One iteration of [groupCsvRows] on the [Map], an association list in
    insertion order: the entry of the key is created at the end when it is
    missing, and the row is pushed on it. *)
Fixpoint putRow (key : str) (row : CsvRow.t) (m : list (str * CsvTeamGroup.t))
  : list (str * CsvTeamGroup.t) :=
  match m with
  | [] =>
      [(key, addRow row {| CsvTeamGroup.csvGroup := CsvRow.csvGroup row;
                           CsvTeamGroup.csvTeam := CsvRow.teamName row;
                           CsvTeamGroup.rows := [];
                           CsvTeamGroup.managers := [];
                           CsvTeamGroup.engineers := [] |})]
  | (k, g) :: rest =>
      if eqs k key then (k, addRow row g) :: rest
      else (k, g) :: putRow key row rest
  end.

Definition groupCsvRows (rows : list CsvRow.t) : list CsvTeamGroup.t :=
  map snd (fold_left (fun m row => putRow (groupKey row) row m) rows []).

Module MatchResult.
(** The result of [scoreMatch]; its [reason] text is left out. *)
Record t := mk {
  score : float;
  managerConfirmed : bool
}.
End MatchResult.

(** [Math.max] on two numbers that are not NaN. *)
Definition fmax (a b : float) : float := if PrimFloat.ltb a b then b else a.

Definition scoreMatch (csvTeamGroup : CsvTeamGroup.t) (appTeam : AppTeamLocation.t)
  : MatchResult.t :=
  let teamScore :=
    similarityScore (CsvTeamGroup.csvTeam csvTeamGroup) (AppTeamLocation.teamName appTeam) in
  let grpScore :=
    similarityScore (CsvTeamGroup.csvGroup csvTeamGroup) (AppTeamLocation.groupName appTeam) in
  let contextScore :=
    if truthy (AppTeamLocation.divisionName appTeam) then
      fmax (similarityScore (CsvTeamGroup.csvGroup csvTeamGroup)
                            (nullish (AppTeamLocation.divisionName appTeam) []))
           grpScore
    else grpScore in
  let managerConfirmed :=
    existsb (fun mgr => namesMatch (CsvRow.name mgr) (AppTeamLocation.managerName appTeam))
            (CsvTeamGroup.managers csvTeamGroup) in
  let managerBonus := if managerConfirmed then 0.15%float else 0%float in
  {| MatchResult.score := (teamScore * 0.55 + contextScore * 0.30 + managerBonus)%float;
     MatchResult.managerConfirmed := managerConfirmed |}.

Definition MATCH_THRESHOLD : float := 0.45%float.

Module MatchedTeam.
(** [matchReason], a text, is left out. *)
Record t := mk {
  csvGroup : str;
  csvTeam : str;
  appDivision : option str;
  appGroup : str;
  appTeam : str;
  managerConfirmed : bool
}.
End MatchedTeam.

Module PersonChange.
Record t := mk {
  name : str;
  role : str;
  location : str;
  vendor : str;
  type : EmployeeType
}.
End PersonChange.

Module TeamChange.
Record t := mk {
  match_ : MatchedTeam.t;
  added : list PersonChange.t;
  removed : list PersonChange.t
}.
End TeamChange.

(** The reason of a skipped row, by the template it is rendered from. *)
Inductive SkipReason :=
  | NoMatchingTeam (csvTeam csvGroup : str)
  | UnknownRole (role : str)
  | ManagerRow
  | StaffRow
  | LeadershipRow (role : str).

Module SkippedRow.
Record t := mk { row : CsvRow.t; reason : SkipReason }.
End SkippedRow.

Module UnmatchedTeam.
(** [reason] is rendered from the best candidate and its score, or says
    that there is none: [best] is that candidate. *)
Record t := mk {
  csvGroup : str;
  csvTeam : str;
  rowCount : nat;
  best : option (AppTeamLocation.t * MatchResult.t)
}.
End UnmatchedTeam.

Module Summary.
Record t := mk {
  teamsMatched : nat;
  teamsUnmatched : nat;
  membersAdded : nat;
  membersRemoved : nat;
  rowsSkipped : nat
}.
End Summary.

Module ImportReport.
Record t := mk {
  teamChanges : list TeamChange.t;
  skippedRows : list SkippedRow.t;
  unmatchedTeams : list UnmatchedTeam.t;
  summary : Summary.t
}.
End ImportReport.

Module TeamMemberReplacement.
Record t := mk {
  portfolioId : str;
  divisionId : option str;
  groupId : str;
  teamId : str;
  newMembers : list (Person.t Role)
}.
End TeamMemberReplacement.

(** *** The main import function *)

(** The inner loop of [analyseImport] over the app teams: the best match
    so far and its result, both [null] at the start. *)
Definition betterMatch (claimedTeams : list str) (csvGroup : CsvTeamGroup.t)
    (best : option (AppTeamLocation.t * MatchResult.t)) (appTeam : AppTeamLocation.t)
  : option (AppTeamLocation.t * MatchResult.t) :=
  if has claimedTeams (AppTeamLocation.teamId appTeam) then best
  else
    let result := scoreMatch csvGroup appTeam in
    match best with
    | None => Some (appTeam, result)
    | Some (_, bestResult) =>
        if PrimFloat.ltb (MatchResult.score bestResult) (MatchResult.score result)
        then Some (appTeam, result)
        else best
    end.

Definition findBest (claimedTeams : list str) (csvGroup : CsvTeamGroup.t)
    (appTeams : list AppTeamLocation.t)
  : option (AppTeamLocation.t * MatchResult.t) :=
  fold_left (betterMatch claimedTeams csvGroup) appTeams None.

(** [claimedTeams.add(id)]. *)
Definition setAdd (s : list str) (x : str) : list str :=
  if has s x then s else s ++ [x].

Fixpoint findTeam (teamId : str) (teams : list (Team.t Role)) : option (Team.t Role) :=
  match teams with
  | [] => None
  | team :: rest => if eqs (Team.id team) teamId then Some team else findTeam teamId rest
  end.

(** The teams in the order [findTeamInPortfolio] visits them. *)
Definition allTeams (portfolio : Portfolio.t Role) : list (Team.t Role) :=
  flat_map (fun division => flat_map (fun group => Group.teams group) (Division.groups division))
           (nullish (Portfolio.divisions portfolio) [])
  ++ flat_map (fun group => Group.teams group) (Portfolio.groups portfolio).

Definition findTeamInPortfolio (portfolio : Portfolio.t Role) (teamId : str)
  : option (Team.t Role) :=
  findTeam teamId (allTeams portfolio).

(** What the loop of [analyseImport] over the rows of a matched group
    accumulates; [drawn] counts the identifiers drawn so far. *)
Module RowAcc.
Record t := mk {
  skippedRows : list SkippedRow.t;
  newPersons : list (Person.t Role);
  addedChanges : list PersonChange.t;
  drawn : nat
}.
End RowAcc.

Definition skipRow (acc : RowAcc.t) (row : CsvRow.t) (reason : SkipReason) : RowAcc.t :=
  {| RowAcc.skippedRows := RowAcc.skippedRows acc ++ [SkippedRow.mk row reason];
     RowAcc.newPersons := RowAcc.newPersons acc;
     RowAcc.addedChanges := RowAcc.addedChanges acc;
     RowAcc.drawn := RowAcc.drawn acc |}.

(** The person a row of role [role] is imported as, with identifier [id]. *)
Definition importedPerson (id : str) (role : Role) (row : CsvRow.t) : Person.t Role :=
  let '(type, vendor) := mapTypeAndVendor (CsvRow.vendor row) in
  let location :=
    match type with
    | employee => onshore
    | contractor => mapLocation (CsvRow.location row)
    end in
  let cleanName := normaliseName (CsvRow.name row) in
  {| Person.id := id;
     Person.name := Some cleanName;
     Person.role := role;
     Person.type := type;
     Person.location := Some location;
     Person.vendor := if truthy vendor then vendor else None |}.

Definition importRow (ids : IdSource) (acc : RowAcc.t) (row : CsvRow.t) : RowAcc.t :=
  match mapRole (CsvRow.role row) with
  | None => skipRow acc row (UnknownRole (CsvRow.role row))
  | Some engineering_manager => skipRow acc row ManagerRow
  | Some staff_engineer => skipRow acc row StaffRow
  | Some principal_engineer | Some head_of_engineering =>
      skipRow acc row (LeadershipRow (CsvRow.role row))
  | Some role =>
      let person := importedPerson (ids (RowAcc.drawn acc)) role row in
      {| RowAcc.skippedRows := RowAcc.skippedRows acc;
         RowAcc.newPersons := RowAcc.newPersons acc ++ [person];
         RowAcc.addedChanges :=
           RowAcc.addedChanges acc ++
           [{| PersonChange.name := normaliseName (CsvRow.name row);
               PersonChange.role := CsvRow.role row;
               PersonChange.location := CsvRow.location row;
               PersonChange.vendor := CsvRow.vendor row;
               PersonChange.type := Person.type person |}];
         RowAcc.drawn := S (RowAcc.drawn acc) |}
  end.

Definition isEngineerRole (r : Role) : bool :=
  match r with engineer | senior_engineer => true | _ => false end.

Definition removedChange (member : Person.t Role) : PersonChange.t :=
  {| PersonChange.name := orElse (Person.name member) "Unnamed";
     PersonChange.role :=
       match Person.role member with
       | engineer => "Engineer"
       | _ => "Senior Engineer"
       end;
     PersonChange.location :=
       match Person.location member with
       | Some l => Location_str l
       | None => "onshore"
       end;
     PersonChange.vendor := orElse (Person.vendor member) [];
     PersonChange.type := Person.type member |}.

(** The state of the loop of [analyseImport] over the CSV team-groups. *)
Module ImportState.
Record t := mk {
  teamChanges : list TeamChange.t;
  skippedRows : list SkippedRow.t;
  unmatchedTeams : list UnmatchedTeam.t;
  replacements : list TeamMemberReplacement.t;
  claimedTeams : list str;
  drawn : nat
}.
End ImportState.

(** The test of [analyseImport] that sends a team-group to the unmatched
    teams: no best match, or a best score below the threshold. *)
Definition isUnmatched (best : option (AppTeamLocation.t * MatchResult.t)) : bool :=
  match best with
  | None => true
  | Some (_, bestResult) => PrimFloat.ltb (MatchResult.score bestResult) MATCH_THRESHOLD
  end.

(** One iteration of the loop of [analyseImport] over the team-groups. *)
Definition importGroup (ids : IdSource) (portfolio : Portfolio.t Role)
    (appTeams : list AppTeamLocation.t) (st : ImportState.t) (csvGroup : CsvTeamGroup.t)
  : ImportState.t :=
  let best := findBest (ImportState.claimedTeams st) csvGroup appTeams in
  match best with
  | Some (bestMatch, bestResult) =>
      if isUnmatched best then
        {| ImportState.teamChanges := ImportState.teamChanges st;
           ImportState.skippedRows :=
             ImportState.skippedRows st ++
             map (fun row => SkippedRow.mk row
                    (NoMatchingTeam (CsvTeamGroup.csvTeam csvGroup)
                                    (CsvTeamGroup.csvGroup csvGroup)))
                 (CsvTeamGroup.rows csvGroup);
           ImportState.unmatchedTeams :=
             ImportState.unmatchedTeams st ++
             [{| UnmatchedTeam.csvGroup := CsvTeamGroup.csvGroup csvGroup;
                 UnmatchedTeam.csvTeam := CsvTeamGroup.csvTeam csvGroup;
                 UnmatchedTeam.rowCount := length (CsvTeamGroup.rows csvGroup);
                 UnmatchedTeam.best := best |}];
           ImportState.replacements := ImportState.replacements st;
           ImportState.claimedTeams := ImportState.claimedTeams st;
           ImportState.drawn := ImportState.drawn st |}
      else
        let match_ :=
          {| MatchedTeam.csvGroup := CsvTeamGroup.csvGroup csvGroup;
             MatchedTeam.csvTeam := CsvTeamGroup.csvTeam csvGroup;
             MatchedTeam.appDivision := AppTeamLocation.divisionName bestMatch;
             MatchedTeam.appGroup := AppTeamLocation.groupName bestMatch;
             MatchedTeam.appTeam := AppTeamLocation.teamName bestMatch;
             MatchedTeam.managerConfirmed := MatchResult.managerConfirmed bestResult |} in
        let acc :=
          fold_left (importRow ids) (CsvTeamGroup.rows csvGroup)
                    {| RowAcc.skippedRows := ImportState.skippedRows st;
                       RowAcc.newPersons := [];
                       RowAcc.addedChanges := [];
                       RowAcc.drawn := ImportState.drawn st |} in
        let members :=
          match findTeamInPortfolio portfolio (AppTeamLocation.teamId bestMatch) with
          | Some existingTeam => Team.members existingTeam
          | None => []
          end in
        let removedChanges :=
          map removedChange (filter (fun m => isEngineerRole (Person.role m)) members) in
        let keptMembers :=
          filter (fun m => negb (isEngineerRole (Person.role m))) members in
        {| ImportState.teamChanges :=
             ImportState.teamChanges st ++
             [{| TeamChange.match_ := match_;
                 TeamChange.added := RowAcc.addedChanges acc;
                 TeamChange.removed := removedChanges |}];
           ImportState.skippedRows := RowAcc.skippedRows acc;
           ImportState.unmatchedTeams := ImportState.unmatchedTeams st;
           ImportState.replacements :=
             ImportState.replacements st ++
             [{| TeamMemberReplacement.portfolioId := Portfolio.id portfolio;
                 TeamMemberReplacement.divisionId := AppTeamLocation.divisionId bestMatch;
                 TeamMemberReplacement.groupId := AppTeamLocation.groupId bestMatch;
                 TeamMemberReplacement.teamId := AppTeamLocation.teamId bestMatch;
                 TeamMemberReplacement.newMembers := keptMembers ++ RowAcc.newPersons acc |}];
           ImportState.claimedTeams :=
             setAdd (ImportState.claimedTeams st) (AppTeamLocation.teamId bestMatch);
           ImportState.drawn := RowAcc.drawn acc |}
  | None =>
      {| ImportState.teamChanges := ImportState.teamChanges st;
         ImportState.skippedRows :=
           ImportState.skippedRows st ++
           map (fun row => SkippedRow.mk row
                  (NoMatchingTeam (CsvTeamGroup.csvTeam csvGroup)
                                  (CsvTeamGroup.csvGroup csvGroup)))
               (CsvTeamGroup.rows csvGroup);
         ImportState.unmatchedTeams :=
           ImportState.unmatchedTeams st ++
           [{| UnmatchedTeam.csvGroup := CsvTeamGroup.csvGroup csvGroup;
               UnmatchedTeam.csvTeam := CsvTeamGroup.csvTeam csvGroup;
               UnmatchedTeam.rowCount := length (CsvTeamGroup.rows csvGroup);
               UnmatchedTeam.best := None |}];
         ImportState.replacements := ImportState.replacements st;
         ImportState.claimedTeams := ImportState.claimedTeams st;
         ImportState.drawn := ImportState.drawn st |}
  end.

Definition importStart : ImportState.t :=
  {| ImportState.teamChanges := [];
     ImportState.skippedRows := [];
     ImportState.unmatchedTeams := [];
     ImportState.replacements := [];
     ImportState.claimedTeams := [];
     ImportState.drawn := 0 |}.

(** The state after the loop over the team-groups. *)
Definition importLoop (ids : IdSource) (csvText : str) (portfolio : Portfolio.t Role)
  : ImportState.t :=
  let rows := parseCsv csvText in
  let csvGroups := groupCsvRows rows in
  let appTeams := enumerateTeams portfolio in
  fold_left (importGroup ids portfolio appTeams) csvGroups importStart.

Definition sumLengths {A B} (f : A -> list B) (l : list A) : nat :=
  fold_left (fun sum x => sum + length (f x)) l 0.

Definition analyseImport (ids : IdSource) (csvText : str) (portfolio : Portfolio.t Role)
  : ImportReport.t * list TeamMemberReplacement.t :=
  let st := importLoop ids csvText portfolio in
  ({| ImportReport.teamChanges := ImportState.teamChanges st;
      ImportReport.skippedRows := ImportState.skippedRows st;
      ImportReport.unmatchedTeams := ImportState.unmatchedTeams st;
      ImportReport.summary :=
        {| Summary.teamsMatched := length (ImportState.teamChanges st);
           Summary.teamsUnmatched := length (ImportState.unmatchedTeams st);
           Summary.membersAdded := sumLengths TeamChange.added (ImportState.teamChanges st);
           Summary.membersRemoved := sumLengths TeamChange.removed (ImportState.teamChanges st);
           Summary.rowsSkipped := length (ImportState.skippedRows st) |} |},
   ImportState.replacements st).

(** ** The text codec ([src/components/MarkdownView.tsx]) *)

(** *** Markdown generation *)

Definition personProps (p : Person.t Role) : str :=
  match Person.type p with
  | employee => []
  | contractor =>
      let parts :=
        ["contractor" : str]
        ++ match Person.location p with
           | Some onshore | None => []
           | Some l => [Location_str l]
           end
        ++ (if truthy (Person.vendor p) then [nullish (Person.vendor p) []] else []) in
      " [" ++ join ", " parts ++ "]"
  end.

Definition namedPersonLine (p : Person.t Role) : str :=
  orElse (Person.name p) "Unnamed" ++ ", " ++ ROLE_LABELS (Person.role p) ++ personProps p.

Definition leaderPersonLine (p : Person.t Role) : str :=
  orElse (Person.name p) "Unnamed" ++ personProps p.

Definition groupingKey (p : Person.t Role) : str :=
  Role_str (Person.role p) ++ "|" ++ EmployeeType_str (Person.type p) ++ "|"
  ++ Location_str (nullish (Person.location p) onshore) ++ "|"
  ++ nullish (Person.vendor p) [].

(** The [Map] of [formatTeamMembers], in insertion order: the entry of a
    key holds the first person seen with it and a count. *)
Definition Unnamed := list (str * (Person.t Role * nat)).

(** [unnamed.get(key)] then [count++] or [unnamed.set(key, ...)]. *)
Fixpoint countUnnamed (key : str) (m : Person.t Role) (unnamed : Unnamed) : Unnamed :=
  match unnamed with
  | [] => [(key, (m, 1))]
  | (k, (person, count)) :: rest =>
      if eqs k key then (k, (person, S count)) :: rest
      else (k, (person, count)) :: countUnnamed key m rest
  end.

(** The first loop of [formatTeamMembers]: the named members and the map
    of the unnamed ones. *)
Definition sortMembers (members : list (Person.t Role))
  : list (Person.t Role) * Unnamed :=
  fold_left (fun '(named, unnamed) m =>
               if truthy (Person.name m) then (named ++ [m], unnamed)
               else (named, countUnnamed (groupingKey m) m unnamed))
            members ([], []).

Definition unnamedLine (e : str * (Person.t Role * nat)) : str :=
  let '(_, (person, count)) := e in
  let prefix := if 1 <? count then ofNat count ++ "x " else [] in
  "- " ++ prefix ++ ROLE_LABELS (Person.role person) ++ personProps person.

Definition namedLine (p : Person.t Role) : str := "- " ++ namedPersonLine p.

Definition formatTeamMembers (members : list (Person.t Role)) : list str :=
  let '(named, unnamed) := sortMembers members in
  map unnamedLine unnamed ++ map namedLine named.

(** ['#'.repeat(depth)]. *)
Definition hashes (depth : nat) : str := repeat "#"%char depth.

Definition generateGroupMarkdown (group : Group.t Role) (depth : nat) : str :=
  let lines :=
    [hashes depth ++ " " ++ Group.name group]
    ++ match Group.manager group with
       | Some manager => ["Manager: " ++ leaderPersonLine manager]
       | None =>
           if truthy (Group.managedBy group)
           then ["Managed by: " ++ nullish (Group.managedBy group) []]
           else []
       end
    ++ map (fun se => "Staff: " ++ leaderPersonLine se) (Group.staffEngineers group)
    ++ flat_map (fun team =>
                   [[]; hashes (depth + 1) ++ " " ++ Team.name team]
                   ++ formatTeamMembers (Team.members team))
                (Group.teams group) in
  join [LF] lines.

(** The loop of [generateDivisionMarkdown]: an empty line before every
    group but the first. *)
Fixpoint divisionGroupLines (first : bool) (groups : list (Group.t Role)) : list str :=
  match groups with
  | [] => []
  | g :: rest =>
      (if first then [] else [[]]) ++ [generateGroupMarkdown g 3]
      ++ divisionGroupLines false rest
  end.

Definition generateDivisionMarkdown (division : Division.t Role) : str :=
  let lines :=
    ["## Division: " ++ Division.name division; []]
    ++ divisionGroupLines true (Division.groups division) in
  join [LF] lines.

Definition generateMarkdown (portfolio : Portfolio.t Role) : str :=
  let target := nullish (Portfolio.onshoreTargetPercentage portfolio) 50%float in
  let lines :=
    ["# " ++ Portfolio.name portfolio ++ " (" ++ numberToString target
     ++ "% onshore target)"; []]
    ++ match Portfolio.headOfEngineering portfolio with
       | Some hoe => ["Head of Engineering: " ++ leaderPersonLine hoe]
       | None => []
       end
    ++ map (fun pe => "Principal Engineer: " ++ leaderPersonLine pe)
           (Portfolio.principalEngineers portfolio)
    ++ flat_map (fun division => [[]; generateDivisionMarkdown division])
                (nullish (Portfolio.divisions portfolio) [])
    ++ flat_map (fun group => [[]; generateGroupMarkdown group 2])
                (Portfolio.groups portfolio) in
  join [LF] lines ++ [LF].

(** *** Markdown parsing *)

(** What a property read [ROLE_FROM_LABEL[key]] can return.  The table is
    a plain object: besides its own six keys, the all-lower-case names
    [constructor] and [__proto__] resolve to properties inherited from
    [Object.prototype], which are truthy and are no [Role]. *)
Inductive RoleValue :=
  | OwnRole (r : Role)
  | ObjectConstructor
  | ObjectPrototype.

Definition ROLE_FROM_LABEL (key : str) : option RoleValue :=
  if eqs key "engineer" then Some (OwnRole engineer)
  else if eqs key "senior engineer" then Some (OwnRole senior_engineer)
  else if eqs key "staff engineer" then Some (OwnRole staff_engineer)
  else if eqs key "engineering manager" then Some (OwnRole engineering_manager)
  else if eqs key "head of engineering" then Some (OwnRole head_of_engineering)
  else if eqs key "principal engineer" then Some (OwnRole principal_engineer)
  else if eqs key "constructor" then Some ObjectConstructor
  else if eqs key "__proto__" then Some ObjectPrototype
  else None.

(** The message of a parse error, by the template it is rendered from. *)
Inductive ParseMessage :=
  | EmptyPersonLine
  | UnknownRoleName (roleName : str)
  | MissingPersonDetails (prefix : str)
  | ExpectedOnePerson (prefix : str)
  | TeamOutsideGroup
  | HeadingOutsideContext
  | ManagerOutsideGroup
  | ManagedByOutsideGroup
  | StaffOutsideGroup
  | ListItemOutsideTeam
  | UnrecognizedLine (trimmed : str)
  | MissingPortfolioHeading.

Module ParseError.
Record t := mk { line : nat; message : ParseMessage }.
End ParseError.

Module Props.
Record t := mk {
  type : EmployeeType;
  location : Location;
  vendor : option str
}.
End Props.

(** [Omit<Person, 'id'>] as the parser builds it. *)
Module PersonData.
Record t := mk {
  name : option str;
  role : RoleValue;
  type : EmployeeType;
  location : Location;
  vendor : option str
}.
End PersonData.

(** [{ id: generateId(), ...p }]. *)
Definition withId (id : str) (p : PersonData.t) : Person.t RoleValue :=
  {| Person.id := id;
     Person.name := PersonData.name p;
     Person.role := PersonData.role p;
     Person.type := PersonData.type p;
     Person.vendor := PersonData.vendor p;
     Person.location := Some (PersonData.location p) |}.

(** The loop of [parseProps] over the parts. *)
Definition propsStep (acc : Props.t) (part : str) : Props.t :=
  let lower := toLowerCase part in
  if eqs lower "contractor" then
    Props.mk contractor (Props.location acc) (Props.vendor acc)
  else if eqs lower "employee" then
    Props.mk employee (Props.location acc) (Props.vendor acc)
  else if eqs lower "onshore" then Props.mk (Props.type acc) onshore (Props.vendor acc)
  else if eqs lower "nearshore" then Props.mk (Props.type acc) nearshore (Props.vendor acc)
  else if eqs lower "offshore" then Props.mk (Props.type acc) offshore (Props.vendor acc)
  else Props.mk (Props.type acc) (Props.location acc) (Some part).

Definition defaultProps : Props.t := Props.mk employee onshore None.

Definition parseProps (bracketStr : str) : Props.t :=
  let inner := trim (slice1m1 bracketStr) in
  let parts := filter nonEmpty (map trim (split COMMA inner)) in
  let p := fold_left propsStep parts defaultProps in
  match Props.type p with
  | employee => Props.mk employee onshore None
  | contractor => p
  end.

(** The pattern of the bracket suffix, an opening bracket, characters
    other than a closing bracket, a closing bracket and white space up to
    the end, at the start of [s]: the match runs to the end of [s], so that
    group 0 is [s]. *)
Definition bracketAt (s : str) : option str :=
  match s with
  | c :: r =>
      if Ascii.eqb c "["%char then
        match dropWhile (fun x => negb (Ascii.eqb x "]"%char)) r with
        | _ :: ws => if forallb isSpace ws then Some s else None
        | [] => None
        end
      else None
  | [] => None
  end.

(** The bracket suffix of a trimmed line: the props and the main part. *)
Definition splitProps (trimmed : str) : Props.t * str :=
  match search bracketAt trimmed with
  | Some (index, whole) => (parseProps whole, trim (firstn index trimmed))
  | None => (defaultProps, trimmed)
  end.

(** [/^(\d+)x\s+(.+)$/i]: groups 1 and 2. *)
Definition quantityMatch (s : str) : option (str * str) :=
  let ds := takeWhile isDigit s in
  match ds with
  | [] => None
  | _ =>
      match ciLit "x" (dropWhile isDigit s) with
      | Some r =>
          match wsPlusRest r with
          | Some g => Some (ds, g)
          | None => None
          end
      | None => None
      end
  end.

Inductive PersonLine :=
  | Persons (persons : list PersonData.t)
  | PersonError (error : ParseMessage).

Definition parsePersonLine (text : str) : PersonLine :=
  let trimmed := trim text in
  if negb (nonEmpty trimmed) then PersonError EmptyPersonLine
  else
    let '(props, mainPart) := splitProps trimmed in
    let person name role :=
      PersonData.mk name role (Props.type props) (Props.location props) (Props.vendor props) in
    match quantityMatch mainPart with
    | Some (ds, g) =>
        let count := parseInt ds in
        let roleName := trim g in
        match ROLE_FROM_LABEL (toLowerCase roleName) with
        | None => PersonError (UnknownRoleName roleName)
        | Some role => Persons (repeat (person None role) count)
        end
    | None =>
        match lastIndexOf COMMA mainPart with
        | Some commaIdx =>
            let name := trim (firstn commaIdx mainPart) in
            let roleName := trim (skipn (commaIdx + 1) mainPart) in
            match ROLE_FROM_LABEL (toLowerCase roleName) with
            | None => PersonError (UnknownRoleName roleName)
            | Some role => Persons [person (Some name) role]
            end
        | None =>
            match ROLE_FROM_LABEL (toLowerCase mainPart) with
            | None => PersonError (UnknownRoleName mainPart)
            | Some role => Persons [person None role]
            end
        end
    end.

(** [/,\s*$/] at the start of [s]. *)
Definition trailingCommaAt (s : str) : option unit :=
  match s with
  | c :: ws => if Ascii.eqb c COMMA && forallb isSpace ws then Some tt else None
  | [] => None
  end.

(** [replace(/,\s*$/, '')]. *)
Definition dropTrailingComma (s : str) : str :=
  match search trailingCommaAt s with
  | Some (index, _) => firstn index s
  | None => s
  end.

Inductive LeadershipLine :=
  | Leader (person : PersonData.t)
  | LeaderError (error : ParseMessage).

Definition parseLeadershipLine (text prefix : str) (expectedRole : Role) : LeadershipLine :=
  let after := trim (skipn (length prefix) text) in
  if negb (nonEmpty after) then LeaderError (MissingPersonDetails prefix)
  else
    match parsePersonLine after with
    | PersonError _ =>
        let '(props, mainPart) := splitProps after in
        let mainPart := trim (dropTrailingComma mainPart) in
        Leader {| PersonData.name := if nonEmpty mainPart then Some mainPart else None;
                  PersonData.role := OwnRole expectedRole;
                  PersonData.type := Props.type props;
                  PersonData.location := Props.location props;
                  PersonData.vendor := Props.vendor props |}
    | Persons [person] => Leader person
    | Persons _ => LeaderError (ExpectedOnePerson prefix)
    end.

(** The variables of [parseMarkdown]; [drawn] counts the calls of
    [generateId] so far. *)
Module Parser.
Record t := mk {
  errors : list ParseError.t;
  portfolioName : option str;
  onshoreTarget : float;
  headOfEngineering : option (Person.t RoleValue);
  principalEngineers : list (Person.t RoleValue);
  divisions : list (Division.t RoleValue);
  directGroups : list (Group.t RoleValue);
  currentDivision : option (Division.t RoleValue);
  currentGroup : option (Group.t RoleValue);
  currentTeam : option (Team.t RoleValue);
  groupInDivision : bool;
  drawn : nat
}.
End Parser.

Section ParserUpdates.
Import Parser.

Definition pushError (st : Parser.t) (lineNum : nat) (m : ParseMessage) : Parser.t :=
  mk (errors st ++ [ParseError.mk lineNum m]) (portfolioName st) (onshoreTarget st)
     (headOfEngineering st) (principalEngineers st) (divisions st) (directGroups st)
     (currentDivision st) (currentGroup st) (currentTeam st) (groupInDivision st)
     (drawn st).

Definition setHeading (st : Parser.t) (name : str) (target : float) : Parser.t :=
  mk (errors st) (Some name) target
     (headOfEngineering st) (principalEngineers st) (divisions st) (directGroups st)
     (currentDivision st) (currentGroup st) (currentTeam st) (groupInDivision st)
     (drawn st).

Definition setHead (st : Parser.t) (p : Person.t RoleValue) : Parser.t :=
  mk (errors st) (portfolioName st) (onshoreTarget st)
     (Some p) (principalEngineers st) (divisions st) (directGroups st)
     (currentDivision st) (currentGroup st) (currentTeam st) (groupInDivision st)
     (S (drawn st)).

Definition pushPrincipal (st : Parser.t) (p : Person.t RoleValue) : Parser.t :=
  mk (errors st) (portfolioName st) (onshoreTarget st)
     (headOfEngineering st) (principalEngineers st ++ [p]) (divisions st)
     (directGroups st)
     (currentDivision st) (currentGroup st) (currentTeam st) (groupInDivision st)
     (S (drawn st)).

(** Assignments to [currentDivision], [currentGroup], [currentTeam] and
    [groupInDivision], with [n] more identifiers drawn. *)
Definition setContext (st : Parser.t) (d : option (Division.t RoleValue))
    (g : option (Group.t RoleValue)) (t : option (Team.t RoleValue))
    (inDivision : bool) (n : nat) : Parser.t :=
  mk (errors st) (portfolioName st) (onshoreTarget st)
     (headOfEngineering st) (principalEngineers st) (divisions st) (directGroups st)
     d g t inDivision (n + drawn st).

Definition pushDivision (st : Parser.t) (d : Division.t RoleValue) : Parser.t :=
  mk (errors st) (portfolioName st) (onshoreTarget st)
     (headOfEngineering st) (principalEngineers st) (divisions st ++ [d])
     (directGroups st)
     None (currentGroup st) (currentTeam st) (groupInDivision st) (drawn st).

Definition pushDirectGroup (st : Parser.t) (g : Group.t RoleValue) : Parser.t :=
  mk (errors st) (portfolioName st) (onshoreTarget st)
     (headOfEngineering st) (principalEngineers st) (divisions st)
     (directGroups st ++ [g])
     (currentDivision st) None (currentTeam st) (groupInDivision st) (drawn st).
End ParserUpdates.

Definition addTeam (g : Group.t RoleValue) (t : Team.t RoleValue) : Group.t RoleValue :=
  Group.mk (Group.id g) (Group.name g) (Group.manager g) (Group.managedBy g)
           (Group.staffEngineers g) (Group.teams g ++ [t]).

Definition addGroup (d : Division.t RoleValue) (g : Group.t RoleValue)
  : Division.t RoleValue :=
  Division.mk (Division.id d) (Division.name d) (Division.groups d ++ [g]).

Definition addMembers (t : Team.t RoleValue) (ps : list (Person.t RoleValue))
  : Team.t RoleValue :=
  Team.mk (Team.id t) (Team.name t) (Team.members t ++ ps).

Definition setManager (g : Group.t RoleValue) (p : Person.t RoleValue) : Group.t RoleValue :=
  Group.mk (Group.id g) (Group.name g) (Some p) (Group.managedBy g)
           (Group.staffEngineers g) (Group.teams g).

Definition setManagedBy (g : Group.t RoleValue) (label : str) : Group.t RoleValue :=
  Group.mk (Group.id g) (Group.name g) (Group.manager g) (Some label)
           (Group.staffEngineers g) (Group.teams g).

Definition addStaff (g : Group.t RoleValue) (p : Person.t RoleValue) : Group.t RoleValue :=
  Group.mk (Group.id g) (Group.name g) (Group.manager g) (Group.managedBy g)
           (Group.staffEngineers g ++ [p]) (Group.teams g).

Definition finishTeam (st : Parser.t) : Parser.t :=
  match Parser.currentTeam st, Parser.currentGroup st with
  | Some team, Some group =>
      setContext st (Parser.currentDivision st) (Some (addTeam group team)) None
                 (Parser.groupInDivision st) 0
  | _, _ => st
  end.

Definition finishGroup (st : Parser.t) : Parser.t :=
  let st := finishTeam st in
  match Parser.currentGroup st with
  | Some group =>
      match Parser.groupInDivision st, Parser.currentDivision st with
      | true, Some division =>
          setContext st (Some (addGroup division group)) None (Parser.currentTeam st)
                     (Parser.groupInDivision st) 0
      | _, _ => pushDirectGroup st group
      end
  | None => st
  end.

Definition finishDivision (st : Parser.t) : Parser.t :=
  let st := finishGroup st in
  match Parser.currentDivision st with
  | Some division => pushDivision st division
  | None => st
  end.

(** [/\((\d+)%\s*onshore\s*target\)\s*$/i] at the start of [s]: group 1. *)
Definition targetAt (s : str) : option str :=
  match lit "(" s with
  | None => None
  | Some r =>
      match takeWhile isDigit r with
      | [] => None
      | ds =>
          match lit "%" (dropWhile isDigit r) with
          | None => None
          | Some r =>
              match ciLit "onshore" (dropWhile isSpace r) with
              | None => None
              | Some r =>
                  match ciLit "target" (dropWhile isSpace r) with
                  | None => None
                  | Some r =>
                      match lit ")" r with
                      | None => None
                      | Some ws => if forallb isSpace ws then Some ds else None
                      end
                  end
              end
          end
      end
  end.

(** A heading of [n] hash signs, [/^#{n}\s+(.+)$/]: group 1. *)
Definition headingMatch (n : nat) (trimmed : str) : option str :=
  match lit (hashes n) trimmed with
  | Some r => wsPlusRest r
  | None => None
  end.

(** A line that opens with a label, [/^label\s*(.+)$/i]: group 1. *)
Definition labelMatch (label trimmed : str) : option str :=
  match ciLit label trimmed with
  | Some r => wsStarRest r
  | None => None
  end.

(** A list item, [/^-\s+(.+)$/]: group 1. *)
Definition listMatch (trimmed : str) : option str :=
  match lit "-" trimmed with
  | Some r => wsPlusRest r
  | None => None
  end.

Definition newGroup (id name : str) : Group.t RoleValue :=
  Group.mk id name None None [] [].

Definition newTeam (id name : str) : Team.t RoleValue := Team.mk id name [].

(** The identifiers [ids n], [ids (n + 1)], ... given to the persons. *)
Fixpoint withIds (ids : IdSource) (n : nat) (ps : list PersonData.t)
  : list (Person.t RoleValue) :=
  match ps with
  | [] => []
  | p :: rest => withId (ids n) p :: withIds ids (S n) rest
  end.

(** The result of a leadership line on the state: an error at the line, or
    the person, with a fresh identifier, stored by [store]. *)
Definition leadership (ids : IdSource) (st : Parser.t) (lineNum : nat)
    (trimmed prefix : str) (expectedRole : Role)
    (store : Parser.t -> Person.t RoleValue -> Parser.t) : Parser.t :=
  match parseLeadershipLine trimmed prefix expectedRole with
  | LeaderError error => pushError st lineNum error
  | Leader person => store st (withId (ids (Parser.drawn st)) person)
  end.

(** [currentGroup.manager = p] and [currentGroup.staffEngineers.push(p)],
    each with one identifier drawn. *)
Definition inGroup (f : Group.t RoleValue -> Person.t RoleValue -> Group.t RoleValue)
    (group : Group.t RoleValue) (st : Parser.t) (p : Person.t RoleValue) : Parser.t :=
  setContext st (Parser.currentDivision st) (Some (f group p)) (Parser.currentTeam st)
             (Parser.groupInDivision st) 1.

(** The body of the loop of [parseMarkdown] from the manager line on. *)
Definition lineInGroup (ids : IdSource) (st : Parser.t) (lineNum : nat) (trimmed : str)
  : Parser.t :=
  match labelMatch "Manager:" trimmed with
  | Some _ =>
      match Parser.currentGroup st with
      | None => pushError st lineNum ManagerOutsideGroup
      | Some group =>
          leadership ids st lineNum trimmed "Manager:" engineering_manager
                     (inGroup setManager group)
      end
  | None =>
  match labelMatch "Managed by:" trimmed with
  | Some g =>
      match Parser.currentGroup st with
      | None => pushError st lineNum ManagedByOutsideGroup
      | Some group =>
          setContext st (Parser.currentDivision st) (Some (setManagedBy group (trim g)))
                     (Parser.currentTeam st) (Parser.groupInDivision st) 0
      end
  | None =>
  match labelMatch "Staff:" trimmed with
  | Some _ =>
      match Parser.currentGroup st with
      | None => pushError st lineNum StaffOutsideGroup
      | Some group =>
          leadership ids st lineNum trimmed "Staff:" staff_engineer (inGroup addStaff group)
      end
  | None =>
  match listMatch trimmed with
  | Some g =>
      match Parser.currentTeam st with
      | None => pushError st lineNum ListItemOutsideTeam
      | Some team =>
          match parsePersonLine g with
          | PersonError error => pushError st lineNum error
          | Persons persons =>
              setContext st (Parser.currentDivision st) (Parser.currentGroup st)
                         (Some (addMembers team (withIds ids (Parser.drawn st) persons)))
                         (Parser.groupInDivision st) (length persons)
          end
      end
  | None =>
      if negb (startsWith ">" trimmed) && negb (startsWith "---" trimmed)
         && negb (startsWith "<!--" trimmed)
      then pushError st lineNum (UnrecognizedLine trimmed)
      else st
  end end end end.

(** The body of the loop from the leadership lines on, which are read
    only before any division or group. *)
Definition lineLeadership (ids : IdSource) (st : Parser.t) (lineNum : nat) (trimmed : str)
  : Parser.t :=
  match Parser.currentDivision st, Parser.currentGroup st with
  | None, None =>
      match labelMatch "Head of Engineering:" trimmed with
      | Some _ =>
          leadership ids st lineNum trimmed "Head of Engineering:" head_of_engineering setHead
      | None =>
          match labelMatch "Principal Engineer:" trimmed with
          | Some _ =>
              leadership ids st lineNum trimmed "Principal Engineer:" principal_engineer
                         pushPrincipal
          | None => lineInGroup ids st lineNum trimmed
          end
      end
  | _, _ => lineInGroup ids st lineNum trimmed
  end.

(** The heading of a portfolio: its name and its target, the target
    read so far when the heading has none. *)
Definition portfolioHeading (st : Parser.t) (g : str) : Parser.t :=
  let headingText := trim g in
  match search targetAt headingText with
  | Some (index, ds) =>
      setHeading st (trim (firstn index headingText)) (numberOfNat (parseInt ds))
  | None => setHeading st headingText (Parser.onshoreTarget st)
  end.

(** A team heading under the current group. *)
Definition openTeam (ids : IdSource) (st : Parser.t) (g : str) : Parser.t :=
  let st := finishTeam st in
  setContext st (Parser.currentDivision st) (Parser.currentGroup st)
             (Some (newTeam (ids (Parser.drawn st)) (trim g)))
             (Parser.groupInDivision st) 1.

(** A group heading, under the current division or directly under the
    portfolio, after the open division or group has been finished. *)
Definition openGroup (ids : IdSource) (st : Parser.t) (name : str) (inDivision : bool)
  : Parser.t :=
  setContext st (Parser.currentDivision st)
             (Some (newGroup (ids (Parser.drawn st)) name))
             (Parser.currentTeam st) inDivision 1.

Definition openDivision (ids : IdSource) (st : Parser.t) (name : str) : Parser.t :=
  setContext st (Some (Division.mk (ids (Parser.drawn st)) name []))
             (Parser.currentGroup st) (Parser.currentTeam st) false 1.

(** The body of the loop of [parseMarkdown] for the line of number
    [lineNum]. *)
Definition parseLine (ids : IdSource) (st : Parser.t) (lineNum : nat) (line : str)
  : Parser.t :=
  let trimmed := trim line in
  if negb (nonEmpty trimmed) then st
  else
    match headingMatch 1 trimmed, startsWith "##" trimmed with
    | Some g, false => portfolioHeading st g
    | _, _ =>
    match headingMatch 4 trimmed with
    | Some g =>
        match Parser.currentGroup st with
        | None => pushError st lineNum TeamOutsideGroup
        | Some _ => openTeam ids st g
        end
    | None =>
    match headingMatch 3 trimmed with
    | Some g =>
        match Parser.currentDivision st, Parser.currentGroup st with
        | Some _, _ => openGroup ids (finishGroup st) (trim g) true
        | None, Some _ => openTeam ids st g
        | None, None => pushError st lineNum HeadingOutsideContext
        end
    | None =>
    match headingMatch 2 trimmed with
    | Some g =>
        let headingText := trim g in
        match labelMatch "Division:" headingText with
        | Some d => openDivision ids (finishDivision st) (trim d)
        | None => openGroup ids (finishDivision st) headingText false
        end
    | None => lineLeadership ids st lineNum trimmed
    end end end end.

Fixpoint parseLines (ids : IdSource) (st : Parser.t) (lineNum : nat) (lines : list str)
  : Parser.t :=
  match lines with
  | [] => st
  | line :: rest => parseLines ids (parseLine ids st lineNum line) (S lineNum) rest
  end.

Definition parserStart : Parser.t :=
  Parser.mk [] None 50%float None [] [] [] None None None false 0.

(** [Partial<Omit<Portfolio, 'id'>>] as [parseMarkdown] returns it. *)
Module Parsed.
Record t := mk {
  name : str;
  onshoreTargetPercentage : float;
  headOfEngineering : option (Person.t RoleValue);
  principalEngineers : list (Person.t RoleValue);
  divisions : option (list (Division.t RoleValue));
  groups : list (Group.t RoleValue)
}.
End Parsed.

Module ParseResult.
Record t := mk {
  portfolio : option Parsed.t;
  errors : list ParseError.t
}.
End ParseResult.

(** The state of [parseMarkdown] after the scan and the two closing
    calls, before the result is built. *)
Definition scanMarkdown (ids : IdSource) (text : str) : Parser.t :=
  finishGroup (finishDivision (parseLines ids parserStart 1 (split LF text))).

Definition parseMarkdown (ids : IdSource) (text : str) : ParseResult.t :=
  let st := scanMarkdown ids text in
  if negb (truthy (Parser.portfolioName st)) then
    ParseResult.mk None (Parser.errors st ++ [ParseError.mk 1 MissingPortfolioHeading])
  else
    match Parser.errors st with
    | _ :: _ => ParseResult.mk None (Parser.errors st)
    | [] =>
        ParseResult.mk
          (Some {| Parsed.name := nullish (Parser.portfolioName st) [];
                   Parsed.onshoreTargetPercentage := Parser.onshoreTarget st;
                   Parsed.headOfEngineering := Parser.headOfEngineering st;
                   Parsed.principalEngineers := Parser.principalEngineers st;
                   Parsed.divisions :=
                     match Parser.divisions st with
                     | [] => None
                     | ds => Some ds
                     end;
                   Parsed.groups := Parser.directGroups st |})
          []
    end.


(** ** Notions used by the properties *)

(** A member that [formatTeamMembers] takes as unnamed. *)
Definition isUnnamed (m : Person.t Role) : bool := negb (truthy (Person.name m)).

(** The second component of [sortMembers], from a map to start with. *)
Definition collectUnnamed (members : list (Person.t Role)) (start : Unnamed) : Unnamed :=
  fold_left (fun unnamed m =>
               if truthy (Person.name m) then unnamed
               else countUnnamed (groupingKey m) m unnamed)
            members start.

(** The count a map holds for a key, 0 when the key is missing. *)
Fixpoint countOf (key : str) (unnamed : Unnamed) : nat :=
  match unnamed with
  | [] => 0
  | (k, (_, count)) :: rest => if eqs k key then count else countOf key rest
  end.

(** The unnamed members of a list that share a grouping key. *)
Definition unnamedWith (key : str) (members : list (Person.t Role)) : list (Person.t Role) :=
  filter (fun m => isUnnamed m && eqs (groupingKey m) key) members.


(** What the map of [formatTeamMembers] holds once [seen] has been read. *)
Definition coalesced (seen : list (Person.t Role)) (unnamed : Unnamed) : Prop :=
  NoDup (map fst unnamed)
  /\ (forall key, countOf key unnamed = length (unnamedWith key seen))
  /\ (forall k p c, In (k, (p, c)) unnamed ->
        k = groupingKey p /\ In p seen /\ isUnnamed p = true).

(** The employee invariant of a person: an employee is onshore and has no
    vendor. *)
Definition employeeOnshore {R} (p : Person.t R) : bool :=
  match Person.type p with
  | employee =>
      match Person.location p, Person.vendor p with
      | Some onshore, None => true
      | _, _ => false
      end
  | contractor => true
  end.


Definition dataEmployeeOnshore (p : PersonData.t) : bool :=
  match PersonData.type p with
  | employee =>
      match PersonData.location p, PersonData.vendor p with
      | onshore, None => true
      | _, _ => false
      end
  | contractor => true
  end.

Definition optList {A} (o : option A) : list A :=
  match o with Some a => [a] | None => [] end.





(** A document with one valid team and, on its line 6, a member of an
    unknown role; and the same document without that line. *)
Definition oneBadLine : str :=
  join [LF] ["# Acme (60% onshore target)" : str; [];
             "## Platform" : str;
             "### Core" : str;
             "- 2x Engineer" : str;
             "- Bob, Wizard [contractor]" : str].

Definition noBadLine : str :=
  join [LF] ["# Acme (60% onshore target)" : str; [];
             "## Platform" : str;
             "### Core" : str;
             "- 2x Engineer" : str].

(** The teams of a parsed portfolio. *)
Definition teamsOfParsed (p : Parsed.t) : list (Team.t RoleValue) :=
  flat_map (fun d => flat_map (fun g => Group.teams g) (Division.groups d))
           (nullish (Parsed.divisions p) [])
  ++ flat_map (fun g => Group.teams g) (Parsed.groups p).

(** An app team that no CSV team-group has claimed. *)
Definition unclaimed (claimedTeams : list str) (appTeam : AppTeamLocation.t) : bool :=
  negb (has claimedTeams (AppTeamLocation.teamId appTeam)).

(** The score of an app team for a team-group. *)
Definition scoreOf (csvGroup : CsvTeamGroup.t) (appTeam : AppTeamLocation.t) : float :=
  MatchResult.score (scoreMatch csvGroup appTeam).

(** The best candidate of a team-group among the app teams: an unclaimed
    app team whose score no unclaimed app team exceeds, and the first such
    in the order of the app teams, the score of an unclaimed app team
    before it being not as high. *)
Definition bestCandidate (claimedTeams : list str) (csvGroup : CsvTeamGroup.t)
    (appTeams : list AppTeamLocation.t) (appTeam : AppTeamLocation.t) : Prop :=
  unclaimed claimedTeams appTeam = true
  /\ (forall u, In u appTeams -> unclaimed claimedTeams u = true ->
        PrimFloat.ltb (scoreOf csvGroup appTeam) (scoreOf csvGroup u) = false)
  /\ exists before after,
       appTeams = before ++ appTeam :: after
       /\ forall u, In u before -> unclaimed claimedTeams u = true ->
            PrimFloat.leb (scoreOf csvGroup appTeam) (scoreOf csvGroup u) = false.

(** An app team other than the team of identifier [teamId]. *)
Definition otherTeam (teamId : str) (appTeam : AppTeamLocation.t) : bool :=
  negb (eqs teamId (AppTeamLocation.teamId appTeam)).

(** The effect of an unmatched team-group on the state: one unmatched
    team, and every row of the group skipped. *)
Definition recordedUnmatched (st st' : ImportState.t) (csvGroup : CsvTeamGroup.t)
    (best : option (AppTeamLocation.t * MatchResult.t)) : Prop :=
  ImportState.unmatchedTeams st'
  = ImportState.unmatchedTeams st
    ++ [{| UnmatchedTeam.csvGroup := CsvTeamGroup.csvGroup csvGroup;
           UnmatchedTeam.csvTeam := CsvTeamGroup.csvTeam csvGroup;
           UnmatchedTeam.rowCount := length (CsvTeamGroup.rows csvGroup);
           UnmatchedTeam.best := best |}]
  /\ ImportState.skippedRows st'
     = ImportState.skippedRows st
       ++ map (fun row => SkippedRow.mk row
                 (NoMatchingTeam (CsvTeamGroup.csvTeam csvGroup)
                                 (CsvTeamGroup.csvGroup csvGroup)))
              (CsvTeamGroup.rows csvGroup)
  /\ ImportState.replacements st' = ImportState.replacements st
  /\ ImportState.teamChanges st' = ImportState.teamChanges st
  /\ ImportState.claimedTeams st' = ImportState.claimedTeams st.

(** The effect of a matched team-group: one replacement and one team
    change for the app team, which is claimed, and no unmatched team. *)
Definition recordedMatched (st st' : ImportState.t) (appTeam : AppTeamLocation.t) : Prop :=
  ImportState.unmatchedTeams st' = ImportState.unmatchedTeams st
  /\ (exists r, ImportState.replacements st' = ImportState.replacements st ++ [r]
                /\ TeamMemberReplacement.teamId r = AppTeamLocation.teamId appTeam)
  /\ (exists c, ImportState.teamChanges st' = ImportState.teamChanges st ++ [c])
  /\ ImportState.claimedTeams st'
     = setAdd (ImportState.claimedTeams st) (AppTeamLocation.teamId appTeam).

(** A person of a replacement without the identifier drawn for it: the
    imported persons are the members of role engineer or senior engineer,
    the members kept from the portfolio have another role. *)
Definition forgetImportedId (p : Person.t Role) : Person.t Role :=
  if isEngineerRole (Person.role p)
  then Person.mk [] (Person.name p) (Person.role p) (Person.type p)
                 (Person.vendor p) (Person.location p)
  else p.

Definition forgetImportedIds (r : TeamMemberReplacement.t) : TeamMemberReplacement.t :=
  TeamMemberReplacement.mk
    (TeamMemberReplacement.portfolioId r) (TeamMemberReplacement.divisionId r)
    (TeamMemberReplacement.groupId r) (TeamMemberReplacement.teamId r)
    (map forgetImportedId (TeamMemberReplacement.newMembers r)).

(** A portfolio of one group and two teams, and a CSV text of two
    team-groups that both score highest against the team "Core". *)
Definition twoTeams : Portfolio.t Role :=
  Portfolio.mk "p1" "Acme" None [] None
    [Group.mk "g1" "Platform" None None []
       [Team.mk "t1" "Core" [Person.mk "m1" None staff_engineer employee None (Some onshore);
                             Person.mk "m2" None engineer employee None (Some onshore)];
        Team.mk "t2" "Core Services" []]]
    None.

Definition twoClaims : str :=
  join [LF] ["Acme,Platform,Core,Engineer,Offshore,TCS,Al Smith" : str;
             "Acme,Platform,Core Team,Engineer,Onshore,M&S,Bo Jones" : str].

(** The two team-groups of [twoClaims], the app team "Core" of
    [twoTeams], and two identifier sources. *)
Definition firstClaim : CsvTeamGroup.t :=
  let row := CsvRow.mk "Acme" "Platform" "Core" "Engineer" "Offshore" "TCS" "Al Smith" 1 in
  CsvTeamGroup.mk "Platform" "Core" [row] [] [row].

Definition secondClaim : CsvTeamGroup.t :=
  let row := CsvRow.mk "Acme" "Platform" "Core Team" "Engineer" "Onshore" "M&S" "Bo Jones" 2 in
  CsvTeamGroup.mk "Platform" "Core Team" [row] [] [row].

Definition coreTeam : AppTeamLocation.t :=
  AppTeamLocation.mk None None "g1" "Platform" "t1" "Core" None.

Definition idsA : IdSource := fun n => "a" ++ ofNat n.
Definition idsB : IdSource := fun n => "b" ++ ofNat n.

(** Two states of the loop of [analyseImport] that agree on everything
    but the identifiers of the imported persons. *)
Definition sameButIds (st1 st2 : ImportState.t) : Prop :=
  ImportState.teamChanges st1 = ImportState.teamChanges st2
  /\ ImportState.skippedRows st1 = ImportState.skippedRows st2
  /\ ImportState.unmatchedTeams st1 = ImportState.unmatchedTeams st2
  /\ ImportState.claimedTeams st1 = ImportState.claimedTeams st2
  /\ ImportState.drawn st1 = ImportState.drawn st2
  /\ map forgetImportedIds (ImportState.replacements st1)
     = map forgetImportedIds (ImportState.replacements st2).

(** ** Well-formed portfolios

    The conditions under which the generated text is read back. *)

(** A text that opens with a character other than white space. *)
Definition startsOk (s : str) : bool :=
  match s with
  | c :: _ => negb (isSpace c)
  | [] => false
  end.

(** A text that ends with a character other than white space. *)
Definition endsOk (s : str) : bool := startsOk (rev s).

Definition notLT (c : ascii) : bool := negb (isLineTerminator c).

(** A text that is not empty, has no white space around it and fits on
    one line. *)
Definition cleanText (s : str) : bool :=
  startsOk s && endsOk s && forallb notLT s.

(** A text without the character [c]. *)
Definition lacks (c : ascii) (s : str) : bool :=
  forallb (fun x => negb (Ascii.eqb x c)) s.

(** A text that opens like a quantity: digits, an x, white space. *)
Definition quantityPrefix (s : str) : bool :=
  match takeWhile isDigit s with
  | [] => false
  | _ =>
      match ciLit "x" (dropWhile isDigit s) with
      | Some (c :: _) => isSpace c
      | _ => false
      end
  end.

(** The words [parseProps] gives a meaning to. *)
Definition propsKeyword (lower : str) : bool :=
  eqs lower "contractor" || eqs lower "employee" || eqs lower "onshore"
  || eqs lower "nearshore" || eqs lower "offshore".

(** The name of a person the text can carry: clean, without comma or
    opening bracket, and not opening like a quantity. *)
Definition plainName (s : str) : bool :=
  cleanText s && lacks COMMA s && lacks "["%char s && negb (quantityPrefix s).

(** The name of a leader: a plain name that the label table does not
    resolve. *)
Definition leaderName (s : str) : bool :=
  plainName s
  && match ROLE_FROM_LABEL (toLowerCase s) with None => true | Some _ => false end.

(** A vendor the bracket suffix can carry. *)
Definition vendorText (v : str) : bool :=
  cleanText v && lacks COMMA v && lacks "]"%char v && negb (propsKeyword (toLowerCase v)).

(** The data-model invariant of a person: an employee is onshore, or of
    no stated location, and has no vendor; the vendor of a contractor, if
    any, is a vendor text. *)
Definition wfProps (p : Person.t Role) : bool :=
  match Person.type p with
  | employee =>
      match Person.vendor p, Person.location p with
      | None, None | None, Some onshore => true
      | _, _ => false
      end
  | contractor =>
      match Person.vendor p with
      | None => true
      | Some v => vendorText v
      end
  end.

Definition wfMember (p : Person.t Role) : bool :=
  wfProps p && match Person.name p with None => true | Some s => plainName s end.

Definition wfLeader (role : Role) (p : Person.t Role) : bool :=
  wfProps p && Role_eqb (Person.role p) role
  && match Person.name p with Some s => leaderName s | None => false end.

Definition wfTeam (t : Team.t Role) : bool :=
  cleanText (Team.name t) && forallb wfMember (Team.members t).

(** A group, directly under the portfolio ([direct]) or in a division. *)
Definition wfGroup (direct : bool) (g : Group.t Role) : bool :=
  cleanText (Group.name g)
  && (if direct then
        match labelMatch "Division:" (Group.name g) with None => true | Some _ => false end
      else true)
  && match Group.manager g, Group.managedBy g with
     | Some m, None => wfLeader engineering_manager m
     | None, None => true
     | None, Some label => cleanText label
     | Some _, Some _ => false
     end
  && forallb (wfLeader staff_engineer) (Group.staffEngineers g)
  && forallb wfTeam (Group.teams g).

Definition wfDivision (d : Division.t Role) : bool :=
  cleanText (Division.name d) && forallb (wfGroup false) (Division.groups d).

(** A whole number from 0 to 100. *)
Definition wholePercent (x : float) : bool :=
  existsb (fun n => PrimFloat.Leibniz.eqb x (numberOfNat n)) (seq 0 101).

(** The onshore target of a portfolio, if it has one, is a whole number
    from 0 to 100. *)
Definition wholeTarget (p : Portfolio.t Role) : bool :=
  match Portfolio.onshoreTargetPercentage p with
  | Some target => wholePercent target
  | None => true
  end.

Definition wfPortfolio (p : Portfolio.t Role) : bool :=
  cleanText (Portfolio.name p)
  && match Portfolio.headOfEngineering p with
     | Some hoe => wfLeader head_of_engineering hoe
     | None => true
     end
  && forallb (wfLeader principal_engineer) (Portfolio.principalEngineers p)
  && forallb wfDivision (nullish (Portfolio.divisions p) [])
  && forallb (wfGroup true) (Portfolio.groups p)
  && wholeTarget p.

(** ** Equivalence up to identifiers *)

(** A person, a team, a group and a division without identifiers. *)
Definition anonPerson (p : Person.t RoleValue) : Person.t RoleValue :=
  Person.mk [] (Person.name p) (Person.role p) (Person.type p) (Person.vendor p)
            (Person.location p).

Definition anonTeam (t : Team.t RoleValue) : Team.t RoleValue :=
  Team.mk [] (Team.name t) (map anonPerson (Team.members t)).

Definition anonGroup (g : Group.t RoleValue) : Group.t RoleValue :=
  Group.mk [] (Group.name g) (option_map anonPerson (Group.manager g)) (Group.managedBy g)
           (map anonPerson (Group.staffEngineers g)) (map anonTeam (Group.teams g)).

Definition anonDivision (d : Division.t RoleValue) : Division.t RoleValue :=
  Division.mk [] (Division.name d) (map anonGroup (Division.groups d)).

Definition anonParsed (p : Parsed.t) : Parsed.t :=
  Parsed.mk (Parsed.name p) (Parsed.onshoreTargetPercentage p)
            (option_map anonPerson (Parsed.headOfEngineering p))
            (map anonPerson (Parsed.principalEngineers p))
            (option_map (map anonDivision) (Parsed.divisions p))
            (map anonGroup (Parsed.groups p)).

(** The props the text carries for a person: the location, onshore when
    none is stated, and the vendor, when it is not empty. *)
Definition propsOf (p : Person.t Role) : Props.t :=
  Props.mk (Person.type p) (nullish (Person.location p) onshore)
           (if truthy (Person.vendor p) then Person.vendor p else None).

(** What the parser reads for a person, without identifier. *)
Definition dataOf (p : Person.t Role) : PersonData.t :=
  PersonData.mk (if truthy (Person.name p) then Person.name p else None)
                (OwnRole (Person.role p)) (Props.type (propsOf p))
                (Props.location (propsOf p)) (Props.vendor (propsOf p)).

Definition expPerson (p : Person.t Role) : Person.t RoleValue := withId [] (dataOf p).

(** The members in the order of the text: the unnamed ones, key by key,
    then the named ones. *)
Definition dataOfMembers (members : list (Person.t Role)) : list PersonData.t :=
  let '(named, unnamed) := sortMembers members in
  flat_map (fun '(_, (person, count)) => repeat (dataOf person) count) unnamed
  ++ map dataOf named.

Definition expTeam (t : Team.t Role) : Team.t RoleValue :=
  Team.mk [] (Team.name t) (map (withId []) (dataOfMembers (Team.members t))).

Definition expGroup (g : Group.t Role) : Group.t RoleValue :=
  Group.mk [] (Group.name g) (option_map expPerson (Group.manager g))
           (match Group.manager g with
            | Some _ => None
            | None => if truthy (Group.managedBy g) then Group.managedBy g else None
            end)
           (map expPerson (Group.staffEngineers g)) (map expTeam (Group.teams g)).

Definition expDivision (d : Division.t Role) : Division.t RoleValue :=
  Division.mk [] (Division.name d) (map expGroup (Division.groups d)).

Definition expPortfolio (p : Portfolio.t Role) : Parsed.t :=
  Parsed.mk (Portfolio.name p) (nullish (Portfolio.onshoreTargetPercentage p) 50%float)
            (option_map expPerson (Portfolio.headOfEngineering p))
            (map expPerson (Portfolio.principalEngineers p))
            (match nullish (Portfolio.divisions p) [] with
             | [] => None
             | ds => Some (map expDivision ds)
             end)
            (map expGroup (Portfolio.groups p)).

(** *** The lines of the generated text *)

Definition teamLines (depth : nat) (team : Team.t Role) : list str :=
  [[]; hashes (depth + 1) ++ " " ++ Team.name team]
  ++ formatTeamMembers (Team.members team).

Definition groupLines (group : Group.t Role) (depth : nat) : list str :=
  [hashes depth ++ " " ++ Group.name group]
  ++ match Group.manager group with
     | Some manager => ["Manager: " ++ leaderPersonLine manager]
     | None =>
         if truthy (Group.managedBy group)
         then ["Managed by: " ++ nullish (Group.managedBy group) []]
         else []
     end
  ++ map (fun se => "Staff: " ++ leaderPersonLine se) (Group.staffEngineers group)
  ++ flat_map (teamLines depth) (Group.teams group).

Fixpoint divisionGroupsLines (first : bool) (groups : list (Group.t Role)) : list str :=
  match groups with
  | [] => []
  | g :: rest =>
      (if first then [] else [[]]) ++ groupLines g 3 ++ divisionGroupsLines false rest
  end.

Definition divisionLines (division : Division.t Role) : list str :=
  ["## Division: " ++ Division.name division; []]
  ++ divisionGroupsLines true (Division.groups division).

Definition leadershipLines (portfolio : Portfolio.t Role) : list str :=
  match Portfolio.headOfEngineering portfolio with
  | Some hoe => ["Head of Engineering: " ++ leaderPersonLine hoe]
  | None => []
  end
  ++ map (fun pe => "Principal Engineer: " ++ leaderPersonLine pe)
         (Portfolio.principalEngineers portfolio).

Definition headingLine (portfolio : Portfolio.t Role) : str :=
  "# " ++ Portfolio.name portfolio ++ " ("
  ++ numberToString (nullish (Portfolio.onshoreTargetPercentage portfolio) 50%float)
  ++ "% onshore target)".

Definition markdownLines (portfolio : Portfolio.t Role) : list str :=
  [headingLine portfolio; []]
  ++ leadershipLines portfolio
  ++ flat_map (fun division => [] :: divisionLines division)
              (nullish (Portfolio.divisions portfolio) [])
  ++ flat_map (fun group => [] :: groupLines group 2) (Portfolio.groups portfolio).

(** The blocks of lines that [generateDivisionMarkdown] and
    [generateMarkdown] push as one text each. *)
Fixpoint divisionGroupsBlocks (first : bool) (groups : list (Group.t Role))
  : list (list str) :=
  match groups with
  | [] => []
  | g :: rest =>
      (if first then [] else [[[]]]) ++ [groupLines g 3] ++ divisionGroupsBlocks false rest
  end.

Definition portfolioBlocks (portfolio : Portfolio.t Role) : list (list str) :=
  [[headingLine portfolio]; [[]]]
  ++ map (fun l => [l]) (leadershipLines portfolio)
  ++ flat_map (fun division => [[[]]; divisionLines division])
              (nullish (Portfolio.divisions portfolio) [])
  ++ flat_map (fun group => [[[]]; groupLines group 2]) (Portfolio.groups portfolio).

(** A group with more teams, and a division with more groups. *)
Definition addTeams (g : Group.t RoleValue) (ts : list (Team.t RoleValue))
  : Group.t RoleValue :=
  Group.mk (Group.id g) (Group.name g) (Group.manager g) (Group.managedBy g)
           (Group.staffEngineers g) (Group.teams g ++ ts).

Definition addGroups (d : Division.t RoleValue) (gs : list (Group.t RoleValue))
  : Division.t RoleValue :=
  Division.mk (Division.id d) (Division.name d) (Division.groups d ++ gs).

(** The lines of the members of a team with what each is read as. *)
Definition memberItems (members : list (Person.t Role)) : list (str * list PersonData.t) :=
  let '(named, unnamed) := sortMembers members in
  map (fun '(_, (person, count)) =>
         ((if 1 <? count then ofNat count ++ "x " else [])
          ++ ROLE_LABELS (Person.role person) ++ personProps person,
          repeat (dataOf person) count))
      unnamed
  ++ map (fun p => (namedPersonLine p, [dataOf p])) named.

(** A text that fits on one line. *)
Definition oneLine (l : str) : Prop := forallb notLT l = true.

(** What the entries of the map of [formatTeamMembers] are read as. *)
Definition expandUnnamed (unnamed : Unnamed) : list PersonData.t :=
  flat_map (fun '(_, (person, count)) => repeat (dataOf person) count) unnamed.

(** The entries of the map are unnamed persons under their keys. *)
Definition keyed (unnamed : Unnamed) : Prop :=
  forall k p c, In (k, (p, c)) unnamed -> k = groupingKey p /\ isUnnamed p = true.

(** *** The same portfolio, identifiers apart *)

(** A person of the tree and a person read back: the same name, role,
    type and vendor, and the same location, where a person of no stated
    location is onshore. *)
Definition samePerson (p : Person.t Role) (q : Person.t RoleValue) : Prop :=
  Person.name q = Person.name p
  /\ Person.role q = OwnRole (Person.role p)
  /\ Person.type q = Person.type p
  /\ Person.location q = Some (nullish (Person.location p) onshore)
  /\ Person.vendor q = Person.vendor p.

Definition sameOption {A B} (same : A -> B -> Prop) (a : option A) (b : option B) : Prop :=
  match a, b with
  | Some x, Some y => same x y
  | None, None => True
  | _, _ => False
  end.

(** The members of a team are a set: they are the same in some order. *)
Definition sameTeam (t : Team.t Role) (t' : Team.t RoleValue) : Prop :=
  Team.name t' = Team.name t
  /\ exists members,
       Permutation members (Team.members t)
       /\ Forall2 samePerson members (Team.members t').

Definition sameGroup (g : Group.t Role) (g' : Group.t RoleValue) : Prop :=
  Group.name g' = Group.name g
  /\ sameOption samePerson (Group.manager g) (Group.manager g')
  /\ Group.managedBy g' = Group.managedBy g
  /\ Forall2 samePerson (Group.staffEngineers g) (Group.staffEngineers g')
  /\ Forall2 sameTeam (Group.teams g) (Group.teams g').

Definition sameDivision (d : Division.t Role) (d' : Division.t RoleValue) : Prop :=
  Division.name d' = Division.name d
  /\ Forall2 sameGroup (Division.groups d) (Division.groups d').

Definition samePortfolio (p : Portfolio.t Role) (q : Parsed.t) : Prop :=
  Parsed.name q = Portfolio.name p
  /\ Parsed.onshoreTargetPercentage q
     = nullish (Portfolio.onshoreTargetPercentage p) 50%float
  /\ sameOption samePerson (Portfolio.headOfEngineering p) (Parsed.headOfEngineering q)
  /\ Forall2 samePerson (Portfolio.principalEngineers p) (Parsed.principalEngineers q)
  /\ Forall2 sameDivision (nullish (Portfolio.divisions p) [])
             (nullish (Parsed.divisions q) [])
  /\ Forall2 sameGroup (Portfolio.groups p) (Parsed.groups q).

(** *** Portfolios to run the round trip on *)

(** A portfolio with every construct of the text: leadership, a division,
    a direct group, unnamed members to coalesce, named members, props. *)
Definition fullPortfolio : Portfolio.t Role :=
  Portfolio.mk "p1" "Payments"
    (Some (Person.mk "h1" (Some ("Ada Byron" : str)) head_of_engineering employee None
                     (Some onshore)))
    [Person.mk "pe1" (Some ("Grace Hopper" : str)) principal_engineer contractor (Some ("Acme" : str))
               (Some nearshore)]
    (Some [Division.mk "d1" "Cards"
             [Group.mk "g1" "Issuing"
                (Some (Person.mk "m1" (Some ("Alan Turing" : str)) engineering_manager employee
                                 None None))
                None
                [Person.mk "s1" (Some ("Edsger Dijkstra" : str)) staff_engineer employee None
                           (Some onshore)]
                [Team.mk "t1" "Ledger"
                   [Person.mk "a" None engineer contractor (Some ("TCS" : str)) (Some offshore);
                    Person.mk "b" (Some ("Barbara Liskov" : str)) senior_engineer employee None
                              (Some onshore);
                    Person.mk "c" None engineer contractor (Some ("TCS" : str)) (Some offshore);
                    Person.mk "d" None senior_engineer employee None None]]]])
    [Group.mk "g2" "Platform" None (Some ("TPM" : str)) []
       [Team.mk "t2" "Tooling"
          [Person.mk "e" (Some ("Donald Knuth" : str)) engineer employee None (Some onshore)]]]
    (Some 60%float).

(** A portfolio whose Head of Engineering has no name. *)
Definition unnamedHeadPortfolio : Portfolio.t Role :=
  Portfolio.mk "p1" "Payments"
    (Some (Person.mk "h1" None head_of_engineering employee None (Some onshore)))
    [] None [] None.

(** A portfolio with a team member whose name opens like a quantity. *)
Definition quantityNamePortfolio : Portfolio.t Role :=
  Portfolio.mk "p1" "Payments" None [] None
    [Group.mk "g1" "Platform" None None []
       [Team.mk "t1" "Tooling"
          [Person.mk "a" (Some ("2x Ann" : str)) engineer employee None (Some onshore)]]]
    None.

(** A portfolio with a target of twelve and a half per cent. *)
Definition fractionTargetPortfolio : Portfolio.t Role :=
  Portfolio.mk "p1" "Payments" None [] None [] (Some 12.5%float).

(** A portfolio whose Principal Engineer is named like a role. *)
Definition roleNamePortfolio : Portfolio.t Role :=
  Portfolio.mk "p1" "Payments" None
    [Person.mk "pe1" (Some ("Engineer" : str)) principal_engineer employee None (Some onshore)]
    None [] None.

From Stdlib Require Import ZArith Sorted.

(** ** Notions used by the further properties *)

(** A text in which white space is single spaces only. *)
Fixpoint collapsed (s : str) : bool :=
  match s with
  | [] => true
  | c :: r =>
      (if isSpace c
       then Ascii.eqb c SPACE
            && match r with c' :: _ => negb (isSpace c') | [] => true end
       else true)
      && collapsed r
  end.

(** The key of the [Map] of [groupCsvRows] under which a team-group is
    stored: the key of the row that created it. *)
Definition groupKeyOf (g : CsvTeamGroup.t) : str :=
  CsvTeamGroup.csvGroup g ++ "|||" ++ CsvTeamGroup.csvTeam g.

(** The rows [groupCsvRows] pushes on [managers] and on [engineers]. *)
Definition isManagerRow (row : CsvRow.t) : bool :=
  match mapRole (CsvRow.role row) with
  | Some engineering_manager => true
  | _ => false
  end.

Definition isEngineerRow (row : CsvRow.t) : bool :=
  match mapRole (CsvRow.role row) with
  | Some engineer | Some senior_engineer => true
  | _ => false
  end.

(** What the [Map] of [groupCsvRows] holds once the rows [seen] have been
    read. *)
Definition grouped (seen : list CsvRow.t) (m : list (str * CsvTeamGroup.t)) : Prop :=
  NoDup (map fst m)
  /\ (forall row, In row seen -> In (groupKey row) (map fst m))
  /\ (forall k g, In (k, g) m ->
        k = groupKeyOf g
        /\ CsvTeamGroup.rows g <> []
        /\ CsvTeamGroup.rows g = filter (fun row => eqs (groupKey row) k) seen
        /\ CsvTeamGroup.managers g = filter isManagerRow (CsvTeamGroup.rows g)
        /\ CsvTeamGroup.engineers g = filter isEngineerRow (CsvTeamGroup.rows g)).

(** What [analyseImport] writes in a replacement. *)
Definition replacementOk (portfolio : Portfolio.t Role) (r : TeamMemberReplacement.t)
  : Prop :=
  TeamMemberReplacement.portfolioId r = Portfolio.id portfolio
  /\ exists loc t imported,
       In loc (enumerateTeams portfolio)
       /\ TeamMemberReplacement.divisionId r = AppTeamLocation.divisionId loc
       /\ TeamMemberReplacement.groupId r = AppTeamLocation.groupId loc
       /\ TeamMemberReplacement.teamId r = AppTeamLocation.teamId loc
       /\ findTeamInPortfolio portfolio (TeamMemberReplacement.teamId r) = Some t
       /\ TeamMemberReplacement.newMembers r
          = filter (fun m => negb (isEngineerRole (Person.role m))) (Team.members t)
            ++ imported
       /\ Forall (fun q => isEngineerRole (Person.role q) = true
                           /\ Person.name q <> None) imported.

(** ** The store ([src/hooks/useOrgData.ts]) *)

Module OrgData.
Record t := mk { portfolios : list (Portfolio.t Role) }.
End OrgData.

(** [updateGroupInPortfolio]: the groups of identifier [groupId] are
    updated, in the divisions of identifier [divisionId] when one is given
    and is not empty, among the direct groups otherwise. *)
Definition updateGroupInPortfolio (portfolio : Portfolio.t Role) (groupId : str)
    (divisionId : option str) (updater : Group.t Role -> Group.t Role)
  : Portfolio.t Role :=
  let update := map (fun g => if eqs (Group.id g) groupId then updater g else g) in
  if truthy divisionId then
    Portfolio.mk (Portfolio.id portfolio) (Portfolio.name portfolio)
      (Portfolio.headOfEngineering portfolio) (Portfolio.principalEngineers portfolio)
      (option_map
         (map (fun d =>
                 if eqs (Division.id d) (nullish divisionId [])
                 then Division.mk (Division.id d) (Division.name d)
                                  (update (Division.groups d))
                 else d))
         (Portfolio.divisions portfolio))
      (Portfolio.groups portfolio) (Portfolio.onshoreTargetPercentage portfolio)
  else
    Portfolio.mk (Portfolio.id portfolio) (Portfolio.name portfolio)
      (Portfolio.headOfEngineering portfolio) (Portfolio.principalEngineers portfolio)
      (Portfolio.divisions portfolio)
      (update (Portfolio.groups portfolio)) (Portfolio.onshoreTargetPercentage portfolio).

(** The updater of [replaceTeamMembers]: the teams of identifier
    [r.teamId] get the members [r.newMembers]. *)
Definition replaceMembers (r : TeamMemberReplacement.t) (g : Group.t Role) : Group.t Role :=
  Group.mk (Group.id g) (Group.name g) (Group.manager g) (Group.managedBy g)
    (Group.staffEngineers g)
    (map (fun t => if eqs (Team.id t) (TeamMemberReplacement.teamId r)
                   then Team.mk (Team.id t) (Team.name t)
                                (TeamMemberReplacement.newMembers r)
                   else t)
         (Group.teams g)).

(** The body of the loop of [replaceTeamMembers]. *)
Definition applyReplacement (updated : OrgData.t) (r : TeamMemberReplacement.t)
  : OrgData.t :=
  OrgData.mk
    (map (fun p =>
            if eqs (Portfolio.id p) (TeamMemberReplacement.portfolioId r)
            then updateGroupInPortfolio p (TeamMemberReplacement.groupId r)
                   (TeamMemberReplacement.divisionId r) (replaceMembers r)
            else p)
         (OrgData.portfolios updated)).

(** The state update of [replaceTeamMembers]. *)
Definition replaceTeamMembers (replacements : list TeamMemberReplacement.t)
    (prev : OrgData.t) : OrgData.t :=
  fold_left applyReplacement replacements prev.

(** *** Notions for the store *)

(** A portfolio with [f] applied to every team; [f] is given the
    identifiers of the portfolio, of the division if any, and of the
    group the team is in. *)
Definition mapGroupTeams (f : Team.t Role -> Team.t Role) (g : Group.t Role)
  : Group.t Role :=
  Group.mk (Group.id g) (Group.name g) (Group.manager g) (Group.managedBy g)
           (Group.staffEngineers g) (map f (Group.teams g)).

Definition mapTeams (f : str -> option str -> str -> Team.t Role -> Team.t Role)
    (p : Portfolio.t Role) : Portfolio.t Role :=
  Portfolio.mk (Portfolio.id p) (Portfolio.name p)
    (Portfolio.headOfEngineering p) (Portfolio.principalEngineers p)
    (option_map
       (map (fun d =>
               Division.mk (Division.id d) (Division.name d)
                 (map (fun g => mapGroupTeams
                                  (f (Portfolio.id p) (Some (Division.id d)) (Group.id g)) g)
                      (Division.groups d))))
       (Portfolio.divisions p))
    (map (fun g => mapGroupTeams (f (Portfolio.id p) None (Group.id g)) g)
         (Portfolio.groups p))
    (Portfolio.onshoreTargetPercentage p).

(** Whether a replacement reaches a team of identifier [teamId] in the
    group [groupId] of the division [divisionId], or directly, of the
    portfolio [portfolioId]. *)
Definition reaches (r : TeamMemberReplacement.t) (portfolioId : str)
    (divisionId : option str) (groupId teamId : str) : bool :=
  eqs portfolioId (TeamMemberReplacement.portfolioId r)
  && (if truthy (TeamMemberReplacement.divisionId r)
      then match divisionId with
           | Some d => eqs d (nullish (TeamMemberReplacement.divisionId r) [])
           | None => false
           end
      else match divisionId with None => true | Some _ => false end)
  && eqs groupId (TeamMemberReplacement.groupId r)
  && eqs teamId (TeamMemberReplacement.teamId r).

(** One replacement, and a list of them in turn, on a team at a place. *)
Definition replaceAt (r : TeamMemberReplacement.t) (portfolioId : str)
    (divisionId : option str) (groupId : str) (t : Team.t Role) : Team.t Role :=
  if reaches r portfolioId divisionId groupId (Team.id t)
  then Team.mk (Team.id t) (Team.name t) (TeamMemberReplacement.newMembers r)
  else t.

Definition replaceAllAt (rs : list TeamMemberReplacement.t) (portfolioId : str)
    (divisionId : option str) (groupId : str) (t : Team.t Role) : Team.t Role :=
  fold_left (fun t r => replaceAt r portfolioId divisionId groupId t) rs t.

(** The last replacement of a list that reaches a place. *)
Definition lastReaching (rs : list TeamMemberReplacement.t) (portfolioId : str)
    (divisionId : option str) (groupId teamId : str) : option TeamMemberReplacement.t :=
  fold_left (fun found r =>
               if reaches r portfolioId divisionId groupId teamId then Some r else found)
            rs None.

(** A portfolio without the members of its teams. *)
Definition withoutMembers (p : Portfolio.t Role) : Portfolio.t Role :=
  mapTeams (fun _ _ _ t => Team.mk (Team.id t) (Team.name t) []) p.

(** The teams of a portfolio in the order of [enumerateTeams], each with
    the identifier of its division, if any, and of its group. *)
Definition placedTeams (p : Portfolio.t Role) : list (option str * str * Team.t Role) :=
  flat_map (fun d =>
              flat_map (fun g => map (fun t => (Some (Division.id d), Group.id g, t))
                                     (Group.teams g))
                       (Division.groups d))
           (nullish (Portfolio.divisions p) [])
  ++ flat_map (fun g => map (fun t => (None, Group.id g, t)) (Group.teams g))
              (Portfolio.groups p).

(** A CSV text of one row, for the team Ledger of [fullPortfolio]. *)
Definition ledgerCsv : str := "Acme,Issuing,Ledger,Engineer,Offshore,TCS,Ann Lee".

(** ** The vendor colours of the tree view

    [vendorHash], [collectVendorsFromAll] and [buildVendorColourMap], which
    the source file holds after the importer. *)

Definition VENDOR_PALETTE : list str :=
  ["bg-orange-500" : str; "bg-cyan-600" : str; "bg-rose-500" : str; "bg-amber-500" : str;
   "bg-lime-600" : str; "bg-fuchsia-600" : str; "bg-emerald-600" : str; "bg-sky-500" : str].

Definition NO_VENDOR_COLOUR : str := "bg-gray-900".

(** [ToInt32]: the value modulo 2^32, in the range of a 32-bit integer. *)
Definition toInt32 (z : Z) : Z :=
  let m := (z mod 4294967296)%Z in
  if (m <? 2147483648)%Z then m else (m - 4294967296)%Z.

(** One iteration of [vendorHash]: [((h << 5) - h + c) | 0], the shift
    being a 32-bit one. *)
Definition hashStep (h : Z) (c : ascii) : Z :=
  toInt32 (toInt32 (h * 32) - h + Z.of_nat (code c))%Z.

(** The length of the palette, as a number. *)
Definition paletteSize : Z := Z.of_nat (length VENDOR_PALETTE).

(** [vendorHash]; [%] is the remainder of JavaScript, of the sign of the
    dividend. *)
Definition vendorHash (vendor : str) : Z :=
  let h := fold_left hashStep vendor 0%Z in
  Z.rem (Z.rem h paletteSize + paletteSize) paletteSize.

(** The closure [scan] of [collectVendorsFromAll]: what it adds. *)
Definition scanVendor (p : Person.t Role) : list str :=
  if truthy (Person.vendor p) then [nullish (Person.vendor p) []] else [].

Definition scanGroup (g : Group.t Role) : list str :=
  match Group.manager g with Some m => scanVendor m | None => [] end
  ++ flat_map scanVendor (Group.staffEngineers g)
  ++ flat_map (fun t => flat_map scanVendor (Team.members t)) (Group.teams g).

(** The vendors in the order [collectVendorsFromAll] meets them. *)
Definition scanPortfolio (portfolio : Portfolio.t Role) : list str :=
  match Portfolio.headOfEngineering portfolio with
  | Some hoe => scanVendor hoe
  | None => []
  end
  ++ flat_map scanVendor (Portfolio.principalEngineers portfolio)
  ++ flat_map (fun d => flat_map scanGroup (Division.groups d))
              (nullish (Portfolio.divisions portfolio) [])
  ++ flat_map scanGroup (Portfolio.groups portfolio).

(** The order of [sort()] without a comparator: by code units. *)
Fixpoint leStr (a b : str) : bool :=
  match a, b with
  | [], _ => true
  | _ :: _, [] => false
  | x :: a', y :: b' =>
      (code x <? code y) || ((code x =? code y) && leStr a' b')
  end.

Fixpoint insertStr (x : str) (l : list str) : list str :=
  match l with
  | [] => [x]
  | y :: r => if leStr x y then x :: l else y :: insertStr x r
  end.

(** [sort()] on strings: the sorted arrangement, here built by insertion. *)
Definition sortStr (l : list str) : list str := fold_right insertStr [] l.

Definition collectVendorsFromAll (portfolios : list (Portfolio.t Role)) : list str :=
  sortStr (toSet (flat_map scanPortfolio portfolios)).

Definition hasSlot (used : list Z) (slot : Z) : bool := existsb (Z.eqb slot) used.

(** [usedSlots.add(slot)]. *)
Definition addSlot (used : list Z) (slot : Z) : list Z :=
  if hasSlot used slot then used else used ++ [slot].

(** The [while] loop of [buildVendorColourMap], run for at most [fuel]
    tests of its condition: the free slot it stops at, or [None] when the
    fuel runs out first. *)
Fixpoint probe (fuel : nat) (used : list Z) (slot : Z) : option Z :=
  match fuel with
  | 0 => None
  | S fuel' =>
      if hasSlot used slot then probe fuel' used (Z.rem (slot + 1) paletteSize)
      else Some slot
  end.

(** [VENDOR_PALETTE[slot]]: [None] is [undefined]. *)
Definition paletteAt (slot : Z) : option str :=
  if (slot <? 0)%Z then None else nth_error VENDOR_PALETTE (Z.to_nat slot).

(** A [Map] from vendors, or [undefined], to colours, in insertion
    order. *)
Definition ColourMap := list (option str * option str).

Definition sameKey (a b : option str) : bool :=
  match a, b with
  | Some x, Some y => eqs x y
  | None, None => true
  | _, _ => false
  end.

(** [map.set(key, value)]. *)
Fixpoint mapSet (m : ColourMap) (key : option str) (value : option str) : ColourMap :=
  match m with
  | [] => [(key, value)]
  | (k, v) :: rest =>
      if sameKey k key then (k, value) :: rest else (k, v) :: mapSet rest key value
  end.

(** [map.get(key)]. *)
Fixpoint mapGet (m : ColourMap) (key : option str) : option (option str) :=
  match m with
  | [] => None
  | (k, v) :: rest => if sameKey k key then Some v else mapGet rest key
  end.

(** The [for] loop of [buildVendorColourMap]; [None] when a [while] loop
    runs out of fuel. *)
Fixpoint colourLoop (fuel : nat) (vendors : list str) (usedSlots : list Z)
    (map : ColourMap) : option ColourMap :=
  match vendors with
  | [] => Some map
  | v :: rest =>
      match probe fuel usedSlots (vendorHash v) with
      | None => None
      | Some slot =>
          colourLoop fuel rest (addSlot usedSlots slot)
                     (mapSet map (Some v) (paletteAt slot))
      end
  end.

Definition buildVendorColourMap (fuel : nat) (allPortfolios : list (Portfolio.t Role))
  : option ColourMap :=
  match colourLoop fuel (collectVendorsFromAll allPortfolios) [] [] with
  | Some map => Some (mapSet map None (Some NO_VENDOR_COLOUR))
  | None => None
  end.

(** The hash of the comment of [vendorHash], [hash * 31 + char], without
    the 32-bit wrap-around. *)
Definition exactHash (vendor : str) : Z :=
  fold_left (fun h c => (h * 31 + Z.of_nat (code c))%Z) vendor 0%Z.

(** The slots and the map of [buildVendorColourMap] after the vendors of
    [assigned] have been given the slots of [assigned]. *)
Definition slotsOf (assigned : list (str * Z)) : list Z := map snd assigned.

Definition coloursOf (assigned : list (str * Z)) : ColourMap :=
  map (fun a => (Some (fst a), paletteAt (snd a))) assigned.

(** Slots taken once each, all of them indices of the palette. *)
Definition slotsOk (used : list Z) : Prop :=
  NoDup used /\ Forall (fun s => (0 <= s < paletteSize)%Z) used.

(** A list of texts in the order of [sort()]. *)
Fixpoint sortedStr (l : list str) : bool :=
  match l with
  | [] => true
  | x :: r => match r with [] => true | y :: _ => leStr x y end && sortedStr r
  end.

(** A portfolio with nine vendors. *)
Definition nineVendorsPortfolio : Portfolio.t Role :=
  Portfolio.mk "p9" "Vendors" None [] None
    [Group.mk "g1" "Platform" None None []
       [Team.mk "t1" "Tooling"
          (map (fun v => Person.mk v None engineer contractor (Some v) (Some offshore))
               ["V1" : str; "V2" : str; "V3" : str; "V4" : str; "V5" : str; "V6" : str;
                "V7" : str; "V8" : str; "V9" : str])]]
    None.

(** ** Notions for the parser *)

(** A step of the parser that adds no error, or one at the line [n]. *)
Definition addsErrorAt (n : nat) (st st' : Parser.t) : Prop :=
  Parser.errors st' = Parser.errors st
  \/ exists m, Parser.errors st' = Parser.errors st ++ [ParseError.mk n m].

(** A comment or a decoration, which the parser passes over. *)
Definition isDecoration (trimmed : str) : bool :=
  startsWith ">" trimmed || startsWith "---" trimmed || startsWith "<!--" trimmed.

(** A parser state inside a team. *)
Definition inTeam (team : Team.t RoleValue) (drawn : nat) : Parser.t :=
  Parser.mk [] (Some ("P" : str)) 50%float None [] [] [] None
            (Some (newGroup "g" "G")) (Some team) false drawn.

(** The identifiers of a team, a group, a division, of what the parser
    holds and of what it returns: those of the entities and of their
    persons. *)
Definition idsOfTeam (t : Team.t RoleValue) : list str :=
  Team.id t :: map Person.id (Team.members t).

Definition idsOfGroup (g : Group.t RoleValue) : list str :=
  Group.id g :: map Person.id (optList (Group.manager g))
  ++ map Person.id (Group.staffEngineers g)
  ++ flat_map idsOfTeam (Group.teams g).

Definition idsOfDivision (d : Division.t RoleValue) : list str :=
  Division.id d :: flat_map idsOfGroup (Division.groups d).

Definition idsOfParser (st : Parser.t) : list str :=
  map Person.id (optList (Parser.headOfEngineering st))
  ++ map Person.id (Parser.principalEngineers st)
  ++ flat_map idsOfDivision (Parser.divisions st)
  ++ flat_map idsOfGroup (Parser.directGroups st)
  ++ flat_map idsOfDivision (optList (Parser.currentDivision st))
  ++ flat_map idsOfGroup (optList (Parser.currentGroup st))
  ++ flat_map idsOfTeam (optList (Parser.currentTeam st)).

Definition idsOfParsed (q : Parsed.t) : list str :=
  map Person.id (optList (Parsed.headOfEngineering q))
  ++ map Person.id (Parsed.principalEngineers q)
  ++ flat_map idsOfDivision (nullish (Parsed.divisions q) [])
  ++ flat_map idsOfGroup (Parsed.groups q).

(** How many times an identifier occurs in a list. *)
Definition occurrences (x : str) (l : list str) : nat :=
  count_occ (list_eq_dec ascii_dec) l x.

(** The identifiers a state holds were drawn, each at most as many times
    as it holds them. *)
Definition drawnOnce (ids : IdSource) (st : Parser.t) : Prop :=
  forall x, occurrences x (idsOfParser st)
            <= occurrences x (map ids (seq 0 (Parser.drawn st))).

(** ** The headcounts of the tree view

    [groupHeadcount], [divisionHeadcount] and [portfolioHeadcount], which
    the source file holds after the importer. *)

Definition groupHeadcount (group : Group.t Role) : nat :=
  fold_left (fun n team => n + length (Team.members team)) (Group.teams group)
            (length (Group.staffEngineers group)).

(** [g.manager ? 1 : 0]. *)
Definition managerCount (g : Group.t Role) : nat :=
  match Group.manager g with Some _ => 1 | None => 0 end.

Definition divisionHeadcount (division : Division.t Role) : nat :=
  fold_left (fun sum g => sum + managerCount g + groupHeadcount g)
            (Division.groups division) 0.

Definition portfolioHeadcount (portfolio : Portfolio.t Role) : nat :=
  let n := fold_left (fun n div => n + divisionHeadcount div)
                     (nullish (Portfolio.divisions portfolio) []) 0 in
  let n := fold_left (fun n g => n + (managerCount g + groupHeadcount g))
                     (Portfolio.groups portfolio) n in
  n + length (Portfolio.principalEngineers portfolio).

(** The members of the teams of a portfolio, counted. *)
Definition memberTotal (f : option str * str * Team.t Role -> Team.t Role)
    (p : Portfolio.t Role) : nat :=
  list_sum (map (fun x => length (Team.members (f x))) (placedTeams p)).

(** The replacement of a list for a team, by the identifier of the team. *)
Definition replacementFor (rs : list TeamMemberReplacement.t) (teamId : str)
  : option TeamMemberReplacement.t :=
  find (fun r => eqs (TeamMemberReplacement.teamId r) teamId) rs.

(** A team change and the replacement of the same team-group: the new
    members and the members removed are as many as the members of the
    team and the members added. *)
Definition balanced (p : Portfolio.t Role) (tc : TeamChange.t)
    (r : TeamMemberReplacement.t) : Prop :=
  exists t,
    findTeamInPortfolio p (TeamMemberReplacement.teamId r) = Some t
    /\ length (TeamMemberReplacement.newMembers r) + length (TeamChange.removed tc)
       = length (Team.members t) + length (TeamChange.added tc).
(** * Properties *)

(** ** Strings *)

Lemma eqs_eq (a b : str) : eqs a b = true <-> a = b.
Proof.
  revert b; induction a as [|x a IH]; intros [|y b]; simpl; split;
    try congruence; try reflexivity.
  - intros H. apply andb_true_iff in H as [Hx Hab].
    apply Ascii.eqb_eq in Hx. apply IH in Hab. congruence.
  - intros H. injection H as -> ->. rewrite Ascii.eqb_refl. simpl.
    now apply IH.
Qed.

Lemma eqs_refl (a : str) : eqs a a = true.
Proof. now apply eqs_eq. Qed.

Lemma eqs_neq (a b : str) : eqs a b = false <-> a <> b.
Proof.
  split.
  - intros H E. apply eqs_eq in E. congruence.
  - intros H. destruct (eqs a b) eqn:E; [|reflexivity].
    apply eqs_eq in E. contradiction.
Qed.

Lemma startsWith_nil (s : str) : startsWith [] s = true.
Proof. now destruct s. Qed.

Lemma includes_nil (s : str) : includes s [] = true.
Proof. destruct s; reflexivity. Qed.

Lemma split_not_nil (sep : ascii) (s : str) : split sep s <> [].
Proof.
  induction s as [|c s IH]; simpl; [discriminate|].
  destruct (Ascii.eqb c sep); [discriminate|].
  destruct (split sep s); discriminate.
Qed.

(** ** The CSV parser *)

Lemma parseCsvLine_lineNumber (i : nat) (raw : str) (row : CsvRow.t) :
  parseCsvLine i raw = Some row -> CsvRow.lineNumber row = i + 1.
Proof.
  unfold parseCsvLine.
  destruct (negb (nonEmpty (trim raw))); [discriminate|].
  destruct (length (split COMMA (trim raw)) <? 7); [discriminate|].
  intros H. injection H as <-. reflexivity.
Qed.

Lemma parseCsvFrom_In (lines : list str) :
  forall i row, In row (parseCsvFrom i lines) ->
  exists k raw, nth_error lines k = Some raw /\ parseCsvLine (i + k) raw = Some row.
Proof.
  induction lines as [|raw rest IH]; intros i row Hin; simpl in Hin; [contradiction|].
  destruct (parseCsvLine i raw) as [r|] eqn:E.
  - destruct Hin as [<-|Hin].
    + exists 0, raw. rewrite Nat.add_0_r. now split.
    + destruct (IH _ _ Hin) as (k & raw' & Hk & Hp).
      exists (S k), raw'. split; [exact Hk|]. now rewrite <- Nat.add_succ_comm.
  - destruct (IH _ _ Hin) as (k & raw' & Hk & Hp).
    exists (S k), raw'. split; [exact Hk|]. now rewrite <- Nat.add_succ_comm.
Qed.

Lemma parseCsvLine_cases (i : nat) (raw : str) :
  (parseCsvLine i raw = None /\ (7 <=? length (split COMMA (trim raw))) = false)
  \/ ((exists row, parseCsvLine i raw = Some row)
      /\ (7 <=? length (split COMMA (trim raw))) = true).
Proof.
  unfold parseCsvLine.
  destruct (trim raw) as [|c s] eqn:Et.
  - left. split; reflexivity.
  - cbn [nonEmpty negb].
    destruct (length (split COMMA (c :: s)) <? 7) eqn:E7.
    + left. split; [reflexivity|]. apply Nat.ltb_lt in E7. apply Nat.leb_gt. lia.
    + right. split; [eexists; reflexivity|].
      apply Nat.ltb_ge in E7. now apply Nat.leb_le.
Qed.

Lemma parseCsvFrom_length (lines : list str) :
  forall i,
  length (parseCsvFrom i lines)
  = length (filter (fun raw => 7 <=? length (split COMMA (trim raw))) lines).
Proof.
  induction lines as [|raw rest IH]; intros i; [reflexivity|].
  cbn [parseCsvFrom filter].
  destruct (parseCsvLine_cases i raw) as [[-> ->]|[[row ->] ->]].
  - apply IH.
  - cbn [length]. f_equal. apply IH.
Qed.

Lemma seven_parts {A} (d : A) (parts : list A) :
  7 <= length parts ->
  let n := length parts in
  let mid := sliceParts 2 (n - 4) parts in
  mid <> [] /\
  parts = nth 0 parts d :: nth 1 parts d :: mid
          ++ [nth (n - 4) parts d; nth (n - 3) parts d;
              nth (n - 2) parts d; nth (n - 1) parts d].
Proof.
  intros Hlen n mid.
  assert (Hmid : length mid = n - 6).
  { subst mid n. unfold sliceParts. rewrite length_firstn, length_skipn. lia. }
  split.
  - intros E. rewrite E in Hmid. simpl in Hmid. subst n. lia.
  - apply (nth_ext _ _ d d).
    + cbn [length]. rewrite length_app. cbn [length]. rewrite Hmid. subst n. lia.
    + intros k Hk. fold n in Hk.
      destruct k as [|[|k]]; [reflexivity|reflexivity|].
      cbn [nth].
      destruct (Nat.lt_ge_cases k (n - 6)) as [Hlt|Hge].
      * rewrite app_nth1 by lia. subst mid. unfold sliceParts.
        rewrite nth_firstn. 
        replace (k <? n - 4 - 2) with true by (symmetry; apply Nat.ltb_lt; lia).
        rewrite nth_skipn. reflexivity.
      * rewrite app_nth2 by lia. rewrite Hmid.
        assert (Hk4 : k - (n - 6) < 4) by lia.
        destruct (k - (n - 6)) as [|[|[|[|]]]] eqn:Ek; try lia; cbn [nth]; f_equal; lia.
Qed.

Lemma parseCsvFrom_complete (lines : list str) :
  forall i k raw row,
  nth_error lines k = Some raw -> parseCsvLine (i + k) raw = Some row ->
  In row (parseCsvFrom i lines).
Proof.
  induction lines as [|l rest IH]; intros i [|k] raw row Hk Hp; try discriminate.
  - cbn [nth_error] in Hk. injection Hk as ->. rewrite Nat.add_0_r in Hp.
    cbn [parseCsvFrom]. rewrite Hp. now left.
  - cbn [nth_error] in Hk. rewrite <- Nat.add_succ_comm in Hp.
    cbn [parseCsvFrom]. pose proof (IH _ _ _ _ Hk Hp) as Hin.
    destruct (parseCsvLine i l); [now right|exact Hin].
Qed.

(** The rows of [parseCsv] with the line number of a line are the row read
    from that line, if there is one. *)
Lemma parseCsv_at (csvText : str) (i : nat) (raw : str) (row : CsvRow.t) :
  nth_error (csvLines csvText) i = Some raw ->
  In row (parseCsv csvText) -> CsvRow.lineNumber row = i + 1 ->
  parseCsvLine i raw = Some row.
Proof.
  intros Hi Hin Hn. unfold parseCsv in Hin.
  destruct (parseCsvFrom_In _ _ _ Hin) as (k & raw' & Hk & Hp).
  pose proof (parseCsvLine_lineNumber _ _ _ Hp) as Hn'. cbn [Nat.add] in Hp, Hn'.
  assert (k = i) by lia. subst k. congruence.
Qed.

(** C8, as amended.  A line whose trimmed text has at least seven
    comma-separated fields gives one row: its portfolio and group are the
    first two fields, its role, location, vendor and name the last four,
    each with the surrounding white space trimmed, and its team name the
    fields in between rejoined with commas and then trimmed; when the
    line is a line of the text, that row is a row of [parseCsv], and the
    only one with the number of the line.  A line with fewer than seven
    fields gives no row, and [parseCsv] has no row with its number.
    [parseCsv] returns nothing else than rows: as many as there are lines
    of seven fields or more. *)
Theorem parseCsv_fixed_ends (csvText : str) (i : nat) (raw : str) :
  let parts := split COMMA (trim raw) in
  (7 <= length parts ->
   exists p g mid r l v n,
     let row := {| CsvRow.portfolio := trim p;
                   CsvRow.csvGroup := trim g;
                   CsvRow.teamName := trim (join [COMMA] mid);
                   CsvRow.role := trim r;
                   CsvRow.location := trim l;
                   CsvRow.vendor := trim v;
                   CsvRow.name := trim n;
                   CsvRow.lineNumber := i + 1 |} in
     parts = p :: g :: mid ++ [r; l; v; n] /\ mid <> [] /\
     parseCsvLine i raw = Some row
     /\ (nth_error (csvLines csvText) i = Some raw ->
         In row (parseCsv csvText)
         /\ forall row', In row' (parseCsv csvText) ->
                         CsvRow.lineNumber row' = i + 1 -> row' = row))
  /\ (length parts < 7 ->
      parseCsvLine i raw = None
      /\ (nth_error (csvLines csvText) i = Some raw ->
          forall row, In row (parseCsv csvText) -> CsvRow.lineNumber row <> i + 1))
  /\ length (parseCsv csvText)
     = length (filter (fun line => 7 <=? length (split COMMA (trim line)))
                      (csvLines csvText)).
Proof.
  intros parts. split; [|split].
  - intros Hlen.
    destruct (seven_parts [] parts Hlen) as [Hmid Hparts].
    set (n := length parts) in *.
    exists (nth 0 parts []), (nth 1 parts []), (sliceParts 2 (n - 4) parts),
      (nth (n - 4) parts []), (nth (n - 3) parts []), (nth (n - 2) parts []),
      (nth (n - 1) parts []).
    cbv zeta. split; [exact Hparts|]. split; [exact Hmid|].
    assert (Hne : nonEmpty (trim raw) = true).
    { destruct (trim raw) eqn:Et; [|reflexivity].
      unfold n, parts in Hlen. try rewrite Et in Hlen. simpl in Hlen. lia. }
    assert (Hrow : parseCsvLine i raw
                   = Some {| CsvRow.portfolio := trim (nth 0 parts []);
                             CsvRow.csvGroup := trim (nth 1 parts []);
                             CsvRow.teamName := trim (join [COMMA] (sliceParts 2 (n - 4) parts));
                             CsvRow.role := trim (nth (n - 4) parts []);
                             CsvRow.location := trim (nth (n - 3) parts []);
                             CsvRow.vendor := trim (nth (n - 2) parts []);
                             CsvRow.name := trim (nth (n - 1) parts []);
                             CsvRow.lineNumber := i + 1 |}).
    { unfold parseCsvLine. rewrite Hne. fold parts. fold n. cbn [negb].
      replace (n <? 7) with false by (symmetry; apply Nat.ltb_ge; exact Hlen).
      reflexivity. }
    split; [exact Hrow|]. intros Hi. split.
    + apply (parseCsvFrom_complete _ 0 i raw); [exact Hi|exact Hrow].
    + intros row' Hin Hn. pose proof (parseCsv_at _ _ _ _ Hi Hin Hn) as E.
      rewrite Hrow in E. now injection E.
  - intros Hlen.
    assert (Hnone : parseCsvLine i raw = None).
    { unfold parseCsvLine. fold parts.
      destruct (negb (nonEmpty (trim raw))); [reflexivity|].
      replace (length parts <? 7) with true by (symmetry; apply Nat.ltb_lt; exact Hlen).
      reflexivity. }
    split; [exact Hnone|]. intros Hi row Hin Hn.
    pose proof (parseCsv_at _ _ _ _ Hi Hin Hn) as E. congruence.
  - apply parseCsvFrom_length.
Qed.

(** The second line of a text of three lines, the first of which has six
    fields only: its row is the one row of line number 2, its team name
    holding a comma, and no row has line number 1. *)
Lemma parseCsv_fixed_ends_witness :
  let csvText : str := join [LF] ["Acme,Plat,Inbound,Engineer,Offshore,TCS" : str;
                                  "Acme,Plat,Inbound, Tax & Control,Engineer,Offshore,TCS,Jo Li" : str;
                                  "Acme,Plat,Ledger,Engineer,Onshore,M&S,Al" : str] in
  let raw : str := "Acme,Plat,Inbound, Tax & Control,Engineer,Offshore,TCS,Jo Li" in
  let short : str := "Acme,Plat,Inbound,Engineer,Offshore,TCS" in
  7 <= length (split COMMA (trim raw))
  /\ nth_error (csvLines csvText) 1 = Some raw
  /\ length (split COMMA (trim short)) < 7
  /\ nth_error (csvLines csvText) 0 = Some short
  /\ (exists p g mid r l v n,
       let row := {| CsvRow.portfolio := trim p;
                     CsvRow.csvGroup := trim g;
                     CsvRow.teamName := trim (join [COMMA] mid);
                     CsvRow.role := trim r;
                     CsvRow.location := trim l;
                     CsvRow.vendor := trim v;
                     CsvRow.name := trim n;
                     CsvRow.lineNumber := 1 + 1 |} in
       split COMMA (trim raw) = p :: g :: mid ++ [r; l; v; n] /\ mid <> [] /\
       parseCsvLine 1 raw = Some row
       /\ In row (parseCsv csvText)
       /\ forall row', In row' (parseCsv csvText) ->
                       CsvRow.lineNumber row' = 1 + 1 -> row' = row)
  /\ (forall row, In row (parseCsv csvText) -> CsvRow.lineNumber row <> 0 + 1).
Proof.
  intros csvText raw short.
  assert (H7 : 7 <= length (split COMMA (trim raw))) by (vm_compute; lia).
  assert (H1 : nth_error (csvLines csvText) 1 = Some raw) by reflexivity.
  assert (H6 : length (split COMMA (trim short)) < 7) by (vm_compute; lia).
  assert (H0 : nth_error (csvLines csvText) 0 = Some short) by reflexivity.
  split; [exact H7|]. split; [exact H1|]. split; [exact H6|]. split; [exact H0|]. split.
  - destruct (proj1 (parseCsv_fixed_ends csvText 1 raw) H7)
      as (p & g & mid & r & l & v & n & Hparts & Hmid & Hrow & Hin).
    exists p, g, mid, r, l, v, n. cbv zeta.
    split; [exact Hparts|]. split; [exact Hmid|]. split; [exact Hrow|]. exact (Hin H1).
  - exact (proj2 (proj1 (proj2 (parseCsv_fixed_ends csvText 0 short)) H6) H0).
Defined.

(** C8 as stated fails: the first field of the line below is ["Acme "],
    with its space, and the portfolio of the row is ["Acme"]. *)
Lemma parseCsv_field_not_verbatim :
  let raw : str := "Acme ,Plat,Core,Engineer,Offshore,TCS,Jo Li" in
  length (split COMMA raw) = 7
  /\ nth 0 (split COMMA raw) [] = "Acme "
  /\ map CsvRow.portfolio (parseCsv raw) = ["Acme" : str]
  /\ map CsvRow.portfolio (parseCsv raw) <> [nth 0 (split COMMA raw) []].
Proof.
  cbv zeta. repeat split; try (vm_compute; reflexivity).
  vm_compute. discriminate.
Qed.

(** C10.  Every row of [parseCsv] carries as its line number the 1-based
    position, among the lines of the trimmed text that are not blank, of
    the line it was read from; none of these lines is blank. *)
Theorem parseCsv_lineNumber (csvText : str) (row : CsvRow.t) :
  In row (parseCsv csvText) ->
  1 <= CsvRow.lineNumber row
  /\ (exists raw,
        nth_error (csvLines csvText) (CsvRow.lineNumber row - 1) = Some raw
        /\ parseCsvLine (CsvRow.lineNumber row - 1) raw = Some row)
  /\ csvLines csvText
     = filter (fun line => nonEmpty (trim line)) (split LF (trim csvText))
  /\ Forall (fun line => trim line <> []) (csvLines csvText).
Proof.
  intros Hin. unfold parseCsv in Hin.
  destruct (parseCsvFrom_In _ _ _ Hin) as (k & raw & Hk & Hp).
  pose proof (parseCsvLine_lineNumber _ _ _ Hp) as Hn. simpl in Hp, Hn.
  repeat split.
  - lia.
  - exists raw. replace (CsvRow.lineNumber row - 1) with k by lia. now split.
  - apply Forall_forall. intros line Hl. unfold csvLines in Hl.
    apply filter_In in Hl as [_ Hl]. intros E. rewrite E in Hl. discriminate.
Qed.

(** The third line of the text is its second line that is not blank: the
    row read from it has line number 2. *)
Lemma parseCsv_lineNumber_witness :
  let csvText : str := join [LF] ["A,B,C,Engineer,Onshore,M&S,Al" : str; [];
                                  "A,B,D,Engineer,Onshore,M&S,Bo" : str] in
  let row := CsvRow.mk "A" "B" "D" "Engineer" "Onshore" "M&S" "Bo" 2 in
  In row (parseCsv csvText)
  /\ nth_error (split LF csvText) 2 = Some ("A,B,D,Engineer,Onshore,M&S,Bo" : str)
  /\ 1 <= CsvRow.lineNumber row
  /\ (exists raw,
        nth_error (csvLines csvText) (CsvRow.lineNumber row - 1) = Some raw
        /\ parseCsvLine (CsvRow.lineNumber row - 1) raw = Some row).
Proof.
  cbv zeta.
  assert (H : In (CsvRow.mk "A" "B" "D" "Engineer" "Onshore" "M&S" "Bo" 2)
                 (parseCsv (join [LF] ["A,B,C,Engineer,Onshore,M&S,Al" : str; [];
                                       "A,B,D,Engineer,Onshore,M&S,Bo" : str])))
    by (vm_compute; right; left; reflexivity).
  split; [exact H|]. split; [vm_compute; reflexivity|].
  pose proof (parseCsv_lineNumber _ _ H) as (H1 & H2 & _).
  split; [exact H1|exact H2].
Defined.

(** ** Name matching *)

Lemma sameFirst_hd (x y : str) : sameFirst x y = true <-> hd_error x = hd_error y.
Proof.
  destruct x as [|c x], y as [|d y]; simpl; split; try congruence; try reflexivity.
  - intros H. apply Ascii.eqb_eq in H. congruence.
  - intros H. injection H as ->. apply Ascii.eqb_refl.
Qed.

(** C7, as amended.  When the two normalised names are neither equal nor
    contained one in the other, [namesMatch] answers true exactly when
    their last space-delimited tokens are equal and longer than two
    characters and the first characters of their first tokens are equal. *)
Theorem namesMatch_surname_fallback (csvName appName : str) :
  let a := toLowerCase (normaliseName csvName) in
  let b := toLowerCase (normaliseName appName) in
  a <> b -> includes a b = false -> includes b a = false ->
  (namesMatch csvName (Some appName) = true
   <-> last (split SPACE a) [] = last (split SPACE b) []
       /\ 2 < length (last (split SPACE a) [])
       /\ hd_error (hd [] (split SPACE a)) = hd_error (hd [] (split SPACE b))).
Proof.
  intros a b Hne Hab Hba.
  assert (Happ : nonEmpty appName = true).
  { destruct appName; [|reflexivity].
    subst b. cbn in Hab. rewrite includes_nil in Hab. discriminate. }
  unfold namesMatch. cbn [truthy nullish]. rewrite Happ. cbn [negb].
  fold a. fold b.
  apply eqs_neq in Hne. rewrite Hne, Hab, Hba. cbn [orb].
  destruct (2 <? length (last (split SPACE a) [])) eqn:Elen; cbn [andb].
  - apply Nat.ltb_lt in Elen.
    destruct (eqs (last (split SPACE a) []) (last (split SPACE b) [])) eqn:Elast.
    + apply eqs_eq in Elast.
      destruct (sameFirst (hd [] (split SPACE a)) (hd [] (split SPACE b))) eqn:Ef.
      * apply sameFirst_hd in Ef. tauto.
      * split; [discriminate|]. intros (_ & _ & H). apply sameFirst_hd in H. congruence.
    + apply eqs_neq in Elast. split; [discriminate|]. tauto.
  - apply Nat.ltb_ge in Elen. split; [discriminate|]. intros (_ & H & _). lia.
Qed.

Lemma namesMatch_surname_fallback_witness :
  namesMatch "Mr. Jon Smith" (Some ("Jane Smith" : str)) = true
  <-> last (split SPACE (toLowerCase (normaliseName "Mr. Jon Smith"))) []
      = last (split SPACE (toLowerCase (normaliseName "Jane Smith"))) []
      /\ 2 < length (last (split SPACE (toLowerCase (normaliseName "Mr. Jon Smith"))) [])
      /\ hd_error (hd [] (split SPACE (toLowerCase (normaliseName "Mr. Jon Smith"))))
         = hd_error (hd [] (split SPACE (toLowerCase (normaliseName "Jane Smith")))).
Proof.
  apply (namesMatch_surname_fallback "Mr. Jon Smith" "Jane Smith").
  - vm_compute. discriminate.
  - vm_compute. reflexivity.
  - vm_compute. reflexivity.
Defined.

(** C7 as stated fails: "Jo Li" and "Jim Li" are neither equal nor
    contained one in the other, their last tokens are equal and their first
    tokens open with the same character, and [namesMatch] answers false:
    the surname has two characters only. *)
Lemma namesMatch_short_surname :
  let a := toLowerCase (normaliseName "Jo Li") in
  let b := toLowerCase (normaliseName "Jim Li") in
  a <> b /\ includes a b = false /\ includes b a = false
  /\ last (split SPACE a) [] = last (split SPACE b) []
  /\ hd_error (hd [] (split SPACE a)) = hd_error (hd [] (split SPACE b))
  /\ namesMatch "Jo Li" (Some ("Jim Li" : str)) = false.
Proof.
  cbv zeta. repeat split; try (vm_compute; reflexivity).
  vm_compute. discriminate.
Qed.

(** ** The generator *)

Lemma sortMembers_fold (members : list (Person.t Role)) :
  forall named unnamed,
  fold_left (fun '(named, unnamed) m =>
               if truthy (Person.name m) then (named ++ [m], unnamed)
               else (named, countUnnamed (groupingKey m) m unnamed))
            members (named, unnamed)
  = (named ++ filter (fun m => truthy (Person.name m)) members,
     collectUnnamed members unnamed).
Proof.
  induction members as [|m members IH]; intros named unnamed; simpl.
  - now rewrite app_nil_r.
  - destruct (truthy (Person.name m)) eqn:E; rewrite IH;
      unfold collectUnnamed; simpl; rewrite ?E, <- ?app_assoc; reflexivity.
Qed.

Lemma countOf_countUnnamed (key key' : str) (m : Person.t Role) (unnamed : Unnamed) :
  countOf key' (countUnnamed key m unnamed)
  = (if eqs key key' then 1 else 0) + countOf key' unnamed.
Proof.
  induction unnamed as [|[k [p c]] rest IH]; simpl.
  - destruct (eqs key key'); reflexivity.
  - destruct (eqs k key) eqn:Ek; simpl.
    + apply eqs_eq in Ek. subst k.
      destruct (eqs key key'); reflexivity.
    + destruct (eqs k key') eqn:Ek'; [|exact IH].
      apply eqs_eq in Ek'. subst k.
      replace (eqs key key') with false; [reflexivity|].
      symmetry. apply eqs_neq. apply eqs_neq in Ek. congruence.
Qed.

Lemma keys_countUnnamed (key : str) (m : Person.t Role) (unnamed : Unnamed) :
  map fst (countUnnamed key m unnamed)
  = if existsb (fun k => eqs k key) (map fst unnamed) then map fst unnamed
    else map fst unnamed ++ [key].
Proof.
  induction unnamed as [|[k [p c]] rest IH]; simpl; [reflexivity|].
  destruct (eqs k key) eqn:Ek; simpl; [reflexivity|].
  rewrite IH. now destruct (existsb _ _).
Qed.

Lemma existsb_key_In (key : str) (keys : list str) :
  existsb (fun k => eqs k key) keys = true <-> In key keys.
Proof.
  rewrite existsb_exists. split.
  - intros (k & Hk & E). apply eqs_eq in E. now subst.
  - intros H. exists key. split; [exact H|apply eqs_refl].
Qed.

Lemma NoDup_countUnnamed (key : str) (m : Person.t Role) (unnamed : Unnamed) :
  NoDup (map fst unnamed) -> NoDup (map fst (countUnnamed key m unnamed)).
Proof.
  intros H. rewrite keys_countUnnamed.
  destruct (existsb _ _) eqn:E; [exact H|].
  apply NoDup_app; [exact H|repeat constructor; intros []|].
  intros k Hk [<-|[]]. apply existsb_key_In in Hk. congruence.
Qed.

Lemma In_countUnnamed (key : str) (m : Person.t Role) (unnamed : Unnamed) :
  forall k p c, In (k, (p, c)) (countUnnamed key m unnamed) ->
  (exists c', In (k, (p, c')) unnamed) \/ (k = key /\ p = m).
Proof.
  induction unnamed as [|[k0 [p0 c0]] rest IH]; intros k p c Hin; simpl in Hin.
  - destruct Hin as [H|[]]. injection H as <- <- <-. now right.
  - destruct (eqs k0 key) eqn:Ek.
    + left. destruct Hin as [H|Hin].
      * injection H as <- <- <-. exists c0. now left.
      * exists c. now right.
    + destruct Hin as [H|Hin].
      * injection H as <- <- <-. left. exists c0. now left.
      * destruct (IH _ _ _ Hin) as [[c' H]|H]; [|now right].
        left. exists c'. now right.
Qed.

Lemma countOf_In (unnamed : Unnamed) :
  NoDup (map fst unnamed) ->
  forall k p c, In (k, (p, c)) unnamed -> countOf k unnamed = c.
Proof.
  induction unnamed as [|[k0 [p0 c0]] rest IH]; intros Hnd k p c Hin; [contradiction|].
  simpl in Hnd. apply NoDup_cons_iff in Hnd as [Hk0 Hnd]. simpl.
  destruct Hin as [H|Hin].
  - injection H as <- <- <-. now rewrite eqs_refl.
  - destruct (eqs k0 k) eqn:E.
    + apply eqs_eq in E. subst k0. exfalso. apply Hk0.
      apply in_map_iff. now exists (k, (p, c)).
    + now apply (IH Hnd k p c).
Qed.


Lemma coalesced_step (seen : list (Person.t Role)) (unnamed : Unnamed) (m : Person.t Role) :
  coalesced seen unnamed ->
  coalesced (seen ++ [m])
            (if truthy (Person.name m) then unnamed
             else countUnnamed (groupingKey m) m unnamed).
Proof.
  intros (Hnd & Hcount & Hent).
  unfold coalesced, unnamedWith, isUnnamed.
  destruct (truthy (Person.name m)) eqn:En.
  - split; [exact Hnd|]. split.
    + intros key. rewrite filter_app, length_app. simpl. rewrite En. simpl.
      rewrite Nat.add_0_r. apply Hcount.
    + intros k p c Hin. destruct (Hent _ _ _ Hin) as (H1 & H2 & H3).
      repeat split; auto. apply in_or_app. now left.
  - split; [now apply NoDup_countUnnamed|]. split.
    + intros key. rewrite countOf_countUnnamed, filter_app, length_app.
      rewrite Hcount. simpl. rewrite En. simpl.
      destruct (eqs (groupingKey m) key); simpl; unfold unnamedWith, isUnnamed; lia.
    + intros k p c Hin.
      destruct (In_countUnnamed _ _ _ _ _ _ Hin) as [[c' H]|[-> ->]].
      * destruct (Hent _ _ _ H) as (H1 & H2 & H3).
        repeat split; auto. apply in_or_app. now left.
      * repeat split.
        -- apply in_or_app. right. now left.
        -- unfold isUnnamed. now rewrite En.
Qed.

Lemma coalesced_collect (members : list (Person.t Role)) :
  forall seen unnamed,
  coalesced seen unnamed ->
  coalesced (seen ++ members) (collectUnnamed members unnamed).
Proof.
  induction members as [|m members IH]; intros seen unnamed H.
  - now rewrite app_nil_r.
  - unfold collectUnnamed. simpl.
    replace (seen ++ m :: members) with ((seen ++ [m]) ++ members)
      by (now rewrite <- app_assoc).
    apply IH. now apply coalesced_step.
Qed.

Lemma Role_str_key (r1 r2 : Role) (x y : str) :
  Role_str r1 ++ "|" ++ x = Role_str r2 ++ "|" ++ y -> r1 = r2 /\ x = y.
Proof.
  destruct r1, r2; intros H; vm_compute in H;
    first [now (split; [reflexivity|congruence]) | exfalso; congruence].
Qed.

Lemma EmployeeType_str_key (t1 t2 : EmployeeType) (x y : str) :
  EmployeeType_str t1 ++ "|" ++ x = EmployeeType_str t2 ++ "|" ++ y -> t1 = t2 /\ x = y.
Proof.
  destruct t1, t2; intros H; vm_compute in H;
    first [now (split; [reflexivity|congruence]) | exfalso; congruence].
Qed.

Lemma Location_str_key (l1 l2 : Location) (x y : str) :
  Location_str l1 ++ "|" ++ x = Location_str l2 ++ "|" ++ y -> l1 = l2 /\ x = y.
Proof.
  destruct l1, l2; intros H; vm_compute in H;
    first [now (split; [reflexivity|congruence]) | exfalso; congruence].
Qed.




(** C9.  The lines of a team are the lines of its unnamed members, one for
    each grouping key in the order the keys first occur, each standing for
    as many members as share the key, and after all of them the lines of
    its named members, in their order in the team.  Two members share a
    key exactly when they have the same role, type, location and vendor,
    so that the line of a key stands for the unnamed members of that
    role, type, location and vendor, and for no other. *)


(** ** The employee invariant *)






Lemma withId_employee (id : str) (p : PersonData.t) :
  employeeOnshore (withId id p) = dataEmployeeOnshore p.
Proof.
  unfold employeeOnshore, dataEmployeeOnshore, withId. simpl.
  destruct (PersonData.type p); [|reflexivity].
  now destruct (PersonData.location p).
Qed.

Lemma withIds_employee (ids : IdSource) (ps : list PersonData.t) :
  forall n, forallb dataEmployeeOnshore ps = true ->
  Forall (fun p => employeeOnshore p = true) (withIds ids n ps).
Proof.
  induction ps as [|p ps IH]; intros n H; simpl; constructor.
  - simpl in H. apply andb_true_iff in H as [H _]. now rewrite withId_employee.
  - simpl in H. apply andb_true_iff in H as [_ H]. now apply IH.
Qed.

Section ParserInvariant.
(** A property of persons kept by the parser once every person it
    builds has it. *)
Variable P : Person.t RoleValue -> Prop.















Lemma finishTeam_team (st : Parser.t) :
  Parser.currentGroup st <> None -> Parser.currentTeam (finishTeam st) = None.
Proof.
  destruct st as [? ? ? ? ? ? ? ? [g|] [t|] ? ?]; unfold finishTeam; simpl; congruence.
Qed.




(** Every person the two line parsers build has the property. *)
Hypothesis built_person : forall text id,
  match parsePersonLine text with
  | Persons persons => Forall (fun p => P (withId id p)) persons
  | PersonError _ => True
  end.
Hypothesis built_leader : forall text prefix role id,
  match parseLeadershipLine text prefix role with
  | Leader person => P (withId id person)
  | LeaderError _ => True
  end.

Lemma built_withIds (ids : IdSource) (ps : list PersonData.t) :
  (forall id, Forall (fun p => P (withId id p)) ps) ->
  forall n, Forall P (withIds ids n ps).
Proof.
  induction ps as [|p ps IH]; intros H n; simpl; constructor.
  - specialize (H (ids n)). now inversion H.
  - apply IH. intros id. specialize (H id). now inversion H.
Qed.








End ParserInvariant.






(** ** All or nothing *)

(** C2.  When the scan of a text has collected errors, [parseMarkdown]
    returns no portfolio and returns these errors, followed by the error of
    a missing portfolio heading when there is none; it returns a portfolio
    exactly when it returns no error.  The document [oneBadLine], a valid
    team and a member of role "Wizard" on line 6, gives no portfolio and the
    one error of line 6; without that line it gives its one team. *)
Theorem parseMarkdown_all_or_nothing (ids : IdSource) (text : str) :
  let st := scanMarkdown ids text in
  let result := parseMarkdown ids text in
  match Parser.errors st with
  | [] => True
  | _ :: _ =>
      ParseResult.portfolio result = None
      /\ ParseResult.errors result
         = Parser.errors st
           ++ (if truthy (Parser.portfolioName st) then []
               else [ParseError.mk 1 MissingPortfolioHeading])
  end
  /\ (ParseResult.portfolio result = None <-> ParseResult.errors result <> [])
  /\ parseMarkdown ids oneBadLine
     = ParseResult.mk None [ParseError.mk 6 (UnknownRoleName "Wizard")]
  /\ option_map (fun p => map (fun t => Team.name t) (teamsOfParsed p))
                (ParseResult.portfolio (parseMarkdown ids noBadLine))
     = Some ["Core" : str].
Proof.
  intros st result. subst result. unfold parseMarkdown. fold st.
  split; [|split; [|split]].
  - destruct (Parser.errors st) as [|e es] eqn:Ee; [exact I|].
    destruct (truthy (Parser.portfolioName st)); simpl.
    + split; [reflexivity|]. now rewrite app_nil_r.
    + split; reflexivity.
  - destruct (truthy (Parser.portfolioName st)); simpl.
    + destruct (Parser.errors st) as [|e es]; simpl.
      * split; [discriminate|]. intros H. now contradiction H.
      * split; [discriminate|reflexivity].
    + split; [|reflexivity]. intros _. now destruct (Parser.errors st).
  - vm_compute. reflexivity.
  - vm_compute. reflexivity.
Qed.

(** ** The importer *)

(** *** The order of binary64 numbers *)


Ltac sf_order :=
  unfold SFltb, SFleb, SFcompare;
  repeat match goal with
         | |- context [PosDef.Pos.compare_cont Eq ?a ?b] =>
             change (PosDef.Pos.compare_cont Eq a b) with (Pos.compare a b)
         end;
  repeat match goal with
         | |- context [Z.compare ?a ?b] => destruct (Z.compare_spec a b)
         | |- context [Pos.compare ?a ?b] => destruct (Pos.compare_spec a b)
         end;
  cbn [CompOpp]; try discriminate; try reflexivity; try lia.

Lemma SFltb_trans (x y z : spec_float) :
  SFltb x y = true -> SFltb y z = true -> SFltb x z = true.
Proof.
  destruct x as [[]|[]| |[] mx ex], y as [[]|[]| |[] my ey], z as [[]|[]| |[] mz ez];
    try (cbn; discriminate); try (cbn; reflexivity); sf_order; subst; sf_order.
Qed.

Lemma SFltb_leb_trans (x y z : spec_float) :
  SFltb x y = true -> SFleb y z = true -> SFltb x z = true.
Proof.
  destruct x as [[]|[]| |[] mx ex], y as [[]|[]| |[] my ey], z as [[]|[]| |[] mz ez];
    try (cbn; discriminate); try (cbn; reflexivity); sf_order; subst; sf_order.
Qed.

Lemma SFltb_irrefl (x : spec_float) : SFltb x x = false.
Proof.
  destruct x as [[]|[]| |[] mx ex]; try reflexivity; unfold SFltb, SFcompare;
    rewrite Z.compare_refl; change (PosDef.Pos.compare_cont Eq mx mx) with (Pos.compare mx mx);
    now rewrite Pos.compare_refl.
Qed.

Lemma ltb_trans (x y z : float) :
  PrimFloat.ltb x y = true -> PrimFloat.ltb y z = true -> PrimFloat.ltb x z = true.
Proof. rewrite !FloatAxioms.ltb_spec. apply SFltb_trans. Qed.

Lemma ltb_leb_trans (x y z : float) :
  PrimFloat.ltb x y = true -> PrimFloat.leb y z = true -> PrimFloat.ltb x z = true.
Proof. rewrite !FloatAxioms.ltb_spec, FloatAxioms.leb_spec. apply SFltb_leb_trans. Qed.

Lemma ltb_irrefl (x : float) : PrimFloat.ltb x x = false.
Proof. rewrite FloatAxioms.ltb_spec. apply SFltb_irrefl. Qed.

Lemma has_In (l : list str) (x : str) : has l x = true <-> In x l.
Proof.
  unfold has. rewrite existsb_exists. split.
  - intros (y & Hy & E). apply eqs_eq in E. now subst.
  - intros H. exists x. split; [exact H|apply eqs_refl].
Qed.

Lemma has_setAdd (l : list str) (x y : str) :
  has (setAdd l x) y = has l y || eqs y x.
Proof.
  unfold setAdd. destruct (has l x) eqn:E.
  - destruct (eqs y x) eqn:Eyx; [|now rewrite orb_false_r].
    apply eqs_eq in Eyx. subst. now rewrite E.
  - unfold has. rewrite existsb_app. simpl. now rewrite orb_false_r.
Qed.

Lemma betterMatch_unclaimed (claimedTeams : list str) (csvGroup : CsvTeamGroup.t)
    (best : option (AppTeamLocation.t * MatchResult.t)) (appTeam : AppTeamLocation.t) :
  betterMatch claimedTeams csvGroup best appTeam
  = if unclaimed claimedTeams appTeam then betterMatch [] csvGroup best appTeam else best.
Proof.
  unfold betterMatch, unclaimed.
  now destruct (has claimedTeams (AppTeamLocation.teamId appTeam)).
Qed.

Lemma fold_betterMatch_filter (claimedTeams : list str) (csvGroup : CsvTeamGroup.t)
    (appTeams : list AppTeamLocation.t) :
  forall best,
  fold_left (betterMatch claimedTeams csvGroup) appTeams best
  = fold_left (betterMatch [] csvGroup) (filter (unclaimed claimedTeams) appTeams) best.
Proof.
  induction appTeams as [|t ts IH]; intros best; simpl; [reflexivity|].
  rewrite betterMatch_unclaimed.
  destruct (unclaimed claimedTeams t); simpl; apply IH.
Qed.

Lemma findBest_filter (claimedTeams : list str) (csvGroup : CsvTeamGroup.t)
    (appTeams : list AppTeamLocation.t) :
  findBest claimedTeams csvGroup appTeams
  = findBest [] csvGroup (filter (unclaimed claimedTeams) appTeams).
Proof. apply fold_betterMatch_filter. Qed.

Lemma fold_betterMatch_from (claimedTeams : list str) (csvGroup : CsvTeamGroup.t)
    (appTeams : list AppTeamLocation.t) :
  forall best t r,
  fold_left (betterMatch claimedTeams csvGroup) appTeams best = Some (t, r) ->
  best = Some (t, r)
  \/ (In t appTeams /\ unclaimed claimedTeams t = true /\ r = scoreMatch csvGroup t).
Proof.
  induction appTeams as [|a ts IH]; intros best t r H; simpl in H; [now left|].
  apply IH in H as [H|(Hin & Hu & Hr)].
  - unfold betterMatch in H. unfold unclaimed.
    destruct (has claimedTeams (AppTeamLocation.teamId a)) eqn:Eh; [now left|].
    destruct best as [[t0 r0]|].
    + destruct (PrimFloat.ltb _ _); [|now left].
      injection H as <- <-. right. simpl. rewrite Eh. auto.
    + injection H as <- <-. right. simpl. rewrite Eh. auto.
  - right. simpl. auto.
Qed.

Lemma fold_betterMatch_none (claimedTeams : list str) (csvGroup : CsvTeamGroup.t)
    (appTeams : list AppTeamLocation.t) :
  forall best,
  fold_left (betterMatch claimedTeams csvGroup) appTeams best = None
  <-> best = None /\ forallb (fun t => negb (unclaimed claimedTeams t)) appTeams = true.
Proof.
  induction appTeams as [|a ts IH]; intros best; simpl.
  - tauto.
  - rewrite IH, betterMatch_unclaimed.
    destruct (unclaimed claimedTeams a); simpl.
    + unfold betterMatch. simpl. destruct best as [[t0 r0]|].
      * destruct (PrimFloat.ltb _ _); (split; [intros [H _]|intros [_ H]]; discriminate).
      * split; [intros [H _]|intros [_ H]]; discriminate.
    + tauto.
Qed.

Lemma findBest_some (claimedTeams : list str) (csvGroup : CsvTeamGroup.t)
    (appTeams : list AppTeamLocation.t) (t : AppTeamLocation.t) (r : MatchResult.t) :
  findBest claimedTeams csvGroup appTeams = Some (t, r) ->
  In t appTeams /\ has claimedTeams (AppTeamLocation.teamId t) = false
  /\ r = scoreMatch csvGroup t.
Proof.
  intros H. apply fold_betterMatch_from in H as [H|(H1 & H2 & H3)]; [discriminate|].
  repeat split; auto. unfold unclaimed in H2. now destruct (has _ _).
Qed.

(** The inner loop keeps the best candidate of the app teams it has
    seen. *)
Lemma fold_betterMatch_best (claimedTeams : list str) (csvGroup : CsvTeamGroup.t)
    (appTeams : list AppTeamLocation.t) :
  forall seen best,
  match best with
  | Some (b, rb) => rb = scoreMatch csvGroup b /\ bestCandidate claimedTeams csvGroup seen b
  | None => forall u, In u seen -> unclaimed claimedTeams u = false
  end ->
  match fold_left (betterMatch claimedTeams csvGroup) appTeams best with
  | Some (b, rb) =>
      rb = scoreMatch csvGroup b
      /\ bestCandidate claimedTeams csvGroup (seen ++ appTeams) b
  | None => forall u, In u (seen ++ appTeams) -> unclaimed claimedTeams u = false
  end.
Proof.
  induction appTeams as [|a rest IH]; intros seen best Hinv.
  - cbn [fold_left]. now rewrite app_nil_r.
  - cbn [fold_left].
    replace (seen ++ a :: rest) with ((seen ++ [a]) ++ rest) by now rewrite <- app_assoc.
    apply IH. rewrite betterMatch_unclaimed.
    destruct (unclaimed claimedTeams a) eqn:Ea.
    + unfold betterMatch. cbn [has existsb].
      assert (Hnew : forall b rb,
                 best = Some (b, rb) \/ best = None ->
                 (best = Some (b, rb) ->
                  PrimFloat.ltb (MatchResult.score rb) (scoreOf csvGroup a) = true) ->
                 scoreMatch csvGroup a = scoreMatch csvGroup a
                 /\ bestCandidate claimedTeams csvGroup (seen ++ [a]) a).
      { intros b rb Hb Hlt. split; [reflexivity|]. split; [exact Ea|]. split.
        - intros u Hu Hun. apply in_app_or in Hu as [Hu|[<-|[]]]; [|apply ltb_irrefl].
          destruct Hb as [Hb|Hb]; rewrite Hb in Hinv.
          + destruct Hinv as (-> & _ & Hmax & _).
            destruct (PrimFloat.ltb (scoreOf csvGroup a) (scoreOf csvGroup u)) eqn:E;
              [|reflexivity].
            rewrite <- (Hmax u Hu Hun). symmetry.
            apply (ltb_trans _ (scoreOf csvGroup a)); [exact (Hlt Hb)|exact E].
          + rewrite (Hinv u Hu) in Hun. discriminate.
        - exists seen, []. split; [reflexivity|]. intros u Hu Hun.
          destruct Hb as [Hb|Hb]; rewrite Hb in Hinv.
          + destruct Hinv as (-> & _ & Hmax & _).
            destruct (PrimFloat.leb (scoreOf csvGroup a) (scoreOf csvGroup u)) eqn:E;
              [|reflexivity].
            rewrite <- (Hmax u Hu Hun). symmetry.
            apply (ltb_leb_trans _ (scoreOf csvGroup a)); [exact (Hlt Hb)|exact E].
          + rewrite (Hinv u Hu) in Hun. discriminate. }
      destruct best as [[b rb]|].
      * fold (scoreOf csvGroup a).
        destruct (PrimFloat.ltb (MatchResult.score rb) (scoreOf csvGroup a)) eqn:Elt.
        -- apply (Hnew b rb); [now left|now intros _].
        -- destruct Hinv as (-> & Hun & Hmax & before & after & -> & Hbefore).
           split; [reflexivity|]. split; [exact Hun|]. split.
           ++ intros u Hu Hu'. apply in_app_or in Hu as [Hu|[<-|[]]];
                [now apply Hmax|exact Elt].
           ++ exists before, (after ++ [a]). split; [|exact Hbefore].
              now rewrite <- app_assoc.
      * apply (Hnew a (scoreMatch csvGroup a)); [now right|discriminate].
    + destruct best as [[b rb]|].
      * destruct Hinv as (-> & Hun & Hmax & before & after & -> & Hbefore).
        split; [reflexivity|]. split; [exact Hun|]. split.
        -- intros u Hu Hu'. apply in_app_or in Hu as [Hu|[<-|[]]];
             [now apply Hmax|congruence].
        -- exists before, (after ++ [a]). split; [|exact Hbefore].
           now rewrite <- app_assoc.
      * intros u Hu. apply in_app_or in Hu as [Hu|[<-|[]]]; [now apply Hinv|exact Ea].
Qed.

(** The selection of the inner loop is the best candidate. *)
Lemma findBest_best (claimedTeams : list str) (csvGroup : CsvTeamGroup.t)
    (appTeams : list AppTeamLocation.t) (t : AppTeamLocation.t) (r : MatchResult.t) :
  findBest claimedTeams csvGroup appTeams = Some (t, r) ->
  r = scoreMatch csvGroup t /\ bestCandidate claimedTeams csvGroup appTeams t.
Proof.
  intros H. pose proof (fold_betterMatch_best claimedTeams csvGroup appTeams [] None) as Hb.
  fold (findBest claimedTeams csvGroup appTeams) in Hb. rewrite H in Hb.
  apply Hb. intros u [].
Qed.

Lemma filter_unclaimed_setAdd (claimedTeams : list str) (teamId : str)
    (appTeams : list AppTeamLocation.t) :
  filter (unclaimed (setAdd claimedTeams teamId)) appTeams
  = filter (unclaimed claimedTeams) (filter (otherTeam teamId) appTeams).
Proof.
  induction appTeams as [|a ts IH]; simpl; [reflexivity|].
  unfold unclaimed at 1, otherTeam at 1. rewrite has_setAdd.
  destruct (eqs (AppTeamLocation.teamId a) teamId) eqn:E.
  - apply eqs_eq in E. subst. rewrite eqs_refl, orb_true_r. simpl. exact IH.
  - replace (eqs teamId (AppTeamLocation.teamId a)) with false.
    + rewrite orb_false_r. simpl. fold (unclaimed claimedTeams a).
      destruct (unclaimed claimedTeams a); [f_equal|]; exact IH.
    + symmetry. apply eqs_neq. apply eqs_neq in E. congruence.
Qed.

Lemma importGroup_cases (ids : IdSource) (portfolio : Portfolio.t Role)
    (appTeams : list AppTeamLocation.t) (st : ImportState.t) (csvGroup : CsvTeamGroup.t) :
  let best := findBest (ImportState.claimedTeams st) csvGroup appTeams in
  let st' := importGroup ids portfolio appTeams st csvGroup in
  if isUnmatched best then recordedUnmatched st st' csvGroup best
  else exists t r, best = Some (t, r) /\ recordedMatched st st' t.
Proof.
  intros best st'. subst st'. unfold importGroup. fold best.
  destruct best as [[t r]|] eqn:Eb.
  - destruct (isUnmatched (Some (t, r))) eqn:Eu.
    + unfold recordedUnmatched. simpl. repeat split.
    + exists t, r. split; [reflexivity|].
      unfold recordedMatched. simpl. repeat split; eexists; eauto.
  - simpl. unfold recordedUnmatched. simpl. repeat split.
Qed.

Lemma forallb_claimed (claimedTeams : list str) (appTeams : list AppTeamLocation.t) :
  forallb (fun t => negb (unclaimed claimedTeams t)) appTeams
  = forallb (fun t => has claimedTeams (AppTeamLocation.teamId t)) appTeams.
Proof.
  induction appTeams as [|a l IH]; simpl; [reflexivity|].
  unfold unclaimed at 1. now rewrite negb_involutive, IH.
Qed.

(** C4.  A team-group is recorded as unmatched, with every one of its rows
    skipped, exactly when the selection returns no candidate, which is when
    every app team is claimed or there is none, or the score of the best
    candidate is strictly below 0.45; otherwise it is matched.  The
    selection is the best candidate: an unclaimed app team, with the score
    [scoreMatch] gives it, that no unclaimed app team exceeds, and the
    first such.  A score of 0.45 is matched and a score of 0.449999 is
    not. *)
Theorem threshold_boundary (ids : IdSource) (portfolio : Portfolio.t Role)
    (appTeams : list AppTeamLocation.t) (st : ImportState.t) (csvGroup : CsvTeamGroup.t)
    (appTeam : AppTeamLocation.t) (confirmed : bool) :
  let best := findBest (ImportState.claimedTeams st) csvGroup appTeams in
  let st' := importGroup ids portfolio appTeams st csvGroup in
  (if isUnmatched best then recordedUnmatched st st' csvGroup best
   else exists t r, best = Some (t, r) /\ recordedMatched st st' t)
  /\ (isUnmatched best = true
      <-> best = None
          \/ exists t r, best = Some (t, r)
                         /\ PrimFloat.ltb (MatchResult.score r) 0.45%float = true)
  /\ (best = None
      <-> forallb (fun t => has (ImportState.claimedTeams st) (AppTeamLocation.teamId t))
                  appTeams = true)
  /\ (forall t r, best = Some (t, r) ->
        r = scoreMatch csvGroup t
        /\ bestCandidate (ImportState.claimedTeams st) csvGroup appTeams t)
  /\ (isUnmatched best = true
      <-> forallb (fun t => has (ImportState.claimedTeams st) (AppTeamLocation.teamId t))
                  appTeams = true
          \/ exists t, best = Some (t, scoreMatch csvGroup t)
                       /\ bestCandidate (ImportState.claimedTeams st) csvGroup appTeams t
                       /\ PrimFloat.ltb (scoreOf csvGroup t) MATCH_THRESHOLD = true)
  /\ isUnmatched (Some (appTeam, MatchResult.mk 0.45%float confirmed)) = false
  /\ isUnmatched (Some (appTeam, MatchResult.mk 0.449999%float confirmed)) = true.
Proof.
  intros best st'.
  assert (Hnone : best = None
            <-> forallb (fun t => has (ImportState.claimedTeams st)
                                      (AppTeamLocation.teamId t)) appTeams = true).
  { unfold best, findBest. rewrite fold_betterMatch_none.
    assert (E : forall l,
               forallb (fun t => negb (unclaimed (ImportState.claimedTeams st) t)) l
               = forallb (fun t => has (ImportState.claimedTeams st)
                                       (AppTeamLocation.teamId t)) l).
    { induction l as [|a l IH]; simpl; [reflexivity|].
      unfold unclaimed at 1. now rewrite negb_involutive, IH. }
    rewrite E. tauto. }
  split; [apply importGroup_cases|]. split; [|split; [exact Hnone|split; [|split; [|split]]]].
  - destruct best as [[t r]|]; simpl.
    + split.
      * intros H. right. exists t, r. now split.
      * intros [H|(t' & r' & H & Hlt)]; [discriminate|]. now injection H as <- <-.
    + split; auto.
  - intros t r Hb. now apply findBest_best.
  - rewrite <- Hnone. destruct best as [[t r]|] eqn:Eb.
    + destruct (findBest_best _ _ _ _ _ Eb) as [-> Hbest]. cbn [isUnmatched]. split.
      * intros H. right. exists t. split; [reflexivity|split; [exact Hbest|exact H]].
      * intros [H|(t' & H & _ & Hlt)]; [discriminate|]. injection H as <-. exact Hlt.
    + split; auto.
  - reflexivity.
  - reflexivity.
Qed.

Lemma importGroup_exclusive (ids : IdSource) (portfolio : Portfolio.t Role)
    (appTeams : list AppTeamLocation.t) (st : ImportState.t) (csvGroup : CsvTeamGroup.t) :
  let claimedIds st := map TeamMemberReplacement.teamId (ImportState.replacements st) in
  NoDup (claimedIds st)
  /\ (forall x, In x (claimedIds st) -> has (ImportState.claimedTeams st) x = true) ->
  NoDup (claimedIds (importGroup ids portfolio appTeams st csvGroup))
  /\ (forall x, In x (claimedIds (importGroup ids portfolio appTeams st csvGroup)) ->
      has (ImportState.claimedTeams (importGroup ids portfolio appTeams st csvGroup)) x
      = true).
Proof.
  intros claimedIds [Hnd Hcl]. subst claimedIds. cbv beta in *.
  pose proof (importGroup_cases ids portfolio appTeams st csvGroup) as H.
  cbv zeta in H.
  destruct (isUnmatched _).
  - destruct H as (_ & _ & -> & _ & ->). now split.
  - destruct H as (t & r & Hb & _ & (rep & -> & Ht) & _ & ->).
    apply findBest_some in Hb as (_ & Hun & _).
    rewrite map_app. simpl. rewrite Ht. split.
    + apply NoDup_app; [exact Hnd|repeat constructor; intros []|].
      intros x Hx [<-|[]]. apply Hcl in Hx. congruence.
    + intros x Hx. rewrite has_setAdd. apply in_app_or in Hx as [Hx|[<-|[]]].
      * now rewrite (Hcl _ Hx).
      * now rewrite eqs_refl, orb_true_r.
Qed.

Lemma importLoop_exclusive (ids : IdSource) (portfolio : Portfolio.t Role)
    (appTeams : list AppTeamLocation.t) (csvGroups : list CsvTeamGroup.t) :
  forall st,
  NoDup (map TeamMemberReplacement.teamId (ImportState.replacements st))
  /\ (forall x, In x (map TeamMemberReplacement.teamId (ImportState.replacements st)) ->
      has (ImportState.claimedTeams st) x = true) ->
  NoDup (map TeamMemberReplacement.teamId
             (ImportState.replacements
                (fold_left (importGroup ids portfolio appTeams) csvGroups st))).
Proof.
  induction csvGroups as [|g gs IH]; intros st H; simpl; [apply H|].
  apply IH. now apply importGroup_exclusive.
Qed.

Lemma importGroup_claimed (ids : IdSource) (portfolio : Portfolio.t Role)
    (appTeams : list AppTeamLocation.t) (st : ImportState.t) (csvGroup : CsvTeamGroup.t)
    (x : str) :
  has (ImportState.claimedTeams st) x = true ->
  has (ImportState.claimedTeams (importGroup ids portfolio appTeams st csvGroup)) x = true.
Proof.
  intros Hx. pose proof (importGroup_cases ids portfolio appTeams st csvGroup) as H.
  cbv zeta in H. destruct (isUnmatched _).
  - destruct H as (_ & _ & _ & _ & ->). exact Hx.
  - destruct H as (t & r & _ & _ & _ & _ & ->). now rewrite has_setAdd, Hx.
Qed.

Lemma importGroups_claimed (ids : IdSource) (portfolio : Portfolio.t Role)
    (appTeams : list AppTeamLocation.t) (csvGroups : list CsvTeamGroup.t) (x : str) :
  forall st,
  has (ImportState.claimedTeams st) x = true ->
  has (ImportState.claimedTeams (fold_left (importGroup ids portfolio appTeams) csvGroups st)) x
  = true.
Proof.
  induction csvGroups as [|g gs IH]; intros st Hx; [exact Hx|].
  cbn [fold_left]. apply IH. now apply importGroup_claimed.
Qed.

(** C5.  No team identifier occurs in two replacements of a run.  When a
    team-group is matched to an app team, its best candidate, the team is
    claimed and stays claimed, and the selection for a later team-group
    is the selection over the app teams other than the claimed ones: the
    later team-group gets the best candidate among the app teams still
    unclaimed, which is not the team of the first, and is matched to it
    or, when the score is below the threshold or no app team is left,
    recorded as unmatched. *)
Theorem claim_exclusivity (ids : IdSource) (csvText : str) (portfolio : Portfolio.t Role)
    (appTeams : list AppTeamLocation.t) (st : ImportState.t)
    (first : CsvTeamGroup.t) (between : list CsvTeamGroup.t) (second : CsvTeamGroup.t)
    (t : AppTeamLocation.t) (r : MatchResult.t) :
  findBest (ImportState.claimedTeams st) first appTeams = Some (t, r) ->
  isUnmatched (Some (t, r)) = false ->
  let st1 := importGroup ids portfolio appTeams st first in
  let st2 := fold_left (importGroup ids portfolio appTeams) between st1 in
  let best := findBest (ImportState.claimedTeams st2) second appTeams in
  NoDup (map TeamMemberReplacement.teamId (snd (analyseImport ids csvText portfolio)))
  /\ bestCandidate (ImportState.claimedTeams st) first appTeams t
  /\ has (ImportState.claimedTeams st1) (AppTeamLocation.teamId t) = true
  /\ has (ImportState.claimedTeams st2) (AppTeamLocation.teamId t) = true
  /\ findBest (ImportState.claimedTeams st1) second appTeams
     = findBest (ImportState.claimedTeams st) second
                (filter (otherTeam (AppTeamLocation.teamId t)) appTeams)
  /\ match best with
     | Some (t', r') =>
         AppTeamLocation.teamId t' <> AppTeamLocation.teamId t
         /\ In t' appTeams
         /\ has (ImportState.claimedTeams st) (AppTeamLocation.teamId t') = false
         /\ r' = scoreMatch second t'
         /\ bestCandidate (ImportState.claimedTeams st2) second appTeams t'
     | None =>
         forallb (fun u => has (ImportState.claimedTeams st2) (AppTeamLocation.teamId u))
                 appTeams = true
     end
  /\ (if isUnmatched best
      then recordedUnmatched st2 (importGroup ids portfolio appTeams st2 second) second best
      else exists t' r', best = Some (t', r')
                         /\ recordedMatched st2 (importGroup ids portfolio appTeams st2 second)
                                            t').
Proof.
  intros Hbest Hmatched st1 st2 best.
  assert (Hcl : ImportState.claimedTeams st1
                = setAdd (ImportState.claimedTeams st) (AppTeamLocation.teamId t)).
  { pose proof (importGroup_cases ids portfolio appTeams st first) as H.
    cbv zeta in H. rewrite Hbest, Hmatched in H.
    destruct H as (t0 & r0 & E & _ & _ & _ & H). now injection E as <- <-. }
  assert (Hsel : findBest (ImportState.claimedTeams st1) second appTeams
                 = findBest (ImportState.claimedTeams st) second
                     (filter (otherTeam (AppTeamLocation.teamId t)) appTeams)).
  { rewrite Hcl, findBest_filter, filter_unclaimed_setAdd. symmetry.
    apply findBest_filter. }
  assert (Ht1 : has (ImportState.claimedTeams st1) (AppTeamLocation.teamId t) = true).
  { rewrite Hcl, has_setAdd. now rewrite eqs_refl, orb_true_r. }
  assert (Ht2 : has (ImportState.claimedTeams st2) (AppTeamLocation.teamId t) = true).
  { unfold st2. now apply importGroups_claimed. }
  split; [|split; [|split; [exact Ht1|split; [exact Ht2|split; [exact Hsel|split]]]]].
  - unfold analyseImport, importLoop. simpl. apply importLoop_exclusive.
    simpl. split; [constructor|intros x []].
  - now apply (findBest_best _ _ _ _ _ Hbest).
  - destruct best as [[t' r']|] eqn:E.
    + destruct (findBest_best _ _ _ _ _ E) as [Hr' Hcand].
      apply findBest_some in E as (Hin & Hun & _).
      split; [|split; [exact Hin|split; [|split; [exact Hr'|exact Hcand]]]].
      * intros Heq. rewrite Heq in Hun. congruence.
      * destruct (has (ImportState.claimedTeams st) (AppTeamLocation.teamId t')) eqn:Eh;
          [|reflexivity].
        rewrite <- Hun. symmetry. unfold st2. apply importGroups_claimed.
        now apply importGroup_claimed.
    + unfold best, findBest in E. apply fold_betterMatch_none in E as [_ E].
      now rewrite <- forallb_claimed.
  - apply importGroup_cases.
Qed.

(** The two team-groups of [twoClaims] both score highest against the team
    "Core"; the first claims it and the second is matched to the team
    "Core Services", its best candidate among the teams left. *)
Lemma claim_exclusivity_witness :
  let appTeams := enumerateTeams twoTeams in
  let st1 := importGroup idsA twoTeams appTeams importStart firstClaim in
  let best := findBest (ImportState.claimedTeams st1) secondClaim appTeams in
  groupCsvRows (parseCsv twoClaims) = [firstClaim; secondClaim]
  /\ findBest [] firstClaim appTeams = Some (coreTeam, scoreMatch firstClaim coreTeam)
  /\ isUnmatched (Some (coreTeam, scoreMatch firstClaim coreTeam)) = false
  /\ option_map fst (findBest [] secondClaim appTeams) = Some coreTeam
  /\ map TeamMemberReplacement.teamId (snd (analyseImport idsA twoClaims twoTeams))
     = ["t1" : str; "t2" : str]
  /\ NoDup (map TeamMemberReplacement.teamId (snd (analyseImport idsA twoClaims twoTeams)))
  /\ bestCandidate [] firstClaim appTeams coreTeam
  /\ has (ImportState.claimedTeams st1) (AppTeamLocation.teamId coreTeam) = true
  /\ match best with
     | Some (t', r') =>
         AppTeamLocation.teamId t' <> AppTeamLocation.teamId coreTeam
         /\ In t' appTeams
         /\ r' = scoreMatch secondClaim t'
         /\ bestCandidate (ImportState.claimedTeams st1) secondClaim appTeams t'
     | None => False
     end
  /\ isUnmatched best = false.
Proof.
  cbv zeta.
  assert (H1 : findBest [] firstClaim (enumerateTeams twoTeams)
               = Some (coreTeam, scoreMatch firstClaim coreTeam))
    by (vm_compute; reflexivity).
  assert (H2 : isUnmatched (Some (coreTeam, scoreMatch firstClaim coreTeam)) = false)
    by (vm_compute; reflexivity).
  pose proof (claim_exclusivity idsA twoClaims twoTeams (enumerateTeams twoTeams)
                importStart firstClaim [] secondClaim coreTeam
                (scoreMatch firstClaim coreTeam) H1 H2) as H.
  cbv zeta in H. cbn [fold_left] in H.
  destruct H as (Hnd & Hfirst & Hc1 & _ & _ & Hsecond & _).
  split; [vm_compute; reflexivity|].
  split; [exact H1|]. split; [exact H2|].
  split; [vm_compute; reflexivity|].
  split; [vm_compute; reflexivity|].
  split; [exact Hnd|]. split; [exact Hfirst|]. split; [exact Hc1|].
  split; [|vm_compute; reflexivity].
  assert (Hsome : match findBest
                         (ImportState.claimedTeams
                            (importGroup idsA twoTeams (enumerateTeams twoTeams)
                                         importStart firstClaim))
                         secondClaim (enumerateTeams twoTeams) with
                  | Some _ => true
                  | None => false
                  end = true) by (vm_compute; reflexivity).
  destruct (findBest _ secondClaim _) as [[t' r']|]; [|discriminate Hsome].
  destruct Hsecond as (Hne & Hin & _ & Hr & Hcand).
  split; [exact Hne|split; [exact Hin|split; [exact Hr|exact Hcand]]].
Defined.

(** ** Determinism *)

Lemma forgetImportedId_imported (id id' : str) (role : Role) (row : CsvRow.t) :
  isEngineerRole role = true ->
  forgetImportedId (importedPerson id role row)
  = forgetImportedId (importedPerson id' role row).
Proof.
  intros H. unfold forgetImportedId, importedPerson.
  destruct (mapTypeAndVendor (CsvRow.vendor row)) as [ty v]. simpl. now rewrite H.
Qed.

Lemma importRow_deterministic (ids1 ids2 : IdSource) (row : CsvRow.t) (a1 a2 : RowAcc.t) :
  RowAcc.skippedRows a1 = RowAcc.skippedRows a2 ->
  RowAcc.addedChanges a1 = RowAcc.addedChanges a2 ->
  RowAcc.drawn a1 = RowAcc.drawn a2 ->
  map forgetImportedId (RowAcc.newPersons a1) = map forgetImportedId (RowAcc.newPersons a2) ->
  let b1 := importRow ids1 a1 row in
  let b2 := importRow ids2 a2 row in
  RowAcc.skippedRows b1 = RowAcc.skippedRows b2
  /\ RowAcc.addedChanges b1 = RowAcc.addedChanges b2
  /\ RowAcc.drawn b1 = RowAcc.drawn b2
  /\ map forgetImportedId (RowAcc.newPersons b1) = map forgetImportedId (RowAcc.newPersons b2).
Proof.
  intros Hs Ha Hd Hn. cbv zeta. unfold importRow, skipRow.
  destruct (mapRole (CsvRow.role row)) as [[]|]; simpl;
    rewrite ?Hs, ?Ha, ?Hd, ?map_app, ?Hn; repeat split; simpl;
    try (f_equal; f_equal; now apply forgetImportedId_imported);
    try (do 3 f_equal; unfold importedPerson;
         now destruct (mapTypeAndVendor (CsvRow.vendor row))).
Qed.

Lemma importRows_deterministic (ids1 ids2 : IdSource) (rows : list CsvRow.t) :
  forall a1 a2,
  RowAcc.skippedRows a1 = RowAcc.skippedRows a2 ->
  RowAcc.addedChanges a1 = RowAcc.addedChanges a2 ->
  RowAcc.drawn a1 = RowAcc.drawn a2 ->
  map forgetImportedId (RowAcc.newPersons a1) = map forgetImportedId (RowAcc.newPersons a2) ->
  let b1 := fold_left (importRow ids1) rows a1 in
  let b2 := fold_left (importRow ids2) rows a2 in
  RowAcc.skippedRows b1 = RowAcc.skippedRows b2
  /\ RowAcc.addedChanges b1 = RowAcc.addedChanges b2
  /\ RowAcc.drawn b1 = RowAcc.drawn b2
  /\ map forgetImportedId (RowAcc.newPersons b1) = map forgetImportedId (RowAcc.newPersons b2).
Proof.
  induction rows as [|row rows IH]; intros a1 a2 Hs Ha Hd Hn; simpl; [now repeat split|].
  destruct (importRow_deterministic ids1 ids2 row a1 a2 Hs Ha Hd Hn) as (H1 & H2 & H3 & H4).
  now apply IH.
Qed.

(** Two states of the loop that differ in the identifiers drawn only. *)
Lemma importGroup_deterministic (ids1 ids2 : IdSource) (portfolio : Portfolio.t Role)
    (appTeams : list AppTeamLocation.t) (csvGroup : CsvTeamGroup.t)
    (st1 st2 : ImportState.t) :
  sameButIds st1 st2 ->
  sameButIds (importGroup ids1 portfolio appTeams st1 csvGroup)
             (importGroup ids2 portfolio appTeams st2 csvGroup).
Proof.
  intros (Ht & Hs & Hu & Hc & Hd & Hr). unfold importGroup. rewrite Hc.
  destruct (findBest (ImportState.claimedTeams st2) csvGroup appTeams) as [[t r]|].
  - destruct (isUnmatched (Some (t, r))).
    + unfold sameButIds. simpl. now rewrite ?Ht, ?Hs, ?Hu, ?Hc, ?Hd, ?Hr.
    + destruct (importRows_deterministic ids1 ids2 (CsvTeamGroup.rows csvGroup)
                  (RowAcc.mk (ImportState.skippedRows st1) [] [] (ImportState.drawn st1))
                  (RowAcc.mk (ImportState.skippedRows st2) [] [] (ImportState.drawn st2))
                  Hs eq_refl Hd eq_refl) as (H1 & H2 & H3 & H4).
      unfold sameButIds. simpl.
      repeat split; rewrite ?Ht, ?Hu, ?Hc, ?H1, ?H2, ?H3; try reflexivity.
      rewrite !map_app, Hr. simpl. do 2 f_equal.
      unfold forgetImportedIds. simpl. f_equal. now rewrite !map_app, H4.
  - unfold sameButIds. simpl. now rewrite ?Ht, ?Hs, ?Hu, ?Hc, ?Hd, ?Hr.
Qed.

Lemma importLoop_deterministic (ids1 ids2 : IdSource) (portfolio : Portfolio.t Role)
    (appTeams : list AppTeamLocation.t) (csvGroups : list CsvTeamGroup.t) :
  forall st1 st2,
  sameButIds st1 st2 ->
  sameButIds (fold_left (importGroup ids1 portfolio appTeams) csvGroups st1)
             (fold_left (importGroup ids2 portfolio appTeams) csvGroups st2).
Proof.
  induction csvGroups as [|g gs IH]; intros st1 st2 H; simpl; [exact H|].
  apply IH. now apply importGroup_deterministic.
Qed.

(** C6, as amended.  Two runs of [analyseImport] on the same CSV text and
    the same portfolio give the same report and the same replacements but
    for the identifiers drawn for the imported persons: the same teams, and
    for each the same members in the same order. *)
Theorem analyseImport_deterministic (ids1 ids2 : IdSource) (csvText : str)
    (portfolio : Portfolio.t Role) :
  fst (analyseImport ids1 csvText portfolio) = fst (analyseImport ids2 csvText portfolio)
  /\ map forgetImportedIds (snd (analyseImport ids1 csvText portfolio))
     = map forgetImportedIds (snd (analyseImport ids2 csvText portfolio)).
Proof.
  unfold analyseImport, importLoop. cbv zeta.
  destruct (importLoop_deterministic ids1 ids2 portfolio (enumerateTeams portfolio)
              (groupCsvRows (parseCsv csvText)) importStart importStart)
    as (Ht & Hs & Hu & Hc & Hd & Hr).
  { unfold sameButIds. now repeat split. }
  simpl. split; [|exact Hr]. now rewrite Ht, Hs, Hu.
Qed.

(** C6 as stated fails: two runs on the same text and portfolio draw
    their own identifiers for the persons they import, and the replacements
    differ. *)
Lemma analyseImport_fresh_ids :
  snd (analyseImport idsA twoClaims twoTeams) <> snd (analyseImport idsB twoClaims twoTeams).
Proof. vm_compute. discriminate. Qed.

(** ** The round trip *)

Lemma dropWhile_startsOk (s : str) : startsOk s = true -> dropWhile isSpace s = s.
Proof.
  destruct s as [|c s]; simpl; [discriminate|].
  now destruct (isSpace c).
Qed.

Lemma takeWhile_startsOk (s : str) : startsOk s = true -> takeWhile isSpace s = [].
Proof.
  destruct s as [|c s]; simpl; [discriminate|].
  now destruct (isSpace c).
Qed.

Lemma trim_clean (s : str) : startsOk s = true -> endsOk s = true -> trim s = s.
Proof.
  intros Hs He. unfold trim, trimStart, trimEnd.
  rewrite (dropWhile_startsOk s Hs). unfold endsOk in He.
  rewrite (dropWhile_startsOk _ He). apply rev_involutive.
Qed.

Lemma startsOk_app (a b : str) : startsOk a = true -> startsOk (a ++ b) = true.
Proof. destruct a; simpl; [discriminate|auto]. Qed.

Lemma endsOk_app (a b : str) : endsOk b = true -> endsOk (a ++ b) = true.
Proof. unfold endsOk. rewrite rev_app_distr. apply startsOk_app. Qed.

Lemma cleanText_parts (s : str) :
  cleanText s = true ->
  startsOk s = true /\ endsOk s = true /\ forallb notLT s = true /\ trim s = s
  /\ nonEmpty s = true.
Proof.
  unfold cleanText. intros H.
  apply andb_true_iff in H as [H H3]. apply andb_true_iff in H as [H1 H2].
  repeat split; auto.
  - now apply trim_clean.
  - destruct s; [discriminate|reflexivity].
Qed.

Lemma dotPlusEnd_line (s : str) :
  nonEmpty s = true -> forallb notLT s = true -> dotPlusEnd s = Some s.
Proof. intros H1 H2. unfold dotPlusEnd. fold notLT. now rewrite H1, H2. Qed.

Lemma wsPlusRest_space (s : str) :
  startsOk s = true -> forallb notLT s = true -> wsPlusRest (SPACE :: s) = Some s.
Proof.
  intros Hs Hl. unfold wsPlusRest. simpl.
  rewrite (takeWhile_startsOk s Hs), (dropWhile_startsOk s Hs).
  destruct s as [|c s]; [discriminate|]. now apply dotPlusEnd_line.
Qed.

Lemma wsStarRest_space (s : str) :
  startsOk s = true -> forallb notLT s = true -> wsStarRest (SPACE :: s) = Some s.
Proof.
  intros Hs Hl. unfold wsStarRest. simpl.
  rewrite (dropWhile_startsOk s Hs).
  destruct s as [|c s]; [discriminate|]. now apply dotPlusEnd_line.
Qed.

Lemma wsPlusRest_startsOk (s : str) : startsOk s = true -> wsPlusRest s = None.
Proof. intros H. unfold wsPlusRest. now rewrite (takeWhile_startsOk s H). Qed.

Lemma forallb_app_true {A} (f : A -> bool) (a b : list A) :
  forallb f a = true -> forallb f b = true -> forallb f (a ++ b) = true.
Proof. intros Ha Hb. now rewrite forallb_app, Ha, Hb. Qed.

(** *** Splitting and joining *)

Lemma split_lacks (sep : ascii) (s : str) : lacks sep s = true -> split sep s = [s].
Proof.
  induction s as [|c s IH]; simpl; [reflexivity|].
  intros H. apply andb_true_iff in H as [Hc Hs].
  destruct (Ascii.eqb c sep); [discriminate|]. now rewrite (IH Hs).
Qed.

Lemma split_app (sep : ascii) (a b : str) :
  lacks sep a = true -> split sep (a ++ sep :: b) = a :: split sep b.
Proof.
  induction a as [|c a IH]; simpl; intros H.
  - now rewrite Ascii.eqb_refl.
  - apply andb_true_iff in H as [Hc Ha].
    destruct (Ascii.eqb c sep); [discriminate|]. now rewrite (IH Ha).
Qed.

Lemma split_join (sep : ascii) (lines : list str) :
  lines <> [] -> Forall (fun l => lacks sep l = true) lines ->
  split sep (join [sep] lines) = lines.
Proof.
  induction lines as [|l lines IH]; intros Hne Hall; [contradiction|].
  inversion Hall as [|? ? Hl Hrest]; subst.
  destruct lines as [|l' lines].
  - simpl. now apply split_lacks.
  - change (join [sep] (l :: l' :: lines)) with (l ++ sep :: join [sep] (l' :: lines)).
    rewrite split_app by exact Hl. f_equal. apply IH; [discriminate|exact Hrest].
Qed.

Lemma join_app (sep : str) (a b : list str) :
  a <> [] -> b <> [] -> join sep (a ++ b) = join sep a ++ sep ++ join sep b.
Proof.
  induction a as [|x a IH]; intros Ha Hb; [contradiction|].
  destruct a as [|y a].
  - simpl. destruct b; [contradiction|reflexivity].
  - change (join sep ((x :: y :: a) ++ b)) with (x ++ sep ++ join sep ((y :: a) ++ b)).
    rewrite IH by (auto; discriminate).
    change (join sep (x :: y :: a)) with (x ++ sep ++ join sep (y :: a)).
    now rewrite <- !app_assoc.
Qed.

(** A text joined from blocks of lines is the text joined from the lines. *)
Lemma join_blocks (sep : str) (blocks : list (list str)) :
  Forall (fun b => b <> []) blocks ->
  join sep (map (join sep) blocks) = join sep (concat blocks).
Proof.
  induction blocks as [|b blocks IH]; intros H; [reflexivity|].
  inversion H as [|? ? Hb Hrest]; subst.
  destruct blocks as [|b' blocks].
  - simpl. now rewrite app_nil_r.
  - change (map (join sep) (b :: b' :: blocks))
      with (join sep b :: map (join sep) (b' :: blocks)).
    change (join sep (join sep b :: map (join sep) (b' :: blocks)))
      with (join sep b ++ sep ++ join sep (map (join sep) (b' :: blocks))).
    rewrite IH by exact Hrest.
    change (concat (b :: b' :: blocks)) with (b ++ concat (b' :: blocks)).
    rewrite join_app; [reflexivity|exact Hb|].
    inversion Hrest; subst. simpl. destruct b'; [contradiction|discriminate].
Qed.

Lemma parseInt_digits (d : Decimal.uint) :
  forall acc,
  fold_left (fun acc c => 10 * acc + (code c - 48))
            (String.list_ascii_of_string (DecimalString.NilEmpty.string_of_uint d)) acc
  = Nat.of_uint_acc d acc.
Proof.
  induction d; intros acc; simpl; try reflexivity;
    rewrite IHd; f_equal; rewrite Nat.tail_mul_spec; unfold code; simpl; lia.
Qed.

Lemma parseInt_ofNat (n : nat) : parseInt (ofNat n) = n.
Proof.
  unfold parseInt, ofNat, DecimalString.NilZero.string_of_uint.
  rewrite <- (DecimalNat.Unsigned.of_to n) at 2. unfold Nat.of_uint.
  destruct (Nat.to_uint n) eqn:E; try apply parseInt_digits. reflexivity.
Qed.

Lemma digits_isDigit (d : Decimal.uint) :
  forallb isDigit
    (String.list_ascii_of_string (DecimalString.NilEmpty.string_of_uint d)) = true.
Proof. induction d; simpl; auto. Qed.

Lemma ofNat_isDigit (n : nat) : forallb isDigit (ofNat n) = true.
Proof.
  unfold ofNat, DecimalString.NilZero.string_of_uint.
  destruct (Nat.to_uint n); try apply digits_isDigit. reflexivity.
Qed.

Lemma ofNat_nonEmpty (n : nat) : nonEmpty (ofNat n) = true.
Proof.
  unfold ofNat, DecimalString.NilZero.string_of_uint.
  destruct (Nat.to_uint n); reflexivity.
Qed.

Lemma takeWhile_app {A} (f : A -> bool) (a b : list A) :
  forallb f a = true -> takeWhile f (a ++ b) = a ++ takeWhile f b.
Proof.
  induction a as [|x a IH]; simpl; [reflexivity|].
  intros H. apply andb_true_iff in H as [-> Ha]. now rewrite IH.
Qed.

Lemma dropWhile_app {A} (f : A -> bool) (a b : list A) :
  forallb f a = true -> dropWhile f (a ++ b) = dropWhile f b.
Proof.
  induction a as [|x a IH]; simpl; [reflexivity|].
  intros H. apply andb_true_iff in H as [-> Ha]. now rewrite IH.
Qed.

Lemma forallb_impl {A} (f g : A -> bool) (l : list A) :
  (forall x, f x = true -> g x = true) -> forallb f l = true -> forallb g l = true.
Proof.
  intros H. induction l as [|x l IH]; simpl; [reflexivity|].
  intros Hl. apply andb_true_iff in Hl as [Hx Hl]. now rewrite (H x Hx), IH.
Qed.

Lemma isDigit_facts (c : ascii) :
  isDigit c = true ->
  notLT c = true /\ isSpace c = false /\ Ascii.eqb c "["%char = false
  /\ Ascii.eqb c COMMA = false /\ Ascii.eqb c LF = false.
Proof.
  destruct c as [[] [] [] [] [] [] [] []]; vm_compute; intros H;
    first [discriminate H | repeat split].
Qed.

(** *** The generated text, line by line *)

Lemma generateGroupMarkdown_lines (group : Group.t Role) (depth : nat) :
  generateGroupMarkdown group depth = join [LF] (groupLines group depth).
Proof. reflexivity. Qed.

Lemma divisionGroups_blocks (groups : list (Group.t Role)) :
  forall first,
  divisionGroupLines first groups = map (join [LF]) (divisionGroupsBlocks first groups)
  /\ divisionGroupsLines first groups = concat (divisionGroupsBlocks first groups)
  /\ Forall (fun b => b <> []) (divisionGroupsBlocks first groups).
Proof.
  induction groups as [|g rest IH]; intros first; simpl; [repeat split; constructor|].
  destruct (IH false) as (H1 & H2 & H3). rewrite H1, H2.
  destruct first; simpl; repeat split;
    repeat constructor; try discriminate; try exact H3;
    try (now rewrite app_nil_r).
Qed.

Lemma generateDivisionMarkdown_lines (division : Division.t Role) :
  generateDivisionMarkdown division = join [LF] (divisionLines division).
Proof.
  unfold generateDivisionMarkdown, divisionLines.
  destruct (divisionGroups_blocks (Division.groups division) true) as (H1 & H2 & H3).
  rewrite H1, H2.
  change (["## Division: " ++ Division.name division; []]
          ++ map (join [LF]) (divisionGroupsBlocks true (Division.groups division)))
    with (map (join [LF])
              ([["## Division: " ++ Division.name division]; [[]]]
               ++ divisionGroupsBlocks true (Division.groups division))).
  rewrite join_blocks; [reflexivity|].
  repeat constructor; try discriminate. exact H3.
Qed.

Lemma map_flat_map {A B C} (f : B -> C) (g : A -> list B) (l : list A) :
  map f (flat_map g l) = flat_map (fun x => map f (g x)) l.
Proof. induction l; simpl; [reflexivity|]. now rewrite map_app, IHl. Qed.

Lemma concat_flat_map {A B} (g : A -> list (list B)) (l : list A) :
  concat (flat_map g l) = flat_map (fun x => concat (g x)) l.
Proof. induction l; simpl; [reflexivity|]. now rewrite concat_app, IHl. Qed.

Lemma concat_singletons {A} (l : list A) : concat (map (fun x => [x]) l) = l.
Proof. induction l; simpl; [reflexivity|]. now rewrite IHl. Qed.

Lemma flat_map_ext_eq {A B} (f g : A -> list B) (l : list A) :
  (forall x, f x = g x) -> flat_map f l = flat_map g l.
Proof. intros H. induction l; simpl; [reflexivity|]. now rewrite H, IHl. Qed.

Lemma Forall_flat_map_blocks {A} (g : A -> list (list str)) (l : list A) :
  (forall x, Forall (fun b => b <> []) (g x)) ->
  Forall (fun b => b <> []) (flat_map g l).
Proof.
  intros H. induction l; simpl; [constructor|]. apply Forall_app. now split.
Qed.

Lemma map_join_singletons (l : list str) : map (fun x => join [LF] [x]) l = l.
Proof. induction l; cbn [map]; [reflexivity|]. now rewrite IHl. Qed.

Lemma generateMarkdown_blocks (portfolio : Portfolio.t Role) :
  generateMarkdown portfolio
  = join [LF] (map (join [LF]) (portfolioBlocks portfolio)) ++ [LF].
Proof.
  assert (Hd : forall l,
             flat_map (fun division => [[]; generateDivisionMarkdown division]) l
             = flat_map (fun x => map (join [LF]) [[[]]; divisionLines x]) l).
  { intros l. apply flat_map_ext_eq. intros d. cbn [map join].
    now rewrite generateDivisionMarkdown_lines. }
  assert (Hg : forall l,
             flat_map (fun group => [[]; generateGroupMarkdown group 2]) l
             = flat_map (fun x => map (join [LF]) [[[]]; groupLines x 2]) l).
  { intros l. apply flat_map_ext_eq. intros g. reflexivity. }
  unfold generateMarkdown, portfolioBlocks, leadershipLines. cbv zeta.
  rewrite !map_app, !map_flat_map, !map_map, <- !app_assoc.
  rewrite map_join_singletons, Hd, Hg.
  reflexivity.
Qed.

Lemma portfolioBlocks_concat (portfolio : Portfolio.t Role) :
  concat (portfolioBlocks portfolio) = markdownLines portfolio
  /\ Forall (fun b => b <> []) (portfolioBlocks portfolio).
Proof.
  unfold portfolioBlocks, markdownLines. split.
  - rewrite !concat_app, !concat_flat_map, concat_singletons.
    f_equal. f_equal. f_equal; apply flat_map_ext_eq; intros x; cbn [concat app];
      now rewrite app_nil_r.
  - repeat (apply Forall_app; split); repeat constructor; try discriminate.
    + apply Forall_forall. intros b Hb. apply in_map_iff in Hb as (x & <- & _).
      discriminate.
    + apply Forall_flat_map_blocks. intros d. repeat constructor; discriminate.
    + apply Forall_flat_map_blocks. intros g. repeat constructor; discriminate.
Qed.

Lemma generateMarkdown_lines (portfolio : Portfolio.t Role) :
  generateMarkdown portfolio = join [LF] (markdownLines portfolio ++ [[]]).
Proof.
  assert (Hm : markdownLines portfolio <> []) by (unfold markdownLines; discriminate).
  rewrite (join_app [LF] _ [[]] Hm) by discriminate.
  change ([LF] ++ join [LF] [[]]) with [LF].
  rewrite generateMarkdown_blocks.
  destruct (portfolioBlocks_concat portfolio) as [Hc Hf].
  now rewrite join_blocks, Hc.
Qed.

(** *** The person lines *)

Lemma searchFrom_skip {A} (m : str -> option A) (a b : str) :
  (forall x r, In x a -> m (x :: r) = None) ->
  forall i, searchFrom m i (a ++ b) = searchFrom m (i + length a) b.
Proof.
  intros H. induction a as [|x a IH]; intros i; simpl.
  - now rewrite Nat.add_0_r.
  - rewrite (H x (a ++ b)) by now left.
    rewrite IH by (intros; apply H; now right). f_equal. lia.
Qed.

Lemma searchFrom_none {A} (m : str -> option A) (a : str) :
  (forall x r, In x a -> m (x :: r) = None) -> m [] = None ->
  forall i, searchFrom m i a = None.
Proof.
  intros H Hnil i. rewrite <- (app_nil_r a), searchFrom_skip by exact H.
  simpl. now rewrite Hnil.
Qed.

Lemma lacks_In (c : ascii) (s : str) :
  lacks c s = true -> forall x, In x s -> Ascii.eqb x c = false.
Proof.
  unfold lacks. rewrite forallb_forall. intros H x Hx.
  specialize (H x Hx). now destruct (Ascii.eqb x c).
Qed.

Lemma lacks_app (c : ascii) (a b : str) :
  lacks c (a ++ b) = lacks c a && lacks c b.
Proof. apply forallb_app. Qed.

Lemma search_bracket_none (s : str) :
  lacks "["%char s = true -> search bracketAt s = None.
Proof.
  intros H. apply searchFrom_none; [|reflexivity].
  intros x r Hx. simpl. now rewrite (lacks_In _ _ H x Hx).
Qed.

Lemma dropWhile_until (c : ascii) (a b : str) :
  lacks c a = true ->
  dropWhile (fun x => negb (Ascii.eqb x c)) (a ++ c :: b) = c :: b.
Proof.
  intros H. rewrite dropWhile_app by exact H. simpl. now rewrite Ascii.eqb_refl.
Qed.

Lemma bracketAt_whole (inner : str) :
  lacks "]"%char inner = true ->
  bracketAt ("["%char :: inner ++ ["]"%char]) = Some ("["%char :: inner ++ ["]"%char]).
Proof.
  intros H. cbn [bracketAt]. rewrite Ascii.eqb_refl.
  now rewrite (dropWhile_until _ inner [] H).
Qed.

Lemma search_bracket_suffix (main inner : str) :
  lacks "["%char main = true -> lacks "]"%char inner = true ->
  search bracketAt (main ++ "["%char :: inner ++ ["]"%char])
  = Some (length main, "["%char :: inner ++ ["]"%char]).
Proof.
  intros Hm Hi. unfold search. rewrite searchFrom_skip.
  - cbn [searchFrom]. now rewrite bracketAt_whole.
  - intros x r Hx. simpl. now rewrite (lacks_In _ _ Hm x Hx).
Qed.

Lemma slice1m1_brackets (inner : str) :
  slice1m1 ("["%char :: inner ++ ["]"%char]) = inner.
Proof. unfold slice1m1. simpl. apply removelast_last. Qed.

Lemma trim_space (v : str) :
  startsOk v = true -> endsOk v = true -> trim (SPACE :: v) = v.
Proof.
  intros Hs He. unfold trim, trimStart. simpl.
  rewrite (dropWhile_startsOk v Hs). unfold trimEnd. unfold endsOk in He.
  rewrite (dropWhile_startsOk _ He). apply rev_involutive.
Qed.

Lemma propsKeyword_false (lower : str) :
  propsKeyword lower = false ->
  eqs lower "contractor" = false /\ eqs lower "employee" = false
  /\ eqs lower "onshore" = false /\ eqs lower "nearshore" = false
  /\ eqs lower "offshore" = false.
Proof.
  unfold propsKeyword. intros H.
  apply orb_false_iff in H as [H H5]. apply orb_false_iff in H as [H H4].
  apply orb_false_iff in H as [H H3]. apply orb_false_iff in H as [H1 H2]. auto.
Qed.

Lemma vendorText_parts (v : str) :
  vendorText v = true ->
  cleanText v = true /\ lacks COMMA v = true /\ lacks "]"%char v = true
  /\ propsKeyword (toLowerCase v) = false.
Proof.
  unfold vendorText. intros H.
  apply andb_true_iff in H as [H H4]. apply andb_true_iff in H as [H H3].
  apply andb_true_iff in H as [H1 H2].
  repeat split; auto. now destruct (propsKeyword _).
Qed.

Lemma propsStep_vendor (acc : Props.t) (v : str) :
  propsKeyword (toLowerCase v) = false ->
  propsStep acc v = Props.mk (Props.type acc) (Props.location acc) (Some v).
Proof.
  intros H. apply propsKeyword_false in H as (H1 & H2 & H3 & H4 & H5).
  unfold propsStep. now rewrite H1, H2, H3, H4, H5.
Qed.

Lemma split_join_comma (parts : list str) :
  parts <> [] -> Forall (fun p => lacks COMMA p = true) parts ->
  split COMMA (join ", " parts) = hd [] parts :: map (cons SPACE) (tl parts).
Proof.
  induction parts as [|p parts IH]; intros Hne Hall; [contradiction|].
  inversion Hall as [|? ? Hp Hrest]; subst.
  destruct parts as [|q parts].
  - simpl. now apply split_lacks.
  - change (join ", " (p :: q :: parts)) with (p ++ COMMA :: SPACE :: join ", " (q :: parts)).
    rewrite split_app by exact Hp. cbn [hd tl map]. f_equal.
    cbn [split]. replace (Ascii.eqb SPACE COMMA) with false by reflexivity.
    rewrite IH by (auto; discriminate). reflexivity.
Qed.

Lemma trim_parts (parts : list str) :
  Forall (fun p => cleanText p = true) parts ->
  filter nonEmpty (map trim (map (cons SPACE) parts)) = parts.
Proof.
  induction 1 as [|p parts Hp Hall IH]; [reflexivity|].
  apply cleanText_parts in Hp as (Hs & He & Hl & Ht & Hn).
  cbn [map filter]. now rewrite (trim_space p Hs He), Hn, IH.
Qed.

Lemma lacks_join (c : ascii) (sep : str) (parts : list str) :
  lacks c sep = true -> Forall (fun p => lacks c p = true) parts ->
  lacks c (join sep parts) = true.
Proof.
  intros Hsep. induction 1 as [|p parts Hp Hall IH]; [reflexivity|].
  destruct parts as [|q parts]; [exact Hp|].
  change (join sep (p :: q :: parts)) with (p ++ sep ++ join sep (q :: parts)).
  now rewrite !lacks_app, Hp, Hsep, IH.
Qed.

Lemma endsOk_join (sep : str) (parts : list str) :
  parts <> [] -> Forall (fun p => cleanText p = true) parts ->
  endsOk (join sep parts) = true.
Proof.
  induction parts as [|p parts IH]; intros Hne Hall; [contradiction|].
  inversion Hall as [|? ? Hp Hrest]; subst.
  destruct parts as [|q parts].
  - now apply cleanText_parts in Hp.
  - change (join sep (p :: q :: parts)) with (p ++ sep ++ join sep (q :: parts)).
    rewrite app_assoc. apply endsOk_app. apply IH; [discriminate|exact Hrest].
Qed.

(** The props of a bracket suffix made of clean parts. *)
Lemma parseProps_parts (parts : list str) :
  parts <> [] ->
  Forall (fun p => cleanText p = true) parts ->
  Forall (fun p => lacks COMMA p = true) parts ->
  parseProps ("["%char :: join ", " parts ++ ["]"%char])
  = let p := fold_left propsStep parts defaultProps in
    match Props.type p with
    | employee => Props.mk employee onshore None
    | contractor => p
    end.
Proof.
  intros Hne Hclean Hcomma. unfold parseProps. rewrite slice1m1_brackets.
  assert (Htrim : trim (join ", " parts) = join ", " parts).
  { apply trim_clean; [|now apply endsOk_join].
    destruct parts as [|p parts]; [contradiction|].
    inversion Hclean as [|? ? Hp _]; subst.
    apply cleanText_parts in Hp as (Hs & _).
    destruct parts; [exact Hs|]. now apply startsOk_app. }
  rewrite Htrim, split_join_comma by assumption.
  destruct parts as [|p parts]; [contradiction|].
  inversion Hclean as [|? ? Hp Hrest]; subst.
  cbn [hd tl map filter].
  apply cleanText_parts in Hp as (Hs & He & Hl & Ht & Hn).
  rewrite Ht, Hn. now rewrite trim_parts.
Qed.

Lemma firstn_length_app {A} (a b : list A) : firstn (length a) (a ++ b) = a.
Proof. induction a; simpl; [now destruct b|]. now rewrite IHa. Qed.

Lemma skipn_length_app {A} (a b : list A) : skipn (length a) (a ++ b) = b.
Proof. induction a; simpl; [reflexivity|exact IHa]. Qed.

Lemma trim_trailing_space (main : str) :
  startsOk main = true -> endsOk main = true -> trim (main ++ [SPACE]) = main.
Proof.
  intros Hs He. unfold trim, trimStart.
  rewrite (dropWhile_startsOk (main ++ [SPACE])) by now apply startsOk_app.
  unfold trimEnd. rewrite rev_app_distr. simpl. unfold endsOk in He.
  rewrite (dropWhile_startsOk _ He). apply rev_involutive.
Qed.

(** The parts of the bracket suffix of a contractor. *)
Lemma personProps_parts (p : Person.t Role) :
  Person.type p = contractor -> wfProps p = true ->
  exists parts,
    personProps p = SPACE :: "["%char :: join ", " parts ++ ["]"%char]
    /\ parts <> []
    /\ Forall (fun x => cleanText x = true) parts
    /\ Forall (fun x => lacks COMMA x = true) parts
    /\ Forall (fun x => lacks "]"%char x = true) parts
    /\ fold_left propsStep parts defaultProps = propsOf p.
Proof.
  intros Ht Hwf. unfold personProps, wfProps, propsOf in *. rewrite Ht in *.
  destruct (Person.vendor p) as [v|].
  - apply vendorText_parts in Hwf as (Hc & Hcomma & Hb & Hk).
    pose proof (cleanText_parts v Hc) as (_ & _ & _ & _ & Hn).
    cbn [truthy nullish]. rewrite Hn.
    destruct (Person.location p) as [[]|]; eexists; (split; [reflexivity|]);
      (split; [discriminate|]);
      repeat split; repeat constructor; auto;
      cbn [app fold_left];
      rewrite propsStep_vendor by exact Hk; reflexivity.
  - cbn [truthy nullish].
    destruct (Person.location p) as [[]|]; eexists; (split; [reflexivity|]);
      (split; [discriminate|]);
      repeat split; repeat constructor; auto.
Qed.

Lemma splitProps_personProps (main : str) (p : Person.t Role) :
  wfProps p = true -> lacks "["%char main = true ->
  startsOk main = true -> endsOk main = true ->
  splitProps (main ++ personProps p) = (propsOf p, main).
Proof.
  intros Hwf Hb Hs He. destruct (Person.type p) eqn:Ht.
  - unfold personProps, propsOf, wfProps in *. rewrite Ht in *.
    rewrite app_nil_r. unfold splitProps. rewrite search_bracket_none by exact Hb.
    destruct (Person.vendor p); [discriminate|].
    destruct (Person.location p) as [[]|]; try discriminate; reflexivity.
  - destruct (personProps_parts p Ht Hwf) as (parts & -> & Hne & Hc & Hcomma & Hbr & Hfold).
    replace (main ++ SPACE :: "["%char :: join ", " parts ++ ["]"%char])
      with ((main ++ [SPACE]) ++ "["%char :: join ", " parts ++ ["]"%char])
      by (now rewrite <- app_assoc).
    unfold splitProps. rewrite search_bracket_suffix.
    + rewrite firstn_length_app, trim_trailing_space by assumption.
      rewrite parseProps_parts by assumption. cbv zeta. rewrite Hfold.
      unfold propsOf. now rewrite Ht.
    + now rewrite lacks_app, Hb.
    + apply lacks_join; [reflexivity|exact Hbr].
Qed.

Lemma personProps_line (p : Person.t Role) :
  wfProps p = true ->
  forallb notLT (personProps p) = true
  /\ (personProps p = [] \/ endsOk (personProps p) = true).
Proof.
  intros Hwf. destruct (Person.type p) eqn:Ht.
  - unfold personProps. rewrite Ht. split; [reflexivity|now left].
  - destruct (personProps_parts p Ht Hwf) as (parts & -> & Hne & Hc & _).
    split.
    + cbn [forallb]. apply andb_true_iff. split; [reflexivity|].
      apply andb_true_iff. split; [reflexivity|].
      apply forallb_app_true; [|reflexivity].
      clear Hne. induction Hc as [|x parts Hx Hall IH]; [reflexivity|].
      apply cleanText_parts in Hx as (_ & _ & Hl & _).
      destruct parts as [|y parts]; [exact Hl|].
      change (join ", " (x :: y :: parts)) with (x ++ ", " ++ join ", " (y :: parts)).
      apply forallb_app_true; [exact Hl|]. apply forallb_app_true; [reflexivity|exact IH].
    + right. 
      change (SPACE :: "["%char :: join ", " parts ++ ["]"%char])
        with ((SPACE :: "["%char :: join ", " parts) ++ ["]"%char]).
      now apply endsOk_app.
Qed.

Lemma dropWhile_stop {A} (f : A -> bool) (a b : list A) (c : A) (r : list A) :
  dropWhile f a = c :: r ->
  takeWhile f (a ++ b) = takeWhile f a /\ dropWhile f (a ++ b) = c :: r ++ b.
Proof.
  induction a as [|x a IH]; simpl; [discriminate|].
  destruct (f x).
  - intros H. destruct (IH H) as [H1 H2]. now rewrite H1, H2.
  - intros H. injection H as <- <-. now split.
Qed.

Lemma dropWhile_nil {A} (f : A -> bool) (a : list A) :
  dropWhile f a = [] -> forallb f a = true.
Proof.
  induction a as [|x a IH]; simpl; [reflexivity|].
  destruct (f x); [exact IH|discriminate].
Qed.

Lemma dropWhile_head {A} (f : A -> bool) (a : list A) (c : A) (r : list A) :
  dropWhile f a = c :: r -> f c = false.
Proof.
  induction a as [|x a IH]; simpl; [discriminate|].
  destruct (f x) eqn:E; [exact IH|]. intros H. now injection H as <- <-.
Qed.

(** A name that does not open like a quantity gives no quantity match,
    alone or followed by a comma. *)
Lemma quantityMatch_none (name rest : str) :
  quantityPrefix name = false ->
  rest = [] \/ (exists r, rest = COMMA :: r) ->
  quantityMatch (name ++ rest) = None.
Proof.
  intros Hq Hrest.
  assert (Hr1 : takeWhile isDigit rest = [] /\ dropWhile isDigit rest = rest
                /\ ciLit "x" rest = None /\ wsPlusRest rest = None).
  { destruct Hrest as [->|[r ->]]; repeat split. }
  destruct Hr1 as (Hr1 & Hr2 & Hr3 & Hr4).
  unfold quantityMatch, quantityPrefix in *.
  destruct (dropWhile isDigit name) as [|c r] eqn:Ed.
  - apply dropWhile_nil in Ed.
    rewrite takeWhile_app, dropWhile_app, Hr1, Hr2, Hr3 by exact Ed.
    now destruct (name ++ []).
  - destruct (dropWhile_stop isDigit name rest c r Ed) as [H1 H2].
    rewrite H1, H2.
    destruct (takeWhile isDigit name) as [|d ds]; [reflexivity|].
    cbn [ciLit String.list_ascii_of_string] in *.
    change ((c :: r) ++ rest) with (c :: r ++ rest).
    cbn [ciLit]. destruct (ciEq "x" c); [|reflexivity].
    destruct r as [|c' r'].
    + simpl. now rewrite Hr4.
    + simpl app. rewrite wsPlusRest_startsOk; [reflexivity|].
      simpl. now rewrite Hq.
Qed.

Lemma lastIndexOf_lacks (c : ascii) (s : str) :
  lacks c s = true -> lastIndexOf c s = None.
Proof.
  induction s as [|x s IH]; simpl; [reflexivity|].
  intros H. apply andb_true_iff in H as [Hx Hs]. rewrite (IH Hs).
  now destruct (Ascii.eqb x c).
Qed.

Lemma lastIndexOf_app (c : ascii) (a b : str) :
  lacks c b = true -> lastIndexOf c (a ++ c :: b) = Some (length a).
Proof.
  intros Hb. induction a as [|x a IH]; simpl.
  - now rewrite (lastIndexOf_lacks c b Hb), Ascii.eqb_refl.
  - now rewrite IH.
Qed.

Lemma dropTrailingComma_lacks (s : str) :
  lacks COMMA s = true -> dropTrailingComma s = s.
Proof.
  intros H. unfold dropTrailingComma, search.
  rewrite searchFrom_none; [reflexivity| |reflexivity].
  intros x r Hx. simpl. now rewrite (lacks_In _ _ H x Hx).
Qed.

Lemma plainName_parts (s : str) :
  plainName s = true ->
  cleanText s = true /\ lacks COMMA s = true /\ lacks "["%char s = true
  /\ quantityPrefix s = false.
Proof.
  unfold plainName. intros H.
  apply andb_true_iff in H as [H H4]. apply andb_true_iff in H as [H H3].
  apply andb_true_iff in H as [H1 H2].
  repeat split; auto. now destruct (quantityPrefix s).
Qed.

Lemma wfLeader_parts (role : Role) (p : Person.t Role) :
  wfLeader role p = true ->
  wfProps p = true /\ Person.role p = role
  /\ exists s, Person.name p = Some s /\ plainName s = true
               /\ ROLE_FROM_LABEL (toLowerCase s) = None.
Proof.
  unfold wfLeader. intros H.
  apply andb_true_iff in H as [H H3]. apply andb_true_iff in H as [H1 H2].
  split; [exact H1|]. split.
  - destruct (Person.role p), role; try discriminate; reflexivity.
  - destruct (Person.name p) as [s|]; [|discriminate]. exists s.
    unfold leaderName in H3. apply andb_true_iff in H3 as [Hp Hr].
    repeat split; auto. now destruct (ROLE_FROM_LABEL _).
Qed.

Lemma orElse_nonEmpty (s d : str) : nonEmpty s = true -> orElse (Some s) d = s.
Proof. destruct s; [discriminate|reflexivity]. Qed.

(** The text of a leader, after its label, is read back as the leader. *)
Lemma parsePersonLine_leader (role : Role) (p : Person.t Role) :
  wfLeader role p = true ->
  trim (leaderPersonLine p) = leaderPersonLine p
  /\ nonEmpty (leaderPersonLine p) = true
  /\ startsOk (leaderPersonLine p) = true
  /\ forallb notLT (leaderPersonLine p) = true
  /\ (exists e, parsePersonLine (leaderPersonLine p) = PersonError e)
  /\ splitProps (leaderPersonLine p) = (propsOf p, nullish (Person.name p) [])
  /\ dataOf p
     = PersonData.mk (Person.name p) (OwnRole role) (Props.type (propsOf p))
                     (Props.location (propsOf p)) (Props.vendor (propsOf p)).
Proof.
  intros H. apply wfLeader_parts in H as (Hwf & Hrole & s & Hname & Hplain & Hkey).
  apply plainName_parts in Hplain as (Hc & Hcomma & Hb & Hq).
  apply cleanText_parts in Hc as (Hs & He & Hl & Ht & Hn).
  destruct (personProps_line p Hwf) as [Hpl Hpe].
  unfold leaderPersonLine. rewrite Hname, (orElse_nonEmpty s _ Hn).
  assert (Hstart : startsOk (s ++ personProps p) = true) by now apply startsOk_app.
  assert (Hend : endsOk (s ++ personProps p) = true).
  { destruct Hpe as [->|Hpe]; [now rewrite app_nil_r|now apply endsOk_app]. }
  assert (Htrim : trim (s ++ personProps p) = s ++ personProps p)
    by now apply trim_clean.
  assert (Hsplit : splitProps (s ++ personProps p) = (propsOf p, s))
    by now apply splitProps_personProps.
  split; [exact Htrim|]. split; [now destruct s|]. split; [exact Hstart|].
  split; [now apply forallb_app_true|]. split; [|split; [exact Hsplit|]].
  - unfold parsePersonLine. rewrite Htrim.
    replace (nonEmpty (s ++ personProps p)) with true by (now destruct s).
    cbn [negb]. rewrite Hsplit.
    assert (Hqm : quantityMatch s = None).
    { rewrite <- (app_nil_r s). apply quantityMatch_none; auto. }
    rewrite Hqm, lastIndexOf_lacks by exact Hcomma. rewrite Hkey.
    eexists. reflexivity.
  - unfold dataOf. rewrite Hname, Hrole. cbn [truthy]. now rewrite Hn.
Qed.

Lemma parseLeadershipLine_leader (prefix : str) (role : Role) (p : Person.t Role) :
  wfLeader role p = true ->
  parseLeadershipLine (prefix ++ SPACE :: leaderPersonLine p) prefix role
  = Leader (dataOf p).
Proof.
  intros H. pose proof H as H'.
  apply wfLeader_parts in H' as (Hwf & Hrole & s & Hname & Hplain & Hkey).
  apply plainName_parts in Hplain as (Hc & Hcomma & Hb & Hq).
  apply cleanText_parts in Hc as (Hs & He & Hl & Ht & Hn).
  destruct (parsePersonLine_leader role p H)
    as (Htrim & Hne & Hstart & Hline & [e Herr] & Hsplit & Hdata).
  unfold parseLeadershipLine. rewrite skipn_length_app.
  assert (Hafter : trim (SPACE :: leaderPersonLine p) = leaderPersonLine p).
  { rewrite <- Htrim at 2. unfold trim, trimStart. simpl dropWhile at 1.
    reflexivity. }
  rewrite Hafter, Hne. cbn [negb]. rewrite Herr, Hsplit, Hname. cbn [nullish].
  rewrite dropTrailingComma_lacks by exact Hcomma. rewrite Ht, Hn.
  now rewrite Hdata, Hname.
Qed.

Lemma label_facts (r : Role) :
  startsOk (ROLE_LABELS r) = true /\ endsOk (ROLE_LABELS r) = true
  /\ forallb notLT (ROLE_LABELS r) = true
  /\ lacks "["%char (ROLE_LABELS r) = true /\ lacks COMMA (ROLE_LABELS r) = true
  /\ ROLE_FROM_LABEL (toLowerCase (ROLE_LABELS r)) = Some (OwnRole r)
  /\ quantityMatch (ROLE_LABELS r) = None
  /\ trim (SPACE :: ROLE_LABELS r) = ROLE_LABELS r
  /\ trim (ROLE_LABELS r) = ROLE_LABELS r.
Proof. destruct r; repeat split. Qed.

Lemma skipn_past {A} (a b : list A) (c : A) : skipn (length a + 1) (a ++ c :: b) = b.
Proof. induction a; simpl; [reflexivity|exact IHa]. Qed.

Lemma wfMember_parts (p : Person.t Role) :
  wfMember p = true ->
  wfProps p = true
  /\ match Person.name p with Some s => plainName s = true | None => True end.
Proof.
  unfold wfMember. intros H. apply andb_true_iff in H as [H1 H2].
  split; [exact H1|]. now destruct (Person.name p).
Qed.

Lemma listMatch_item (x : str) :
  startsOk x = true -> forallb notLT x = true ->
  trim ("- " ++ x) = "- " ++ x -> 
  listMatch ("- " ++ x) = Some x.
Proof. intros Hs Hl _. unfold listMatch. simpl. now apply wsPlusRest_space. Qed.

(** The line of a named member is read back as the member. *)
Lemma parsePersonLine_named (p : Person.t Role) :
  wfMember p = true -> truthy (Person.name p) = true ->
  parsePersonLine (namedPersonLine p) = Persons [dataOf p]
  /\ startsOk (namedPersonLine p) = true
  /\ endsOk (namedPersonLine p) = true
  /\ forallb notLT (namedPersonLine p) = true.
Proof.
  intros Hwf Hnamed. apply wfMember_parts in Hwf as [Hwf Hname].
  destruct (Person.name p) as [s|] eqn:En; [|discriminate].
  apply plainName_parts in Hname as (Hc & Hcomma & Hb & Hq).
  apply cleanText_parts in Hc as (Hs & He & Hl & Ht & Hn).
  destruct (label_facts (Person.role p))
    as (Ls & Le & Ll & Lb & Lc & Lrole & Lq & Ltrim & _).
  destruct (personProps_line p Hwf) as [Hpl Hpe].
  unfold namedPersonLine. rewrite En, (orElse_nonEmpty s _ Hn).
  set (label := ROLE_LABELS (Person.role p)) in *.
  set (main := s ++ COMMA :: SPACE :: label).
  replace (s ++ ", " ++ label ++ personProps p) with (main ++ personProps p)
    by (unfold main; now rewrite <- app_assoc).
  assert (Hms : startsOk main = true) by now apply startsOk_app.
  assert (Hme : endsOk main = true).
  { unfold main. change (s ++ COMMA :: SPACE :: label)
      with (s ++ [COMMA; SPACE] ++ label).
    rewrite app_assoc. now apply endsOk_app. }
  assert (Hml : forallb notLT main = true).
  { unfold main. apply forallb_app_true; [exact Hl|]. simpl. exact Ll. }
  assert (Hmb : lacks "["%char main = true).
  { unfold main. rewrite lacks_app, Hb. simpl. exact Lb. }
  assert (Hstart : startsOk (main ++ personProps p) = true) by now apply startsOk_app.
  assert (Hend : endsOk (main ++ personProps p) = true).
  { destruct Hpe as [->|Hpe]; [now rewrite app_nil_r|now apply endsOk_app]. }
  split; [|split; [exact Hstart|split; [exact Hend|now apply forallb_app_true]]].
  unfold parsePersonLine. rewrite (trim_clean _ Hstart Hend).
  replace (nonEmpty (main ++ personProps p)) with true
    by (unfold main; now destruct s).
  cbn [negb]. rewrite (splitProps_personProps main p Hwf Hmb Hms Hme).
  assert (Hqm : quantityMatch main = None).
  { unfold main. apply quantityMatch_none; [exact Hq|]. right. eexists. reflexivity. }
  rewrite Hqm.
  assert (Hidx : lastIndexOf COMMA main = Some (length s)).
  { unfold main. apply lastIndexOf_app. simpl. exact Lc. }
  rewrite Hidx. unfold main at 1 2.
  rewrite firstn_length_app, skipn_past, Ht, Ltrim, Lrole.
  unfold dataOf. rewrite En. cbn [truthy]. now rewrite Hn.
Qed.

(** The line of [count] unnamed members alike is read back as [count]
    members. *)
Lemma parsePersonLine_unnamed (person : Person.t Role) (count : nat) :
  wfMember person = true -> truthy (Person.name person) = false -> 1 <= count ->
  let text := (if 1 <? count then ofNat count ++ "x " else [])
              ++ ROLE_LABELS (Person.role person) ++ personProps person in
  parsePersonLine text = Persons (repeat (dataOf person) count)
  /\ startsOk text = true /\ endsOk text = true /\ forallb notLT text = true.
Proof.
  intros Hwf Hun Hcount text. apply wfMember_parts in Hwf as [Hwf _].
  destruct (label_facts (Person.role person))
    as (Ls & Le & Ll & Lb & Lc & Lrole & Lq & Ltrim & Ltrim').
  destruct (personProps_line person Hwf) as [Hpl Hpe].
  set (label := ROLE_LABELS (Person.role person)) in *.
  set (prefix := if 1 <? count then ofNat count ++ "x " else []) in *.
  set (main := prefix ++ label).
  assert (Htext : text = main ++ personProps person)
    by (unfold text, main; now rewrite <- app_assoc).
  assert (Hdigits := ofNat_isDigit count).
  assert (Hpre : forallb notLT prefix = true /\ lacks "["%char prefix = true
                 /\ startsOk (prefix ++ label) = true).
  { unfold prefix. destruct (1 <? count); [|now repeat split].
    repeat split.
    - apply forallb_app_true; [|reflexivity].
      eapply forallb_impl; [|exact Hdigits]. intros c Hc. now apply isDigit_facts.
    - rewrite lacks_app. apply andb_true_iff. split; [|reflexivity].
      eapply forallb_impl; [|exact Hdigits]. intros c Hc.
      destruct (isDigit_facts c Hc) as (_ & _ & -> & _). reflexivity.
    - pose proof (ofNat_nonEmpty count) as Hne.
      destruct (ofNat count) as [|d ds]; [discriminate|]. simpl.
      simpl in Hdigits. apply andb_true_iff in Hdigits as [Hd _].
      destruct (isDigit_facts d Hd) as (_ & -> & _). reflexivity. }
  destruct Hpre as (Hpl' & Hpb & Hms).
  assert (Hme : endsOk main = true) by now apply endsOk_app.
  assert (Hml : forallb notLT main = true) by now apply forallb_app_true.
  assert (Hmb : lacks "["%char main = true) by (unfold main; now rewrite lacks_app, Hpb).
  assert (Hstart : startsOk text = true) by (rewrite Htext; now apply startsOk_app).
  assert (Hend : endsOk text = true).
  { rewrite Htext. destruct Hpe as [->|Hpe]; [now rewrite app_nil_r|now apply endsOk_app]. }
  split; [|split; [exact Hstart|split; [exact Hend|]]].
  2: { rewrite Htext. now apply forallb_app_true. }
  unfold parsePersonLine. rewrite (trim_clean _ Hstart Hend).
  replace (nonEmpty text) with true by (now destruct text).
  cbn [negb]. rewrite Htext, (splitProps_personProps main person Hwf Hmb Hms Hme).
  assert (Hdata : dataOf person
                  = PersonData.mk None (OwnRole (Person.role person))
                      (Props.type (propsOf person)) (Props.location (propsOf person))
                      (Props.vendor (propsOf person))).
  { unfold dataOf. now rewrite Hun. }
  unfold main, prefix. destruct (1 <? count) eqn:E1.
  - assert (Hqm : quantityMatch ((ofNat count ++ "x ") ++ label)
                  = Some (ofNat count, label)).
    { unfold quantityMatch. rewrite <- app_assoc.
      rewrite takeWhile_app, dropWhile_app by exact Hdigits.
      assert (E2 : takeWhile isDigit ("x " ++ label) = []) by reflexivity.
      assert (E3 : dropWhile isDigit ("x " ++ label) = "x"%char :: SPACE :: label)
        by reflexivity.
      assert (E4 : ciLit "x" ("x"%char :: SPACE :: label) = Some (SPACE :: label))
        by reflexivity.
      rewrite E2, E3, E4, app_nil_r, (wsPlusRest_space label Ls Ll).
      pose proof (ofNat_nonEmpty count) as Hne.
      now destruct (ofNat count). }
    rewrite Hqm, parseInt_ofNat, Ltrim', Lrole. now rewrite Hdata.
  - apply Nat.ltb_ge in E1. assert (count = 1) by lia. subst count.
    cbn [app]. rewrite Lq, (lastIndexOf_lacks _ _ Lc), Lrole. now rewrite Hdata.
Qed.

(** *** The portfolio heading *)

Lemma takeWhile_dropWhile {A} (f : A -> bool) (l : list A) :
  takeWhile f l ++ dropWhile f l = l.
Proof. induction l as [|x l IH]; simpl; [reflexivity|]. destruct (f x); simpl; congruence. Qed.

Lemma takeWhile_all {A} (f : A -> bool) (l : list A) : forallb f (takeWhile f l) = true.
Proof.
  induction l as [|x l IH]; simpl; [reflexivity|].
  destruct (f x) eqn:E; simpl; [now rewrite E|reflexivity].
Qed.

Lemma lit_split (p s r : str) : lit p s = Some r -> s = p ++ r.
Proof.
  revert s. induction p as [|x p IH]; intros s; simpl.
  - intros H. now injection H as ->.
  - destruct s as [|y s]; [discriminate|].
    destruct (Ascii.eqb x y) eqn:E; [|discriminate].
    apply Ascii.eqb_eq in E. subst. intros H. now rewrite (IH _ H).
Qed.

Lemma ciLit_split (c : ascii) (p s r : str) :
  forallb (fun x => negb (ciEq x c)) p = true ->
  ciLit p s = Some r -> exists q, s = q ++ r /\ lacks c q = true.
Proof.
  revert s. induction p as [|x p IH]; intros s Hp; simpl.
  - intros H. injection H as ->. now exists [].
  - destruct s as [|y s]; [discriminate|].
    simpl in Hp. apply andb_true_iff in Hp as [Hx Hp].
    destruct (ciEq x y) eqn:E; [|discriminate]. intros H.
    destruct (IH _ Hp H) as (q & -> & Hq). exists (y :: q). split; [reflexivity|].
    simpl. rewrite Hq, andb_true_r.
    destruct (Ascii.eqb y c) eqn:Ey; [|reflexivity].
    apply Ascii.eqb_eq in Ey. subst. now rewrite E in Hx.
Qed.

Lemma isSpace_not_paren (c : ascii) :
  isSpace c = true -> negb (Ascii.eqb c "("%char) = true.
Proof.
  destruct c as [[] [] [] [] [] [] [] []]; vm_compute; intros H;
    first [discriminate H | reflexivity].
Qed.

Lemma isDigit_not_paren (c : ascii) :
  isDigit c = true -> negb (Ascii.eqb c "("%char) = true.
Proof.
  destruct c as [[] [] [] [] [] [] [] []]; vm_compute; intros H;
    first [discriminate H | reflexivity].
Qed.

(** A match of the target pattern holds one opening parenthesis, its
    first character. *)
Lemma targetAt_lacks (s ds : str) :
  targetAt s = Some ds -> lacks "("%char (tl s) = true.
Proof.
  unfold targetAt.
  destruct (lit "(" s) as [r0|] eqn:E0; [|discriminate].
  apply lit_split in E0. subst s. cbn [String.list_ascii_of_string app tl].
  pose proof (takeWhile_dropWhile isDigit r0) as D0.
  pose proof (takeWhile_all isDigit r0) as A0.
  destruct (takeWhile isDigit r0) as [|d ds'] eqn:Eds;
    [intros H; cbn in H; discriminate H|]. cbv beta iota.
  destruct (lit _ (dropWhile isDigit r0)) as [r2|] eqn:E1; [|discriminate].
  apply lit_split in E1.
  pose proof (takeWhile_dropWhile isSpace r2) as D2.
  pose proof (takeWhile_all isSpace r2) as A2.
  destruct (ciLit _ (dropWhile isSpace r2)) as [r4|] eqn:E3; [|discriminate].
  apply (ciLit_split "("%char) in E3 as (q3 & E3 & L3); [|reflexivity].
  pose proof (takeWhile_dropWhile isSpace r4) as D4.
  pose proof (takeWhile_all isSpace r4) as A4.
  destruct (ciLit _ (dropWhile isSpace r4)) as [r6|] eqn:E5; [|discriminate].
  apply (ciLit_split "("%char) in E5 as (q5 & E5 & L5); [|reflexivity].
  destruct (lit _ r6) as [ws|] eqn:E6; [|discriminate].
  apply lit_split in E6.
  destruct (forallb isSpace ws) eqn:Ews; [|discriminate]. intros _.
  assert (Hd : lacks "("%char (d :: ds') = true)
    by (eapply forallb_impl; [|exact A0]; apply isDigit_not_paren).
  assert (H2 : lacks "("%char (takeWhile isSpace r2) = true)
    by (eapply forallb_impl; [|exact A2]; apply isSpace_not_paren).
  assert (H4 : lacks "("%char (takeWhile isSpace r4) = true)
    by (eapply forallb_impl; [|exact A4]; apply isSpace_not_paren).
  assert (Hw : lacks "("%char ws = true)
    by (eapply forallb_impl; [|exact Ews]; apply isSpace_not_paren).
  rewrite <- D0, E1, <- D2, E3, <- D4, E5, E6.
  rewrite !lacks_app, Hd, H2, L3, H4, L5, Hw. reflexivity.
Qed.

Lemma searchFrom_skip_dep {A} (m : str -> option A) (a b : str) :
  (forall a1 x a2, a = a1 ++ x :: a2 -> m (x :: a2 ++ b) = None) ->
  forall i, searchFrom m i (a ++ b) = searchFrom m (i + length a) b.
Proof.
  induction a as [|x a IH]; intros H i; simpl.
  - now rewrite Nat.add_0_r.
  - rewrite (H [] x a eq_refl).
    rewrite IH; [f_equal; lia|].
    intros a1 y a2 E. apply (H (x :: a1) y a2). now rewrite E.
Qed.

Lemma search_target (name : str) (t : nat) :
  search targetAt (name ++ " (" ++ ofNat t ++ "% onshore target)")
  = Some (length name + 1, ofNat t).
Proof.
  replace (name ++ " (" ++ ofNat t ++ "% onshore target)")
    with ((name ++ [SPACE]) ++ "("%char :: ofNat t ++ "% onshore target)")
    by (now rewrite <- app_assoc).
  unfold search. rewrite searchFrom_skip_dep.
  - rewrite length_app. cbn [length searchFrom Nat.add].
    assert (E : targetAt ("("%char :: ofNat t ++ "% onshore target)") = Some (ofNat t)).
    { unfold targetAt.
      assert (E1 : lit "(" ("("%char :: ofNat t ++ "% onshore target)")
                   = Some (ofNat t ++ "% onshore target)")) by reflexivity.
      rewrite E1, takeWhile_app, dropWhile_app by apply ofNat_isDigit.
      assert (E2 : takeWhile isDigit "% onshore target)" = []) by reflexivity.
      assert (E3 : dropWhile isDigit "% onshore target)" = "% onshore target)")
        by reflexivity.
      rewrite E2, E3, app_nil_r.
      pose proof (ofNat_nonEmpty t) as Hne.
      destruct (ofNat t); [discriminate|reflexivity]. }
    now rewrite E.
  - intros a1 x a2 E. destruct (targetAt _) as [ds|] eqn:Et; [|reflexivity].
    apply targetAt_lacks in Et. cbn [tl] in Et.
    rewrite lacks_app in Et. apply andb_true_iff in Et as [_ Et]. discriminate.
Qed.

(** *** The lines, one by one *)

Lemma parseLine_blank (ids : IdSource) (st : Parser.t) (n : nat) :
  parseLine ids st n [] = st.
Proof. reflexivity. Qed.

(** A whole number from 0 to 100 is written as its decimal digits. *)
Lemma numberToString_whole (n : nat) :
  n <= 100 -> numberToString (numberOfNat n) = ofNat n.
Proof.
  intros H. do 101 (destruct n as [|n]; [vm_compute; reflexivity|]). lia.
Qed.

Lemma wholePercent_nat (x : float) :
  wholePercent x = true <-> exists n, n <= 100 /\ x = numberOfNat n.
Proof.
  unfold wholePercent. rewrite existsb_exists. split.
  - intros (n & Hn & E). apply in_seq in Hn. apply FloatAxioms.Leibniz.eqb_spec in E.
    exists n. split; [lia|exact E].
  - intros (n & Hn & E). exists n. split; [apply in_seq; lia|].
    now apply FloatAxioms.Leibniz.eqb_spec.
Qed.

Lemma wholeTarget_nat (p : Portfolio.t Role) :
  wholeTarget p = true ->
  exists n, n <= 100
            /\ nullish (Portfolio.onshoreTargetPercentage p) 50%float = numberOfNat n.
Proof.
  unfold wholeTarget. destruct (Portfolio.onshoreTargetPercentage p) as [x|]; intros H.
  - now apply wholePercent_nat.
  - exists 50. split; [lia|reflexivity].
Qed.

Lemma parseLine_heading (ids : IdSource) (st : Parser.t) (n : nat) (p : Portfolio.t Role) :
  cleanText (Portfolio.name p) = true -> wholeTarget p = true ->
  parseLine ids st n (headingLine p)
  = setHeading st (Portfolio.name p)
               (nullish (Portfolio.onshoreTargetPercentage p) 50%float).
Proof.
  intros Hc Hw. apply cleanText_parts in Hc as (Hs & He & Hl & Ht & Hn).
  destruct (wholeTarget_nat p Hw) as (t & Ht100 & Etarget).
  unfold headingLine. rewrite Etarget, (numberToString_whole t Ht100).
  set (name := Portfolio.name p) in *.
  set (rest := name ++ " (" ++ ofNat t ++ "% onshore target)").
  assert (Hrs : startsOk rest = true) by now apply startsOk_app.
  assert (Hre : endsOk rest = true).
  { unfold rest. rewrite !app_assoc. now apply endsOk_app. }
  assert (Hrl : forallb notLT rest = true).
  { unfold rest. apply forallb_app_true; [exact Hl|].
    apply forallb_app_true; [reflexivity|].
    apply forallb_app_true; [|reflexivity].
    eapply forallb_impl; [|apply ofNat_isDigit]. intros c Hd. now apply isDigit_facts. }
  assert (Htrim : trim ("# " ++ rest) = "# " ++ rest).
  { apply trim_clean; [reflexivity|]. now apply endsOk_app. }
  unfold parseLine. rewrite Htrim.
  assert (E1 : headingMatch 1 ("# " ++ rest) = Some rest)
    by (apply (wsPlusRest_space rest Hrs Hrl)).
  assert (E2 : startsWith "##" ("# " ++ rest) = false) by reflexivity.
  rewrite E1, E2. cbn [nonEmpty negb String.list_ascii_of_string app].
  unfold portfolioHeading. rewrite (trim_clean rest Hrs Hre).
  unfold rest at 1. rewrite search_target.
  replace (firstn (length name + 1) rest) with (name ++ [SPACE]).
  - now rewrite trim_trailing_space, parseInt_ofNat.
  - unfold rest.
    replace (name ++ " (" ++ ofNat t ++ "% onshore target)")
      with ((name ++ [SPACE]) ++ "(" ++ ofNat t ++ "% onshore target)")
      by (now rewrite <- app_assoc).
    replace (length name + 1) with (length (name ++ [SPACE]))
      by (rewrite length_app; reflexivity).
    now rewrite firstn_length_app.
Qed.

(** A line that opens with neither a hash sign nor white space is no
    heading. *)
Lemma noHeading (c : ascii) (x : str) :
  Ascii.eqb "#"%char c = false ->
  headingMatch 1 (c :: x) = None /\ headingMatch 2 (c :: x) = None
  /\ headingMatch 3 (c :: x) = None /\ headingMatch 4 (c :: x) = None.
Proof. intros H. unfold headingMatch, hashes. cbn [repeat lit]. now rewrite H. Qed.

Lemma parseLine_text (ids : IdSource) (st : Parser.t) (n : nat) (c : ascii) (x : str) :
  Ascii.eqb "#"%char c = false -> isSpace c = false -> endsOk (c :: x) = true ->
  parseLine ids st n (c :: x) = lineLeadership ids st n (c :: x).
Proof.
  intros Hc Hs He. unfold parseLine.
  rewrite trim_clean; [|simpl; now rewrite Hs|exact He].
  destruct (noHeading c x Hc) as (-> & -> & -> & ->). reflexivity.
Qed.

Lemma lineLeadership_inGroup (ids : IdSource) (st : Parser.t) (n : nat) (x : str) :
  Parser.currentGroup st <> None ->
  lineLeadership ids st n x = lineInGroup ids st n x.
Proof.
  intros H. unfold lineLeadership.
  destruct (Parser.currentDivision st); [reflexivity|].
  now destruct (Parser.currentGroup st).
Qed.

Lemma parseLine_head (ids : IdSource) (st : Parser.t) (n : nat) (p : Person.t Role) :
  wfLeader head_of_engineering p = true ->
  Parser.currentDivision st = None -> Parser.currentGroup st = None ->
  parseLine ids st n ("Head of Engineering: " ++ leaderPersonLine p)
  = setHead st (withId (ids (Parser.drawn st)) (dataOf p)).
Proof.
  intros Hwf Hd Hg.
  destruct (parsePersonLine_leader _ p Hwf) as (Htrim & Hne & Hs & Hl & _).
  pose proof (parseLeadershipLine_leader "Head of Engineering:" _ p Hwf) as Hp.
  assert (He : endsOk ("Head of Engineering: " ++ leaderPersonLine p) = true).
  { apply endsOk_app. rewrite <- Htrim. unfold trim, trimEnd, endsOk.
    rewrite rev_involutive.
    destruct (dropWhile isSpace (rev (trimStart (leaderPersonLine p)))) eqn:E.
    - rewrite <- Htrim in Hne. unfold trim, trimEnd in Hne. now rewrite E in Hne.
    - simpl. now rewrite (dropWhile_head _ _ _ _ E). }
  change ("Head of Engineering: " ++ leaderPersonLine p)
    with ("H"%char :: "ead of Engineering: " ++ leaderPersonLine p) at 1.
  rewrite parseLine_text; [|reflexivity|reflexivity|exact He].
  unfold lineLeadership. rewrite Hd, Hg.
  assert (E : labelMatch "Head of Engineering:"
                ("H"%char :: "ead of Engineering: " ++ leaderPersonLine p)
              = Some (leaderPersonLine p))
    by (apply (wsStarRest_space _ Hs Hl)).
  rewrite E. unfold leadership.
  change ("H"%char :: "ead of Engineering: " ++ leaderPersonLine p)
    with ("Head of Engineering:" ++ SPACE :: leaderPersonLine p).
  now rewrite Hp.
Qed.

Lemma endsOk_trimmed (x : str) : trim x = x -> nonEmpty x = true -> endsOk x = true.
Proof.
  intros Ht Hn. rewrite <- Ht. unfold trim, trimEnd, endsOk. rewrite rev_involutive.
  destruct (dropWhile isSpace (rev (trimStart x))) eqn:E.
  - rewrite <- Ht in Hn. unfold trim, trimEnd in Hn. now rewrite E in Hn.
  - simpl. now rewrite (dropWhile_head _ _ _ _ E).
Qed.

Lemma endsOk_cons (c : ascii) (a x : str) :
  endsOk x = true -> endsOk (c :: a ++ x) = true.
Proof. intros H. now apply (endsOk_app (c :: a) x). Qed.

Lemma leaderLine_facts (role : Role) (p : Person.t Role) :
  wfLeader role p = true ->
  startsOk (leaderPersonLine p) = true /\ endsOk (leaderPersonLine p) = true
  /\ forallb notLT (leaderPersonLine p) = true.
Proof.
  intros Hwf.
  destruct (parsePersonLine_leader _ p Hwf) as (Htrim & Hne & Hs & Hl & _).
  repeat split; auto. now apply endsOk_trimmed.
Qed.

Lemma parseLine_principal (ids : IdSource) (st : Parser.t) (n : nat) (p : Person.t Role) :
  wfLeader principal_engineer p = true ->
  Parser.currentDivision st = None -> Parser.currentGroup st = None ->
  parseLine ids st n ("Principal Engineer: " ++ leaderPersonLine p)
  = pushPrincipal st (withId (ids (Parser.drawn st)) (dataOf p)).
Proof.
  intros Hwf Hd Hg. destruct (leaderLine_facts _ p Hwf) as (Hs & He & Hl).
  pose proof (parseLeadershipLine_leader "Principal Engineer:" _ p Hwf) as Hp.
  change ("Principal Engineer: " ++ leaderPersonLine p)
    with ("P"%char :: "rincipal Engineer: " ++ leaderPersonLine p) at 1.
  rewrite parseLine_text; [|reflexivity|reflexivity|now apply endsOk_cons].
  unfold lineLeadership. rewrite Hd, Hg.
  assert (E0 : labelMatch "Head of Engineering:"
                 ("P"%char :: "rincipal Engineer: " ++ leaderPersonLine p) = None)
    by reflexivity.
  assert (E : labelMatch "Principal Engineer:"
                ("P"%char :: "rincipal Engineer: " ++ leaderPersonLine p)
              = Some (leaderPersonLine p))
    by (apply (wsStarRest_space _ Hs Hl)).
  rewrite E0, E. unfold leadership.
  change ("P"%char :: "rincipal Engineer: " ++ leaderPersonLine p)
    with ("Principal Engineer:" ++ SPACE :: leaderPersonLine p).
  now rewrite Hp.
Qed.

Lemma parseLine_manager (ids : IdSource) (st : Parser.t) (n : nat) (p : Person.t Role)
    (g : Group.t RoleValue) :
  wfLeader engineering_manager p = true ->
  Parser.currentGroup st = Some g ->
  parseLine ids st n ("Manager: " ++ leaderPersonLine p)
  = inGroup setManager g st (withId (ids (Parser.drawn st)) (dataOf p)).
Proof.
  intros Hwf Hg. destruct (leaderLine_facts _ p Hwf) as (Hs & He & Hl).
  pose proof (parseLeadershipLine_leader "Manager:" _ p Hwf) as Hp.
  change ("Manager: " ++ leaderPersonLine p)
    with ("M"%char :: "anager: " ++ leaderPersonLine p) at 1.
  rewrite parseLine_text; [|reflexivity|reflexivity|now apply endsOk_cons].
  rewrite lineLeadership_inGroup by congruence.
  unfold lineInGroup.
  assert (E : labelMatch "Manager:" ("M"%char :: "anager: " ++ leaderPersonLine p)
              = Some (leaderPersonLine p))
    by (apply (wsStarRest_space _ Hs Hl)).
  rewrite E, Hg. unfold leadership.
  change ("M"%char :: "anager: " ++ leaderPersonLine p)
    with ("Manager:" ++ SPACE :: leaderPersonLine p).
  now rewrite Hp.
Qed.

Lemma parseLine_staff (ids : IdSource) (st : Parser.t) (n : nat) (p : Person.t Role)
    (g : Group.t RoleValue) :
  wfLeader staff_engineer p = true ->
  Parser.currentGroup st = Some g ->
  parseLine ids st n ("Staff: " ++ leaderPersonLine p)
  = inGroup addStaff g st (withId (ids (Parser.drawn st)) (dataOf p)).
Proof.
  intros Hwf Hg. destruct (leaderLine_facts _ p Hwf) as (Hs & He & Hl).
  pose proof (parseLeadershipLine_leader "Staff:" _ p Hwf) as Hp.
  change ("Staff: " ++ leaderPersonLine p)
    with ("S"%char :: "taff: " ++ leaderPersonLine p) at 1.
  rewrite parseLine_text; [|reflexivity|reflexivity|now apply endsOk_cons].
  rewrite lineLeadership_inGroup by congruence.
  unfold lineInGroup.
  assert (E0 : labelMatch "Manager:" ("S"%char :: "taff: " ++ leaderPersonLine p) = None)
    by reflexivity.
  assert (E1 : labelMatch "Managed by:" ("S"%char :: "taff: " ++ leaderPersonLine p) = None)
    by reflexivity.
  assert (E : labelMatch "Staff:" ("S"%char :: "taff: " ++ leaderPersonLine p)
              = Some (leaderPersonLine p))
    by (apply (wsStarRest_space _ Hs Hl)).
  rewrite E0, E1, E, Hg. unfold leadership.
  change ("S"%char :: "taff: " ++ leaderPersonLine p)
    with ("Staff:" ++ SPACE :: leaderPersonLine p).
  now rewrite Hp.
Qed.

Lemma parseLine_managedBy (ids : IdSource) (st : Parser.t) (n : nat) (label : str)
    (g : Group.t RoleValue) :
  cleanText label = true ->
  Parser.currentGroup st = Some g ->
  parseLine ids st n ("Managed by: " ++ label)
  = setContext st (Parser.currentDivision st) (Some (setManagedBy g label))
               (Parser.currentTeam st) (Parser.groupInDivision st) 0.
Proof.
  intros Hc Hg. apply cleanText_parts in Hc as (Hs & He & Hl & Ht & Hn).
  change ("Managed by: " ++ label) with ("M"%char :: "anaged by: " ++ label) at 1.
  rewrite parseLine_text; [|reflexivity|reflexivity|now apply endsOk_cons].
  rewrite lineLeadership_inGroup by congruence.
  unfold lineInGroup.
  assert (E0 : labelMatch "Manager:" ("M"%char :: "anaged by: " ++ label) = None)
    by reflexivity.
  assert (E : labelMatch "Managed by:" ("M"%char :: "anaged by: " ++ label) = Some label)
    by (apply (wsStarRest_space _ Hs Hl)).
  now rewrite E0, E, Hg, Ht.
Qed.

Lemma parseLine_item (ids : IdSource) (st : Parser.t) (n : nat) (x : str)
    (persons : list PersonData.t) (team : Team.t RoleValue) :
  startsOk x = true -> endsOk x = true -> forallb notLT x = true ->
  parsePersonLine x = Persons persons ->
  Parser.currentGroup st <> None ->
  Parser.currentTeam st = Some team ->
  parseLine ids st n ("- " ++ x)
  = setContext st (Parser.currentDivision st) (Parser.currentGroup st)
               (Some (addMembers team (withIds ids (Parser.drawn st) persons)))
               (Parser.groupInDivision st) (length persons).
Proof.
  intros Hs He Hl Hp Hg Ht.
  change ("- " ++ x) with ("-"%char :: SPACE :: x) at 1.
  rewrite parseLine_text; [|reflexivity|reflexivity|].
  2: { change ("-"%char :: SPACE :: x) with ("- " ++ x). now apply endsOk_app. }
  rewrite lineLeadership_inGroup by exact Hg.
  unfold lineInGroup.
  assert (E0 : labelMatch "Manager:" ("-"%char :: SPACE :: x) = None) by reflexivity.
  assert (E1 : labelMatch "Managed by:" ("-"%char :: SPACE :: x) = None) by reflexivity.
  assert (E2 : labelMatch "Staff:" ("-"%char :: SPACE :: x) = None) by reflexivity.
  assert (E : listMatch ("-"%char :: SPACE :: x) = Some x)
    by (apply (wsPlusRest_space _ Hs Hl)).
  now rewrite E0, E1, E2, E, Ht, Hp.
Qed.

(** The headings. *)
Lemma parseLine_h2 (ids : IdSource) (st : Parser.t) (n : nat) (name : str) :
  cleanText name = true ->
  parseLine ids st n ("## " ++ name)
  = match labelMatch "Division:" name with
    | Some d => openDivision ids (finishDivision st) (trim d)
    | None => openGroup ids (finishDivision st) name false
    end.
Proof.
  intros Hc. apply cleanText_parts in Hc as (Hs & He & Hl & Ht & Hn).
  unfold parseLine. rewrite trim_clean; [|reflexivity|now apply endsOk_app].
  assert (E1 : headingMatch 1 ("## " ++ name) = None) by reflexivity.
  assert (E4 : headingMatch 4 ("## " ++ name) = None) by reflexivity.
  assert (E3 : headingMatch 3 ("## " ++ name) = None) by reflexivity.
  assert (E2 : headingMatch 2 ("## " ++ name) = Some name)
    by (apply (wsPlusRest_space _ Hs Hl)).
  now rewrite E1, E4, E3, E2, Ht.
Qed.

Lemma parseLine_division (ids : IdSource) (st : Parser.t) (n : nat) (name : str) :
  cleanText name = true ->
  parseLine ids st n ("## Division: " ++ name)
  = openDivision ids (finishDivision st) name.
Proof.
  intros Hc. pose proof (cleanText_parts _ Hc) as (Hs & He & Hl & Ht & Hn).
  change ("## Division: " ++ name) with ("## " ++ ("Division: " ++ name)).
  rewrite parseLine_h2.
  - assert (E : labelMatch "Division:" ("Division: " ++ name) = Some name)
      by (apply (wsStarRest_space _ Hs Hl)).
    now rewrite E, Ht.
  - unfold cleanText. rewrite (endsOk_app "Division: " name He).
    replace (startsOk ("Division: " ++ name)) with true by reflexivity.
    now apply forallb_app_true.
Qed.

Lemma parseLine_h3 (ids : IdSource) (st : Parser.t) (n : nat) (name : str) :
  cleanText name = true ->
  parseLine ids st n ("### " ++ name)
  = match Parser.currentDivision st, Parser.currentGroup st with
    | Some _, _ => openGroup ids (finishGroup st) name true
    | None, Some _ => openTeam ids st name
    | None, None => pushError st n HeadingOutsideContext
    end.
Proof.
  intros Hc. apply cleanText_parts in Hc as (Hs & He & Hl & Ht & Hn).
  unfold parseLine. rewrite trim_clean; [|reflexivity|now apply endsOk_app].
  assert (E1 : headingMatch 1 ("### " ++ name) = None) by reflexivity.
  assert (E4 : headingMatch 4 ("### " ++ name) = None) by reflexivity.
  assert (E3 : headingMatch 3 ("### " ++ name) = Some name)
    by (apply (wsPlusRest_space _ Hs Hl)).
  now rewrite E1, E4, E3, Ht.
Qed.

Lemma parseLine_h4 (ids : IdSource) (st : Parser.t) (n : nat) (name : str) :
  cleanText name = true ->
  parseLine ids st n ("#### " ++ name)
  = match Parser.currentGroup st with
    | None => pushError st n TeamOutsideGroup
    | Some _ => openTeam ids st name
    end.
Proof.
  intros Hc. apply cleanText_parts in Hc as (Hs & He & Hl & Ht & Hn).
  unfold parseLine. rewrite trim_clean; [|reflexivity|now apply endsOk_app].
  assert (E1 : headingMatch 1 ("#### " ++ name) = None) by reflexivity.
  assert (E4 : headingMatch 4 ("#### " ++ name) = Some name)
    by (apply (wsPlusRest_space _ Hs Hl)).
  now rewrite E1, E4.
Qed.

(** *** The blocks of lines *)

Lemma parseLines_app (ids : IdSource) (a b : list str) :
  forall st n,
  parseLines ids st n (a ++ b) = parseLines ids (parseLines ids st n a) (n + length a) b.
Proof.
  induction a as [|x a IH]; intros st n; simpl.
  - now rewrite Nat.add_0_r.
  - rewrite IH. f_equal. lia.
Qed.

Lemma withIds_app (ids : IdSource) (a b : list PersonData.t) :
  forall n, withIds ids n (a ++ b) = withIds ids n a ++ withIds ids (length a + n) b.
Proof.
  induction a as [|x a IH]; intros n; simpl; [reflexivity|].
  rewrite IH. do 3 f_equal. lia.
Qed.

Lemma anon_withIds (ids : IdSource) (l : list PersonData.t) :
  forall n, map anonPerson (withIds ids n l) = map (withId []) l.
Proof. induction l as [|x l IH]; intros n; simpl; [reflexivity|]. now rewrite IH. Qed.

Lemma memberItems_lines (members : list (Person.t Role)) :
  formatTeamMembers members = map (fun l => "- " ++ fst l) (memberItems members)
  /\ flat_map snd (memberItems members) = dataOfMembers members.
Proof.
  unfold formatTeamMembers, memberItems, dataOfMembers.
  destruct (sortMembers members) as [named unnamed]. split.
  - rewrite map_app, !map_map. f_equal.
    apply map_ext. now intros [k [p c]].
  - rewrite flat_map_app. f_equal.
    + induction unnamed as [|[k [p c]] u IH]; [reflexivity|].
      cbn [map flat_map snd]. now rewrite IH.
    + induction named as [|p l IH]; [reflexivity|].
      cbn [map flat_map snd app]. now rewrite IH.
Qed.

Lemma memberItems_facts (members : list (Person.t Role)) :
  forallb wfMember members = true ->
  Forall (fun '(x, ps) =>
            startsOk x = true /\ endsOk x = true /\ forallb notLT x = true
            /\ parsePersonLine x = Persons ps)
         (memberItems members).
Proof.
  intros Hwf. rewrite forallb_forall in Hwf.
  unfold memberItems. unfold sortMembers. rewrite sortMembers_fold. simpl app.
  assert (H : coalesced members (collectUnnamed members [])).
  { apply (coalesced_collect members [] []).
    repeat split; try constructor; intros; contradiction. }
  destruct H as (Hnd & Hcount & Hent).
  apply Forall_app. split.
  - apply Forall_forall. intros [x ps] Hin.
    apply in_map_iff in Hin as ([k [p c]] & E & Hin). injection E as <- <-.
    destruct (Hent _ _ _ Hin) as (Hk & Hp & Hu).
    assert (Hc : 1 <= c).
    { rewrite <- (countOf_In _ Hnd k p c Hin), Hcount.
      assert (Hin' : In p (unnamedWith k members)).
      { apply filter_In. split; [exact Hp|]. rewrite Hu. subst k. now rewrite eqs_refl. }
      destruct (unnamedWith k members); [contradiction|simpl; lia]. }
    assert (Hun : truthy (Person.name p) = false).
    { unfold isUnnamed in Hu. now destruct (truthy (Person.name p)). }
    destruct (parsePersonLine_unnamed p c (Hwf p Hp) Hun Hc) as (H1 & H2 & H3 & H4).
    auto.
  - apply Forall_forall. intros [x ps] Hin.
    apply in_map_iff in Hin as (p & E & Hin). injection E as <- <-.
    apply filter_In in Hin as [Hp Hn].
    destruct (parsePersonLine_named p (Hwf p Hp) Hn) as (H1 & H2 & H3 & H4). auto.
Qed.

Lemma parseLines_items (ids : IdSource) (items : list (str * list PersonData.t)) :
  Forall (fun '(x, ps) =>
            startsOk x = true /\ endsOk x = true /\ forallb notLT x = true
            /\ parsePersonLine x = Persons ps) items ->
  forall e nm tg h ps dvs gs cd g t f d n,
  parseLines ids (Parser.mk e nm tg h ps dvs gs cd (Some g) (Some t) f d) n
             (map (fun l => "- " ++ fst l) items)
  = Parser.mk e nm tg h ps dvs gs cd (Some g)
              (Some (addMembers t (withIds ids d (flat_map snd items)))) f
              (length (flat_map snd items) + d).
Proof.
  induction 1 as [|[x persons] items (Hs & He & Hl & Hp) Hall IH];
    intros e nm tg h ps dvs gs cd g t f d n.
  - simpl. unfold addMembers. simpl. rewrite app_nil_r. now destruct t.
  - cbn [map parseLines fst].
    rewrite (parseLine_item ids _ n x persons t Hs He Hl Hp); [|discriminate|reflexivity].
    unfold setContext.
    cbn [Parser.errors Parser.portfolioName Parser.onshoreTarget
         Parser.headOfEngineering Parser.principalEngineers Parser.divisions
         Parser.directGroups Parser.currentDivision Parser.currentGroup
         Parser.currentTeam Parser.groupInDivision Parser.drawn].
    rewrite IH. cbn [flat_map snd]. rewrite withIds_app, !length_app.
    unfold addMembers. cbn [Team.id Team.name Team.members].
    rewrite <- app_assoc. f_equal. lia.
Qed.

Ltac state_simpl :=
  unfold inGroup, openTeam, openGroup, openDivision;
  unfold setContext, pushDivision, pushDirectGroup, setHead, pushPrincipal, setHeading;
  cbv zeta;
  cbn [Parser.errors Parser.portfolioName Parser.onshoreTarget
       Parser.headOfEngineering Parser.principalEngineers Parser.divisions
       Parser.directGroups Parser.currentDivision Parser.currentGroup
       Parser.currentTeam Parser.groupInDivision Parser.drawn].

Lemma finishTeam_open (st : Parser.t) e nm tg h ps dvs gs cd g f d :
  finishTeam st = Parser.mk e nm tg h ps dvs gs cd (Some g) None f d ->
  Parser.currentGroup st <> None /\ Parser.currentDivision st = cd.
Proof.
  destruct st as [? ? ? ? ? ? ? ? [g0|] [t0|] ? ?]; unfold finishTeam; simpl;
    intros H; inversion H; subst; split; congruence.
Qed.

Lemma wfTeam_parts (t : Team.t Role) :
  wfTeam t = true -> cleanText (Team.name t) = true /\ forallb wfMember (Team.members t) = true.
Proof. unfold wfTeam. intros H. now apply andb_true_iff in H. Qed.

(** A team block, under a group directly in the portfolio ([depth] 2,
    outside any division) or under a group of a division ([depth] 3). *)
Lemma parse_team (ids : IdSource) (depth : nat) (t : Team.t Role) :
  wfTeam t = true ->
  forall st n e nm tg h ps dvs gs cd g f d,
  finishTeam st = Parser.mk e nm tg h ps dvs gs cd (Some g) None f d ->
  (depth = 2 /\ cd = None) \/ depth = 3 ->
  exists t' k,
    finishTeam (parseLines ids st n (teamLines depth t))
    = Parser.mk e nm tg h ps dvs gs cd (Some (addTeam g t')) None f k
    /\ anonTeam t' = expTeam t.
Proof.
  intros Hwf st n e nm tg h ps dvs gs cd g f d Hst Hdepth.
  apply wfTeam_parts in Hwf as [Hname Hmembers].
  destruct (finishTeam_open _ _ _ _ _ _ _ _ _ _ _ _ Hst) as [Hg Hd].
  pose proof (cleanText_parts _ Hname) as (_ & _ & _ & Htrim & _).
  destruct (memberItems_lines (Team.members t)) as [Hlines Hdata].
  pose proof (memberItems_facts _ Hmembers) as Hitems.
  unfold teamLines. cbn [app parseLines]. rewrite parseLine_blank.
  assert (Hopen : parseLine ids st (S n) (hashes (depth + 1) ++ " " ++ Team.name t)
                  = openTeam ids st (Team.name t)).
  { destruct Hdepth as [[-> ->]| ->].
    - change (hashes (2 + 1) ++ " " ++ Team.name t) with ("### " ++ Team.name t).
      rewrite parseLine_h3 by exact Hname. rewrite Hd.
      now destruct (Parser.currentGroup st).
    - change (hashes (3 + 1) ++ " " ++ Team.name t) with ("#### " ++ Team.name t).
      rewrite parseLine_h4 by exact Hname.
      now destruct (Parser.currentGroup st). }
  rewrite Hopen. unfold openTeam. cbv zeta. rewrite Hst, Htrim. state_simpl.
  rewrite Hlines, parseLines_items by exact Hitems.
  eexists. eexists. split; [reflexivity|].
  unfold anonTeam, expTeam, addMembers, newTeam. cbn [Team.id Team.name Team.members app].
  now rewrite anon_withIds, Hdata.
Qed.

Lemma parse_teams (ids : IdSource) (depth : nat) (teams : list (Team.t Role)) :
  forallb wfTeam teams = true ->
  forall st n e nm tg h ps dvs gs cd g f d,
  finishTeam st = Parser.mk e nm tg h ps dvs gs cd (Some g) None f d ->
  (depth = 2 /\ cd = None) \/ depth = 3 ->
  exists ts' k,
    finishTeam (parseLines ids st n (flat_map (teamLines depth) teams))
    = Parser.mk e nm tg h ps dvs gs cd (Some (addTeams g ts')) None f k
    /\ map anonTeam ts' = map expTeam teams.
Proof.
  induction teams as [|t teams IH]; intros Hwf st n e nm tg h ps dvs gs cd g f d Hst Hdepth.
  - exists [], d. split; [|reflexivity]. simpl. rewrite Hst.
    unfold addTeams. rewrite app_nil_r. now destruct g.
  - simpl in Hwf. apply andb_true_iff in Hwf as [Ht Hteams].
    cbn [flat_map]. rewrite parseLines_app.
    destruct (parse_team ids depth t Ht st n _ _ _ _ _ _ _ _ _ _ _ Hst Hdepth)
      as (t' & k & Hst1 & Hanon).
    destruct (IH Hteams _ (n + length (teamLines depth t)) _ _ _ _ _ _ _ _ _ _ _ Hst1 Hdepth)
      as (ts' & k' & Hst2 & Hanon').
    exists (t' :: ts'), k'. split.
    + rewrite Hst2. unfold addTeams, addTeam. cbn [Group.id Group.name Group.manager
        Group.managedBy Group.staffEngineers Group.teams].
      now rewrite <- app_assoc.
    + simpl. now rewrite Hanon, Hanon'.
Qed.

Lemma parse_staff (ids : IdSource) (staff : list (Person.t Role)) :
  forallb (wfLeader staff_engineer) staff = true ->
  forall e nm tg h ps dvs gs cd g f d n,
  exists ps' k,
    parseLines ids (Parser.mk e nm tg h ps dvs gs cd (Some g) None f d) n
               (map (fun se => "Staff: " ++ leaderPersonLine se) staff)
    = Parser.mk e nm tg h ps dvs gs cd
                (Some (Group.mk (Group.id g) (Group.name g) (Group.manager g)
                                (Group.managedBy g) (Group.staffEngineers g ++ ps')
                                (Group.teams g)))
                None f k
    /\ map anonPerson ps' = map expPerson staff.
Proof.
  induction staff as [|p staff IH]; intros Hwf e nm tg h ps dvs gs cd g f d n.
  - exists [], d. split; [|reflexivity]. simpl. rewrite app_nil_r. now destruct g.
  - simpl in Hwf. apply andb_true_iff in Hwf as [Hp Hstaff].
    cbn [map parseLines].
    rewrite (parseLine_staff ids _ n p g Hp) by reflexivity. state_simpl.
    destruct (IH Hstaff e nm tg h ps dvs gs cd
                 (addStaff g (withId (ids d) (dataOf p))) f (1 + d) (S n))
      as (ps' & k & Hst & Hanon).
    exists (withId (ids d) (dataOf p) :: ps'), k. split.
    + rewrite Hst. unfold addStaff. cbn [Group.id Group.name Group.manager
        Group.managedBy Group.staffEngineers Group.teams].
      now rewrite <- app_assoc.
    + simpl. now rewrite Hanon.
Qed.

Lemma wfGroup_parts (direct : bool) (g : Group.t Role) :
  wfGroup direct g = true ->
  cleanText (Group.name g) = true
  /\ (direct = true -> labelMatch "Division:" (Group.name g) = None)
  /\ match Group.manager g, Group.managedBy g with
     | Some m, None => wfLeader engineering_manager m = true
     | None, None => True
     | None, Some label => cleanText label = true
     | Some _, Some _ => False
     end
  /\ forallb (wfLeader staff_engineer) (Group.staffEngineers g) = true
  /\ forallb wfTeam (Group.teams g) = true.
Proof.
  unfold wfGroup. intros H.
  apply andb_true_iff in H as [H Hteams]. apply andb_true_iff in H as [H Hstaff].
  apply andb_true_iff in H as [H Hmgr]. apply andb_true_iff in H as [Hname Hdirect].
  repeat split; try assumption.
  - intros ->. now destruct (labelMatch _ (Group.name g)).
  - destruct (Group.manager g), (Group.managedBy g); try assumption; try exact I.
    discriminate.
Qed.

(** The lines of a group after its heading: the manager or the label of
    who manages it, the staff engineers, the teams. *)
Lemma parse_group_body (ids : IdSource) (direct : bool) (depth : nat) (g : Group.t Role) :
  wfGroup direct g = true ->
  forall e nm tg h ps dvs gs cd f i d n,
  (depth = 2 /\ cd = None) \/ depth = 3 ->
  exists g' k,
    finishTeam (parseLines ids
                  (Parser.mk e nm tg h ps dvs gs cd (Some (newGroup i (Group.name g)))
                             None f d)
                  n (tl (groupLines g depth)))
    = Parser.mk e nm tg h ps dvs gs cd (Some g') None f k
    /\ anonGroup g' = expGroup g.
Proof.
  intros Hwf e nm tg h ps dvs gs cd f i d n Hdepth.
  apply wfGroup_parts in Hwf as (Hname & _ & Hmgr & Hstaff & Hteams).
  unfold groupLines.
  match goal with
  | |- context [tl ([?x] ++ ?r)] => change (tl ([x] ++ r)) with r
  end.
  rewrite !parseLines_app.
  match goal with
  | |- context [parseLines ids (parseLines ids (parseLines ids ?s ?n0 ?L) _ _) _ _] =>
  assert (Hfirst : exists m' mb' k,
    parseLines ids s n0 L
    = Parser.mk e nm tg h ps dvs gs cd
                (Some (Group.mk i (Group.name g) m' mb' [] [])) None f k
    /\ option_map anonPerson m' = option_map expPerson (Group.manager g)
    /\ mb' = match Group.manager g with
             | Some _ => None
             | None => if truthy (Group.managedBy g) then Group.managedBy g else None
             end); [|clear Hmgr]
  end.
  { destruct (Group.manager g) as [m|], (Group.managedBy g) as [l|];
      try contradiction.
    - cbn [parseLines].
      rewrite (parseLine_manager ids _ n m (newGroup i (Group.name g)) Hmgr) by reflexivity.
      state_simpl. eexists. eexists. eexists. split; [reflexivity|]. split; reflexivity.
    - pose proof (cleanText_parts _ Hmgr) as (_ & _ & _ & _ & Hne).
      unfold truthy, nullish. rewrite Hne. cbn [parseLines].
      rewrite (parseLine_managedBy ids _ n l (newGroup i (Group.name g)) Hmgr) by reflexivity.
      state_simpl. eexists. eexists. eexists. split; [reflexivity|]. split; reflexivity.
    - cbn [truthy parseLines]. eexists. eexists. eexists.
      split; [reflexivity|]. split; reflexivity. }
  destruct Hfirst as (m' & mb' & k0 & -> & Hm & Hmb).
  match goal with
  | |- context [parseLines ids (parseLines ids ?s ?n0 (map ?fn _)) _ _] =>
      destruct (parse_staff ids (Group.staffEngineers g) Hstaff e nm tg h ps dvs gs cd
                  (Group.mk i (Group.name g) m' mb' [] []) f k0 n0)
        as (ps' & k1 & Hst1 & Hps)
  end.
  rewrite Hst1. cbn [Group.id Group.name Group.manager Group.managedBy
                     Group.staffEngineers Group.teams app].
  match goal with
  | |- context [parseLines ids ?s ?n0 (flat_map _ _)] =>
      destruct (parse_teams ids depth (Group.teams g) Hteams s n0
                  e nm tg h ps dvs gs cd _ f k1 eq_refl Hdepth)
        as (ts' & k2 & Hst2 & Hts)
  end.
  rewrite Hst2. eexists. eexists. split; [reflexivity|].
  unfold anonGroup, expGroup, addTeams.
  cbn [Group.id Group.name Group.manager Group.managedBy Group.staffEngineers
       Group.teams app].
  now rewrite Hm, Hmb, Hps, Hts.
Qed.

Lemma finishGroup_division (st : Parser.t) e nm tg h ps dvs gs dv f d :
  finishGroup st = Parser.mk e nm tg h ps dvs gs (Some dv) None None f d ->
  Parser.currentDivision st <> None.
Proof.
  destruct st as [? ? ? ? ? ? ? [dv0|] [g0|] [t0|] [] ?];
    unfold finishGroup, finishTeam; simpl; intros H; inversion H; congruence.
Qed.

(** A group of a division. *)
Lemma parse_division_group (ids : IdSource) (g : Group.t Role) :
  wfGroup false g = true ->
  forall st n e nm tg h ps dvs gs dv f d,
  finishGroup st = Parser.mk e nm tg h ps dvs gs (Some dv) None None f d ->
  exists g' k,
    finishGroup (parseLines ids st n (groupLines g 3))
    = Parser.mk e nm tg h ps dvs gs (Some (addGroup dv g')) None None true k
    /\ anonGroup g' = expGroup g.
Proof.
  intros Hwf st n e nm tg h ps dvs gs dv f d Hst.
  pose proof (finishGroup_division _ _ _ _ _ _ _ _ _ _ _ Hst) as Hdv.
  destruct (wfGroup_parts _ _ Hwf) as (Hname & _).
  assert (Hlines : groupLines g 3 = ("### " ++ Group.name g) :: tl (groupLines g 3))
    by reflexivity.
  rewrite Hlines. cbn [parseLines].
  rewrite parseLine_h3 by exact Hname.
  destruct (Parser.currentDivision st) as [dv0|]; [clear Hdv|congruence].
  rewrite Hst. state_simpl.
  destruct (parse_group_body ids false 3 g Hwf e nm tg h ps dvs gs (Some dv) true
              (ids d) (1 + d) (S n) (or_intror eq_refl)) as (g' & k & Hbody & Hanon).
  exists g', k. split; [|exact Hanon].
  unfold finishGroup. cbv zeta. rewrite Hbody. reflexivity.
Qed.

Lemma parse_division_groups (ids : IdSource) (groups : list (Group.t Role)) :
  forallb (wfGroup false) groups = true ->
  forall first st n e nm tg h ps dvs gs dv f d,
  finishGroup st = Parser.mk e nm tg h ps dvs gs (Some dv) None None f d ->
  exists gs' k f',
    finishGroup (parseLines ids st n (divisionGroupsLines first groups))
    = Parser.mk e nm tg h ps dvs gs (Some (addGroups dv gs')) None None f' k
    /\ map anonGroup gs' = map expGroup groups.
Proof.
  induction groups as [|g groups IH]; intros Hwf first st n e nm tg h ps dvs gs dv f d Hst.
  - exists [], d, f. split; [|reflexivity]. simpl. rewrite Hst.
    unfold addGroups. rewrite app_nil_r. now destruct dv.
  - simpl in Hwf. apply andb_true_iff in Hwf as [Hg Hgroups].
    assert (Hblank : forall k0, exists k1,
              parseLines ids st k0 (divisionGroupsLines first (g :: groups))
              = parseLines ids (parseLines ids st k1 (groupLines g 3))
                           (k1 + length (groupLines g 3))
                           (divisionGroupsLines false groups)).
    { intros k0. destruct first; cbn [divisionGroupsLines app parseLines].
      - exists k0. now rewrite parseLines_app.
      - exists (S k0). now rewrite parseLine_blank, parseLines_app. }
    destruct (Hblank n) as (k1 & ->).
    match goal with
    | |- context [parseLines ids (parseLines ids st ?n0 (groupLines g 3)) ?n1 _] =>
        destruct (parse_division_group ids g Hg st n0 _ _ _ _ _ _ _ _ _ _ Hst)
          as (g' & k & Hst1 & Hanon);
        destruct (IH Hgroups false _ n1 _ _ _ _ _ _ _ _ _ _ Hst1)
          as (gs' & k' & f' & Hst2 & Hanon')
    end.
    exists (g' :: gs'), k', f'. split.
    + rewrite Hst2. unfold addGroups, addGroup.
      cbn [Division.id Division.name Division.groups]. now rewrite <- app_assoc.
    + simpl. now rewrite Hanon, Hanon'.
Qed.

(** A division: a blank line, its heading, a blank line, its groups. *)
Lemma parse_division (ids : IdSource) (dv : Division.t Role) :
  wfDivision dv = true ->
  forall st n e nm tg h ps dvs gs f d,
  finishDivision st = Parser.mk e nm tg h ps dvs gs None None None f d ->
  exists dv' k f',
    finishDivision (parseLines ids st n ([] :: divisionLines dv))
    = Parser.mk e nm tg h ps (dvs ++ [dv']) gs None None None f' k
    /\ anonDivision dv' = expDivision dv.
Proof.
  intros Hwf st n e nm tg h ps dvs gs f d Hst.
  unfold wfDivision in Hwf. apply andb_true_iff in Hwf as [Hname Hgroups].
  assert (Hlines : [] :: divisionLines dv
                   = [[]; "## Division: " ++ Division.name dv; []]
                     ++ divisionGroupsLines true (Division.groups dv)) by reflexivity.
  rewrite Hlines, parseLines_app. cbn [parseLines]. rewrite !parseLine_blank.
  rewrite parseLine_division by exact Hname. rewrite Hst. state_simpl.
  match goal with
  | |- context [parseLines ids ?s ?n0 (divisionGroupsLines true _)] =>
      destruct (parse_division_groups ids (Division.groups dv) Hgroups true s n0
                  _ _ _ _ _ _ _ _ _ _ eq_refl) as (gs' & k & f' & Hst1 & Hanon)
  end.
  eexists. exists k, f'. split.
  - unfold finishDivision. cbv zeta. rewrite Hst1. reflexivity.
  - unfold anonDivision, expDivision, addGroups.
    cbn [Division.id Division.name Division.groups app]. now rewrite Hanon.
Qed.

Lemma parse_divisions (ids : IdSource) (ds : list (Division.t Role)) :
  forallb wfDivision ds = true ->
  forall st n e nm tg h ps dvs gs f d,
  finishDivision st = Parser.mk e nm tg h ps dvs gs None None None f d ->
  exists dvs' k f',
    finishDivision (parseLines ids st n
                      (flat_map (fun division => [] :: divisionLines division) ds))
    = Parser.mk e nm tg h ps (dvs ++ dvs') gs None None None f' k
    /\ map anonDivision dvs' = map expDivision ds.
Proof.
  induction ds as [|dv ds IH]; intros Hwf st n e nm tg h ps dvs gs f d Hst.
  - exists [], d, f. split; [|reflexivity]. simpl. now rewrite Hst, app_nil_r.
  - simpl in Hwf. apply andb_true_iff in Hwf as [Hdv Hds].
    cbn [flat_map]. rewrite parseLines_app.
    match goal with
    | |- context [parseLines ids (parseLines ids st ?n0 ?l) ?n1 _] =>
        destruct (parse_division ids dv Hdv st n0 _ _ _ _ _ _ _ _ _ Hst)
          as (dv' & k & f' & Hst1 & Hanon);
        destruct (IH Hds _ n1 _ _ _ _ _ _ _ _ _ Hst1)
          as (dvs' & k' & f'' & Hst2 & Hanon')
    end.
    exists (dv' :: dvs'), k', f''. split.
    + rewrite Hst2. now rewrite <- app_assoc.
    + simpl. now rewrite Hanon, Hanon'.
Qed.

(** A group directly under the portfolio: a blank line and the group. *)
Lemma parse_direct_group (ids : IdSource) (g : Group.t Role) :
  wfGroup true g = true ->
  forall st n e nm tg h ps dvs gs f d,
  finishDivision st = Parser.mk e nm tg h ps dvs gs None None None f d ->
  exists g' k,
    finishDivision (parseLines ids st n ([] :: groupLines g 2))
    = Parser.mk e nm tg h ps dvs (gs ++ [g']) None None None false k
    /\ anonGroup g' = expGroup g.
Proof.
  intros Hwf st n e nm tg h ps dvs gs f d Hst.
  destruct (wfGroup_parts _ _ Hwf) as (Hname & Hdirect & _).
  assert (Hlines : groupLines g 2 = ("## " ++ Group.name g) :: tl (groupLines g 2))
    by reflexivity.
  rewrite Hlines. cbn [parseLines]. rewrite parseLine_blank.
  rewrite parseLine_h2 by exact Hname. rewrite (Hdirect eq_refl), Hst. state_simpl.
  destruct (parse_group_body ids true 2 g Hwf e nm tg h ps dvs gs None false
              (ids d) (1 + d) (S (S n)) (or_introl (conj eq_refl eq_refl)))
    as (g' & k & Hbody & Hanon).
  exists g', k. split; [|exact Hanon].
  unfold finishDivision, finishGroup. cbv zeta. rewrite Hbody. reflexivity.
Qed.

Lemma parse_direct_groups (ids : IdSource) (groups : list (Group.t Role)) :
  forallb (wfGroup true) groups = true ->
  forall st n e nm tg h ps dvs gs f d,
  finishDivision st = Parser.mk e nm tg h ps dvs gs None None None f d ->
  exists gs' k f',
    finishDivision (parseLines ids st n
                      (flat_map (fun group => [] :: groupLines group 2) groups))
    = Parser.mk e nm tg h ps dvs (gs ++ gs') None None None f' k
    /\ map anonGroup gs' = map expGroup groups.
Proof.
  induction groups as [|g groups IH]; intros Hwf st n e nm tg h ps dvs gs f d Hst.
  - exists [], d, f. split; [|reflexivity]. simpl. now rewrite Hst, app_nil_r.
  - simpl in Hwf. apply andb_true_iff in Hwf as [Hg Hgroups].
    cbn [flat_map]. rewrite parseLines_app.
    match goal with
    | |- context [parseLines ids (parseLines ids st ?n0 ?l) ?n1 _] =>
        destruct (parse_direct_group ids g Hg st n0 _ _ _ _ _ _ _ _ _ Hst)
          as (g' & k & Hst1 & Hanon);
        destruct (IH Hgroups _ n1 _ _ _ _ _ _ _ _ _ Hst1)
          as (gs' & k' & f' & Hst2 & Hanon')
    end.
    exists (g' :: gs'), k', f'. split.
    + rewrite Hst2. now rewrite <- app_assoc.
    + simpl. now rewrite Hanon, Hanon'.
Qed.

(** *** Every line of the generated text is one line *)

Lemma oneLine_app (a b : str) : oneLine a -> oneLine b -> oneLine (a ++ b).
Proof. apply forallb_app_true. Qed.

Lemma oneLine_hashes (n : nat) : oneLine (hashes n).
Proof. unfold oneLine, hashes. induction n as [|n IH]; simpl; auto. Qed.

Lemma oneLine_lacks (l : str) : oneLine l -> lacks LF l = true.
Proof.
  apply forallb_impl. intros c.
  destruct c as [[] [] [] [] [] [] [] []]; vm_compute; congruence.
Qed.

Lemma oneLine_leader (label : str) (role : Role) (p : Person.t Role) :
  oneLine label -> wfLeader role p = true -> oneLine (label ++ leaderPersonLine p).
Proof.
  intros Hl Hwf. apply oneLine_app; [exact Hl|].
  now destruct (leaderLine_facts _ p Hwf) as (_ & _ & H).
Qed.

Lemma oneLine_clean (s : str) : cleanText s = true -> oneLine s.
Proof. intros H. now destruct (cleanText_parts _ H) as (_ & _ & H' & _). Qed.

Lemma oneLine_heading (n : nat) (name : str) :
  cleanText name = true -> oneLine (hashes n ++ " " ++ name).
Proof.
  intros H. apply oneLine_app; [apply oneLine_hashes|].
  apply oneLine_app; [reflexivity|now apply oneLine_clean].
Qed.

Lemma teamLines_oneLine (depth : nat) (t : Team.t Role) :
  wfTeam t = true -> Forall oneLine (teamLines depth t).
Proof.
  intros Hwf. apply wfTeam_parts in Hwf as [Hname Hmembers].
  unfold teamLines. apply Forall_app. split.
  - repeat constructor. now apply oneLine_heading.
  - destruct (memberItems_lines (Team.members t)) as [-> _].
    apply Forall_map. pose proof (memberItems_facts _ Hmembers) as H.
    eapply Forall_impl; [|exact H]. intros [x ps] (_ & _ & Hx & _).
    apply oneLine_app; [reflexivity|exact Hx].
Qed.

Lemma groupLines_oneLine (direct : bool) (depth : nat) (g : Group.t Role) :
  wfGroup direct g = true -> Forall oneLine (groupLines g depth).
Proof.
  intros Hwf. apply wfGroup_parts in Hwf as (Hname & _ & Hmgr & Hstaff & Hteams).
  unfold groupLines. repeat (apply Forall_app; split).
  - repeat constructor. now apply oneLine_heading.
  - destruct (Group.manager g) as [m|], (Group.managedBy g) as [l|];
      try contradiction.
    + repeat constructor. now apply (oneLine_leader _ engineering_manager).
    + destruct (truthy (Some l)); repeat constructor.
      apply oneLine_app; [reflexivity|now apply oneLine_clean].
    + constructor.
  - apply Forall_map. apply Forall_forall. intros p Hp.
    apply (oneLine_leader _ staff_engineer); [reflexivity|].
    rewrite forallb_forall in Hstaff. now apply Hstaff.
  - apply Forall_flat_map. apply Forall_forall. intros t Ht.
    apply teamLines_oneLine. rewrite forallb_forall in Hteams. now apply Hteams.
Qed.

Lemma divisionGroupsLines_oneLine (groups : list (Group.t Role)) (first : bool) :
  forallb (wfGroup false) groups = true ->
  Forall oneLine (divisionGroupsLines first groups).
Proof.
  revert first. induction groups as [|g groups IH]; intros first Hwf; [constructor|].
  simpl in Hwf. apply andb_true_iff in Hwf as [Hg Hgroups].
  cbn [divisionGroupsLines]. apply Forall_app; split; [|apply Forall_app; split].
  - destruct first; repeat constructor.
  - now apply (groupLines_oneLine false).
  - now apply IH.
Qed.

Lemma divisionLines_oneLine (dv : Division.t Role) :
  wfDivision dv = true -> Forall oneLine (divisionLines dv).
Proof.
  unfold wfDivision. intros Hwf. apply andb_true_iff in Hwf as [Hname Hgroups].
  unfold divisionLines. apply Forall_app. split.
  - repeat constructor. apply oneLine_app; [reflexivity|now apply oneLine_clean].
  - now apply divisionGroupsLines_oneLine.
Qed.

Lemma wfPortfolio_parts (p : Portfolio.t Role) :
  wfPortfolio p = true ->
  cleanText (Portfolio.name p) = true
  /\ match Portfolio.headOfEngineering p with
     | Some hoe => wfLeader head_of_engineering hoe = true
     | None => True
     end
  /\ forallb (wfLeader principal_engineer) (Portfolio.principalEngineers p) = true
  /\ forallb wfDivision (nullish (Portfolio.divisions p) []) = true
  /\ forallb (wfGroup true) (Portfolio.groups p) = true.
Proof.
  unfold wfPortfolio. intros H. apply andb_true_iff in H as [H _].
  apply andb_true_iff in H as [H Hgroups]. apply andb_true_iff in H as [H Hdivisions].
  apply andb_true_iff in H as [H Hprincipals]. apply andb_true_iff in H as [Hname Hhead].
  repeat split; try assumption.
  now destruct (Portfolio.headOfEngineering p).
Qed.

Lemma wfPortfolio_target (p : Portfolio.t Role) :
  wfPortfolio p = true -> wholeTarget p = true.
Proof. unfold wfPortfolio. intros H. now apply andb_true_iff in H as [_ H]. Qed.

Lemma markdownLines_oneLine (p : Portfolio.t Role) :
  wfPortfolio p = true -> Forall oneLine (markdownLines p).
Proof.
  intros Hwf.
  destruct (wholeTarget_nat p (wfPortfolio_target p Hwf)) as (t & Ht100 & Etarget).
  apply wfPortfolio_parts in Hwf as (Hname & Hhead & Hprincipals & Hdivisions & Hgroups).
  unfold markdownLines.
  apply Forall_app; split; [|apply Forall_app; split; [|apply Forall_app; split]].
  - repeat constructor. unfold headingLine.
    rewrite Etarget, (numberToString_whole t Ht100).
    apply oneLine_app; [reflexivity|]. apply oneLine_app; [now apply oneLine_clean|].
    apply oneLine_app; [reflexivity|]. apply oneLine_app; [|reflexivity].
    eapply forallb_impl; [|apply ofNat_isDigit]. intros c Hc.
    now destruct (isDigit_facts c Hc).
  - unfold leadershipLines. apply Forall_app. split.
    + destruct (Portfolio.headOfEngineering p) as [hoe|]; repeat constructor.
      now apply (oneLine_leader _ head_of_engineering).
    + apply Forall_map. apply Forall_forall. intros pe Hpe.
      apply (oneLine_leader _ principal_engineer); [reflexivity|].
      rewrite forallb_forall in Hprincipals. now apply Hprincipals.
  - apply Forall_flat_map. apply Forall_forall. intros dv Hdv. constructor; [reflexivity|].
    apply divisionLines_oneLine. rewrite forallb_forall in Hdivisions.
    now apply Hdivisions.
  - apply Forall_flat_map. apply Forall_forall. intros g Hg. constructor; [reflexivity|].
    apply (groupLines_oneLine true). rewrite forallb_forall in Hgroups. now apply Hgroups.
Qed.

(** The lines the parser scans are the lines the generator joined. *)
Lemma split_generateMarkdown (p : Portfolio.t Role) :
  wfPortfolio p = true ->
  split LF (generateMarkdown p) = markdownLines p ++ [[]].
Proof.
  intros Hwf. rewrite generateMarkdown_lines. apply split_join.
  - now destruct (markdownLines p).
  - apply Forall_app. split; [|repeat constructor].
    eapply Forall_impl; [|apply markdownLines_oneLine, Hwf].
    intros l. apply oneLine_lacks.
Qed.

(** *** The whole text *)

Lemma parse_principals (ids : IdSource) (principals : list (Person.t Role)) :
  forallb (wfLeader principal_engineer) principals = true ->
  forall e nm tg h ps dvs gs f d n,
  exists ps' k,
    parseLines ids (Parser.mk e nm tg h ps dvs gs None None None f d) n
               (map (fun pe => "Principal Engineer: " ++ leaderPersonLine pe) principals)
    = Parser.mk e nm tg h (ps ++ ps') dvs gs None None None f k
    /\ map anonPerson ps' = map expPerson principals.
Proof.
  induction principals as [|p principals IH]; intros Hwf e nm tg h ps dvs gs f d n.
  - exists [], d. split; [|reflexivity]. simpl. now rewrite app_nil_r.
  - simpl in Hwf. apply andb_true_iff in Hwf as [Hp Hprincipals].
    cbn [map parseLines].
    rewrite (parseLine_principal ids _ n p Hp) by reflexivity. state_simpl.
    destruct (IH Hprincipals e nm tg h (ps ++ [withId (ids d) (dataOf p)]) dvs gs f
                 (S d) (S n)) as (ps' & k & Hst & Hanon).
    exists (withId (ids d) (dataOf p) :: ps'), k. split.
    + rewrite Hst. now rewrite <- app_assoc.
    + simpl. now rewrite Hanon.
Qed.

Lemma parse_leadership (ids : IdSource) (p : Portfolio.t Role) :
  wfPortfolio p = true ->
  forall nm tg n,
  exists h' ps' k,
    parseLines ids (Parser.mk [] nm tg None [] [] [] None None None false 0) n
               (leadershipLines p)
    = Parser.mk [] nm tg h' ps' [] [] None None None false k
    /\ option_map anonPerson h' = option_map expPerson (Portfolio.headOfEngineering p)
    /\ map anonPerson ps' = map expPerson (Portfolio.principalEngineers p).
Proof.
  intros Hwf nm tg n.
  apply wfPortfolio_parts in Hwf as (_ & Hhead & Hprincipals & _).
  unfold leadershipLines. rewrite parseLines_app.
  destruct (Portfolio.headOfEngineering p) as [hoe|].
  - cbn [parseLines]. rewrite (parseLine_head ids _ n hoe Hhead) by reflexivity.
    state_simpl.
    match goal with
    | |- context [parseLines ids ?s ?n0 (map _ _)] =>
        destruct (parse_principals ids _ Hprincipals [] nm tg
                    (Some (withId (ids 0) (dataOf hoe))) [] [] [] false 1 n0)
          as (ps' & k & Hst & Hanon)
    end.
    rewrite Hst. eexists. eexists. eexists. split; [reflexivity|].
    split; [reflexivity|exact Hanon].
  - cbn [parseLines].
    match goal with
    | |- context [parseLines ids ?s ?n0 (map _ _)] =>
        destruct (parse_principals ids _ Hprincipals [] nm tg None [] [] [] false 0 n0)
          as (ps' & k & Hst & Hanon)
    end.
    rewrite Hst. eexists. eexists. eexists. split; [reflexivity|].
    split; [reflexivity|exact Hanon].
Qed.

(** The state of the parser after the text of a well-formed portfolio. *)
Lemma scanMarkdown_generateMarkdown (ids : IdSource) (p : Portfolio.t Role) :
  wfPortfolio p = true ->
  exists h' ps' dvs' gs' f' k,
    scanMarkdown ids (generateMarkdown p)
    = Parser.mk [] (Some (Portfolio.name p))
                (nullish (Portfolio.onshoreTargetPercentage p) 50%float)
                h' ps' dvs' gs' None None None f' k
    /\ option_map anonPerson h' = option_map expPerson (Portfolio.headOfEngineering p)
    /\ map anonPerson ps' = map expPerson (Portfolio.principalEngineers p)
    /\ map anonDivision dvs' = map expDivision (nullish (Portfolio.divisions p) [])
    /\ map anonGroup gs' = map expGroup (Portfolio.groups p).
Proof.
  intros Hwf. unfold scanMarkdown. rewrite split_generateMarkdown by exact Hwf.
  pose proof (wfPortfolio_parts _ Hwf) as (Hname & _ & _ & Hdivisions & Hgroups).
  unfold markdownLines. rewrite <- !app_assoc, !parseLines_app.
  cbn [parseLines]. rewrite !parseLine_blank.
  rewrite parseLine_heading by (exact Hname || exact (wfPortfolio_target p Hwf)).
  unfold parserStart. state_simpl.
  match goal with
  | |- context [parseLines ids ?s ?n0 (leadershipLines p)] =>
      destruct (parse_leadership ids p Hwf (Some (Portfolio.name p))
                  (nullish (Portfolio.onshoreTargetPercentage p) 50%float) n0)
        as (h' & ps' & k & Hst & Hh & Hps)
  end.
  rewrite Hst.
  match goal with
  | |- context [parseLines ids ?s ?n0 (flat_map _ (nullish _ _))] =>
      destruct (parse_divisions ids _ Hdivisions s n0 _ _ _ _ _ _ _ _ _ eq_refl)
        as (dvs' & k1 & f1 & Hst1 & Hdvs)
  end.
  match goal with
  | |- context [parseLines ids ?s ?n0 (flat_map _ (Portfolio.groups p))] =>
      destruct (parse_direct_groups ids _ Hgroups s n0 _ _ _ _ _ _ _ _ _ Hst1)
        as (gs' & k2 & f2 & Hst2 & Hgs)
  end.
  rewrite Hst2. exists h', ps', dvs', gs', f2, k2.
  split; [reflexivity|]. now repeat split.
Qed.

(** The text of a well-formed portfolio is read without error as that
    portfolio, identifiers apart. *)
Lemma parseMarkdown_generateMarkdown (ids : IdSource) (p : Portfolio.t Role) :
  wfPortfolio p = true ->
  exists q,
    parseMarkdown ids (generateMarkdown p) = ParseResult.mk (Some q) []
    /\ anonParsed q = expPortfolio p.
Proof.
  intros Hwf.
  destruct (scanMarkdown_generateMarkdown ids p Hwf)
    as (h' & ps' & dvs' & gs' & f' & k & Hst & Hh & Hps & Hdvs & Hgs).
  pose proof (wfPortfolio_parts _ Hwf) as (Hname & _).
  pose proof (cleanText_parts _ Hname) as (_ & _ & _ & _ & Hne).
  unfold parseMarkdown. cbv zeta. rewrite Hst.
  cbn [Parser.errors Parser.portfolioName Parser.onshoreTarget
       Parser.headOfEngineering Parser.principalEngineers Parser.divisions
       Parser.directGroups truthy nullish].
  rewrite Hne. cbn [negb]. eexists. split; [reflexivity|].
  unfold anonParsed, expPortfolio.
  cbn [Parsed.name Parsed.onshoreTargetPercentage Parsed.headOfEngineering
       Parsed.principalEngineers Parsed.divisions Parsed.groups].
  rewrite Hh, Hps, Hgs. f_equal.
  destruct dvs' as [|dv dvs'], (nullish (Portfolio.divisions p) []) as [|d ds];
    try discriminate; [reflexivity|].
  cbn [option_map]. now rewrite Hdvs.
Qed.

(** *** The members of a team, in the order of the text *)

(** Two unnamed members of one grouping key are read as the same person. *)
Lemma groupingKey_dataOf (p m : Person.t Role) :
  isUnnamed p = true -> isUnnamed m = true ->
  groupingKey p = groupingKey m -> dataOf p = dataOf m.
Proof.
  unfold isUnnamed, groupingKey, dataOf, propsOf. intros Hp Hm H.
  apply negb_true_iff in Hp, Hm. rewrite Hp, Hm.
  apply Role_str_key in H as [-> H]. apply EmployeeType_str_key in H as [-> H].
  apply Location_str_key in H as [-> H].
  cbn [Props.type Props.location Props.vendor]. f_equal.
  destruct (Person.vendor p) as [[|c v]|], (Person.vendor m) as [[|c' v']|];
    simpl in *; congruence.
Qed.

Lemma keyed_countUnnamed (m : Person.t Role) (unnamed : Unnamed) :
  isUnnamed m = true -> keyed unnamed -> keyed (countUnnamed (groupingKey m) m unnamed).
Proof.
  intros Hm Hk k p c Hin.
  destruct (In_countUnnamed _ _ _ _ _ _ Hin) as [[c' H]|[-> ->]].
  - exact (Hk _ _ _ H).
  - now split.
Qed.

Lemma countUnnamed_expand (m : Person.t Role) (unnamed : Unnamed) :
  isUnnamed m = true -> keyed unnamed ->
  forall lu, map dataOf lu = expandUnnamed unnamed ->
  exists lu', Permutation lu' (m :: lu)
              /\ map dataOf lu' = expandUnnamed (countUnnamed (groupingKey m) m unnamed).
Proof.
  intros Hm. induction unnamed as [|[k [p c]] rest IH]; intros Hk lu Hlu.
  - apply map_eq_nil in Hlu. subst lu. exists [m]. split; [apply Permutation_refl|].
    reflexivity.
  - unfold expandUnnamed in Hlu. cbn [flat_map] in Hlu.
    apply map_eq_app in Hlu as (l1 & l2 & -> & Hl1 & Hl2).
    cbn [countUnnamed]. destruct (eqs k (groupingKey m)) eqn:E.
    + apply eqs_eq in E. destruct (Hk k p c (or_introl eq_refl)) as [Hkp Hp].
      exists (m :: l1 ++ l2). split; [apply Permutation_refl|].
      unfold expandUnnamed. cbn [flat_map map repeat app].
      rewrite map_app, Hl1, Hl2.
      rewrite <- (groupingKey_dataOf p m Hp Hm) by congruence. reflexivity.
    + destruct (IH (fun k' p' c' H => Hk k' p' c' (or_intror H)) l2 Hl2)
        as (l2' & Hperm & Hmap).
      exists (l1 ++ l2'). split.
      * etransitivity; [apply Permutation_app_head, Hperm|].
        symmetry. apply Permutation_middle.
      * unfold expandUnnamed. cbn [flat_map]. now rewrite map_app, Hl1, Hmap.
Qed.

Lemma sortMembers_perm (members : list (Person.t Role)) :
  forall named unnamed lu seen,
  Permutation (lu ++ named) seen -> map dataOf lu = expandUnnamed unnamed ->
  keyed unnamed ->
  exists lu',
    Permutation
      (lu' ++ fst (fold_left (fun '(named, unnamed) m =>
                     if truthy (Person.name m) then (named ++ [m], unnamed)
                     else (named, countUnnamed (groupingKey m) m unnamed))
                   members (named, unnamed)))
      (seen ++ members)
    /\ map dataOf lu'
       = expandUnnamed
           (snd (fold_left (fun '(named, unnamed) m =>
                   if truthy (Person.name m) then (named ++ [m], unnamed)
                   else (named, countUnnamed (groupingKey m) m unnamed))
                 members (named, unnamed))).
Proof.
  induction members as [|m members IH]; intros named unnamed lu seen Hperm Hlu Hk.
  - exists lu. simpl. now rewrite app_nil_r.
  - cbn [fold_left]. destruct (truthy (Person.name m)) eqn:En.
    + destruct (IH (named ++ [m]) unnamed lu (seen ++ [m])) as (lu' & H1 & H2);
        [|exact Hlu|exact Hk|].
      * rewrite app_assoc. now apply Permutation_app_tail.
      * exists lu'. now rewrite <- app_assoc in H1.
    + assert (Hm : isUnnamed m = true) by (unfold isUnnamed; now rewrite En).
      destruct (countUnnamed_expand m unnamed Hm Hk lu Hlu) as (lu1 & Hp1 & Hl1).
      destruct (IH named (countUnnamed (groupingKey m) m unnamed) lu1 (seen ++ [m]))
        as (lu' & H1 & H2); [|exact Hl1|now apply keyed_countUnnamed|].
      * etransitivity; [apply Permutation_app_tail, Hp1|].
        cbn [app]. etransitivity; [apply Permutation_cons_append|].
        now apply Permutation_app_tail.
      * exists lu'. now rewrite <- app_assoc in H1.
Qed.

(** The persons read from a team are its members in some order. *)
Lemma dataOfMembers_perm (members : list (Person.t Role)) :
  exists l, Permutation l members /\ map dataOf l = dataOfMembers members.
Proof.
  destruct (sortMembers_perm members [] [] [] [] (Permutation_refl _) eq_refl)
    as (lu & Hperm & Hlu); [intros k p c []|].
  assert (Hperm' : Permutation (lu ++ fst (sortMembers members)) members) by exact Hperm.
  assert (Hlu' : map dataOf lu = expandUnnamed (snd (sortMembers members))) by exact Hlu.
  clear Hperm Hlu. rename Hperm' into Hperm, Hlu' into Hlu.
  unfold dataOfMembers. destruct (sortMembers members) as [named unnamed].
  cbn [fst snd] in *.
  exists (lu ++ named). split; [exact Hperm|].
  rewrite map_app, Hlu. reflexivity.
Qed.

(** *** The same portfolio *)

Lemma plainName_nonEmpty (s : str) : plainName s = true -> nonEmpty s = true.
Proof.
  intros H. apply plainName_parts in H as (H & _).
  now apply cleanText_parts in H as (_ & _ & _ & _ & H).
Qed.

Lemma wfProps_vendor (p : Person.t Role) :
  wfProps p = true ->
  (if truthy (Person.vendor p) then Person.vendor p else None) = Person.vendor p.
Proof.
  unfold wfProps. intros H. destruct (Person.vendor p) as [v|]; [|reflexivity].
  destruct (Person.type p).
  - discriminate.
  - apply vendorText_parts in H as (H & _).
    apply cleanText_parts in H as (_ & _ & _ & _ & H). cbn [truthy]. now rewrite H.
Qed.

Lemma expPerson_same (p : Person.t Role) (q : Person.t RoleValue) :
  wfProps p = true ->
  match Person.name p with Some s => plainName s = true | None => True end ->
  anonPerson q = expPerson p -> samePerson p q.
Proof.
  intros Hwf Hname H. destruct q as [qi qn qr qt qv ql].
  unfold anonPerson, expPerson, withId, dataOf, propsOf in H.
  cbn [Person.id Person.name Person.role Person.type Person.vendor Person.location
       PersonData.name PersonData.role PersonData.type PersonData.location
       PersonData.vendor Props.type Props.location Props.vendor] in H.
  injection H as -> -> -> -> ->. rewrite (wfProps_vendor p Hwf).
  unfold samePerson.
  cbn [Person.id Person.name Person.role Person.type Person.vendor Person.location].
  repeat split.
  destruct (Person.name p) as [s|]; [|reflexivity].
  cbn [truthy]. now rewrite (plainName_nonEmpty s Hname).
Qed.

Lemma member_same (p : Person.t Role) (q : Person.t RoleValue) :
  wfMember p = true -> anonPerson q = expPerson p -> samePerson p q.
Proof.
  intros Hwf. apply wfMember_parts in Hwf as [Hprops Hname]. now apply expPerson_same.
Qed.

Lemma leader_same (role : Role) (p : Person.t Role) (q : Person.t RoleValue) :
  wfLeader role p = true -> anonPerson q = expPerson p -> samePerson p q.
Proof.
  intros Hwf. apply wfLeader_parts in Hwf as (Hprops & _ & s & Hs & Hname & _).
  apply expPerson_same; [exact Hprops|]. now rewrite Hs.
Qed.

Lemma map_eq_Forall2 {A B C} (f : B -> C) (g : A -> C) (same : A -> B -> Prop)
    (ok : A -> bool) (l : list A) :
  (forall a b, ok a = true -> f b = g a -> same a b) ->
  forallb ok l = true ->
  forall l', map f l' = map g l -> Forall2 same l l'.
Proof.
  intros H. induction l as [|a l IH]; intros Hok [|b l'] Heq; try discriminate.
  - constructor.
  - simpl in Hok. apply andb_true_iff in Hok as [Ha Hl].
    injection Heq as Hb Heq. constructor; [now apply H|now apply IH].
Qed.

Lemma option_same {A B C} (f : B -> C) (g : A -> C) (same : A -> B -> Prop)
    (a : option A) (b : option B) :
  (forall x y, a = Some x -> f y = g x -> same x y) ->
  option_map f b = option_map g a -> sameOption same a b.
Proof.
  intros H Heq. destruct a as [x|], b as [y|]; try discriminate; simpl; [|exact I].
  injection Heq as Heq. now apply H.
Qed.

Lemma team_same (t : Team.t Role) (t' : Team.t RoleValue) :
  wfTeam t = true -> anonTeam t' = expTeam t -> sameTeam t t'.
Proof.
  intros Hwf H. apply wfTeam_parts in Hwf as [_ Hmembers].
  destruct t' as [i nm ms]. unfold anonTeam, expTeam in H.
  cbn [Team.id Team.name Team.members] in H. injection H as -> Hms.
  destruct (dataOfMembers_perm (Team.members t)) as (l & Hperm & Hl).
  split; [reflexivity|]. exists l. split; [exact Hperm|].
  cbn [Team.members]. rewrite <- Hl, map_map in Hms.
  apply (map_eq_Forall2 anonPerson expPerson samePerson wfMember);
    [apply member_same| |exact Hms].
  apply forallb_forall. intros x Hx. rewrite forallb_forall in Hmembers.
  apply Hmembers. now apply (Permutation_in _ Hperm).
Qed.

Lemma group_same (direct : bool) (g : Group.t Role) (g' : Group.t RoleValue) :
  wfGroup direct g = true -> anonGroup g' = expGroup g -> sameGroup g g'.
Proof.
  intros Hwf H. apply wfGroup_parts in Hwf as (_ & _ & Hmgr & Hstaff & Hteams).
  destruct g' as [i nm m mb ss ts]. unfold anonGroup, expGroup in H.
  cbn [Group.id Group.name Group.manager Group.managedBy Group.staffEngineers
       Group.teams] in H.
  injection H as -> Hm -> Hss Hts. unfold sameGroup.
  cbn [Group.id Group.name Group.manager Group.managedBy Group.staffEngineers
       Group.teams].
  split; [reflexivity|]. split; [|split; [|split]].
  - apply (option_same anonPerson expPerson); [|exact Hm].
    intros x y Hx. rewrite Hx in Hmgr. destruct (Group.managedBy g); [contradiction|].
    now apply (leader_same engineering_manager).
  - destruct (Group.manager g), (Group.managedBy g) as [l|]; try contradiction;
      try reflexivity.
    apply cleanText_parts in Hmgr as (_ & _ & _ & _ & Hne). cbn [truthy].
    now rewrite Hne.
  - now apply (map_eq_Forall2 anonPerson expPerson samePerson (wfLeader staff_engineer));
      [apply leader_same| |].
  - now apply (map_eq_Forall2 anonTeam expTeam sameTeam wfTeam); [apply team_same| |].
Qed.

Lemma division_same (d : Division.t Role) (d' : Division.t RoleValue) :
  wfDivision d = true -> anonDivision d' = expDivision d -> sameDivision d d'.
Proof.
  unfold wfDivision. intros Hwf H. apply andb_true_iff in Hwf as [_ Hgroups].
  destruct d' as [i nm gs]. unfold anonDivision, expDivision in H.
  cbn [Division.id Division.name Division.groups] in H. injection H as -> Hgs.
  split; [reflexivity|]. cbn [Division.groups].
  now apply (map_eq_Forall2 anonGroup expGroup sameGroup (wfGroup false));
    [apply group_same| |].
Qed.

Lemma portfolio_same (p : Portfolio.t Role) (q : Parsed.t) :
  wfPortfolio p = true -> anonParsed q = expPortfolio p -> samePortfolio p q.
Proof.
  intros Hwf H.
  apply wfPortfolio_parts in Hwf as (_ & Hhead & Hprincipals & Hdivisions & Hgroups).
  destruct q as [nm tg h ps dvs gs]. unfold anonParsed, expPortfolio in H.
  cbn [Parsed.name Parsed.onshoreTargetPercentage Parsed.headOfEngineering
       Parsed.principalEngineers Parsed.divisions Parsed.groups] in H.
  injection H as -> -> Hh Hps Hdvs Hgs. unfold samePortfolio.
  cbn [Parsed.name Parsed.onshoreTargetPercentage Parsed.headOfEngineering
       Parsed.principalEngineers Parsed.divisions Parsed.groups].
  split; [reflexivity|]. split; [reflexivity|]. split; [|split; [|split]].
  - apply (option_same anonPerson expPerson); [|exact Hh].
    intros x y Hx. rewrite Hx in Hhead. now apply (leader_same head_of_engineering).
  - now apply (map_eq_Forall2 anonPerson expPerson samePerson
                 (wfLeader principal_engineer)); [apply leader_same| |].
  - apply (map_eq_Forall2 anonDivision expDivision sameDivision wfDivision);
      [apply division_same|exact Hdivisions|].
    destruct dvs as [dvs|], (nullish (Portfolio.divisions p) []) as [|d ds];
      try discriminate; cbn [nullish option_map] in *; try reflexivity.
    now injection Hdvs.
  - now apply (map_eq_Forall2 anonGroup expGroup sameGroup (wfGroup true));
      [apply group_same| |].
Qed.

(** C1 (round trip), with the conditions the code needs.  For every
    well-formed portfolio -- every name, label and vendor a clean one-line
    text; the persons' props within the data-model invariant; a member's
    name, if any, without comma or opening bracket and not opening like a
    quantity; every leader of the role of its position and named, by such
    a name that is no role label; the manager and the managed-by label
    exclusive; no direct group named like a division; the onshore target,
    if there is one, a whole number from 0 to 100 --
    [parseMarkdown (generateMarkdown p)] returns a portfolio
    and no error, whatever identifiers are drawn, and that portfolio is [p]
    identifiers apart: the same names, target, leaders, divisions, groups
    and teams in the same order, and in each team the same members in some
    order, a person of no stated location being read as onshore. *)
Theorem roundtrip_up_to_ids (ids : IdSource) (p : Portfolio.t Role) :
  wfPortfolio p = true ->
  exists q,
    parseMarkdown ids (generateMarkdown p) = ParseResult.mk (Some q) []
    /\ samePortfolio p q.
Proof.
  intros Hwf.
  destruct (parseMarkdown_generateMarkdown ids p Hwf) as (q & Hq & Hanon).
  exists q. split; [exact Hq|]. now apply portfolio_same.
Qed.

Lemma roundtrip_up_to_ids_witness :
  wfPortfolio fullPortfolio = true
  /\ exists q,
       parseMarkdown idsA (generateMarkdown fullPortfolio) = ParseResult.mk (Some q) []
       /\ samePortfolio fullPortfolio q.
Proof.
  split; [vm_compute; reflexivity|].
  apply (roundtrip_up_to_ids idsA fullPortfolio). vm_compute. reflexivity.
Defined.

(** C1 as stated does not hold of every portfolio with plain ASCII names
    without commas.  A team member named [2x Ann] is written as
    [- 2x Ann, Engineer], which is read as a quantity of the unknown role
    [Ann, Engineer]: an error, and no portfolio.  A Head of Engineering
    without a name is written as [Unnamed] and read back as a person of
    that name.  A Principal Engineer named [Engineer] is read back as an
    unnamed person of role engineer.  A target of 12.5 is written as
    [12.5%], which the pattern of the target, made of digits, does not
    match: the whole heading is read as the name, and the target is 50. *)
Lemma roundtrip_not_for_every_name :
  parseMarkdown idsA (generateMarkdown quantityNamePortfolio)
  = ParseResult.mk None [ParseError.mk 7 (UnknownRoleName "Ann, Engineer")]
  /\ (exists q,
        parseMarkdown idsA (generateMarkdown unnamedHeadPortfolio)
        = ParseResult.mk (Some q) []
        /\ option_map Person.name (Parsed.headOfEngineering q) = Some (Some ("Unnamed" : str))
        /\ ~ samePortfolio unnamedHeadPortfolio q)
  /\ (exists q,
        parseMarkdown idsA (generateMarkdown roleNamePortfolio)
        = ParseResult.mk (Some q) []
        /\ map Person.role (Parsed.principalEngineers q) = [OwnRole engineer]
        /\ ~ samePortfolio roleNamePortfolio q)
  /\ (generateMarkdown fractionTargetPortfolio
      = join [LF] ["# Payments (12.5% onshore target)" : str; []; []]
      /\ exists q,
           parseMarkdown idsA (generateMarkdown fractionTargetPortfolio)
           = ParseResult.mk (Some q) []
           /\ Parsed.name q = "Payments (12.5% onshore target)"
           /\ Parsed.onshoreTargetPercentage q = 50%float
           /\ ~ samePortfolio fractionTargetPortfolio q).
Proof.
  split; [vm_compute; reflexivity|]. split; [|split].
  - eexists. split; [vm_compute; reflexivity|]. split; [reflexivity|].
    intros (_ & _ & H & _). cbn in H. destruct H as [H _]. discriminate H.
  - eexists. split; [vm_compute; reflexivity|]. split; [reflexivity|].
    intros (_ & _ & _ & H & _). cbn in H. inversion H as [|? ? ? ? Hp]. subst.
    destruct Hp as (_ & Hr & _). discriminate Hr.
  - split; [vm_compute; reflexivity|].
    eexists. split; [vm_compute; reflexivity|]. split; [reflexivity|].
    split; [reflexivity|]. intros (H & _). discriminate H.
Qed.

(** * Further properties of the importer *)

(** ** Normalisation *)

Lemma isKept_lower (c : ascii) : isKept c = true -> lowerChar c = c.
Proof. destruct c as [[] [] [] [] [] [] [] []]; vm_compute; congruence. Qed.

Lemma collapseWs_collapsed (s : str) : collapsed (collapseWs s) = true.
Proof.
  induction s as [|c r IH]; [reflexivity|].
  destruct (isSpace c) eqn:Ec.
  - destruct r as [|c' r'].
    + cbn [collapseWs]. now rewrite Ec.
    + destruct (isSpace c') eqn:Ec'.
      * assert (E : collapseWs (c :: c' :: r') = collapseWs (c' :: r'))
          by (cbn [collapseWs]; now rewrite Ec, Ec').
        now rewrite E.
      * assert (E : collapseWs (c :: c' :: r') = SPACE :: c' :: collapseWs r')
          by (cbn [collapseWs]; now rewrite Ec, Ec').
        assert (E' : collapseWs (c' :: r') = c' :: collapseWs r')
          by (cbn [collapseWs]; now rewrite Ec').
        rewrite E. rewrite E' in IH. cbn [collapsed] in *. rewrite Ec' in *.
        exact IH.
  - cbn [collapseWs]. rewrite Ec. cbn [collapsed]. now rewrite Ec.
Qed.

Lemma collapsed_fix (s : str) : collapsed s = true -> collapseWs s = s.
Proof.
  induction s as [|c r IH]; [reflexivity|].
  cbn [collapsed collapseWs]. intros H. apply andb_true_iff in H as [Hc Hr].
  destruct (isSpace c) eqn:Ec.
  - apply andb_true_iff in Hc as [Hsp Hnext]. apply Ascii.eqb_eq in Hsp. subst c.
    destruct r as [|c' r']; [reflexivity|].
    apply negb_true_iff in Hnext. rewrite Hnext. now rewrite IH.
  - now rewrite IH.
Qed.

Lemma collapsed_app (a b : str) :
  collapsed (a ++ b) = true -> collapsed a = true /\ collapsed b = true.
Proof.
  induction a as [|c a IH]; [now split|].
  cbn [app collapsed]. intros H. apply andb_true_iff in H as [Hc Hr].
  destruct (IH Hr) as [Ha Hb]. split; [|exact Hb].
  rewrite Ha, andb_true_r. destruct (isSpace c); [|reflexivity].
  apply andb_true_iff in Hc as [-> Hnext]. destruct a; [reflexivity|exact Hnext].
Qed.

(** [trim] cuts a text out of the middle of its argument. *)
Lemma trim_infix (s : str) : exists a b, s = a ++ trim s ++ b.
Proof.
  exists (takeWhile isSpace s),
         (rev (takeWhile isSpace (rev (dropWhile isSpace s)))).
  unfold trim, trimEnd, trimStart. rewrite <- rev_app_distr, takeWhile_dropWhile.
  now rewrite rev_involutive, takeWhile_dropWhile.
Qed.

Lemma dropWhile_rev_start (s : str) :
  dropWhile isSpace (rev (dropWhile isSpace (rev (dropWhile isSpace s))))
  = rev (dropWhile isSpace (rev (dropWhile isSpace s))).
Proof.
  destruct (dropWhile isSpace s) as [|c r] eqn:E; [reflexivity|].
  assert (Hc : isSpace c = false).
  { clear -E. induction s as [|x s IH]; [discriminate|]. cbn [dropWhile] in E.
    destruct (isSpace x) eqn:Ex; [now apply IH|]. congruence. }
  cbn [rev]. assert (Hd : forall l, exists l', dropWhile isSpace (l ++ [c]) = l' ++ [c]).
  { induction l as [|x l IHl]; cbn [app dropWhile].
    - rewrite Hc. now exists [].
    - destruct (isSpace x); [exact IHl|]. now exists (x :: l). }
  destruct (Hd (rev r)) as (l' & ->). rewrite rev_app_distr. cbn [rev app dropWhile].
  now rewrite Hc.
Qed.

Lemma trim_idem (s : str) : trim (trim s) = trim s.
Proof.
  unfold trim, trimEnd, trimStart.
  rewrite dropWhile_rev_start, rev_involutive. apply dropWhile_rev_start.
Qed.

Lemma Forall_infix {A} (P : A -> Prop) (a m b : list A) :
  Forall P (a ++ m ++ b) -> Forall P m.
Proof.
  intros H. apply Forall_app in H as [_ H]. now apply Forall_app in H as [H _].
Qed.

Lemma collapseWs_chars (P : ascii -> Prop) (s : str) :
  P SPACE -> Forall P s -> Forall P (collapseWs s).
Proof.
  intros Hsp. induction s as [|c r IH]; intros H; [constructor|].
  inversion H as [|? ? Hc Hr]. subst. cbn [collapseWs].
  destruct (isSpace c).
  - destruct r as [|c' r']; [now repeat constructor|].
    destruct (isSpace c'); [now apply IH|]. constructor; [exact Hsp|now apply IH].
  - constructor; [exact Hc|now apply IH].
Qed.

Lemma normalise_kept (s : str) : Forall (fun c => isKept c = true) (normalise s).
Proof.
  unfold normalise.
  destruct (trim_infix (collapseWs (filter isKept (toLowerCase s)))) as (a & b & H).
  apply (Forall_infix _ a _ b). rewrite <- H.
  apply collapseWs_chars; [reflexivity|].
  apply Forall_forall. intros c Hc. now apply filter_In in Hc.
Qed.

Lemma normalise_collapsed (s : str) : collapsed (normalise s) = true.
Proof.
  unfold normalise.
  destruct (trim_infix (collapseWs (filter isKept (toLowerCase s)))) as (a & b & H).
  pose proof (collapseWs_collapsed (filter isKept (toLowerCase s))) as Hc.
  rewrite H in Hc. apply collapsed_app in Hc as [_ Hc].
  now apply collapsed_app in Hc as [Hc _].
Qed.

Lemma kept_fix (s : str) :
  Forall (fun c => isKept c = true) s -> filter isKept (toLowerCase s) = s.
Proof.
  induction 1 as [|c r Hc Hr IH]; [reflexivity|].
  cbn [toLowerCase map filter]. rewrite (isKept_lower c Hc), Hc.
  f_equal. exact IH.
Qed.

(** X1.  [normalise] is idempotent: a normalised text is its own normal
    form. *)
Theorem normalise_idempotent (s : str) : normalise (normalise s) = normalise s.
Proof.
  unfold normalise at 1.
  rewrite (kept_fix _ (normalise_kept s)).
  rewrite (collapsed_fix _ (normalise_collapsed s)).
  unfold normalise. apply trim_idem.
Qed.

(** ** Similarity *)

Lemma eqs_sym (a b : str) : eqs a b = eqs b a.
Proof.
  destruct (eqs a b) eqn:E.
  - apply eqs_eq in E. subst. now rewrite eqs_refl.
  - symmetry. apply eqs_neq. apply eqs_neq in E. congruence.
Qed.

Lemma toSet_from (l : list str) :
  forall acc, NoDup acc ->
  let r := fold_left (fun acc x => if has acc x then acc else acc ++ [x]) l acc in
  NoDup r /\ forall x, In x r <-> In x acc \/ In x l.
Proof.
  induction l as [|y l IH]; intros acc Hnd; cbn [fold_left].
  - split; [exact Hnd|]. intros x. simpl. tauto.
  - destruct (has acc y) eqn:E.
    + destruct (IH acc Hnd) as [H1 H2]. split; [exact H1|].
      intros x. rewrite H2. simpl. apply has_In in E.
      split; [tauto|]. intros [H|[<-|H]]; tauto.
    + assert (Hnd' : NoDup (acc ++ [y])).
      { apply NoDup_app; [exact Hnd|repeat constructor; simpl; tauto|].
        intros x Hx [<-|[]]. apply has_In in Hx. congruence. }
      destruct (IH _ Hnd') as [H1 H2]. split; [exact H1|].
      intros x. rewrite H2, in_app_iff. simpl. tauto.
Qed.

Lemma toSet_NoDup (l : list str) : NoDup (toSet l).
Proof. apply (toSet_from l []). constructor. Qed.

Lemma toSet_In (l : list str) (x : str) : In x (toSet l) <-> In x l.
Proof.
  destruct (toSet_from l [] (NoDup_nil _)) as [_ H]. unfold toSet. rewrite H.
  simpl. tauto.
Qed.

Lemma NoDup_same_length (a b : list str) :
  NoDup a -> NoDup b -> (forall x, In x a <-> In x b) -> length a = length b.
Proof.
  intros Ha Hb H. apply Permutation_length. now apply NoDup_Permutation.
Qed.

Lemma intersection_sym (a b : list str) :
  NoDup a -> NoDup b ->
  length (filter (has b) a) = length (filter (has a) b).
Proof.
  intros Ha Hb. apply NoDup_same_length; try now apply NoDup_filter.
  intros x. rewrite !filter_In, !has_In. tauto.
Qed.

Lemma union_sym (a b : list str) : length (toSet (a ++ b)) = length (toSet (b ++ a)).
Proof.
  apply NoDup_same_length; try apply toSet_NoDup.
  intros x. rewrite !toSet_In, !in_app_iff. tauto.
Qed.

(** X2.  The similarity score does not depend on the order of its two
    arguments. *)
Theorem similarityScore_sym (a b : str) : similarityScore a b = similarityScore b a.
Proof.
  unfold similarityScore. cbv zeta.
  rewrite (eqs_sym (normalise b)). destruct (eqs (normalise a) (normalise b)); [reflexivity|].
  rewrite (orb_comm (includes (normalise b) (normalise a))).
  destruct (includes (normalise a) (normalise b) || includes (normalise b) (normalise a)).
  - destruct (length (normalise a) <? length (normalise b)) eqn:E1,
             (length (normalise b) <? length (normalise a)) eqn:E2;
      try reflexivity.
    + apply Nat.ltb_lt in E1, E2. lia.
    + apply Nat.ltb_ge in E1, E2.
      now replace (length (normalise a)) with (length (normalise b)) by lia.
  - rewrite (orb_comm (length (toSet (tokens (normalise b))) =? 0)).
    destruct ((length (toSet (tokens (normalise a))) =? 0)
              || (length (toSet (tokens (normalise b))) =? 0)); [reflexivity|].
    rewrite (intersection_sym (toSet (tokens (normalise b)))) by apply toSet_NoDup.
    now rewrite (union_sym (toSet (tokens (normalise b)))).
Qed.

(** ** Names *)

Lemma sameFirst_sym (x y : str) : sameFirst x y = sameFirst y x.
Proof. destruct x, y; try reflexivity. apply Ascii.eqb_sym. Qed.

(** X3.  Two names that are not empty match in either order. *)
Theorem namesMatch_sym (a b : str) :
  nonEmpty a = true -> nonEmpty b = true ->
  namesMatch a (Some b) = namesMatch b (Some a).
Proof.
  intros Ha Hb. unfold namesMatch. cbn [truthy nullish]. rewrite Ha, Hb. cbn [negb].
  cbv zeta.
  set (x := toLowerCase (normaliseName a)). set (y := toLowerCase (normaliseName b)).
  rewrite (eqs_sym y x). destruct (eqs x y); [reflexivity|].
  rewrite (orb_comm (includes y x)).
  destruct (includes x y || includes y x); [reflexivity|].
  rewrite (eqs_sym (last (split SPACE y) [])), (sameFirst_sym (hd [] (split SPACE y))).
  destruct (eqs (last (split SPACE x) []) (last (split SPACE y) [])) eqn:E.
  - apply eqs_eq in E. now rewrite E.
  - now rewrite !andb_false_r.
Qed.

Lemma namesMatch_sym_witness :
  namesMatch "Mr. John Smith" (Some ("john a. smith" : str))
  = namesMatch "john a. smith" (Some ("Mr. John Smith" : str)).
Proof. apply namesMatch_sym; reflexivity. Defined.

(** ** Roles *)

(** X4.  [mapRole] reads a text as a role exactly when the text, in
    lower case and trimmed, is the label of the role in lower case: the
    six labels of [ROLE_LABELS], the leadership ones included, and
    nothing else. *)
Theorem mapRole_label (csvRole : str) (r : Role) :
  mapRole csvRole = Some r
  <-> trim (toLowerCase csvRole) = toLowerCase (ROLE_LABELS r).
Proof.
  unfold mapRole. cbv zeta. set (t := trim (toLowerCase csvRole)).
  split.
  - repeat match goal with
           | |- context [eqs t ?l] =>
               let E := fresh "E" in
               destruct (eqs t l) eqn:E;
               [apply eqs_eq in E; intros H; injection H as <-; exact E|]
           end.
    discriminate.
  - intros H. rewrite H. now destruct r.
Qed.

(** ** Grouping the rows *)

Lemma existsb_eqs_In (key : str) (l : list str) :
  existsb (fun k => eqs k key) l = true <-> In key l.
Proof.
  rewrite existsb_exists. split.
  - intros (k & Hk & E). apply eqs_eq in E. now subst.
  - intros H. exists key. split; [exact H|apply eqs_refl].
Qed.

Lemma putRow_keys (key : str) (row : CsvRow.t) (m : list (str * CsvTeamGroup.t)) :
  map fst (putRow key row m)
  = if existsb (fun k => eqs k key) (map fst m) then map fst m else map fst m ++ [key].
Proof.
  induction m as [|[k g] rest IH]; [reflexivity|].
  cbn [putRow map fst existsb]. destruct (eqs k key); [reflexivity|].
  cbn [map fst orb]. rewrite IH. now destruct (existsb _ (map fst rest)).
Qed.

Lemma putRow_In (key : str) (row : CsvRow.t) (m : list (str * CsvTeamGroup.t)) :
  NoDup (map fst m) ->
  forall k g, In (k, g) (putRow key row m) ->
  (k <> key /\ In (k, g) m)
  \/ (k = key /\ exists g0, g = addRow row g0 /\ In (k, g0) m)
  \/ (k = key /\ ~ In key (map fst m)
      /\ g = addRow row (CsvTeamGroup.mk (CsvRow.csvGroup row) (CsvRow.teamName row)
                                         [] [] [])).
Proof.
  induction m as [|[k0 g0] rest IH]; intros Hnd k g Hin; cbn [putRow] in Hin.
  - destruct Hin as [H|[]]. injection H as <- <-. right. right. now repeat split.
  - cbn [map fst] in Hnd. apply NoDup_cons_iff in Hnd as [Hk0 Hnd].
    destruct (eqs k0 key) eqn:E.
    + apply eqs_eq in E. subst k0. destruct Hin as [H|Hin].
      * injection H as <- <-. right. left. split; [reflexivity|].
        exists g0. split; [reflexivity|now left].
      * left. split; [|now right]. intros ->. apply Hk0.
        apply in_map_iff. now exists (key, g).
    + apply eqs_neq in E. destruct Hin as [H|Hin].
      * injection H as <- <-. left. split; [exact E|now left].
      * destruct (IH Hnd _ _ Hin) as [[H1 H2]|[(H1 & g1 & H2 & H3)|(H1 & H2 & H3)]].
        -- left. split; [exact H1|now right].
        -- right. left. split; [exact H1|]. exists g1. split; [exact H2|now right].
        -- right. right. split; [exact H1|]. split; [|exact H3].
           simpl. intros [H|H]; [congruence|contradiction].
Qed.

Lemma addRow_filters (row : CsvRow.t) (g : CsvTeamGroup.t) :
  CsvTeamGroup.managers g = filter isManagerRow (CsvTeamGroup.rows g) ->
  CsvTeamGroup.engineers g = filter isEngineerRow (CsvTeamGroup.rows g) ->
  CsvTeamGroup.managers (addRow row g) = filter isManagerRow (CsvTeamGroup.rows (addRow row g))
  /\ CsvTeamGroup.engineers (addRow row g)
     = filter isEngineerRow (CsvTeamGroup.rows (addRow row g)).
Proof.
  intros Hm He. unfold addRow. cbv zeta.
  cbn [CsvTeamGroup.rows CsvTeamGroup.managers CsvTeamGroup.engineers].
  rewrite !filter_app, <- Hm, <- He. cbn [filter]. unfold isManagerRow, isEngineerRow.
  destruct (mapRole (CsvRow.role row)) as [[]|]; now rewrite ?app_nil_r.
Qed.

Lemma grouped_step (seen : list CsvRow.t) (m : list (str * CsvTeamGroup.t))
    (row : CsvRow.t) :
  grouped seen m -> grouped (seen ++ [row]) (putRow (groupKey row) row m).
Proof.
  intros (Hnd & Hseen & Hent). split; [|split].
  - rewrite putRow_keys. destruct (existsb _ (map fst m)) eqn:E; [exact Hnd|].
    apply NoDup_app; [exact Hnd|repeat constructor; simpl; tauto|].
    intros k Hk [<-|[]]. apply existsb_eqs_In in Hk. congruence.
  - intros r Hr. rewrite putRow_keys. apply in_app_or in Hr as [Hr|[<-|[]]].
    + specialize (Hseen r Hr). destruct (existsb _ (map fst m)); [exact Hseen|].
      apply in_or_app. now left.
    + destruct (existsb _ (map fst m)) eqn:E; [now apply existsb_eqs_In|].
      apply in_or_app. right. now left.
  - intros k g Hin. rewrite filter_app. cbn [filter].
    destruct (putRow_In _ _ _ Hnd _ _ Hin)
      as [[Hk H]|[(-> & g0 & -> & H)|(-> & Hnew & ->)]].
    + destruct (Hent _ _ H) as (H1 & H2 & H3 & H4 & H5).
      assert (E : eqs (groupKey row) k = false) by (apply eqs_neq; congruence).
      rewrite E, app_nil_r. now repeat split.
    + destruct (Hent _ _ H) as (H1 & H2 & H3 & H4 & H5).
      rewrite eqs_refl. destruct (addRow_filters row g0 H4 H5) as [H6 H7].
      split; [exact H1|]. split; [|split; [|split; [exact H6|exact H7]]].
      * unfold addRow. cbn [CsvTeamGroup.rows]. now destruct (CsvTeamGroup.rows g0).
      * unfold addRow. cbn [CsvTeamGroup.rows]. now rewrite H3.
    + rewrite eqs_refl.
      assert (E : filter (fun r => eqs (groupKey r) (groupKey row)) seen = []).
      { destruct (filter _ seen) as [|r l] eqn:Ef; [reflexivity|]. exfalso.
        assert (Hr : In r (filter (fun r => eqs (groupKey r) (groupKey row)) seen))
          by (rewrite Ef; now left).
        apply filter_In in Hr as [Hr Hk]. apply eqs_eq in Hk.
        apply Hnew. rewrite <- Hk. now apply Hseen. }
      rewrite E.
      destruct (addRow_filters row
                  (CsvTeamGroup.mk (CsvRow.csvGroup row) (CsvRow.teamName row) [] [] [])
                  eq_refl eq_refl) as [H6 H7].
      split; [reflexivity|]. split; [discriminate|]. split; [reflexivity|].
      split; [exact H6|exact H7].
Qed.

Lemma grouped_fold (rows : list CsvRow.t) :
  forall seen m, grouped seen m ->
  grouped (seen ++ rows) (fold_left (fun m row => putRow (groupKey row) row m) rows m).
Proof.
  induction rows as [|row rows IH]; intros seen m H; cbn [fold_left].
  - now rewrite app_nil_r.
  - replace (seen ++ row :: rows) with ((seen ++ [row]) ++ rows)
      by now rewrite <- app_assoc.
    apply IH. now apply grouped_step.
Qed.

Lemma grouped_groupCsvRows (rows : list CsvRow.t) :
  grouped rows (fold_left (fun m row => putRow (groupKey row) row m) rows []).
Proof.
  apply (grouped_fold rows [] []). split; [constructor|]. split; intros; contradiction.
Qed.

(** X5.  The team-groups of [groupCsvRows] have distinct keys, and a
    team-group holds, in the order of the text, the rows of its key, the
    key being the CSV group, three bars and the team name: it is never
    empty, its managers are its rows of role Engineering Manager and its
    engineers its rows of role Engineer or Senior Engineer. *)
Theorem groupCsvRows_groups (rows : list CsvRow.t) :
  NoDup (map groupKeyOf (groupCsvRows rows))
  /\ forall g, In g (groupCsvRows rows) ->
       CsvTeamGroup.rows g <> []
       /\ CsvTeamGroup.rows g
          = filter (fun row => eqs (groupKey row) (groupKeyOf g)) rows
       /\ CsvTeamGroup.managers g = filter isManagerRow (CsvTeamGroup.rows g)
       /\ CsvTeamGroup.engineers g = filter isEngineerRow (CsvTeamGroup.rows g).
Proof.
  destruct (grouped_groupCsvRows rows) as (Hnd & _ & Hent). unfold groupCsvRows.
  split.
  - rewrite map_map.
    erewrite map_ext_in; [exact Hnd|].
    intros [k g] Hin. destruct (Hent _ _ Hin) as [-> _]. reflexivity.
  - intros g Hin. apply in_map_iff in Hin as ([k g'] & <- & Hin).
    destruct (Hent _ _ Hin) as (-> & H). exact H.
Qed.

Lemma putRow_rows (key : str) (row : CsvRow.t) (m : list (str * CsvTeamGroup.t)) :
  Permutation (flat_map CsvTeamGroup.rows (map snd (putRow key row m)))
              (row :: flat_map CsvTeamGroup.rows (map snd m)).
Proof.
  induction m as [|[k g] rest IH]; cbn [putRow].
  - apply Permutation_refl.
  - destruct (eqs k key); cbn [map snd flat_map].
    + unfold addRow at 1. cbn [CsvTeamGroup.rows]. rewrite <- app_assoc.
      symmetry. apply Permutation_middle.
    + etransitivity; [apply Permutation_app_head, IH|].
      symmetry. apply Permutation_middle.
Qed.

Lemma groupCsvRows_fold_rows (rows : list CsvRow.t) :
  forall m,
  Permutation
    (flat_map CsvTeamGroup.rows
       (map snd (fold_left (fun m row => putRow (groupKey row) row m) rows m)))
    (flat_map CsvTeamGroup.rows (map snd m) ++ rows).
Proof.
  induction rows as [|row rows IH]; intros m; cbn [fold_left].
  - now rewrite app_nil_r.
  - etransitivity; [apply IH|].
    etransitivity; [apply Permutation_app_tail, putRow_rows|].
    cbn [app]. apply Permutation_middle.
Qed.

Lemma groupCsvRows_rows (rows : list CsvRow.t) :
  Permutation (flat_map CsvTeamGroup.rows (groupCsvRows rows)) rows.
Proof. apply (groupCsvRows_fold_rows rows []). Qed.

(** X6.  [groupCsvRows] loses no row and repeats none: the rows of its
    team-groups, taken together, are the rows it was given. *)
Theorem groupCsvRows_partition (rows : list CsvRow.t) :
  Permutation (flat_map CsvTeamGroup.rows (groupCsvRows rows)) rows
  /\ length (flat_map CsvTeamGroup.rows (groupCsvRows rows)) = length rows.
Proof.
  split; [apply groupCsvRows_rows|]. apply Permutation_length, groupCsvRows_rows.
Qed.

(** ** The report of an import *)

Lemma sumLengths_snoc {A B} (f : A -> list B) (l : list A) (x : A) :
  sumLengths f (l ++ [x]) = sumLengths f l + length (f x).
Proof. unfold sumLengths. now rewrite fold_left_app. Qed.

Lemma sumLengths_flat_map {A B} (f : A -> list B) (l : list A) :
  sumLengths f l = length (flat_map f l).
Proof.
  induction l as [|x l IH] using rev_ind; [reflexivity|].
  now rewrite sumLengths_snoc, flat_map_app, length_app, IH; simpl; rewrite app_nil_r.
Qed.

(** The rows of a matched team-group: each is skipped or imported, as an
    engineer or a senior engineer with a name. *)
Lemma importRows_account (ids : IdSource) (rows : list CsvRow.t) :
  forall acc,
  let acc' := fold_left (importRow ids) rows acc in
  length (RowAcc.skippedRows acc') + length (RowAcc.addedChanges acc')
  = length (RowAcc.skippedRows acc) + length (RowAcc.addedChanges acc) + length rows
  /\ exists imported,
       RowAcc.newPersons acc' = RowAcc.newPersons acc ++ imported
       /\ length (RowAcc.addedChanges acc')
          = length (RowAcc.addedChanges acc) + length imported
       /\ Forall (fun q => isEngineerRole (Person.role q) = true
                           /\ Person.name q <> None) imported.
Proof.
  induction rows as [|row rows IH]; intros acc; cbn [fold_left].
  - split; [simpl; lia|]. exists []. rewrite app_nil_r. repeat split; [simpl; lia|constructor].
  - destruct (IH (importRow ids acc row)) as (H1 & imported & H2 & H3 & H4).
    cbv zeta. rewrite H1, H2, H3. unfold importRow.
    destruct (mapRole (CsvRow.role row)) as [[]|]; unfold skipRow;
      cbn [RowAcc.skippedRows RowAcc.newPersons RowAcc.addedChanges RowAcc.drawn];
      rewrite ?length_app; cbn [length].
    3-7: (split; [lia|]; exists imported;
          split; [reflexivity|split; [lia|exact H4]]).
    all: split; [lia|]; eexists (_ :: imported); rewrite <- app_assoc;
      (split; [reflexivity|]); (split; [cbn [length]; lia|]);
      (constructor; [|exact H4]); unfold importedPerson;
      destruct (mapTypeAndVendor (CsvRow.vendor row)); cbn [Person.role Person.name];
      (split; [reflexivity|discriminate]).
Qed.

(** What one team-group adds to the tallies of the report. *)
Lemma importGroup_account (ids : IdSource) (portfolio : Portfolio.t Role)
    (appTeams : list AppTeamLocation.t) (st : ImportState.t) (g : CsvTeamGroup.t) :
  let st' := importGroup ids portfolio appTeams st g in
  length (ImportState.skippedRows st')
  + sumLengths TeamChange.added (ImportState.teamChanges st')
  = length (ImportState.skippedRows st)
    + sumLengths TeamChange.added (ImportState.teamChanges st)
    + length (CsvTeamGroup.rows g)
  /\ length (ImportState.teamChanges st') + length (ImportState.unmatchedTeams st')
     = S (length (ImportState.teamChanges st) + length (ImportState.unmatchedTeams st))
  /\ (length (ImportState.replacements st) = length (ImportState.teamChanges st) ->
      length (ImportState.replacements st') = length (ImportState.teamChanges st')).
Proof.
  cbv zeta. unfold importGroup. cbv zeta.
  destruct (findBest (ImportState.claimedTeams st) g appTeams) as [[t r]|].
  - destruct (isUnmatched (Some (t, r))).
    + cbn [ImportState.teamChanges ImportState.skippedRows ImportState.unmatchedTeams
           ImportState.replacements].
      rewrite !length_app, length_map. cbn [length]. repeat split; lia.
    + cbn [ImportState.teamChanges ImportState.skippedRows ImportState.unmatchedTeams
           ImportState.replacements].
      match goal with
      | |- context [fold_left (importRow ids) ?rows ?acc] =>
          destruct (importRows_account ids rows acc) as (H1 & imported & _ & H3 & _)
      end.
      cbv zeta in H1, H3. cbn [RowAcc.skippedRows RowAcc.addedChanges length] in H1, H3.
      rewrite sumLengths_snoc, !length_app. cbn [TeamChange.added length].
      repeat split; lia.
  - cbn [ImportState.teamChanges ImportState.skippedRows ImportState.unmatchedTeams
         ImportState.replacements].
    rewrite !length_app, length_map. cbn [length]. repeat split; lia.
Qed.

Lemma importLoop_account (ids : IdSource) (portfolio : Portfolio.t Role)
    (appTeams : list AppTeamLocation.t) (groups : list CsvTeamGroup.t) :
  forall st,
  let st' := fold_left (importGroup ids portfolio appTeams) groups st in
  length (ImportState.skippedRows st')
  + sumLengths TeamChange.added (ImportState.teamChanges st')
  = length (ImportState.skippedRows st)
    + sumLengths TeamChange.added (ImportState.teamChanges st)
    + length (flat_map CsvTeamGroup.rows groups)
  /\ length (ImportState.teamChanges st') + length (ImportState.unmatchedTeams st')
     = length (ImportState.teamChanges st) + length (ImportState.unmatchedTeams st)
       + length groups
  /\ (length (ImportState.replacements st) = length (ImportState.teamChanges st) ->
      length (ImportState.replacements st') = length (ImportState.teamChanges st')).
Proof.
  induction groups as [|g groups IH]; intros st; cbn [fold_left flat_map length].
  - repeat split; simpl; lia.
  - destruct (IH (importGroup ids portfolio appTeams st g)) as (H1 & H2 & H3).
    destruct (importGroup_account ids portfolio appTeams st g) as (G1 & G2 & G3).
    cbv zeta in *. rewrite length_app. repeat split; [lia|lia|].
    intros H. apply H3, G3, H.
Qed.

(** X7.  Every row that [parseCsv] reads is accounted for once in the
    report of [analyseImport]: the rows skipped and the members added are,
    together, as many as the rows. *)
Theorem analyseImport_rows_accounted (ids : IdSource) (csvText : str)
    (portfolio : Portfolio.t Role) :
  let summary := ImportReport.summary (fst (analyseImport ids csvText portfolio)) in
  Summary.rowsSkipped summary + Summary.membersAdded summary
  = length (parseCsv csvText)
  /\ Summary.rowsSkipped summary
     = length (ImportReport.skippedRows (fst (analyseImport ids csvText portfolio))).
Proof.
  cbv zeta. unfold analyseImport. cbv zeta.
  cbn [fst ImportReport.summary ImportReport.skippedRows Summary.rowsSkipped
       Summary.membersAdded].
  split; [|reflexivity]. unfold importLoop. cbv zeta.
  destruct (importLoop_account ids portfolio (enumerateTeams portfolio)
              (groupCsvRows (parseCsv csvText)) importStart) as (H & _).
  cbv zeta in H. rewrite H. cbn [importStart ImportState.skippedRows
    ImportState.teamChanges length]. unfold sumLengths at 1. cbn [fold_left].
  cbn [Nat.add]. apply Permutation_length, groupCsvRows_rows.
Qed.

(** X8.  Every team-group is matched or unmatched, not both, and there
    is one replacement for each matched team-group. *)
Theorem analyseImport_teams_accounted (ids : IdSource) (csvText : str)
    (portfolio : Portfolio.t Role) :
  let summary := ImportReport.summary (fst (analyseImport ids csvText portfolio)) in
  Summary.teamsMatched summary + Summary.teamsUnmatched summary
  = length (groupCsvRows (parseCsv csvText))
  /\ length (snd (analyseImport ids csvText portfolio)) = Summary.teamsMatched summary.
Proof.
  cbv zeta. unfold analyseImport. cbv zeta.
  cbn [fst snd ImportReport.summary Summary.teamsMatched Summary.teamsUnmatched].
  unfold importLoop. cbv zeta.
  destruct (importLoop_account ids portfolio (enumerateTeams portfolio)
              (groupCsvRows (parseCsv csvText)) importStart) as (_ & H1 & H2).
  cbv zeta in H1, H2. split; [rewrite H1; reflexivity|]. now apply H2.
Qed.

(** ** The teams an import looks at *)

Lemma findTeam_some (teamId : str) (teams : list (Team.t Role)) (t : Team.t Role) :
  findTeam teamId teams = Some t -> In t teams /\ Team.id t = teamId.
Proof.
  induction teams as [|x teams IH]; [discriminate|]. cbn [findTeam].
  destruct (eqs (Team.id x) teamId) eqn:E.
  - intros H. injection H as <-. apply eqs_eq in E. split; [now left|exact E].
  - intros H. destruct (IH H) as [H1 H2]. split; [now right|exact H2].
Qed.

Lemma findTeam_none (teamId : str) (teams : list (Team.t Role)) :
  findTeam teamId teams = None <-> ~ In teamId (map Team.id teams).
Proof.
  induction teams as [|x teams IH]; cbn [findTeam map]; [simpl; tauto|].
  destruct (eqs (Team.id x) teamId) eqn:E.
  - apply eqs_eq in E. split; [discriminate|]. intros H. exfalso. apply H. now left.
  - apply eqs_neq in E. rewrite IH. simpl. tauto.
Qed.

Lemma processGroup_ids (g : Group.t Role) (d n : option str) :
  map AppTeamLocation.teamId (processGroup g d n) = map Team.id (Group.teams g).
Proof. unfold processGroup. rewrite map_map. reflexivity. Qed.

Lemma map_flat_map_eq {A B C D} (f : B -> D) (g : C -> D) (h : A -> list B)
    (k : A -> list C) (l : list A) :
  (forall a, map f (h a) = map g (k a)) ->
  map f (flat_map h l) = map g (flat_map k l).
Proof.
  intros H. induction l as [|a l IH]; [reflexivity|].
  cbn [flat_map]. now rewrite !map_app, H, IH.
Qed.

Lemma enumerateTeams_ids (portfolio : Portfolio.t Role) :
  map AppTeamLocation.teamId (enumerateTeams portfolio)
  = map Team.id (allTeams portfolio).
Proof.
  unfold enumerateTeams, allTeams. rewrite !map_app. f_equal.
  - apply map_flat_map_eq. intros d. apply map_flat_map_eq. intros g.
    apply processGroup_ids.
  - apply map_flat_map_eq. intros g. apply processGroup_ids.
Qed.

Lemma findTeamInPortfolio_found (portfolio : Portfolio.t Role)
    (loc : AppTeamLocation.t) :
  In loc (enumerateTeams portfolio) ->
  exists t, findTeamInPortfolio portfolio (AppTeamLocation.teamId loc) = Some t.
Proof.
  intros Hin. unfold findTeamInPortfolio.
  destruct (findTeam (AppTeamLocation.teamId loc) (allTeams portfolio)) as [t|] eqn:E;
    [now exists t|].
  apply findTeam_none in E. exfalso. apply E. rewrite <- enumerateTeams_ids.
  now apply in_map.
Qed.

(** X9.  [findTeamInPortfolio] finds a team exactly when
    [enumerateTeams] lists its identifier, and the team it returns has
    that identifier: the two walks of the portfolio see the same teams. *)
Theorem findTeamInPortfolio_enumerated (portfolio : Portfolio.t Role) (teamId : str) :
  (In teamId (map AppTeamLocation.teamId (enumerateTeams portfolio))
   <-> exists t, findTeamInPortfolio portfolio teamId = Some t)
  /\ (forall t, findTeamInPortfolio portfolio teamId = Some t ->
      Team.id t = teamId /\ In t (allTeams portfolio)).
Proof.
  unfold findTeamInPortfolio. rewrite enumerateTeams_ids. split.
  - destruct (findTeam teamId (allTeams portfolio)) as [t|] eqn:E.
    + split; [intros _; now exists t|]. intros _.
      destruct (findTeam_some _ _ _ E) as [H <-]. now apply in_map.
    + apply findTeam_none in E. split; [contradiction|]. intros [t H]. discriminate.
  - intros t H. destruct (findTeam_some _ _ _ H) as [H1 H2]. now split.
Qed.


Lemma importGroup_replacementOk (ids : IdSource) (portfolio : Portfolio.t Role)
    (st : ImportState.t) (g : CsvTeamGroup.t) :
  Forall (replacementOk portfolio) (ImportState.replacements st) ->
  Forall (replacementOk portfolio)
         (ImportState.replacements
            (importGroup ids portfolio (enumerateTeams portfolio) st g)).
Proof.
  intros H. unfold importGroup. cbv zeta.
  destruct (findBest (ImportState.claimedTeams st) g (enumerateTeams portfolio))
    as [[loc r]|] eqn:Ebest; [|exact H].
  destruct (isUnmatched (Some (loc, r))); [exact H|].
  cbn [ImportState.replacements]. apply Forall_app. split; [exact H|].
  constructor; [|constructor].
  destruct (findBest_some _ _ _ _ _ Ebest) as (Hin & _).
  destruct (findTeamInPortfolio_found portfolio loc Hin) as (t & Ht).
  match goal with
  | |- context [fold_left (importRow ids) ?rows ?acc] =>
      destruct (importRows_account ids rows acc) as (_ & imported & H2 & _ & H4)
  end.
  cbv zeta in H2. cbn [RowAcc.newPersons app] in H2.
  split; [reflexivity|]. exists loc, t, imported.
  cbn [TeamMemberReplacement.divisionId TeamMemberReplacement.groupId
       TeamMemberReplacement.teamId TeamMemberReplacement.newMembers].
  rewrite Ht, H2. now repeat split.
Qed.

Lemma importLoop_replacementOk (ids : IdSource) (portfolio : Portfolio.t Role)
    (groups : list CsvTeamGroup.t) :
  forall st,
  Forall (replacementOk portfolio) (ImportState.replacements st) ->
  Forall (replacementOk portfolio)
         (ImportState.replacements
            (fold_left (importGroup ids portfolio (enumerateTeams portfolio)) groups st)).
Proof.
  induction groups as [|g groups IH]; intros st H; [exact H|].
  cbn [fold_left]. apply IH. now apply importGroup_replacementOk.
Qed.


Lemma findBest_nil (claimedTeams : list str) (g : CsvTeamGroup.t) :
  findBest claimedTeams g [] = None.
Proof. reflexivity. Qed.

Lemma importLoop_no_teams (ids : IdSource) (portfolio : Portfolio.t Role)
    (groups : list CsvTeamGroup.t) :
  forall st,
  let st' := fold_left (importGroup ids portfolio []) groups st in
  ImportState.teamChanges st' = ImportState.teamChanges st
  /\ ImportState.replacements st' = ImportState.replacements st
  /\ ImportState.skippedRows st'
     = ImportState.skippedRows st
       ++ flat_map (fun g => map (fun row => SkippedRow.mk row
                                    (NoMatchingTeam (CsvTeamGroup.csvTeam g)
                                                    (CsvTeamGroup.csvGroup g)))
                                 (CsvTeamGroup.rows g)) groups
  /\ ImportState.unmatchedTeams st'
     = ImportState.unmatchedTeams st
       ++ map (fun g => UnmatchedTeam.mk (CsvTeamGroup.csvGroup g) (CsvTeamGroup.csvTeam g)
                          (length (CsvTeamGroup.rows g)) None) groups.
Proof.
  induction groups as [|g groups IH]; intros st; cbn [fold_left flat_map map].
  - now rewrite !app_nil_r.
  - destruct (IH (importGroup ids portfolio [] st g)) as (H1 & H2 & H3 & H4).
    cbv zeta. rewrite H1, H2, H3, H4. unfold importGroup. cbv zeta.
    rewrite findBest_nil.
    cbn [ImportState.teamChanges ImportState.skippedRows ImportState.unmatchedTeams
         ImportState.replacements].
    now rewrite <- !app_assoc.
Qed.

(** X11.  Against a portfolio without teams [analyseImport] proposes no
    change: there is no replacement and no matched team, every team-group
    is unmatched for want of a candidate, and every row is skipped with the
    reason that no team matches. *)
Theorem analyseImport_no_teams (ids : IdSource) (csvText : str)
    (portfolio : Portfolio.t Role) :
  enumerateTeams portfolio = [] ->
  let groups := groupCsvRows (parseCsv csvText) in
  let report := fst (analyseImport ids csvText portfolio) in
  snd (analyseImport ids csvText portfolio) = []
  /\ ImportReport.teamChanges report = []
  /\ ImportReport.unmatchedTeams report
     = map (fun g => UnmatchedTeam.mk (CsvTeamGroup.csvGroup g) (CsvTeamGroup.csvTeam g)
                       (length (CsvTeamGroup.rows g)) None) groups
  /\ ImportReport.skippedRows report
     = flat_map (fun g => map (fun row => SkippedRow.mk row
                                 (NoMatchingTeam (CsvTeamGroup.csvTeam g)
                                                 (CsvTeamGroup.csvGroup g)))
                              (CsvTeamGroup.rows g)) groups
  /\ Summary.rowsSkipped (ImportReport.summary report) = length (parseCsv csvText).
Proof.
  intros Hno. cbv zeta. unfold analyseImport, importLoop. cbv zeta.
  cbn [fst snd ImportReport.teamChanges ImportReport.unmatchedTeams
       ImportReport.skippedRows ImportReport.summary Summary.rowsSkipped].
  rewrite Hno.
  destruct (importLoop_no_teams ids portfolio (groupCsvRows (parseCsv csvText))
              importStart) as (H1 & H2 & H3 & H4).
  cbv zeta in H1, H2, H3, H4. rewrite H1, H2, H3, H4.
  cbn [importStart ImportState.teamChanges ImportState.replacements
       ImportState.skippedRows ImportState.unmatchedTeams app].
  repeat split.
  rewrite <- (Permutation_length (groupCsvRows_rows (parseCsv csvText))).
  rewrite !flat_map_concat_map, !length_concat, !map_map.
  f_equal. apply map_ext. intros g. apply length_map.
Qed.

Lemma analyseImport_no_teams_witness :
  enumerateTeams unnamedHeadPortfolio = []
  /\ snd (analyseImport idsA "Acme,Platform,Core,Engineer,Offshore,TCS,Ann Lee"
                        unnamedHeadPortfolio) = [].
Proof.
  split; [reflexivity|].
  apply (analyseImport_no_teams idsA "Acme,Platform,Core,Engineer,Offshore,TCS,Ann Lee"
           unnamedHeadPortfolio). reflexivity.
Defined.

(** * The store *)

Lemma map_id_ext {A} (f : A -> A) (l : list A) :
  (forall x, In x l -> f x = x) -> map f l = l.
Proof.
  intros H. induction l as [|x l IH]; [reflexivity|].
  cbn [map]. rewrite H by now left. f_equal. apply IH. intros y Hy. apply H. now right.
Qed.

Lemma mapGroupTeams_ext (f h : Team.t Role -> Team.t Role) (g : Group.t Role) :
  (forall t, f t = h t) -> mapGroupTeams f g = mapGroupTeams h g.
Proof. intros H. unfold mapGroupTeams. f_equal. now apply map_ext. Qed.

Lemma mapGroupTeams_id (f : Team.t Role -> Team.t Role) (g : Group.t Role) :
  (forall t, f t = t) -> mapGroupTeams f g = g.
Proof.
  intros H. unfold mapGroupTeams. rewrite map_id_ext by (intros; apply H). now destruct g.
Qed.

Lemma mapTeams_ext (f h : str -> option str -> str -> Team.t Role -> Team.t Role)
    (p : Portfolio.t Role) :
  (forall did gid t, f (Portfolio.id p) did gid t = h (Portfolio.id p) did gid t) ->
  mapTeams f p = mapTeams h p.
Proof.
  intros H. unfold mapTeams. f_equal.
  - destruct (Portfolio.divisions p) as [ds|]; [|reflexivity]. cbn [option_map].
    f_equal. apply map_ext. intros d. f_equal. apply map_ext. intros g.
    apply mapGroupTeams_ext. intros t. apply H.
  - apply map_ext. intros g. apply mapGroupTeams_ext. intros t. apply H.
Qed.

Lemma mapTeams_id (f : str -> option str -> str -> Team.t Role -> Team.t Role)
    (p : Portfolio.t Role) :
  (forall did gid t, f (Portfolio.id p) did gid t = t) -> mapTeams f p = p.
Proof.
  intros H. unfold mapTeams.
  assert (Hg : forall did (gs : list (Group.t Role)),
             map (fun g => mapGroupTeams (f (Portfolio.id p) did (Group.id g)) g) gs = gs).
  { intros did gs. apply map_id_ext. intros g _. apply mapGroupTeams_id. intros t. apply H. }
  rewrite Hg.
  assert (Hd : forall ds : list (Division.t Role),
             map (fun d => Division.mk (Division.id d) (Division.name d)
                    (map (fun g => mapGroupTeams
                                     (f (Portfolio.id p) (Some (Division.id d)) (Group.id g)) g)
                         (Division.groups d))) ds = ds).
  { intros ds. apply map_id_ext. intros d _. rewrite Hg. now destruct d. }
  destruct p as [i n h ps [ds|] gs tg]; cbn [option_map Portfolio.id Portfolio.name
    Portfolio.headOfEngineering Portfolio.principalEngineers Portfolio.divisions
    Portfolio.groups Portfolio.onshoreTargetPercentage] in *; [|reflexivity].
  now rewrite Hd.
Qed.

Lemma mapTeams_compose (f h : str -> option str -> str -> Team.t Role -> Team.t Role)
    (p : Portfolio.t Role) :
  mapTeams f (mapTeams h p)
  = mapTeams (fun pid did gid t => f pid did gid (h pid did gid t)) p.
Proof.
  unfold mapTeams. cbn [Portfolio.id Portfolio.name Portfolio.headOfEngineering
    Portfolio.principalEngineers Portfolio.divisions Portfolio.groups
    Portfolio.onshoreTargetPercentage]. f_equal.
  - destruct (Portfolio.divisions p) as [ds|]; [|reflexivity]. cbn [option_map].
    f_equal. rewrite map_map. apply map_ext. intros d.
    cbn [Division.id Division.name Division.groups]. f_equal.
    rewrite map_map. apply map_ext. intros g. unfold mapGroupTeams.
    cbn [Group.id Group.name Group.manager Group.managedBy Group.staffEngineers
         Group.teams]. now rewrite map_map.
  - rewrite map_map. apply map_ext. intros g. unfold mapGroupTeams.
    cbn [Group.id Group.name Group.manager Group.managedBy Group.staffEngineers
         Group.teams]. now rewrite map_map.
Qed.

(** The groups of a list after [updateGroupInPortfolio] has walked it. *)
Lemma update_groups (r : TeamMemberReplacement.t) (pid : str) (did : option str)
    (gs : list (Group.t Role)) :
  eqs pid (TeamMemberReplacement.portfolioId r) = true ->
  (if truthy (TeamMemberReplacement.divisionId r)
   then match did with
        | Some d => eqs d (nullish (TeamMemberReplacement.divisionId r) [])
        | None => false
        end
   else match did with None => true | Some _ => false end) = true ->
  map (fun g => if eqs (Group.id g) (TeamMemberReplacement.groupId r)
                then replaceMembers r g else g) gs
  = map (fun g => mapGroupTeams (replaceAt r pid did (Group.id g)) g) gs.
Proof.
  intros Hp Hd. apply map_ext. intros g. unfold replaceAt, reaches. rewrite Hp, Hd.
  cbn [andb]. destruct (eqs (Group.id g) (TeamMemberReplacement.groupId r)).
  - reflexivity.
  - symmetry. now apply mapGroupTeams_id.
Qed.

Lemma keep_groups (r : TeamMemberReplacement.t) (pid : str) (did : option str)
    (gs : list (Group.t Role)) :
  (if truthy (TeamMemberReplacement.divisionId r)
   then match did with
        | Some d => eqs d (nullish (TeamMemberReplacement.divisionId r) [])
        | None => false
        end
   else match did with None => true | Some _ => false end) = false ->
  map (fun g => mapGroupTeams (replaceAt r pid did (Group.id g)) g) gs = gs.
Proof.
  intros Hd. apply map_id_ext. intros g _. apply mapGroupTeams_id. intros t.
  unfold replaceAt, reaches. rewrite Hd. now rewrite andb_false_r.
Qed.

Lemma applyReplacement_portfolio (r : TeamMemberReplacement.t) (p : Portfolio.t Role) :
  (if eqs (Portfolio.id p) (TeamMemberReplacement.portfolioId r)
   then updateGroupInPortfolio p (TeamMemberReplacement.groupId r)
          (TeamMemberReplacement.divisionId r) (replaceMembers r)
   else p)
  = mapTeams (replaceAt r) p.
Proof.
  destruct (eqs (Portfolio.id p) (TeamMemberReplacement.portfolioId r)) eqn:Ep.
  - unfold updateGroupInPortfolio, mapTeams. cbv zeta.
    destruct (truthy (TeamMemberReplacement.divisionId r)) eqn:Et.
    + f_equal.
      * destruct (Portfolio.divisions p) as [ds|]; [|reflexivity]. cbn [option_map].
        f_equal. apply map_ext. intros d.
        destruct (eqs (Division.id d) (nullish (TeamMemberReplacement.divisionId r) []))
          eqn:Ed.
        -- f_equal. apply update_groups; [exact Ep|]. now rewrite Et.
        -- rewrite keep_groups by now rewrite Et. now destruct d.
      * symmetry. apply keep_groups. now rewrite Et.
    + f_equal.
      * destruct (Portfolio.divisions p) as [ds|]; [|reflexivity]. cbn [option_map].
        f_equal. symmetry. apply map_id_ext. intros d _.
        rewrite keep_groups by now rewrite Et. now destruct d.
      * apply update_groups; [exact Ep|]. now rewrite Et.
  - symmetry. apply mapTeams_id. intros did gid t. unfold replaceAt, reaches.
    now rewrite Ep.
Qed.

Lemma replaceTeamMembers_mapTeams (rs : list TeamMemberReplacement.t) :
  forall prev,
  replaceTeamMembers rs prev
  = OrgData.mk (map (mapTeams (replaceAllAt rs)) (OrgData.portfolios prev)).
Proof.
  unfold replaceTeamMembers.
  induction rs as [|r rs IH]; intros prev; cbn [fold_left].
  - rewrite map_id_ext; [now destruct prev|]. intros p _. now apply mapTeams_id.
  - rewrite IH. unfold applyReplacement. cbn [OrgData.portfolios]. f_equal.
    rewrite map_map. apply map_ext. intros p.
    rewrite applyReplacement_portfolio, mapTeams_compose. reflexivity.
Qed.

Lemma lastReaching_snoc (rs : list TeamMemberReplacement.t) (r : TeamMemberReplacement.t)
    (pid : str) (did : option str) (gid tid : str) :
  lastReaching (rs ++ [r]) pid did gid tid
  = if reaches r pid did gid tid then Some r else lastReaching rs pid did gid tid.
Proof. unfold lastReaching. now rewrite fold_left_app. Qed.

(** A team after the replacements: it has the members of the last
    replacement that reaches it, and is unchanged if none does. *)
Lemma replaceAllAt_last (rs : list TeamMemberReplacement.t) (pid : str)
    (did : option str) (gid : str) (t : Team.t Role) :
  replaceAllAt rs pid did gid t
  = match lastReaching rs pid did gid (Team.id t) with
    | Some r => Team.mk (Team.id t) (Team.name t) (TeamMemberReplacement.newMembers r)
    | None => t
    end.
Proof.
  induction rs as [|r rs IH] using rev_ind; [reflexivity|].
  unfold replaceAllAt in *. rewrite fold_left_app, lastReaching_snoc. cbn [fold_left].
  rewrite IH. unfold replaceAt.
  destruct (lastReaching rs pid did gid (Team.id t)) as [r0|];
    cbn [Team.id Team.name]; now destruct (reaches r pid did gid (Team.id t)).
Qed.

(** X12.  [replaceTeamMembers] changes member lists only: the portfolios
    it returns are, without the members of their teams, the portfolios it
    was given, in the same order. *)
Theorem replaceTeamMembers_structure (rs : list TeamMemberReplacement.t)
    (prev : OrgData.t) :
  map withoutMembers (OrgData.portfolios (replaceTeamMembers rs prev))
  = map withoutMembers (OrgData.portfolios prev).
Proof.
  rewrite replaceTeamMembers_mapTeams. cbn [OrgData.portfolios]. rewrite map_map.
  apply map_ext. intros p. unfold withoutMembers. rewrite mapTeams_compose.
  apply mapTeams_ext. intros did gid t. rewrite replaceAllAt_last.
  now destruct (lastReaching rs (Portfolio.id p) did gid (Team.id t)).
Qed.

(** X13.  Applying a list of replacements a second time changes
    nothing. *)
Theorem replaceTeamMembers_idempotent (rs : list TeamMemberReplacement.t)
    (prev : OrgData.t) :
  replaceTeamMembers rs (replaceTeamMembers rs prev) = replaceTeamMembers rs prev.
Proof.
  rewrite !replaceTeamMembers_mapTeams. cbn [OrgData.portfolios]. f_equal.
  rewrite map_map. apply map_ext. intros p. rewrite mapTeams_compose.
  apply mapTeams_ext. intros did gid t. rewrite !replaceAllAt_last.
  destruct (lastReaching rs (Portfolio.id p) did gid (Team.id t)) as [r|] eqn:E;
    cbn [Team.id Team.name]; now rewrite E.
Qed.

(** ** An import, applied *)

Lemma allTeams_placed (p : Portfolio.t Role) : allTeams p = map snd (placedTeams p).
Proof.
  unfold allTeams, placedTeams. rewrite map_app, !map_flat_map. f_equal.
  - apply flat_map_ext. intros d. rewrite map_flat_map. apply flat_map_ext. intros g.
    rewrite map_map. cbn [snd]. now rewrite map_id.
  - apply flat_map_ext. intros g. rewrite map_map. cbn [snd]. now rewrite map_id.
Qed.

Lemma allTeams_mapTeams (f : str -> option str -> str -> Team.t Role -> Team.t Role)
    (p : Portfolio.t Role) :
  allTeams (mapTeams f p)
  = map (fun x => f (Portfolio.id p) (fst (fst x)) (snd (fst x)) (snd x)) (placedTeams p).
Proof.
  unfold allTeams, placedTeams, mapTeams.
  cbn [Portfolio.divisions Portfolio.groups]. rewrite map_app. f_equal.
  - destruct (Portfolio.divisions p) as [ds|]; [|reflexivity]. cbn [option_map nullish].
    rewrite map_flat_map, flat_map_concat_map, map_map, <- flat_map_concat_map.
    apply flat_map_ext. intros d. cbn [Division.groups].
    rewrite map_flat_map, flat_map_concat_map, map_map, <- flat_map_concat_map.
    apply flat_map_ext. intros g. unfold mapGroupTeams. cbn [Group.teams].
    now rewrite map_map.
  - rewrite map_flat_map, flat_map_concat_map, map_map, <- flat_map_concat_map.
    apply flat_map_ext. intros g. unfold mapGroupTeams. cbn [Group.teams].
    now rewrite map_map.
Qed.

Lemma enumerateTeams_placed (p : Portfolio.t Role) (loc : AppTeamLocation.t) :
  In loc (enumerateTeams p) ->
  exists t, In (AppTeamLocation.divisionId loc, AppTeamLocation.groupId loc, t)
               (placedTeams p)
            /\ Team.id t = AppTeamLocation.teamId loc.
Proof.
  unfold enumerateTeams, placedTeams, processGroup. intros H.
  apply in_app_or in H as [H|H].
  - apply in_flat_map in H as (d & Hd & H). apply in_flat_map in H as (g & Hg & H).
    apply in_map_iff in H as (t & <- & Ht). exists t. split; [|reflexivity].
    apply in_or_app. left. apply in_flat_map. exists d. split; [exact Hd|].
    apply in_flat_map. exists g. split; [exact Hg|]. now apply in_map.
  - apply in_flat_map in H as (g & Hg & H).
    apply in_map_iff in H as (t & <- & Ht). exists t. split; [|reflexivity].
    apply in_or_app. right. apply in_flat_map. exists g. split; [exact Hg|].
    now apply in_map.
Qed.

Lemma placedTeams_division (p : Portfolio.t Role) (d gid : str) (t : Team.t Role) :
  forallb (fun d => nonEmpty (Division.id d)) (nullish (Portfolio.divisions p) []) = true ->
  In (Some d, gid, t) (placedTeams p) -> nonEmpty d = true.
Proof.
  intros Hne H. unfold placedTeams in H. apply in_app_or in H as [H|H].
  - apply in_flat_map in H as (dv & Hd & H). apply in_flat_map in H as (g & Hg & H).
    apply in_map_iff in H as (t' & E & Ht). injection E as <- _ _.
    rewrite forallb_forall in Hne. now apply Hne.
  - apply in_flat_map in H as (g & Hg & H).
    apply in_map_iff in H as (t' & E & Ht). discriminate.
Qed.

Lemma NoDup_map_eq {A B} (f : A -> B) (l : list A) (x y : A) :
  NoDup (map f l) -> In x l -> In y l -> f x = f y -> x = y.
Proof.
  induction l as [|a l IH]; intros Hnd Hx Hy E; [contradiction|].
  cbn [map] in Hnd. apply NoDup_cons_iff in Hnd as [Ha Hnd].
  destruct Hx as [->|Hx], Hy as [->|Hy]; try reflexivity.
  - exfalso. apply Ha. rewrite E. now apply in_map.
  - exfalso. apply Ha. rewrite <- E. now apply in_map.
  - now apply IH.
Qed.

Lemma findTeam_map (h : option str * str * Team.t Role -> Team.t Role)
    (l : list (option str * str * Team.t Role)) (x : option str * str * Team.t Role) :
  (forall y, Team.id (h y) = Team.id (snd y)) ->
  NoDup (map (fun y => Team.id (snd y)) l) -> In x l ->
  findTeam (Team.id (snd x)) (map h l) = Some (h x).
Proof.
  intros Hid. induction l as [|a l IH]; intros Hnd Hx; [contradiction|].
  cbn [map] in Hnd. apply NoDup_cons_iff in Hnd as [Ha Hnd]. cbn [map findTeam].
  rewrite Hid. destruct Hx as [->|Hx].
  - now rewrite eqs_refl.
  - destruct (eqs (Team.id (snd a)) (Team.id (snd x))) eqn:E; [|now apply IH].
    apply eqs_eq in E. exfalso. apply Ha. rewrite E.
    apply (in_map (fun y => Team.id (snd y))). exact Hx.
Qed.

Lemma lastReaching_some (rs : list TeamMemberReplacement.t) (pid : str)
    (did : option str) (gid tid : str) (r : TeamMemberReplacement.t) :
  lastReaching rs pid did gid tid = Some r ->
  In r rs /\ reaches r pid did gid tid = true.
Proof.
  induction rs as [|r0 rs IH] using rev_ind; [discriminate|].
  rewrite lastReaching_snoc. destruct (reaches r0 pid did gid tid) eqn:E.
  - intros H. injection H as <-. split; [apply in_or_app; right; now left|exact E].
  - intros H. destruct (IH H) as [H1 H2]. split; [apply in_or_app; now left|exact H2].
Qed.

Lemma lastReaching_none (rs : list TeamMemberReplacement.t) (pid : str)
    (did : option str) (gid tid : str) :
  lastReaching rs pid did gid tid = None ->
  forall r, In r rs -> reaches r pid did gid tid = false.
Proof.
  induction rs as [|r0 rs IH] using rev_ind; [contradiction|].
  rewrite lastReaching_snoc. destruct (reaches r0 pid did gid tid) eqn:E; [discriminate|].
  intros H r Hr. apply in_app_or in Hr as [Hr|[<-|[]]]; [now apply IH|exact E].
Qed.

(** A replacement of an import reaches the team it is for, where it is. *)
Lemma replacementOk_reaches (p : Portfolio.t Role) (r : TeamMemberReplacement.t)
    (x : option str * str * Team.t Role) :
  NoDup (map Team.id (allTeams p)) ->
  forallb (fun d => nonEmpty (Division.id d)) (nullish (Portfolio.divisions p) []) = true ->
  replacementOk p r -> In x (placedTeams p) ->
  Team.id (snd x) = TeamMemberReplacement.teamId r ->
  reaches r (Portfolio.id p) (fst (fst x)) (snd (fst x)) (Team.id (snd x)) = true.
Proof.
  intros Hnd Hne (Hp & loc & t & imported & Hloc & Hd & Hg & Ht & _) Hx Hid.
  destruct (enumerateTeams_placed p loc Hloc) as (t' & Hin & Hid').
  rewrite allTeams_placed, map_map in Hnd.
  assert (E : x = (AppTeamLocation.divisionId loc, AppTeamLocation.groupId loc, t')).
  { apply (NoDup_map_eq (fun y => Team.id (snd y)) (placedTeams p)); try assumption.
    cbn [snd]. congruence. }
  subst x. cbn [fst snd] in *. unfold reaches. rewrite Hp, Hd, Hg, Hid, !eqs_refl.
  cbn [andb]. rewrite andb_true_r.
  destruct (AppTeamLocation.divisionId loc) as [d|]; [|reflexivity].
  cbn [truthy nullish]. rewrite (placedTeams_division p d _ _ Hne Hin).
  now rewrite eqs_refl.
Qed.

Lemma reaches_teamId (r : TeamMemberReplacement.t) (pid : str) (did : option str)
    (gid tid : str) :
  reaches r pid did gid tid = true -> tid = TeamMemberReplacement.teamId r.
Proof.
  unfold reaches. intros H. apply andb_true_iff in H as [_ H]. now apply eqs_eq.
Qed.

(** X14.  The replacements of an import, applied to the portfolio they
    were computed for, reach the teams they were computed for and no other:
    when the teams of the portfolio have distinct identifiers and no
    division has an empty identifier, a team for which there is a
    replacement has the new members of that replacement and its own name,
    and a team for which there is none is as it was. *)
Theorem analyseImport_applied (ids : IdSource) (csvText : str) (p : Portfolio.t Role) :
  NoDup (map Team.id (allTeams p)) ->
  forallb (fun d => nonEmpty (Division.id d)) (nullish (Portfolio.divisions p) []) = true ->
  let rs := snd (analyseImport ids csvText p) in
  exists p',
    replaceTeamMembers rs (OrgData.mk [p]) = OrgData.mk [p']
    /\ (forall r t, In r rs ->
          findTeamInPortfolio p (TeamMemberReplacement.teamId r) = Some t ->
          findTeamInPortfolio p' (TeamMemberReplacement.teamId r)
          = Some (Team.mk (Team.id t) (Team.name t) (TeamMemberReplacement.newMembers r)))
    /\ (forall t, In t (allTeams p) ->
          ~ In (Team.id t) (map TeamMemberReplacement.teamId rs) ->
          findTeamInPortfolio p' (Team.id t) = Some t).
Proof.
  intros Hnd Hne rs.
  exists (mapTeams (replaceAllAt rs) p). rewrite replaceTeamMembers_mapTeams.
  split; [reflexivity|].
  assert (Hok : Forall (replacementOk p) rs).
  { unfold rs, analyseImport, importLoop. cbv zeta. cbn [snd].
    apply importLoop_replacementOk. constructor. }
  assert (Hdistinct : NoDup (map TeamMemberReplacement.teamId rs)).
  { unfold rs, analyseImport, importLoop. cbv zeta. cbn [snd].
    apply importLoop_exclusive. split; [constructor|intros x []]. }
  assert (Hfind : forall x, In x (placedTeams p) ->
            findTeamInPortfolio (mapTeams (replaceAllAt rs) p) (Team.id (snd x))
            = Some (replaceAllAt rs (Portfolio.id p) (fst (fst x)) (snd (fst x)) (snd x))).
  { intros x Hx. unfold findTeamInPortfolio. rewrite allTeams_mapTeams.
    apply (findTeam_map
             (fun y => replaceAllAt rs (Portfolio.id p) (fst (fst y)) (snd (fst y)) (snd y)));
      [| |exact Hx].
    - intros y. rewrite replaceAllAt_last.
      now destruct (lastReaching rs (Portfolio.id p) (fst (fst y)) (snd (fst y))
                      (Team.id (snd y))).
    - rewrite allTeams_placed, map_map in Hnd. exact Hnd. }
  split.
  - intros r t Hr Ht. unfold findTeamInPortfolio in Ht.
    destruct (findTeam_some _ _ _ Ht) as [Hin Hid].
    rewrite allTeams_placed in Hin. apply in_map_iff in Hin as (x & <- & Hx).
    rewrite <- Hid, (Hfind x Hx), replaceAllAt_last.
    rewrite Forall_forall in Hok.
    pose proof (replacementOk_reaches p r x Hnd Hne (Hok r Hr) Hx Hid) as Hreach.
    destruct (lastReaching rs (Portfolio.id p) (fst (fst x)) (snd (fst x))
                (Team.id (snd x))) as [r'|] eqn:E.
    + destruct (lastReaching_some _ _ _ _ _ _ E) as [Hr' Hreach'].
      apply reaches_teamId in Hreach'.
      assert (r' = r); [|now subst].
      apply (NoDup_map_eq TeamMemberReplacement.teamId rs); try assumption. congruence.
    + rewrite (lastReaching_none _ _ _ _ _ E r Hr) in Hreach. discriminate.
  - intros t Hin Hno. rewrite allTeams_placed in Hin.
    apply in_map_iff in Hin as (x & <- & Hx).
    rewrite (Hfind x Hx), replaceAllAt_last.
    destruct (lastReaching rs (Portfolio.id p) (fst (fst x)) (snd (fst x))
                (Team.id (snd x))) as [r'|] eqn:E; [|reflexivity].
    destruct (lastReaching_some _ _ _ _ _ _ E) as [Hr' Hreach'].
    apply reaches_teamId in Hreach'. exfalso. apply Hno. rewrite Hreach'.
    now apply in_map.
Qed.

Lemma analyseImport_applied_witness :
  NoDup (map Team.id (allTeams fullPortfolio))
  /\ forallb (fun d => nonEmpty (Division.id d))
             (nullish (Portfolio.divisions fullPortfolio) []) = true
  /\ map TeamMemberReplacement.teamId (snd (analyseImport idsA ledgerCsv fullPortfolio))
     = ["t1" : str]
  /\ exists p',
       replaceTeamMembers (snd (analyseImport idsA ledgerCsv fullPortfolio))
                          (OrgData.mk [fullPortfolio]) = OrgData.mk [p']
       /\ (forall r t, In r (snd (analyseImport idsA ledgerCsv fullPortfolio)) ->
             findTeamInPortfolio fullPortfolio (TeamMemberReplacement.teamId r) = Some t ->
             findTeamInPortfolio p' (TeamMemberReplacement.teamId r)
             = Some (Team.mk (Team.id t) (Team.name t)
                             (TeamMemberReplacement.newMembers r)))
       /\ (forall t, In t (allTeams fullPortfolio) ->
             ~ In (Team.id t)
                  (map TeamMemberReplacement.teamId
                       (snd (analyseImport idsA ledgerCsv fullPortfolio))) ->
             findTeamInPortfolio p' (Team.id t) = Some t).
Proof.
  assert (Hnd : NoDup (map Team.id (allTeams fullPortfolio))).
  { vm_compute. repeat constructor; simpl; intuition discriminate. }
  split; [exact Hnd|]. split; [reflexivity|]. split; [vm_compute; reflexivity|].
  apply (analyseImport_applied idsA ledgerCsv fullPortfolio Hnd). reflexivity.
Defined.

(** * The vendor colours *)

Section VendorColours.

Local Open Scope Z_scope.

Lemma toInt32_shift (z : Z) : exists k, toInt32 z = z + k * 4294967296.
Proof.
  unfold toInt32. cbv zeta.
  pose proof (Z_div_mod_eq_full z 4294967296) as H.
  destruct (z mod 4294967296 <? 2147483648).
  - exists (- (z / 4294967296)). lia.
  - exists (- (z / 4294967296) - 1). lia.
Qed.

Lemma hashStep_shift (h e : Z) (c : ascii) :
  (exists k, h = e + k * 4294967296) ->
  exists k, hashStep h c = e * 31 + Z.of_nat (code c) + k * 4294967296.
Proof.
  intros [k ->]. unfold hashStep.
  destruct (toInt32_shift ((e + k * 4294967296) * 32)) as [k1 ->].
  destruct (toInt32_shift ((e + k * 4294967296) * 32 + k1 * 4294967296
                           - (e + k * 4294967296) + Z.of_nat (code c))) as [k2 ->].
  exists (31 * k + k1 + k2). lia.
Qed.

Lemma hash_shift (vendor : str) :
  forall h e, (exists k, h = e + k * 4294967296) ->
  exists k, fold_left hashStep vendor h
            = fold_left (fun h c => h * 31 + Z.of_nat (code c)) vendor e
              + k * 4294967296.
Proof.
  induction vendor as [|c vendor IH]; intros h e H; [exact H|].
  cbn [fold_left]. apply IH. now apply hashStep_shift.
Qed.

Lemma rem_rem_mod (h : Z) : Z.rem (Z.rem h 8 + 8) 8 = h mod 8.
Proof. Z.to_euclidean_division_equations. lia. Qed.

Lemma paletteSize_8 : paletteSize = 8.
Proof. reflexivity. Qed.

Lemma vendorHash_mod (vendor : str) : vendorHash vendor = exactHash vendor mod 8.
Proof.
  unfold vendorHash, exactHash. cbv zeta. rewrite paletteSize_8, rem_rem_mod.
  destruct (hash_shift vendor 0 0) as [k ->]; [exists 0; lia|].
  replace (k * 4294967296) with ((k * 536870912) * 8) by lia.
  apply Z.mod_add. lia.
Qed.

(** X15.  [vendorHash] is an index of the palette, whatever the sign of
    the 32-bit hash, and the wrap-around of the hash does not show in it:
    it is the hash [h * 31 + c] of the whole text, computed without
    overflow, modulo the length of the palette. *)
Theorem vendorHash_slot (vendor : str) :
  0 <= vendorHash vendor < paletteSize
  /\ vendorHash vendor = exactHash vendor mod paletteSize
  /\ exists colour, paletteAt (vendorHash vendor) = Some colour.
Proof.
  rewrite paletteSize_8, vendorHash_mod.
  pose proof (Z.mod_pos_bound (exactHash vendor) 8 eq_refl) as H.
  split; [exact H|]. split; [reflexivity|].
  unfold paletteAt. destruct (exactHash vendor mod 8 <? 0) eqn:E;
    [apply Z.ltb_lt in E; lia|].
  destruct (nth_error VENDOR_PALETTE (Z.to_nat (exactHash vendor mod 8))) as [c|] eqn:En;
    [now exists c|].
  apply nth_error_None in En. simpl in En. lia.
Qed.

(** ** Probing for a free slot *)

Lemma hasSlot_In (used : list Z) (slot : Z) : hasSlot used slot = true <-> In slot used.
Proof.
  unfold hasSlot. rewrite existsb_exists. split.
  - intros (x & Hx & E). apply Z.eqb_eq in E. now subst.
  - intros H. exists slot. split; [exact H|apply Z.eqb_refl].
Qed.

Lemma hasSlot_not_In (used : list Z) (slot : Z) :
  hasSlot used slot = false <-> ~ In slot used.
Proof.
  rewrite <- hasSlot_In. destruct (hasSlot used slot); split; congruence.
Qed.

Lemma slots_at_most (used : list Z) : slotsOk used -> (length used <= 8)%nat.
Proof.
  intros [Hnd Hb].
  apply (NoDup_incl_length (l' := [0; 1; 2; 3; 4; 5; 6; 7]) Hnd).
  intros s Hs. rewrite Forall_forall in Hb. specialize (Hb s Hs).
  rewrite paletteSize_8 in Hb. simpl.
  assert (s = 0 \/ s = 1 \/ s = 2 \/ s = 3 \/ s = 4 \/ s = 5 \/ s = 6 \/ s = 7) by lia.
  intuition.
Qed.

Lemma free_slot (used : list Z) :
  slotsOk used -> (length used < 8)%nat -> exists x, 0 <= x < 8 /\ ~ In x used.
Proof.
  intros [Hnd Hb] Hlen.
  destruct (existsb (fun x => negb (hasSlot used x)) [0; 1; 2; 3; 4; 5; 6; 7]) eqn:E.
  - apply existsb_exists in E as (x & Hx & Hfree). exists x. split.
    + simpl in Hx. lia.
    + apply hasSlot_not_In. now apply negb_true_iff.
  - exfalso.
    assert (Hincl : incl [0; 1; 2; 3; 4; 5; 6; 7] used).
    { intros x Hx. apply hasSlot_In.
      destruct (hasSlot used x) eqn:Eh; [reflexivity|].
      assert (existsb (fun x => negb (hasSlot used x)) [0; 1; 2; 3; 4; 5; 6; 7] = true);
        [|congruence].
      apply existsb_exists. exists x. split; [exact Hx|now rewrite Eh]. }
    assert (Hnd8 : NoDup [0; 1; 2; 3; 4; 5; 6; 7])
      by (repeat constructor; simpl; lia).
    pose proof (NoDup_incl_length Hnd8 Hincl) as H. simpl in H. lia.
Qed.

Lemma probe_from (used : list Z) (n : nat) :
  forall slot, 0 <= slot < 8 ->
  (exists j, (j < n)%nat /\ ~ In ((slot + Z.of_nat j) mod 8) used) ->
  exists s, (forall fuel, (n <= fuel)%nat -> probe fuel used slot = Some s)
            /\ ~ In s used /\ 0 <= s < 8.
Proof.
  induction n as [|n IH]; intros slot Hslot (j & Hj & Hfree); [lia|].
  destruct (hasSlot used slot) eqn:E.
  - destruct j as [|j].
    + exfalso. apply Hfree. apply hasSlot_In in E.
      replace ((slot + Z.of_nat 0) mod 8) with slot; [exact E|].
      rewrite Z.add_0_r. symmetry. now apply Z.mod_small.
    + assert (Hnext : 0 <= Z.rem (slot + 1) 8 < 8)
        by (Z.to_euclidean_division_equations; lia).
      destruct (IH (Z.rem (slot + 1) 8) Hnext) as (s & Hs & Hs1 & Hs2).
      { exists j. split; [lia|].
        replace ((Z.rem (slot + 1) 8 + Z.of_nat j) mod 8)
          with ((slot + Z.of_nat (S j)) mod 8); [exact Hfree|].
        rewrite Nat2Z.inj_succ. Z.to_euclidean_division_equations. lia. }
      exists s. split; [|now split].
      intros [|fuel] Hfuel; [lia|]. cbn [probe]. rewrite E, paletteSize_8.
      apply Hs. lia.
  - exists slot. split; [|split; [now apply hasSlot_not_In|exact Hslot]].
    intros [|fuel] Hfuel; [lia|]. cbn [probe]. now rewrite E.
Qed.

(** With a slot left, the loop stops at a free slot within eight tests. *)
Lemma probe_enough (used : list Z) (slot : Z) :
  slotsOk used -> (length used < 8)%nat -> 0 <= slot < 8 ->
  exists s, (forall fuel, (8 <= fuel)%nat -> probe fuel used slot = Some s)
            /\ ~ In s used /\ 0 <= s < 8.
Proof.
  intros Hok Hlen Hslot. apply probe_from; [exact Hslot|].
  destruct (free_slot used Hok Hlen) as (x & Hx & Hfree).
  exists (Z.to_nat ((x - slot) mod 8)). split.
  - pose proof (Z.mod_pos_bound (x - slot) 8 eq_refl). lia.
  - replace ((slot + Z.of_nat (Z.to_nat ((x - slot) mod 8))) mod 8) with x; [exact Hfree|].
    rewrite Z2Nat.id by (apply Z.mod_pos_bound; lia).
    Z.to_euclidean_division_equations. lia.
Qed.

(** Whatever the fuel, the loop stops at a free slot only. *)
Lemma probe_sound (used : list Z) (fuel : nat) :
  forall slot s, 0 <= slot < 8 -> probe fuel used slot = Some s ->
  ~ In s used /\ 0 <= s < 8.
Proof.
  induction fuel as [|fuel IH]; intros slot s Hslot H; [discriminate|].
  cbn [probe] in H. destruct (hasSlot used slot) eqn:E.
  - apply (IH (Z.rem (slot + 1) paletteSize)); [|exact H].
    rewrite paletteSize_8. Z.to_euclidean_division_equations. lia.
  - injection H as <-. split; [now apply hasSlot_not_In|exact Hslot].
Qed.

(** With every slot taken, the loop does not stop. *)
Lemma probe_full (used : list Z) (fuel : nat) :
  (forall x, 0 <= x < 8 -> In x used) ->
  forall slot, 0 <= slot < 8 -> probe fuel used slot = None.
Proof.
  intros Hfull. induction fuel as [|fuel IH]; intros slot Hslot; [reflexivity|].
  cbn [probe]. rewrite (proj2 (hasSlot_In used slot) (Hfull slot Hslot)).
  apply IH. rewrite paletteSize_8. Z.to_euclidean_division_equations. lia.
Qed.

(** ** The colour map *)

Lemma addSlot_fresh (used : list Z) (s : Z) : ~ In s used -> addSlot used s = used ++ [s].
Proof. intros H. unfold addSlot. now rewrite (proj2 (hasSlot_not_In used s) H). Qed.

Lemma mapSet_fresh (assigned : list (str * Z)) (v : str) (c : option str) :
  ~ In v (map fst assigned) ->
  mapSet (coloursOf assigned) (Some v) c = coloursOf assigned ++ [(Some v, c)].
Proof.
  induction assigned as [|[a s] assigned IH]; intros H; [reflexivity|].
  cbn [coloursOf map mapSet fst snd sameKey app].
  assert (E : eqs a v = false) by (apply eqs_neq; intros ->; apply H; now left).
  rewrite E. f_equal. apply IH. intros Hin. apply H. now right.
Qed.

Lemma vendorHash_range (v : str) : 0 <= vendorHash v < 8.
Proof. rewrite vendorHash_mod. apply Z.mod_pos_bound. lia. Qed.

Lemma slotsOk_snoc (used : list Z) (s : Z) :
  slotsOk used -> ~ In s used -> 0 <= s < 8 -> slotsOk (used ++ [s]).
Proof.
  intros [Hnd Hb] Hs Hr. split.
  - apply NoDup_app; [exact Hnd|repeat constructor; simpl; tauto|].
    intros x Hx [<-|[]]. contradiction.
  - apply Forall_app. split; [exact Hb|].
    constructor; [rewrite paletteSize_8; lia|constructor].
Qed.

Lemma assigned_snoc (assigned : list (str * Z)) (v : str) (s : Z) :
  slotsOf (assigned ++ [(v, s)]) = slotsOf assigned ++ [s]
  /\ coloursOf (assigned ++ [(v, s)]) = coloursOf assigned ++ [(Some v, paletteAt s)]
  /\ map fst (assigned ++ [(v, s)]) = map fst assigned ++ [v].
Proof. unfold slotsOf, coloursOf. now rewrite !map_app. Qed.

Lemma NoDup_app_head {A} (l : list A) (x : A) (r : list A) :
  NoDup (l ++ x :: r) -> ~ In x l /\ NoDup ((l ++ [x]) ++ r).
Proof.
  intros H. split.
  - apply NoDup_remove_2 in H. intros Hin. apply H. apply in_or_app. now left.
  - now rewrite <- app_assoc.
Qed.

(** With at most eight vendors, each gets a slot of its own. *)
Lemma colourLoop_some (vendors : list str) :
  forall assigned,
  NoDup (map fst assigned ++ vendors) -> slotsOk (slotsOf assigned) ->
  (length assigned + length vendors <= 8)%nat ->
  exists assigned',
    (forall fuel, (8 <= fuel)%nat ->
       colourLoop fuel vendors (slotsOf assigned) (coloursOf assigned)
       = Some (coloursOf assigned'))
    /\ map fst assigned' = map fst assigned ++ vendors
    /\ slotsOk (slotsOf assigned').
Proof.
  induction vendors as [|v vendors IH]; intros assigned Hnd Hok Hlen.
  - exists assigned. rewrite app_nil_r.
    split; [intros; reflexivity|split; [reflexivity|exact Hok]].
  - cbn [length] in Hlen.
    destruct (probe_enough (slotsOf assigned) (vendorHash v) Hok)
      as (s & Hs & Hfree & Hr); [unfold slotsOf; rewrite length_map; lia
                                |apply vendorHash_range|].
    destruct (NoDup_app_head _ _ _ Hnd) as [Hv Hnd'].
    destruct (assigned_snoc assigned v s) as (E1 & E2 & E3).
    destruct (IH (assigned ++ [(v, s)])) as (assigned' & H1 & H2 & H3).
    + now rewrite E3.
    + rewrite E1. now apply slotsOk_snoc.
    + rewrite length_app. cbn [length]. lia.
    + exists assigned'. split; [|split; [|exact H3]].
      * intros fuel Hfuel. cbn [colourLoop]. rewrite (Hs fuel Hfuel).
        rewrite addSlot_fresh by exact Hfree. rewrite mapSet_fresh by exact Hv.
        rewrite <- E1, <- E2. now apply H1.
      * rewrite H2, E3. now rewrite <- app_assoc.
Qed.

(** With more than eight, a [while] loop does not stop. *)
Lemma colourLoop_none (vendors : list str) (fuel : nat) :
  forall assigned,
  NoDup (map fst assigned ++ vendors) -> slotsOk (slotsOf assigned) ->
  (8 < length assigned + length vendors)%nat ->
  colourLoop fuel vendors (slotsOf assigned) (coloursOf assigned) = None.
Proof.
  induction vendors as [|v vendors IH]; intros assigned Hnd Hok Hlen.
  - pose proof (slots_at_most _ Hok) as H. unfold slotsOf in H.
    rewrite length_map in H. cbn [length] in Hlen. lia.
  - cbn [colourLoop length] in *.
    destruct (probe fuel (slotsOf assigned) (vendorHash v)) as [s|] eqn:E; [|reflexivity].
    destruct (probe_sound _ _ _ _ (vendorHash_range v) E) as [Hfree Hr].
    destruct (NoDup_app_head _ _ _ Hnd) as [Hv Hnd'].
    destruct (assigned_snoc assigned v s) as (E1 & E2 & E3).
    rewrite addSlot_fresh by exact Hfree. rewrite mapSet_fresh by exact Hv.
    rewrite <- E1, <- E2. apply IH.
    + now rewrite E3.
    + rewrite E1. now apply slotsOk_snoc.
    + rewrite length_app. cbn [length]. lia.
Qed.

Lemma mapGet_assigned (assigned : list (str * Z)) (tail : ColourMap) (v : str) (s : Z) :
  NoDup (map fst assigned) -> In (v, s) assigned ->
  mapGet (coloursOf assigned ++ tail) (Some v) = Some (paletteAt s).
Proof.
  induction assigned as [|[a s0] assigned IH]; intros Hnd Hin; [contradiction|].
  cbn [map fst] in Hnd. apply NoDup_cons_iff in Hnd as [Ha Hnd].
  cbn [coloursOf map app mapGet fst snd sameKey]. destruct Hin as [H|Hin].
  - injection H as -> ->. now rewrite eqs_refl.
  - destruct (eqs a v) eqn:E.
    + apply eqs_eq in E. subst a. exfalso. apply Ha.
      apply in_map_iff. now exists (v, s).
    + now apply IH.
Qed.

Lemma mapSet_undefined (assigned : list (str * Z)) (c : option str) :
  mapSet (coloursOf assigned) None c = coloursOf assigned ++ [(None, c)].
Proof.
  induction assigned as [|[a s] assigned IH]; [reflexivity|].
  cbn [coloursOf map mapSet fst snd sameKey app]. f_equal. exact IH.
Qed.

Lemma mapGet_undefined (assigned : list (str * Z)) (c : option str) :
  mapGet (coloursOf assigned ++ [(None, c)]) None = Some c.
Proof.
  induction assigned as [|[a s] assigned IH]; [reflexivity|].
  cbn [coloursOf map mapGet fst snd sameKey app]. exact IH.
Qed.

Lemma paletteAt_inj (a b : Z) :
  0 <= a < 8 -> 0 <= b < 8 -> paletteAt a = paletteAt b -> a = b.
Proof.
  intros Ha Hb.
  assert (Ea : a = 0 \/ a = 1 \/ a = 2 \/ a = 3 \/ a = 4 \/ a = 5 \/ a = 6 \/ a = 7) by lia.
  assert (Eb : b = 0 \/ b = 1 \/ b = 2 \/ b = 3 \/ b = 4 \/ b = 5 \/ b = 6 \/ b = 7) by lia.
  destruct Ea as [->|[->|[->|[->|[->|[->|[->| ->]]]]]]];
    destruct Eb as [->|[->|[->|[->|[->|[->|[->| ->]]]]]]];
    vm_compute; intros H; first [reflexivity|discriminate H].
Qed.

Lemma paletteAt_colour (s : Z) :
  0 <= s < 8 -> exists c, paletteAt s = Some c /\ In c VENDOR_PALETTE.
Proof.
  intros Hs. unfold paletteAt. destruct (s <? 0) eqn:E; [apply Z.ltb_lt in E; lia|].
  destruct (nth_error VENDOR_PALETTE (Z.to_nat s)) as [c|] eqn:En.
  - exists c. split; [reflexivity|]. now apply nth_error_In in En.
  - apply nth_error_None in En. simpl in En. lia.
Qed.

(** ** The vendors *)

Lemma leStr_total (a b : str) : leStr a b = false -> leStr b a = true.
Proof.
  revert b. induction a as [|x a IH]; intros [|y b]; cbn [leStr]; try congruence.
  intros H. apply orb_false_iff in H as [H1 H2].
  apply Nat.ltb_ge in H1. destruct (Nat.eqb_spec (code x) (code y)) as [E|E].
  - cbn [andb] in H2. rewrite E, Nat.eqb_refl, (IH _ H2). apply orb_true_r.
  - assert (Hlt : (code y < code x)%nat) by lia.
    apply Nat.ltb_lt in Hlt. now rewrite Hlt.
Qed.

Lemma insertStr_perm (x : str) (l : list str) : Permutation (insertStr x l) (x :: l).
Proof.
  induction l as [|y l IH]; [apply Permutation_refl|]. cbn [insertStr].
  destruct (leStr x y); [apply Permutation_refl|].
  etransitivity; [apply perm_skip, IH|]. apply perm_swap.
Qed.

Lemma sortStr_perm (l : list str) : Permutation (sortStr l) l.
Proof.
  induction l as [|x l IH]; [apply Permutation_refl|]. cbn [sortStr fold_right].
  etransitivity; [apply insertStr_perm|]. now apply perm_skip.
Qed.

Lemma insertStr_sorted (x : str) (l : list str) :
  sortedStr l = true -> sortedStr (insertStr x l) = true.
Proof.
  induction l as [|y l IH]; intros H; [reflexivity|]. cbn [insertStr].
  destruct (leStr x y) eqn:E.
  - cbn [sortedStr] in *. now rewrite E, H.
  - cbn [sortedStr] in H. apply andb_true_iff in H as [Hy Hl].
    specialize (IH Hl). cbn [sortedStr]. rewrite IH, andb_true_r.
    destruct l as [|z l]; cbn [insertStr].
    + now apply leStr_total.
    + destruct (leStr x z); [now apply leStr_total|exact Hy].
Qed.

Lemma sortStr_sorted (l : list str) : sortedStr (sortStr l) = true.
Proof.
  induction l as [|x l IH]; [reflexivity|]. cbn [sortStr fold_right].
  now apply insertStr_sorted.
Qed.

Lemma collectVendors_NoDup (all : list (Portfolio.t Role)) :
  NoDup (collectVendorsFromAll all).
Proof.
  unfold collectVendorsFromAll.
  apply (Permutation_NoDup (Permutation_sym (sortStr_perm _))). apply toSet_NoDup.
Qed.

(** X16.  [collectVendorsFromAll] returns the vendors of the persons of
    the portfolios, those that are not empty, each once and in the order
    of [sort()]. *)
Theorem collectVendorsFromAll_sorted (all : list (Portfolio.t Role)) :
  NoDup (collectVendorsFromAll all)
  /\ sortedStr (collectVendorsFromAll all) = true
  /\ (forall v, In v (collectVendorsFromAll all) <-> In v (flat_map scanPortfolio all))
  /\ Forall (fun v => nonEmpty v = true) (collectVendorsFromAll all).
Proof.
  split; [apply collectVendors_NoDup|]. split; [apply sortStr_sorted|].
  assert (Hin : forall v, In v (collectVendorsFromAll all)
                          <-> In v (flat_map scanPortfolio all)).
  { intros v. unfold collectVendorsFromAll. split; intros H.
    - apply (Permutation_in _ (sortStr_perm _)) in H.
      exact (proj1 (toSet_In _ _) H).
    - apply (Permutation_in _ (Permutation_sym (sortStr_perm _))).
      exact (proj2 (toSet_In _ _) H). }
  split; [exact Hin|]. apply Forall_forall. intros v Hv. apply Hin in Hv.
  assert (Hscan : forall p w, In w (scanVendor p) -> nonEmpty w = true).
  { intros p w. unfold scanVendor. destruct (Person.vendor p) as [[|c u]|]; simpl;
      intros H; try contradiction. destruct H as [<-|[]]. reflexivity. }
  assert (Hgroup : forall g w, In w (scanGroup g) -> nonEmpty w = true).
  { intros g w H. unfold scanGroup in H. rewrite !in_app_iff in H.
    destruct H as [H|[H|H]].
    - destruct (Group.manager g) as [mgr|]; [now apply (Hscan mgr)|contradiction].
    - apply in_flat_map in H as (p & _ & H). now apply (Hscan p).
    - apply in_flat_map in H as (t & _ & H). apply in_flat_map in H as (p & _ & H).
      now apply (Hscan p). }
  apply in_flat_map in Hv as (p & _ & H). unfold scanPortfolio in H.
  rewrite !in_app_iff in H. destruct H as [H|[H|[H|H]]].
  - destruct (Portfolio.headOfEngineering p) as [hoe|]; [now apply (Hscan hoe)|contradiction].
  - apply in_flat_map in H as (q & _ & H). now apply (Hscan q).
  - apply in_flat_map in H as (d & _ & H). apply in_flat_map in H as (g & _ & H).
    now apply (Hgroup g).
  - apply in_flat_map in H as (g & _ & H). now apply (Hgroup g).
Qed.

(** X17.  With at most eight vendors [buildVendorColourMap] returns, the
    same map for any fuel from eight on: every vendor has a colour of the
    palette, two vendors never the same one, and [undefined] has the
    colour of no vendor. *)
Theorem buildVendorColourMap_distinct (all : list (Portfolio.t Role)) :
  (length (collectVendorsFromAll all) <= 8)%nat ->
  exists m,
    (forall fuel, (8 <= fuel)%nat -> buildVendorColourMap fuel all = Some m)
    /\ (forall v, In v (collectVendorsFromAll all) ->
          exists c, mapGet m (Some v) = Some (Some c) /\ In c VENDOR_PALETTE)
    /\ (forall v w, In v (collectVendorsFromAll all) -> In w (collectVendorsFromAll all) ->
          mapGet m (Some v) = mapGet m (Some w) -> v = w)
    /\ mapGet m None = Some (Some NO_VENDOR_COLOUR).
Proof.
  intros Hlen.
  destruct (colourLoop_some (collectVendorsFromAll all) [])
    as (assigned & Hloop & Hkeys & Hnd & Hb);
    [apply collectVendors_NoDup|split; constructor|simpl; lia|].
  cbn [map app] in Hkeys.
  assert (Hkn : NoDup (map fst assigned)) by (rewrite Hkeys; apply collectVendors_NoDup).
  assert (Hslot : forall v, In v (collectVendorsFromAll all) ->
            exists s, In (v, s) assigned /\ 0 <= s < 8).
  { intros v Hv. rewrite <- Hkeys in Hv. apply in_map_iff in Hv as ([v' s] & <- & Hin).
    exists s. split; [exact Hin|]. rewrite Forall_forall in Hb.
    rewrite <- paletteSize_8. apply Hb. unfold slotsOf. apply in_map_iff.
    now exists (v', s). }
  exists (coloursOf assigned ++ [(None, Some NO_VENDOR_COLOUR)]).
  split; [|split; [|split]].
  - intros fuel Hfuel. unfold buildVendorColourMap.
    change (@nil Z) with (slotsOf []). change (@nil (option str * option str))
      with (coloursOf []).
    rewrite (Hloop fuel Hfuel). now rewrite mapSet_undefined.
  - intros v Hv. destruct (Hslot v Hv) as (s & Hin & Hs).
    rewrite (mapGet_assigned assigned _ v s Hkn Hin).
    destruct (paletteAt_colour s Hs) as (c & -> & Hc). now exists c.
  - intros v w Hv Hw E.
    destruct (Hslot v Hv) as (s & Hin & Hs). destruct (Hslot w Hw) as (s' & Hin' & Hs').
    rewrite (mapGet_assigned assigned _ v s Hkn Hin) in E.
    rewrite (mapGet_assigned assigned _ w s' Hkn Hin') in E.
    injection E as E. apply (paletteAt_inj _ _ Hs Hs') in E. subst s'.
    assert (Epair : (v, s) = (w, s)); [|congruence].
    apply (NoDup_map_eq snd assigned); try assumption. reflexivity.
  - apply mapGet_undefined.
Qed.

Lemma buildVendorColourMap_distinct_witness :
  (length (collectVendorsFromAll [fullPortfolio]) <= 8)%nat
  /\ exists m, forall fuel, (8 <= fuel)%nat ->
       buildVendorColourMap fuel [fullPortfolio] = Some m.
Proof.
  assert (H : (length (collectVendorsFromAll [fullPortfolio]) <= 8)%nat)
    by (vm_compute; lia).
  split; [exact H|].
  destruct (buildVendorColourMap_distinct [fullPortfolio] H) as (m & Hm & _).
  now exists m.
Defined.

(** X18.  With more than eight vendors [buildVendorColourMap] does not
    return: the palette is used up by the first eight, and for the ninth
    the loop that looks for a free slot finds none, whatever the number
    of tests it is run for. *)
Theorem buildVendorColourMap_diverges (all : list (Portfolio.t Role)) (fuel : nat) :
  (8 < length (collectVendorsFromAll all))%nat ->
  buildVendorColourMap fuel all = None.
Proof.
  intros Hlen. unfold buildVendorColourMap.
  change (@nil Z) with (slotsOf []). change (@nil (option str * option str))
    with (coloursOf []).
  rewrite colourLoop_none; [reflexivity|apply collectVendors_NoDup|split; constructor|].
  simpl. lia.
Qed.

Lemma buildVendorColourMap_diverges_witness :
  (8 < length (collectVendorsFromAll [nineVendorsPortfolio]))%nat
  /\ buildVendorColourMap 1000 [nineVendorsPortfolio] = None.
Proof.
  assert (H : (8 < length (collectVendorsFromAll [nineVendorsPortfolio]))%nat)
    by (vm_compute; lia).
  split; [exact H|]. exact (buildVendorColourMap_diverges [nineVendorsPortfolio] 1000 H).
Defined.

End VendorColours.

(** * Further properties of the parser *)

(** ** Errors and their lines *)

Lemma addsErrorAt_refl (n : nat) (st : Parser.t) : addsErrorAt n st st.
Proof. now left. Qed.

Lemma addsErrorAt_pushError (n : nat) (st : Parser.t) (m : ParseMessage) :
  addsErrorAt n st (pushError st n m).
Proof. right. now exists m. Qed.

Lemma addsErrorAt_same (n : nat) (st st' : Parser.t) :
  Parser.errors st' = Parser.errors st -> addsErrorAt n st st'.
Proof. intros H. now left. Qed.

Lemma errors_finishTeam (st : Parser.t) :
  Parser.errors (finishTeam st) = Parser.errors st.
Proof. unfold finishTeam. now destruct (Parser.currentTeam st), (Parser.currentGroup st). Qed.

Lemma errors_finishGroup (st : Parser.t) :
  Parser.errors (finishGroup st) = Parser.errors st.
Proof.
  unfold finishGroup. rewrite <- (errors_finishTeam st).
  destruct (finishTeam st) as [? ? ? ? ? ? ? [d|] [g|] ? [|] ?]; reflexivity.
Qed.

Lemma errors_finishDivision (st : Parser.t) :
  Parser.errors (finishDivision st) = Parser.errors st.
Proof.
  unfold finishDivision. rewrite <- (errors_finishGroup st).
  destruct (finishGroup st) as [? ? ? ? ? ? ? [d|] ? ? ? ?]; reflexivity.
Qed.

Lemma addsErrorAt_leadership (ids : IdSource) (st : Parser.t) (n : nat)
    (trimmed prefix : str) (role : Role)
    (store : Parser.t -> Person.t RoleValue -> Parser.t) :
  (forall p, Parser.errors (store st p) = Parser.errors st) ->
  addsErrorAt n st (leadership ids st n trimmed prefix role store).
Proof.
  intros H. unfold leadership. destruct (parseLeadershipLine trimmed prefix role).
  - apply addsErrorAt_same, H.
  - apply addsErrorAt_pushError.
Qed.

Lemma addsErrorAt_lineInGroup (ids : IdSource) (st : Parser.t) (n : nat) (trimmed : str) :
  addsErrorAt n st (lineInGroup ids st n trimmed).
Proof.
  unfold lineInGroup.
  destruct (labelMatch "Manager:" trimmed).
  { destruct (Parser.currentGroup st); [|apply addsErrorAt_pushError].
    now apply addsErrorAt_leadership. }
  destruct (labelMatch "Managed by:" trimmed).
  { destruct (Parser.currentGroup st); [|apply addsErrorAt_pushError]. now left. }
  destruct (labelMatch "Staff:" trimmed).
  { destruct (Parser.currentGroup st); [|apply addsErrorAt_pushError].
    now apply addsErrorAt_leadership. }
  destruct (listMatch trimmed) as [g|].
  { destruct (Parser.currentTeam st); [|apply addsErrorAt_pushError].
    destruct (parsePersonLine g); [now left|apply addsErrorAt_pushError]. }
  destruct (_ && _); [apply addsErrorAt_pushError|apply addsErrorAt_refl].
Qed.

Lemma addsErrorAt_lineLeadership (ids : IdSource) (st : Parser.t) (n : nat)
    (trimmed : str) :
  addsErrorAt n st (lineLeadership ids st n trimmed).
Proof.
  unfold lineLeadership.
  destruct (Parser.currentDivision st); [apply addsErrorAt_lineInGroup|].
  destruct (Parser.currentGroup st); [apply addsErrorAt_lineInGroup|].
  destruct (labelMatch "Head of Engineering:" trimmed);
    [now apply addsErrorAt_leadership|].
  destruct (labelMatch "Principal Engineer:" trimmed);
    [now apply addsErrorAt_leadership|].
  apply addsErrorAt_lineInGroup.
Qed.

(** A line adds at most one error, at its own number. *)
Lemma addsErrorAt_parseLine (ids : IdSource) (st : Parser.t) (n : nat) (line : str) :
  addsErrorAt n st (parseLine ids st n line).
Proof.
  unfold parseLine. cbv zeta.
  destruct (negb (nonEmpty (trim line))); [apply addsErrorAt_refl|].
  assert (Hrest :
    addsErrorAt n st
         match headingMatch 4 (trim line) with
         | Some g =>
             match Parser.currentGroup st with
             | None => pushError st n TeamOutsideGroup
             | Some _ => openTeam ids st g
             end
         | None =>
         match headingMatch 3 (trim line) with
         | Some g =>
             match Parser.currentDivision st, Parser.currentGroup st with
             | Some _, _ => openGroup ids (finishGroup st) (trim g) true
             | None, Some _ => openTeam ids st g
             | None, None => pushError st n HeadingOutsideContext
             end
         | None =>
         match headingMatch 2 (trim line) with
         | Some g =>
             match labelMatch "Division:" (trim g) with
             | Some d => openDivision ids (finishDivision st) (trim d)
             | None => openGroup ids (finishDivision st) (trim g) false
             end
         | None => lineLeadership ids st n (trim line)
         end end end).
  { assert (Hteam : forall g, addsErrorAt n st (openTeam ids st g)).
    { intros g. apply addsErrorAt_same. unfold openTeam. cbv zeta.
      apply errors_finishTeam. }
    destruct (headingMatch 4 (trim line)).
    { destruct (Parser.currentGroup st); [apply Hteam|apply addsErrorAt_pushError]. }
    destruct (headingMatch 3 (trim line)).
    { destruct (Parser.currentDivision st).
      - apply addsErrorAt_same. apply errors_finishGroup.
      - destruct (Parser.currentGroup st); [apply Hteam|apply addsErrorAt_pushError]. }
    destruct (headingMatch 2 (trim line)).
    { destruct (labelMatch "Division:" (trim s)); apply addsErrorAt_same;
        apply errors_finishDivision. }
    apply addsErrorAt_lineLeadership. }
  destruct (headingMatch 1 (trim line)) as [g|]; [|exact Hrest].
  destruct (startsWith "##" (trim line)); [exact Hrest|].
  unfold portfolioHeading. cbv zeta.
  destruct (search targetAt (trim g)) as [[i ds]|]; now left.
Qed.

Lemma parseLines_errors (ids : IdSource) (lines : list str) :
  forall st n,
  exists es,
    Parser.errors (parseLines ids st n lines) = Parser.errors st ++ es
    /\ StronglySorted lt (map ParseError.line es)
    /\ Forall (fun e => n <= ParseError.line e < n + length lines) es.
Proof.
  induction lines as [|line lines IH]; intros st n; cbn [parseLines length].
  - exists []. rewrite app_nil_r. repeat split; constructor.
  - destruct (IH (parseLine ids st n line) (S n)) as (es & H1 & H2 & H3).
    destruct (addsErrorAt_parseLine ids st n line) as [E|[m E]]; rewrite H1, E.
    + exists es. split; [reflexivity|]. split; [exact H2|].
      eapply Forall_impl; [|exact H3]. simpl. intros e He. lia.
    + exists (ParseError.mk n m :: es). rewrite <- app_assoc. split; [reflexivity|].
      split.
      * cbn [map ParseError.line]. constructor; [exact H2|].
        apply Forall_map. eapply Forall_impl; [|exact H3]. simpl. intros e He. lia.
      * constructor; [simpl; lia|].
        eapply Forall_impl; [|exact H3]. simpl. intros e He. lia.
Qed.

(** X19.  Every error of [parseMarkdown] is at a line of the text: the
    scan reports at most one error a line, in the order of the lines, and
    the error of a missing portfolio heading, at line 1, comes last. *)
Theorem parseMarkdown_error_lines (ids : IdSource) (text : str) :
  let errors := ParseResult.errors (parseMarkdown ids text) in
  Forall (fun e => 1 <= ParseError.line e <= length (split LF text)) errors
  /\ exists es,
       StronglySorted lt (map ParseError.line es)
       /\ (errors = es \/ errors = es ++ [ParseError.mk 1 MissingPortfolioHeading]).
Proof.
  cbv zeta.
  destruct (parseLines_errors ids (split LF text) parserStart 1) as (es & H1 & H2 & H3).
  cbn [parserStart Parser.errors app] in H1.
  assert (Hscan : Parser.errors (scanMarkdown ids text) = es).
  { unfold scanMarkdown. now rewrite errors_finishGroup, errors_finishDivision. }
  assert (Hlen : 1 <= length (split LF text)).
  { pose proof (split_not_nil LF text). destruct (split LF text); [congruence|simpl; lia]. }
  assert (Hes : Forall (fun e => 1 <= ParseError.line e <= length (split LF text)) es).
  { eapply Forall_impl; [|exact H3]. simpl. intros e He. lia. }
  unfold parseMarkdown. cbv zeta. rewrite Hscan.
  destruct (negb (truthy (Parser.portfolioName (scanMarkdown ids text)))).
  - cbn [ParseResult.errors]. split.
    + apply Forall_app. split; [exact Hes|]. repeat constructor; simpl; lia.
    + exists es. split; [exact H2|now right].
  - destruct es as [|e es'] eqn:E; cbn [ParseResult.errors].
    + split; [constructor|]. exists []. split; [constructor|now left].
    + split; [exact Hes|]. exists (e :: es'). split; [exact H2|now left].
Qed.

Lemma parseLines_blank (ids : IdSource) (lines : list str) :
  forallb (fun l => negb (nonEmpty (trim l))) lines = true ->
  forall st n, parseLines ids st n lines = st.
Proof.
  induction lines as [|line lines IH]; intros H st n; [reflexivity|].
  cbn [forallb] in H. apply andb_true_iff in H as [Hl H]. cbn [parseLines].
  unfold parseLine. cbv zeta. rewrite Hl. now apply IH.
Qed.

(** X20.  A text of blank lines only, the empty text among them, is
    refused with one error: the missing portfolio heading, at line 1. *)
Theorem parseMarkdown_blank (ids : IdSource) (text : str) :
  forallb (fun l => negb (nonEmpty (trim l))) (split LF text) = true ->
  parseMarkdown ids text
  = ParseResult.mk None [ParseError.mk 1 MissingPortfolioHeading].
Proof.
  intros H. unfold parseMarkdown, scanMarkdown. cbv zeta.
  rewrite (parseLines_blank ids _ H). reflexivity.
Qed.

Lemma parseMarkdown_blank_witness :
  parseMarkdown idsA [" "%char; LF; LF; " "%char]
  = ParseResult.mk None [ParseError.mk 1 MissingPortfolioHeading].
Proof. apply parseMarkdown_blank. reflexivity. Defined.

(** ** Comments and decorations *)

Lemma parseLine_trimmed (ids : IdSource) (st : Parser.t) (n : nat) (line : str) :
  parseLine ids st n line = parseLine ids st n (trim line).
Proof. unfold parseLine. now rewrite trim_idem. Qed.

Lemma startsWith_app (p s : str) : startsWith p s = true -> exists x, s = p ++ x.
Proof.
  revert s. induction p as [|c p IH]; intros s H; [now exists s|].
  destruct s as [|d s]; [discriminate|]. cbn [startsWith] in H.
  apply andb_true_iff in H as [Hc H]. apply Ascii.eqb_eq in Hc. subst d.
  destruct (IH s H) as [x ->]. now exists x.
Qed.

Lemma decoration_cases (t : str) :
  isDecoration t = true ->
  (exists x, t = ">"%char :: x)
  \/ (exists x, t = "-"%char :: "-"%char :: "-"%char :: x)
  \/ (exists x, t = "<"%char :: "!"%char :: "-"%char :: "-"%char :: x).
Proof.
  unfold isDecoration. intros H. apply orb_true_iff in H as [H|H];
    [apply orb_true_iff in H as [H|H]|]; apply startsWith_app in H as [x ->].
  - left. now exists x.
  - right. left. now exists x.
  - right. right. now exists x.
Qed.

Lemma lineInGroup_decoration (ids : IdSource) (st : Parser.t) (n : nat) (t : str) :
  isDecoration t = true -> lineInGroup ids st n t = st.
Proof.
  intros H. destruct (decoration_cases t H) as [[x ->]|[[x ->]|[x ->]]]; reflexivity.
Qed.

Lemma lineLeadership_decoration (ids : IdSource) (st : Parser.t) (n : nat) (t : str) :
  isDecoration t = true -> lineLeadership ids st n t = st.
Proof.
  intros H. unfold lineLeadership.
  destruct (Parser.currentDivision st); [now apply lineInGroup_decoration|].
  destruct (Parser.currentGroup st); [now apply lineInGroup_decoration|].
  assert (Hm : labelMatch "Head of Engineering:" t = None
               /\ labelMatch "Principal Engineer:" t = None)
    by (destruct (decoration_cases t H) as [[x ->]|[[x ->]|[x ->]]]; now split).
  destruct Hm as [-> ->]. now apply lineInGroup_decoration.
Qed.

(** X21.  A line that opens, white space apart, with [>], [---] or
    [<!--] changes nothing, wherever it stands: it is no error and it
    closes no team, group or division. *)
Theorem parseLine_decoration (ids : IdSource) (st : Parser.t) (n : nat) (line : str) :
  isDecoration (trim line) = true -> parseLine ids st n line = st.
Proof.
  intros H. rewrite parseLine_trimmed.
  assert (He : endsOk (trim line) = true).
  { apply endsOk_trimmed; [apply trim_idem|].
    destruct (decoration_cases _ H) as [[x ->]|[[x ->]|[x ->]]]; reflexivity. }
  pose proof (lineLeadership_decoration ids st n _ H) as Hl.
  destruct (decoration_cases _ H) as [[x E]|[[x E]|[x E]]]; rewrite E in *;
    (rewrite parseLine_text; [exact Hl|reflexivity|reflexivity|exact He]).
Qed.

Lemma parseLine_decoration_witness :
  parseLine idsA (inTeam (newTeam "t" "T") 0) 7 "  > a note  "
  = inTeam (newTeam "t" "T") 0.
Proof. apply parseLine_decoration. reflexivity. Defined.

(** ** Quantities *)

Lemma ids_withIds (ids : IdSource) (ps : list PersonData.t) :
  forall n, map Person.id (withIds ids n ps) = map ids (seq n (length ps)).
Proof.
  induction ps as [|p ps IH]; intros n; [reflexivity|].
  cbn [withIds map length seq]. now rewrite IH.
Qed.

(** A quantity, a role label and the props of a person, as a person
    line. *)
Lemma parsePersonLine_quantity (p : Person.t Role) (count : nat) :
  wfProps p = true ->
  let text := ofNat count ++ "x " ++ ROLE_LABELS (Person.role p) ++ personProps p in
  parsePersonLine text
  = Persons (repeat (PersonData.mk None (OwnRole (Person.role p))
                       (Props.type (propsOf p)) (Props.location (propsOf p))
                       (Props.vendor (propsOf p))) count)
  /\ startsOk text = true /\ endsOk text = true /\ forallb notLT text = true.
Proof.
  intros Hwf text.
  destruct (label_facts (Person.role p))
    as (Ls & Le & Ll & Lb & Lc & Lrole & Lq & Ltrim & Ltrim').
  destruct (personProps_line p Hwf) as [Hpl Hpe].
  set (label := ROLE_LABELS (Person.role p)) in *.
  set (main := (ofNat count ++ "x ") ++ label).
  assert (Htext : text = main ++ personProps p)
    by (unfold text, main; now rewrite <- !app_assoc).
  assert (Hdigits := ofNat_isDigit count).
  assert (Hpl' : forallb notLT (ofNat count ++ "x ") = true).
  { apply forallb_app_true; [|reflexivity].
    eapply forallb_impl; [|exact Hdigits]. intros c Hc. now apply isDigit_facts. }
  assert (Hpb : lacks "["%char (ofNat count ++ "x ") = true).
  { rewrite lacks_app. apply andb_true_iff. split; [|reflexivity].
    eapply forallb_impl; [|exact Hdigits]. intros c Hc.
    destruct (isDigit_facts c Hc) as (_ & _ & -> & _). reflexivity. }
  assert (Hms : startsOk main = true).
  { unfold main. pose proof (ofNat_nonEmpty count) as Hne.
    destruct (ofNat count) as [|d ds]; [discriminate|]. simpl.
    simpl in Hdigits. apply andb_true_iff in Hdigits as [Hd _].
    destruct (isDigit_facts d Hd) as (_ & -> & _). reflexivity. }
  assert (Hme : endsOk main = true) by now apply endsOk_app.
  assert (Hml : forallb notLT main = true) by now apply forallb_app_true.
  assert (Hmb : lacks "["%char main = true) by (unfold main; now rewrite lacks_app, Hpb).
  assert (Hstart : startsOk text = true) by (rewrite Htext; now apply startsOk_app).
  assert (Hend : endsOk text = true).
  { rewrite Htext. destruct Hpe as [->|Hpe]; [now rewrite app_nil_r|now apply endsOk_app]. }
  split; [|split; [exact Hstart|split; [exact Hend|]]].
  2: { rewrite Htext. now apply forallb_app_true. }
  unfold parsePersonLine. rewrite (trim_clean _ Hstart Hend).
  replace (nonEmpty text) with true by (now destruct text).
  cbn [negb]. rewrite Htext, (splitProps_personProps main p Hwf Hmb Hms Hme).
  assert (Hqm : quantityMatch main = Some (ofNat count, label)).
  { unfold quantityMatch, main. rewrite <- app_assoc.
    rewrite takeWhile_app, dropWhile_app by exact Hdigits.
    assert (E2 : takeWhile isDigit ("x " ++ label) = []) by reflexivity.
    assert (E3 : dropWhile isDigit ("x " ++ label) = "x"%char :: SPACE :: label)
      by reflexivity.
    assert (E4 : ciLit "x" ("x"%char :: SPACE :: label) = Some (SPACE :: label))
      by reflexivity.
    rewrite E2, E3, E4, app_nil_r, (wsPlusRest_space label Ls Ll).
    pose proof (ofNat_nonEmpty count) as Hne.
    now destruct (ofNat count). }
  now rewrite Hqm, parseInt_ofNat, Ltrim', Lrole.
Qed.

(** X22.  In a team, a list item made of a quantity [N], an [x], a role
    label and the props of a person adds [N] persons without name, of that
    role and with those props, to the team, and nothing when [N] is 0: it
    is no error, it draws [N] identifiers, one after the other, and gives
    them to the persons in that order. *)
Theorem parseLine_quantity (ids : IdSource) (st : Parser.t) (n : nat)
    (p : Person.t Role) (count : nat) (team : Team.t RoleValue) :
  wfProps p = true ->
  Parser.currentGroup st <> None -> Parser.currentTeam st = Some team ->
  let st' := parseLine ids st n ("- " ++ ofNat count ++ "x "
                                   ++ ROLE_LABELS (Person.role p) ++ personProps p) in
  exists added,
    Parser.currentTeam st' = Some (addMembers team added)
    /\ length added = count
    /\ Forall (fun q => Person.name q = None
                        /\ Person.role q = OwnRole (Person.role p)
                        /\ Person.type q = Person.type p
                        /\ Person.location q = Some (nullish (Person.location p) onshore)
                        /\ Person.vendor q = Person.vendor p) added
    /\ map Person.id added = map ids (seq (Parser.drawn st) count)
    /\ Parser.drawn st' = count + Parser.drawn st
    /\ Parser.errors st' = Parser.errors st.
Proof.
  intros Hwf Hg Ht st'.
  destruct (parsePersonLine_quantity p count Hwf) as (Hp & Hs & He & Hl).
  cbv zeta in Hp, Hs, He, Hl. unfold st'.
  rewrite (parseLine_item ids st n _ _ team Hs He Hl Hp Hg Ht).
  eexists. unfold setContext.
  cbn [Parser.currentTeam Parser.drawn Parser.errors].
  split; [reflexivity|]. rewrite ids_withIds, !repeat_length.
  assert (Hlen : forall k, length (withIds ids k
            (repeat (PersonData.mk None (OwnRole (Person.role p))
                       (Props.type (propsOf p)) (Props.location (propsOf p))
                       (Props.vendor (propsOf p))) count)) = count).
  { intros k. rewrite <- (length_map Person.id), ids_withIds, length_map, length_seq.
    apply repeat_length. }
  split; [apply Hlen|]. split; [|now repeat split].
  apply built_withIds. intros id. apply Forall_forall. intros y Hy.
  apply repeat_spec in Hy. subst y. unfold withId, propsOf.
  cbn [Person.name Person.role Person.type Person.location Person.vendor
       PersonData.name PersonData.role PersonData.type PersonData.location
       PersonData.vendor Props.type Props.location Props.vendor].
  rewrite (wfProps_vendor p Hwf). now repeat split.
Qed.

Lemma parseLine_quantity_witness :
  exists added,
    Parser.currentTeam
      (parseLine idsA (inTeam (newTeam "t" "T") 4) 9
         ("- " ++ ofNat 3 ++ "x "
          ++ ROLE_LABELS senior_engineer
          ++ personProps (Person.mk "x" None senior_engineer contractor
                                    (Some ("TCS" : str)) (Some offshore))))
    = Some (addMembers (newTeam "t" "T") added)
    /\ length added = 3.
Proof.
  destruct (parseLine_quantity idsA (inTeam (newTeam "t" "T") 4) 9
              (Person.mk "x" None senior_engineer contractor (Some ("TCS" : str))
                         (Some offshore))
              3 (newTeam "t" "T") eq_refl) as (added & H1 & H2 & _);
    [discriminate|reflexivity|].
  exists added. now split.
Defined.

(** ** Fresh identifiers *)

Section FreshIdentifiers.
Variable ids : IdSource.

Lemma occurrences_app (x : str) (a b : list str) :
  occurrences x (a ++ b) = occurrences x a + occurrences x b.
Proof. apply count_occ_app. Qed.

Lemma occurrences_nil (x : str) : occurrences x [] = 0.
Proof. reflexivity. Qed.

Lemma occurrences_cons (x y : str) (l : list str) :
  occurrences x (y :: l) = occurrences x [y] + occurrences x l.
Proof. apply (occurrences_app x [y] l). Qed.

Lemma drawn_S (x : str) (d : nat) :
  occurrences x (map ids (seq 0 (S d)))
  = occurrences x (map ids (seq 0 d)) + occurrences x [ids d].
Proof. now rewrite seq_S, map_app, occurrences_app. Qed.

Lemma drawn_add (x : str) (d k : nat) :
  occurrences x (map ids (seq 0 (k + d)))
  = occurrences x (map ids (seq 0 d)) + occurrences x (map ids (seq d k)).
Proof. now rewrite Nat.add_comm, seq_app, map_app, occurrences_app. Qed.

Ltac occ_norm :=
  repeat (rewrite ?flat_map_app, ?map_app, ?app_nil_r in *;
          cbn [flat_map map app optList] in * );
  rewrite ?app_nil_r in *;
  repeat match goal with
         | |- context [occurrences ?x (?a ++ ?b)] => rewrite (occurrences_app x a b)
         | |- context [occurrences ?x (?y :: ?l)] =>
             lazymatch l with
             | [] => fail
             | _ => rewrite (occurrences_cons x y l)
             end
         | H : context [occurrences ?x (?a ++ ?b)] |- _ =>
             rewrite (occurrences_app x a b) in H
         | H : context [occurrences ?x (?y :: ?l)] |- _ =>
             lazymatch l with
             | [] => fail
             | _ => rewrite (occurrences_cons x y l) in H
             end
         end;
  rewrite ?occurrences_nil in *.

Lemma occ_team (x : str) (i n : str) (ms : list (Person.t RoleValue)) :
  occurrences x (idsOfTeam (Team.mk i n ms))
  = occurrences x [i] + occurrences x (map Person.id ms).
Proof. unfold idsOfTeam. cbn [Team.id Team.members]. now occ_norm. Qed.

Lemma occ_group (x : str) (i n : str) (m : option (Person.t RoleValue)) (mb : option str)
    (ss : list (Person.t RoleValue)) (ts : list (Team.t RoleValue)) :
  occurrences x (idsOfGroup (Group.mk i n m mb ss ts))
  = occurrences x [i] + occurrences x (map Person.id (optList m))
    + occurrences x (map Person.id ss) + occurrences x (flat_map idsOfTeam ts).
Proof.
  unfold idsOfGroup. cbn [Group.id Group.manager Group.staffEngineers Group.teams].
  rewrite occurrences_cons, !occurrences_app. lia.
Qed.

Lemma occ_division (x : str) (i n : str) (gs : list (Group.t RoleValue)) :
  occurrences x (idsOfDivision (Division.mk i n gs))
  = occurrences x [i] + occurrences x (flat_map idsOfGroup gs).
Proof.
  unfold idsOfDivision. cbn [Division.id Division.groups]. now rewrite occurrences_cons.
Qed.

Lemma occ_parser (x : str) e nm tg h ps dvs gs cd cg ct f d :
  occurrences x (idsOfParser (Parser.mk e nm tg h ps dvs gs cd cg ct f d))
  = occurrences x (map Person.id (optList h)) + occurrences x (map Person.id ps)
    + occurrences x (flat_map idsOfDivision dvs) + occurrences x (flat_map idsOfGroup gs)
    + occurrences x (flat_map idsOfDivision (optList cd))
    + occurrences x (flat_map idsOfGroup (optList cg))
    + occurrences x (flat_map idsOfTeam (optList ct)).
Proof.
  unfold idsOfParser.
  cbn [Parser.headOfEngineering Parser.principalEngineers Parser.divisions
       Parser.directGroups Parser.currentDivision Parser.currentGroup Parser.currentTeam].
  rewrite !occurrences_app. lia.
Qed.

(** The proof of a step: the state, the group, the division and the team
    it touches are taken apart, and the occurrences counted. *)
Ltac ids_tac :=
  let x := fresh "x" in
  let H := fresh "H" in
  unfold drawnOnce; intros H x; specialize (H x);
  unfold addTeam, addGroup, addMembers, setManager, setManagedBy, addStaff, newTeam,
    newGroup in *;
  repeat match goal with
         | g : Group.t RoleValue |- _ => destruct g
         | d : Division.t RoleValue |- _ => destruct d
         | t : Team.t RoleValue |- _ => destruct t
         | p : Person.t RoleValue |- _ => destruct p
         end;
  cbn [Parser.errors Parser.portfolioName Parser.onshoreTarget
       Parser.headOfEngineering Parser.principalEngineers Parser.divisions
       Parser.directGroups Parser.currentDivision Parser.currentGroup
       Parser.currentTeam Parser.groupInDivision Parser.drawn
       Division.id Division.name Division.groups
       Group.id Group.name Group.manager Group.managedBy Group.staffEngineers Group.teams
       Team.id Team.name Team.members Person.id Nat.add] in *;
  rewrite ?occ_parser in *; occ_norm;
  repeat (first [rewrite occ_team in * | rewrite occ_group in *
                | rewrite occ_division in *]; occ_norm);
  rewrite ?drawn_S, ?drawn_add; occ_norm; cbn [Person.id] in *; try lia.

Lemma drawnOnce_finishTeam (st : Parser.t) : drawnOnce ids st -> drawnOnce ids (finishTeam st).
Proof.
  destruct st as [? ? ? ? ? ? ? ? [g|] [t|] ? ?]; unfold finishTeam, setContext;
    cbn [Parser.currentTeam Parser.currentGroup]; ids_tac.
Qed.

Lemma drawnOnce_finishGroup (st : Parser.t) :
  drawnOnce ids st -> drawnOnce ids (finishGroup st).
Proof.
  intros H. apply drawnOnce_finishTeam in H. revert H. unfold finishGroup.
  destruct (finishTeam st) as [? ? ? ? ? ? ? [d|] [g|] ? [|] ?];
    unfold setContext, pushDirectGroup;
    cbn [Parser.currentTeam Parser.currentGroup Parser.currentDivision
         Parser.groupInDivision]; ids_tac.
Qed.

Lemma drawnOnce_finishDivision (st : Parser.t) :
  drawnOnce ids st -> drawnOnce ids (finishDivision st).
Proof.
  intros H. apply drawnOnce_finishGroup in H. revert H. unfold finishDivision.
  destruct (finishGroup st) as [? ? ? ? ? ? ? [d|] ? ? ? ?];
    unfold pushDivision; cbn [Parser.currentDivision]; ids_tac.
Qed.

Lemma drawnOnce_pushError (st : Parser.t) (n : nat) (m : ParseMessage) :
  drawnOnce ids st -> drawnOnce ids (pushError st n m).
Proof. destruct st. unfold pushError. ids_tac. Qed.

Lemma drawnOnce_setHeading (st : Parser.t) (name : str) (target : float) :
  drawnOnce ids st -> drawnOnce ids (setHeading st name target).
Proof. destruct st. unfold setHeading. ids_tac. Qed.

Lemma drawnOnce_openTeam (st : Parser.t) (g : str) :
  drawnOnce ids st -> drawnOnce ids (openTeam ids st g).
Proof.
  intros H. apply drawnOnce_finishTeam in H. revert H. unfold openTeam. cbv zeta.
  destruct (finishTeam st) as [? ? ? ? ? ? ? ? ? [t|] ? ?]; unfold setContext; ids_tac.
Qed.

Lemma drawnOnce_openGroup (st : Parser.t) (name : str) (b : bool) :
  drawnOnce ids st -> drawnOnce ids (openGroup ids st name b).
Proof.
  destruct st as [? ? ? ? ? ? ? ? [g|] ? ? ?]; unfold openGroup, setContext; ids_tac.
Qed.

Lemma drawnOnce_openDivision (st : Parser.t) (name : str) :
  drawnOnce ids st -> drawnOnce ids (openDivision ids st name).
Proof.
  destruct st as [? ? ? ? ? ? ? [d|] ? ? ? ?]; unfold openDivision, setContext; ids_tac.
Qed.

Lemma drawnOnce_leadership (st : Parser.t) (n : nat) (trimmed prefix : str) (role : Role)
    (store : Parser.t -> Person.t RoleValue -> Parser.t) :
  (forall p, drawnOnce ids st -> drawnOnce ids (store st (withId (ids (Parser.drawn st)) p))) ->
  drawnOnce ids st -> drawnOnce ids (leadership ids st n trimmed prefix role store).
Proof.
  intros Hstore H. unfold leadership.
  destruct (parseLeadershipLine trimmed prefix role);
    [now apply Hstore|now apply drawnOnce_pushError].
Qed.

Lemma drawnOnce_lineInGroup (st : Parser.t) (n : nat) (trimmed : str) :
  drawnOnce ids st -> drawnOnce ids (lineInGroup ids st n trimmed).
Proof.
  intros H. unfold lineInGroup.
  destruct (labelMatch "Manager:" trimmed).
  { destruct (Parser.currentGroup st) as [g|] eqn:Eg; [|now apply drawnOnce_pushError].
    apply drawnOnce_leadership; [|exact H]. intros p. clear H.
    destruct st as [? ? ? ? ? ? ? ? ? ? ? ?]. cbn [Parser.currentGroup] in Eg. subst.
    destruct g as [? ? [m|] ? ? ?]; unfold inGroup, setContext, withId;
      cbn [Person.id]; ids_tac. }
  destruct (labelMatch "Managed by:" trimmed).
  { destruct (Parser.currentGroup st) as [g|] eqn:Eg; [|now apply drawnOnce_pushError].
    revert H. destruct st as [? ? ? ? ? ? ? ? ? ? ? ?]. cbn [Parser.currentGroup] in Eg.
    subst. unfold setContext. ids_tac. }
  destruct (labelMatch "Staff:" trimmed).
  { destruct (Parser.currentGroup st) as [g|] eqn:Eg; [|now apply drawnOnce_pushError].
    apply drawnOnce_leadership; [|exact H]. intros p. clear H.
    destruct st as [? ? ? ? ? ? ? ? ? ? ? ?]. cbn [Parser.currentGroup] in Eg. subst.
    unfold inGroup, setContext, withId; cbn [Person.id]; ids_tac. }
  destruct (listMatch trimmed) as [g|].
  { destruct (Parser.currentTeam st) as [t|] eqn:Et; [|now apply drawnOnce_pushError].
    destruct (parsePersonLine g); [|now apply drawnOnce_pushError].
    revert H. destruct st as [? ? ? ? ? ? ? ? ? ? ? ?]. cbn [Parser.currentTeam] in Et.
    subst. unfold setContext. ids_tac. rewrite ids_withIds. lia. }
  destruct (_ && _); [now apply drawnOnce_pushError|exact H].
Qed.

Lemma drawnOnce_lineLeadership (st : Parser.t) (n : nat) (trimmed : str) :
  drawnOnce ids st -> drawnOnce ids (lineLeadership ids st n trimmed).
Proof.
  intros H. unfold lineLeadership.
  destruct (Parser.currentDivision st); [now apply drawnOnce_lineInGroup|].
  destruct (Parser.currentGroup st); [now apply drawnOnce_lineInGroup|].
  destruct (labelMatch "Head of Engineering:" trimmed).
  { apply drawnOnce_leadership; [|exact H]. intros p. clear H.
    destruct st as [? ? ? [h|] ? ? ? ? ? ? ? ?]; unfold setHead, withId;
      cbn [Person.id]; ids_tac. }
  destruct (labelMatch "Principal Engineer:" trimmed).
  { apply drawnOnce_leadership; [|exact H]. intros p. clear H.
    destruct st. unfold pushPrincipal, withId; cbn [Person.id]; ids_tac. }
  now apply drawnOnce_lineInGroup.
Qed.

Lemma drawnOnce_parseLine (st : Parser.t) (n : nat) (line : str) :
  drawnOnce ids st -> drawnOnce ids (parseLine ids st n line).
Proof.
  intros H. unfold parseLine. cbv zeta.
  destruct (negb (nonEmpty (trim line))); [exact H|].
  assert (Hrest :
    drawnOnce ids
         match headingMatch 4 (trim line) with
         | Some g =>
             match Parser.currentGroup st with
             | None => pushError st n TeamOutsideGroup
             | Some _ => openTeam ids st g
             end
         | None =>
         match headingMatch 3 (trim line) with
         | Some g =>
             match Parser.currentDivision st, Parser.currentGroup st with
             | Some _, _ => openGroup ids (finishGroup st) (trim g) true
             | None, Some _ => openTeam ids st g
             | None, None => pushError st n HeadingOutsideContext
             end
         | None =>
         match headingMatch 2 (trim line) with
         | Some g =>
             match labelMatch "Division:" (trim g) with
             | Some d => openDivision ids (finishDivision st) (trim d)
             | None => openGroup ids (finishDivision st) (trim g) false
             end
         | None => lineLeadership ids st n (trim line)
         end end end).
  { destruct (headingMatch 4 (trim line)).
    { destruct (Parser.currentGroup st);
        [now apply drawnOnce_openTeam|now apply drawnOnce_pushError]. }
    destruct (headingMatch 3 (trim line)).
    { destruct (Parser.currentDivision st).
      - now apply drawnOnce_openGroup, drawnOnce_finishGroup.
      - destruct (Parser.currentGroup st);
          [now apply drawnOnce_openTeam|now apply drawnOnce_pushError]. }
    destruct (headingMatch 2 (trim line)).
    { destruct (labelMatch "Division:" (trim s)).
      - now apply drawnOnce_openDivision, drawnOnce_finishDivision.
      - now apply drawnOnce_openGroup, drawnOnce_finishDivision. }
    now apply drawnOnce_lineLeadership. }
  destruct (headingMatch 1 (trim line)) as [g|]; [|exact Hrest].
  destruct (startsWith "##" (trim line)); [exact Hrest|].
  unfold portfolioHeading. cbv zeta.
  destruct (search targetAt (trim g)) as [[i ds]|]; now apply drawnOnce_setHeading.
Qed.

Lemma drawnOnce_parseLines (lines : list str) :
  forall st n, drawnOnce ids st -> drawnOnce ids (parseLines ids st n lines).
Proof.
  induction lines as [|line lines IH]; intros st n H; [exact H|].
  cbn [parseLines]. apply IH. now apply drawnOnce_parseLine.
Qed.

Lemma drawnOnce_scanMarkdown (text : str) : drawnOnce ids (scanMarkdown ids text).
Proof.
  unfold scanMarkdown.
  apply drawnOnce_finishGroup, drawnOnce_finishDivision, drawnOnce_parseLines.
  intros x. reflexivity.
Qed.

End FreshIdentifiers.

Lemma NoDup_map_injective {A B} (f : A -> B) (l : list A) :
  (forall a b, f a = f b -> a = b) -> NoDup l -> NoDup (map f l).
Proof.
  intros Hf H. induction H as [|a l Ha Hl IH]; [constructor|].
  cbn [map]. constructor; [|exact IH].
  intros Hin. apply in_map_iff in Hin as (b & E & Hb). apply Hf in E. now subst.
Qed.

Lemma idsA_injective (i j : nat) : idsA i = idsA j -> i = j.
Proof.
  unfold idsA. intros H. injection H as H.
  rewrite <- (parseInt_ofNat i), <- (parseInt_ofNat j). now rewrite H.
Qed.

(** X23.  When the identifier source never gives the same identifier
    twice, the portfolio [parseMarkdown] returns holds no identifier
    twice: its divisions, groups, teams and persons have identifiers of
    their own, every one of them drawn from the source. *)
Theorem parseMarkdown_fresh_ids (ids : IdSource) (text : str) (q : Parsed.t) :
  (forall i j, ids i = ids j -> i = j) ->
  ParseResult.portfolio (parseMarkdown ids text) = Some q ->
  NoDup (idsOfParsed q) /\ Forall (fun x => exists k, x = ids k) (idsOfParsed q).
Proof.
  intros Hinj Hq. pose proof (drawnOnce_scanMarkdown ids text) as Hst.
  unfold parseMarkdown in Hq. cbv zeta in Hq.
  destruct (negb (truthy (Parser.portfolioName (scanMarkdown ids text))));
    [discriminate|].
  destruct (Parser.errors (scanMarkdown ids text)); [|discriminate].
  cbn [ParseResult.portfolio] in Hq. injection Hq as <-.
  assert (Hle : forall x,
            occurrences x (idsOfParsed
              {| Parsed.name := nullish (Parser.portfolioName (scanMarkdown ids text)) [];
                 Parsed.onshoreTargetPercentage := Parser.onshoreTarget (scanMarkdown ids text);
                 Parsed.headOfEngineering := Parser.headOfEngineering (scanMarkdown ids text);
                 Parsed.principalEngineers := Parser.principalEngineers (scanMarkdown ids text);
                 Parsed.divisions :=
                   match Parser.divisions (scanMarkdown ids text) with
                   | [] => None
                   | ds => Some ds
                   end;
                 Parsed.groups := Parser.directGroups (scanMarkdown ids text) |})
            <= occurrences x (map ids (seq 0 (Parser.drawn (scanMarkdown ids text))))).
  { intros x. specialize (Hst x). etransitivity; [|exact Hst].
    unfold idsOfParsed, idsOfParser.
    cbn [Parsed.headOfEngineering Parsed.principalEngineers Parsed.divisions Parsed.groups].
    replace (nullish match Parser.divisions (scanMarkdown ids text) with
                     | [] => None
                     | ds => Some ds
                     end [])
      with (Parser.divisions (scanMarkdown ids text))
      by now destruct (Parser.divisions (scanMarkdown ids text)).
    rewrite !occurrences_app. lia. }
  assert (Hnd : NoDup (map ids (seq 0 (Parser.drawn (scanMarkdown ids text)))))
    by (apply NoDup_map_injective; [exact Hinj|apply seq_NoDup]).
  split.
  - apply (NoDup_count_occ (list_eq_dec ascii_dec)). intros x.
    etransitivity; [apply Hle|].
    now apply (proj1 (NoDup_count_occ (list_eq_dec ascii_dec) _)).
  - apply Forall_forall. intros x Hx.
    apply (count_occ_In (list_eq_dec ascii_dec)) in Hx.
    assert (Hin : In x (map ids (seq 0 (Parser.drawn (scanMarkdown ids text))))).
    { apply (count_occ_In (list_eq_dec ascii_dec)). specialize (Hle x).
      unfold occurrences in Hle. lia. }
    apply in_map_iff in Hin as (k & <- & _). now exists k.
Qed.

Lemma parseMarkdown_fresh_ids_witness :
  exists q,
    ParseResult.portfolio (parseMarkdown idsA (generateMarkdown fullPortfolio)) = Some q
    /\ NoDup (idsOfParsed q).
Proof.
  eexists. split; [vm_compute; reflexivity|].
  eapply (parseMarkdown_fresh_ids idsA (generateMarkdown fullPortfolio));
    [exact idsA_injective|vm_compute; reflexivity].
Defined.

(** * Further properties of the CSV reader *)

Lemma parseCsvFrom_sorted (lines : list str) :
  forall i,
  StronglySorted lt (map CsvRow.lineNumber (parseCsvFrom i lines))
  /\ Forall (fun row => i < CsvRow.lineNumber row <= i + length lines)
            (parseCsvFrom i lines).
Proof.
  induction lines as [|raw rest IH]; intros i; cbn [parseCsvFrom length].
  - split; constructor.
  - destruct (IH (S i)) as [H1 H2].
    assert (H2' : Forall (fun row => i < CsvRow.lineNumber row <= i + S (length rest))
                         (parseCsvFrom (S i) rest)).
    { eapply Forall_impl; [|exact H2]. simpl. intros row Hrow. lia. }
    destruct (parseCsvLine i raw) as [row|] eqn:E; [|now split].
    apply parseCsvLine_lineNumber in E. split.
    + cbn [map]. constructor; [exact H1|]. apply Forall_map.
      eapply Forall_impl; [|exact H2]. simpl. intros r Hr. lia.
    + constructor; [lia|exact H2'].
Qed.

Lemma csvLines_trim (csvText : str) : csvLines (trim csvText) = csvLines csvText.
Proof. unfold csvLines. now rewrite trim_idem. Qed.

(** X24.  [parseCsv] reads the lines in order and drops, without a
    word, those with fewer than seven fields: its rows are as many as the
    lines, blank lines apart, with seven fields or more, their line
    numbers grow from row to row, and white space around the text makes no
    difference, so that a blank text has no rows. *)
Theorem parseCsv_rows (csvText : str) :
  length (parseCsv csvText)
  = length (filter (fun raw => 7 <=? length (split COMMA (trim raw))) (csvLines csvText))
  /\ StronglySorted lt (map CsvRow.lineNumber (parseCsv csvText))
  /\ Forall (fun row => 1 <= CsvRow.lineNumber row <= length (csvLines csvText))
            (parseCsv csvText)
  /\ parseCsv (trim csvText) = parseCsv csvText
  /\ (trim csvText = [] -> parseCsv csvText = []).
Proof.
  unfold parseCsv. destruct (parseCsvFrom_sorted (csvLines csvText) 0) as [H1 H2].
  split; [apply parseCsvFrom_length|]. split; [exact H1|]. split; [|split].
  - eapply Forall_impl; [|exact H2]. simpl. intros row Hrow. lia.
  - now rewrite csvLines_trim.
  - intros E. unfold csvLines. rewrite E. reflexivity.
Qed.

(** * The headcount after an import *)

Lemma fold_sum {A} (g : A -> nat) (l : list A) :
  forall a, fold_left (fun n x => n + g x) l a = a + list_sum (map g l).
Proof.
  induction l as [|x l IH]; intros a; simpl; [lia|].
  rewrite IH. lia.
Qed.

Lemma fold_sum2 {A} (u v : A -> nat) (l : list A) :
  forall a, fold_left (fun n x => n + u x + v x) l a
            = a + list_sum (map (fun x => u x + v x) l).
Proof.
  induction l as [|x l IH]; intros a; simpl; [lia|].
  rewrite IH. lia.
Qed.

Lemma list_sum_add {A} (u v : A -> nat) (l : list A) :
  list_sum (map (fun a => u a + v a) l) = list_sum (map u l) + list_sum (map v l).
Proof. induction l as [|x l IH]; simpl; [reflexivity|]. rewrite IH. lia. Qed.

Lemma list_sum_flat_map {A B} (g : B -> nat) (h : A -> list B) (l : list A) :
  list_sum (map g (flat_map h l)) = list_sum (map (fun a => list_sum (map g (h a))) l).
Proof.
  induction l as [|x l IH]; [reflexivity|].
  cbn [flat_map map]. rewrite map_app, list_sum_app, IH. reflexivity.
Qed.

Lemma list_sum_ext {A} (u v : A -> nat) (l : list A) :
  (forall a, In a l -> u a = v a) -> list_sum (map u l) = list_sum (map v l).
Proof. intros H. f_equal. now apply map_ext_in. Qed.

Lemma list_sum_perm (l l' : list nat) : Permutation l l' -> list_sum l = list_sum l'.
Proof. induction 1; simpl; lia. Qed.

Lemma groupHeadcount_mapGroupTeams (h : Team.t Role -> Team.t Role) (g : Group.t Role) :
  managerCount (mapGroupTeams h g) + groupHeadcount (mapGroupTeams h g)
  = (managerCount g + length (Group.staffEngineers g))
    + list_sum (map (fun t => length (Team.members (h t))) (Group.teams g)).
Proof.
  unfold groupHeadcount, managerCount, mapGroupTeams.
  cbn [Group.manager Group.staffEngineers Group.teams].
  rewrite (fold_sum (fun team => length (Team.members team))), map_map. lia.
Qed.

Lemma groupsHeadcount (f : str -> Team.t Role -> Team.t Role) (gs : list (Group.t Role)) :
  list_sum (map (fun g => managerCount (mapGroupTeams (f (Group.id g)) g)
                          + groupHeadcount (mapGroupTeams (f (Group.id g)) g)) gs)
  = list_sum (map (fun g => managerCount g + length (Group.staffEngineers g)) gs)
    + list_sum (map (fun g => list_sum (map (fun t => length (Team.members (f (Group.id g) t)))
                                            (Group.teams g))) gs).
Proof.
  rewrite <- list_sum_add. apply list_sum_ext. intros g _.
  apply groupHeadcount_mapGroupTeams.
Qed.

Lemma placed_sum (F : option str * str * Team.t Role -> nat) (p : Portfolio.t Role) :
  list_sum (map F (placedTeams p))
  = list_sum (map (fun d =>
       list_sum (map (fun g =>
          list_sum (map (fun t => F (Some (Division.id d), Group.id g, t)) (Group.teams g)))
                     (Division.groups d)))
       (nullish (Portfolio.divisions p) []))
    + list_sum (map (fun g =>
         list_sum (map (fun t => F (None, Group.id g, t)) (Group.teams g)))
                    (Portfolio.groups p)).
Proof.
  unfold placedTeams. rewrite map_app, list_sum_app, !list_sum_flat_map. f_equal.
  - apply list_sum_ext. intros d _. rewrite list_sum_flat_map.
    apply list_sum_ext. intros g _. now rewrite map_map.
  - apply list_sum_ext. intros g _. now rewrite map_map.
Qed.

(** The headcount of a portfolio is a number that the members of the
    teams do not change, and the members of the teams. *)
Lemma headcount_formula (p : Portfolio.t Role) :
  exists c, forall f,
    portfolioHeadcount (mapTeams f p)
    = c + memberTotal (fun x => f (Portfolio.id p) (fst (fst x)) (snd (fst x)) (snd x)) p.
Proof.
  exists (list_sum (map (fun d => list_sum (map (fun g => managerCount g
                                                   + length (Group.staffEngineers g))
                                              (Division.groups d)))
                        (nullish (Portfolio.divisions p) []))
          + list_sum (map (fun g => managerCount g + length (Group.staffEngineers g))
                          (Portfolio.groups p))
          + length (Portfolio.principalEngineers p)).
  intros f. unfold memberTotal. rewrite placed_sum. cbn [fst snd].
  unfold portfolioHeadcount, mapTeams. cbv zeta.
  cbn [Portfolio.divisions Portfolio.groups Portfolio.principalEngineers].
  rewrite (fold_sum (fun g => managerCount g + groupHeadcount g)).
  rewrite (fold_sum divisionHeadcount). cbn [Nat.add].
  rewrite (map_map _ (fun g => managerCount g + groupHeadcount g)).
  rewrite (groupsHeadcount (fun gid => f (Portfolio.id p) None gid)).
  assert (Hd : list_sum (map divisionHeadcount
                 (nullish (option_map
                    (map (fun d => Division.mk (Division.id d) (Division.name d)
                            (map (fun g => mapGroupTeams
                                    (f (Portfolio.id p) (Some (Division.id d)) (Group.id g)) g)
                                 (Division.groups d))))
                    (Portfolio.divisions p)) []))
               = list_sum (map (fun d => list_sum (map (fun g => managerCount g
                                                   + length (Group.staffEngineers g))
                                              (Division.groups d)))
                        (nullish (Portfolio.divisions p) []))
                 + list_sum (map (fun d =>
                      list_sum (map (fun g =>
                         list_sum (map (fun t => length (Team.members
                                     (f (Portfolio.id p) (Some (Division.id d)) (Group.id g) t)))
                                       (Group.teams g)))
                                    (Division.groups d)))
                      (nullish (Portfolio.divisions p) []))).
  { destruct (Portfolio.divisions p) as [ds|]; [|reflexivity]. cbn [option_map nullish].
    rewrite map_map, <- list_sum_add. apply list_sum_ext. intros d _.
    unfold divisionHeadcount. cbn [Division.groups].
    rewrite (fold_sum2 managerCount groupHeadcount), map_map.
    cbn [Nat.add].
    apply (groupsHeadcount (fun gid => f (Portfolio.id p) (Some (Division.id d)) gid)). }
  rewrite Hd.
  lia.
Qed.

Lemma filter_split_length {A} (f : A -> bool) (l : list A) :
  length (filter (fun x => negb (f x)) l) + length (filter f l) = length l.
Proof.
  induction l as [|x l IH]; [reflexivity|]. cbn [filter].
  destruct (f x); cbn [negb length]; lia.
Qed.

Lemma sumLengths_list_sum {A B} (f : A -> list B) (l : list A) :
  sumLengths f l = list_sum (map (fun x => length (f x)) l).
Proof. unfold sumLengths. now rewrite (fold_sum (fun x => length (f x))). Qed.

Lemma importGroup_balanced (ids : IdSource) (p : Portfolio.t Role) (st : ImportState.t)
    (g : CsvTeamGroup.t) :
  Forall2 (balanced p) (ImportState.teamChanges st) (ImportState.replacements st) ->
  Forall2 (balanced p)
          (ImportState.teamChanges (importGroup ids p (enumerateTeams p) st g))
          (ImportState.replacements (importGroup ids p (enumerateTeams p) st g)).
Proof.
  intros H. unfold importGroup. cbv zeta.
  destruct (findBest (ImportState.claimedTeams st) g (enumerateTeams p))
    as [[loc r]|] eqn:Ebest; [|exact H].
  destruct (isUnmatched (Some (loc, r))); [exact H|].
  cbn [ImportState.teamChanges ImportState.replacements].
  apply Forall2_app; [exact H|]. constructor; [|constructor].
  destruct (findBest_some _ _ _ _ _ Ebest) as (Hin & _).
  destruct (findTeamInPortfolio_found p loc Hin) as (t & Ht).
  match goal with
  | |- context [fold_left (importRow ids) ?rows ?acc] =>
      destruct (importRows_account ids rows acc) as (_ & imported & H2 & H3 & _)
  end.
  cbv zeta in H2, H3. cbn [RowAcc.newPersons RowAcc.addedChanges app length] in H2, H3.
  exists t. cbn [TeamMemberReplacement.teamId TeamMemberReplacement.newMembers
                 TeamChange.removed TeamChange.added].
  split; [exact Ht|]. rewrite Ht, H2, H3, length_app, length_map.
  pose proof (filter_split_length (fun m => isEngineerRole (Person.role m))
                                  (Team.members t)). lia.
Qed.

Lemma importLoop_balanced (ids : IdSource) (p : Portfolio.t Role)
    (groups : list CsvTeamGroup.t) :
  forall st,
  Forall2 (balanced p) (ImportState.teamChanges st) (ImportState.replacements st) ->
  Forall2 (balanced p)
          (ImportState.teamChanges (fold_left (importGroup ids p (enumerateTeams p)) groups st))
          (ImportState.replacements
             (fold_left (importGroup ids p (enumerateTeams p)) groups st)).
Proof.
  induction groups as [|g groups IH]; intros st H; [exact H|].
  cbn [fold_left]. apply IH. now apply importGroup_balanced.
Qed.

(** The members of the team of an identifier, counted; none when there
    is no such team. *)
Lemma balanced_sums (p : Portfolio.t Role) (tcs : list TeamChange.t)
    (rs : list TeamMemberReplacement.t) :
  Forall2 (balanced p) tcs rs ->
  list_sum (map (fun r => length (TeamMemberReplacement.newMembers r)) rs)
  + sumLengths TeamChange.removed tcs
  = list_sum (map (fun r => match findTeamInPortfolio p (TeamMemberReplacement.teamId r) with
                            | Some t => length (Team.members t)
                            | None => 0
                            end) rs)
    + sumLengths TeamChange.added tcs.
Proof.
  rewrite !sumLengths_list_sum.
  induction 1 as [|tc r tcs rs (t & Ht & Hb) _ IH]; [reflexivity|].
  cbn [map]. simpl list_sum. rewrite Ht. lia.
Qed.

Lemma replacementFor_some (rs : list TeamMemberReplacement.t) (i : str)
    (r : TeamMemberReplacement.t) :
  replacementFor rs i = Some r -> In r rs /\ TeamMemberReplacement.teamId r = i.
Proof.
  unfold replacementFor. intros H. apply find_some in H as [H1 H2].
  apply eqs_eq in H2. now split.
Qed.

Lemma replacementFor_In (rs : list TeamMemberReplacement.t) (r : TeamMemberReplacement.t) :
  NoDup (map TeamMemberReplacement.teamId rs) -> In r rs ->
  replacementFor rs (TeamMemberReplacement.teamId r) = Some r.
Proof.
  intros Hnd Hr.
  destruct (replacementFor rs (TeamMemberReplacement.teamId r)) as [r'|] eqn:E.
  - destruct (replacementFor_some _ _ _ E) as [Hr' Hid]. f_equal.
    now apply (NoDup_map_eq TeamMemberReplacement.teamId rs).
  - unfold replacementFor in E. pose proof (find_none _ _ E r Hr) as H.
    cbv beta in H. now rewrite eqs_refl in H.
Qed.

(** For the replacements of an import, the last replacement that reaches
    a team is the replacement for its identifier. *)
Lemma lastReaching_replacementFor (p : Portfolio.t Role)
    (rs : list TeamMemberReplacement.t) (x : option str * str * Team.t Role) :
  NoDup (map Team.id (allTeams p)) ->
  forallb (fun d => nonEmpty (Division.id d)) (nullish (Portfolio.divisions p) []) = true ->
  Forall (replacementOk p) rs -> NoDup (map TeamMemberReplacement.teamId rs) ->
  In x (placedTeams p) ->
  lastReaching rs (Portfolio.id p) (fst (fst x)) (snd (fst x)) (Team.id (snd x))
  = replacementFor rs (Team.id (snd x)).
Proof.
  intros Hnd Hne Hok Hdistinct Hx. rewrite Forall_forall in Hok.
  destruct (replacementFor rs (Team.id (snd x))) as [r|] eqn:E.
  - destruct (replacementFor_some _ _ _ E) as [Hr Hid].
    pose proof (replacementOk_reaches p r x Hnd Hne (Hok r Hr) Hx (eq_sym Hid)) as Hreach.
    destruct (lastReaching rs (Portfolio.id p) (fst (fst x)) (snd (fst x))
                (Team.id (snd x))) as [r'|] eqn:El.
    + destruct (lastReaching_some _ _ _ _ _ _ El) as [Hr' Hreach'].
      apply reaches_teamId in Hreach'. f_equal.
      apply (NoDup_map_eq TeamMemberReplacement.teamId rs); try assumption. congruence.
    + rewrite (lastReaching_none _ _ _ _ _ El r Hr) in Hreach. discriminate.
  - destruct (lastReaching rs (Portfolio.id p) (fst (fst x)) (snd (fst x))
                (Team.id (snd x))) as [r'|] eqn:El; [|reflexivity].
    destruct (lastReaching_some _ _ _ _ _ _ El) as [Hr' Hreach'].
    apply reaches_teamId in Hreach'. unfold replacementFor in E.
    pose proof (find_none _ _ E r' Hr') as H. cbv beta in H.
    rewrite <- Hreach', eqs_refl in H. discriminate.
Qed.

Lemma NoDup_map_filter {A B} (f : A -> B) (g : A -> bool) (l : list A) :
  NoDup (map f l) -> NoDup (map f (filter g l)).
Proof.
  induction l as [|x l IH]; intros H; [constructor|].
  cbn [map] in H. apply NoDup_cons_iff in H as [Hx H]. cbn [filter].
  destruct (g x); [|now apply IH]. cbn [map]. constructor; [|now apply IH].
  intros Hin. apply Hx. apply in_map_iff in Hin as (y & E & Hy).
  apply filter_In in Hy as [Hy _]. rewrite <- E. now apply in_map.
Qed.

Lemma sum_replaced {A} (phi psi nu : A -> nat) (g : A -> bool) (l : list A) :
  (forall x, In x l -> g x = true -> phi x = nu x) ->
  (forall x, In x l -> g x = false -> phi x = psi x) ->
  list_sum (map phi l) + list_sum (map psi (filter g l))
  = list_sum (map psi l) + list_sum (map nu (filter g l)).
Proof.
  induction l as [|x l IH]; intros H1 H2; [reflexivity|].
  cbn [map filter]. simpl list_sum.
  assert (IH' := IH (fun y Hy => H1 y (or_intror Hy)) (fun y Hy => H2 y (or_intror Hy))).
  destruct (g x) eqn:E.
  - cbn [map]. simpl list_sum. rewrite (H1 x (or_introl eq_refl) E). lia.
  - rewrite (H2 x (or_introl eq_refl) E). lia.
Qed.

(** X25.  The report of an import tells the change of the headcount:
    when the teams of the portfolio have distinct identifiers and no
    division has an empty identifier, the headcount of the portfolio with
    the replacements applied, and the members the report counts as
    removed, are the headcount of the portfolio and the members the report
    counts as added. *)
Theorem analyseImport_headcount (ids : IdSource) (csvText : str) (p : Portfolio.t Role) :
  NoDup (map Team.id (allTeams p)) ->
  forallb (fun d => nonEmpty (Division.id d)) (nullish (Portfolio.divisions p) []) = true ->
  let summary := ImportReport.summary (fst (analyseImport ids csvText p)) in
  exists p',
    replaceTeamMembers (snd (analyseImport ids csvText p)) (OrgData.mk [p])
    = OrgData.mk [p']
    /\ portfolioHeadcount p' + Summary.membersRemoved summary
       = portfolioHeadcount p + Summary.membersAdded summary.
Proof.
  intros Hnd Hne summary. unfold summary. clear summary.
  set (st := importLoop ids csvText p).
  assert (Hrs : snd (analyseImport ids csvText p) = ImportState.replacements st)
    by reflexivity.
  assert (HR : Summary.membersRemoved (ImportReport.summary (fst (analyseImport ids csvText p)))
               = sumLengths TeamChange.removed (ImportState.teamChanges st)) by reflexivity.
  assert (HA : Summary.membersAdded (ImportReport.summary (fst (analyseImport ids csvText p)))
               = sumLengths TeamChange.added (ImportState.teamChanges st)) by reflexivity.
  rewrite Hrs, HR, HA. clear Hrs HR HA.
  set (rs := ImportState.replacements st).
  assert (Hok : Forall (replacementOk p) rs)
    by (apply importLoop_replacementOk; constructor).
  assert (Hdistinct : NoDup (map TeamMemberReplacement.teamId rs))
    by (apply importLoop_exclusive; split; [constructor|intros x []]).
  assert (Hbal : Forall2 (balanced p) (ImportState.teamChanges st) rs)
    by (apply importLoop_balanced; constructor).
  exists (mapTeams (replaceAllAt rs) p). rewrite replaceTeamMembers_mapTeams.
  split; [reflexivity|].
  destruct (headcount_formula p) as [c Hc]. rewrite Hc.
  rewrite <- (mapTeams_id (fun _ _ _ t => t) p) at 2 by reflexivity. rewrite Hc.
  pose proof (balanced_sums p _ _ Hbal) as Hsums.
  pose proof Hnd as Hnd'. rewrite allTeams_placed, map_map in Hnd'.
  set (psi' := fun i => match findTeamInPortfolio p i with
                        | Some t => length (Team.members t)
                        | None => 0
                        end).
  set (nu' := fun i => match replacementFor rs i with
                       | Some r => length (TeamMemberReplacement.newMembers r)
                       | None => 0
                       end).
  set (g := fun x : option str * str * Team.t Role =>
              match replacementFor rs (Team.id (snd x)) with
              | Some _ => true
              | None => false
              end).
  assert (Hpsi : forall x, In x (placedTeams p) ->
            length (Team.members (snd x)) = psi' (Team.id (snd x))).
  { intros x Hx. unfold psi', findTeamInPortfolio. rewrite allTeams_placed.
    now rewrite (findTeam_map snd (placedTeams p) x (fun y => eq_refl) Hnd' Hx). }
  assert (Hphi : forall x, In x (placedTeams p) ->
            length (Team.members (replaceAllAt rs (Portfolio.id p) (fst (fst x))
                                               (snd (fst x)) (snd x)))
            = if g x then nu' (Team.id (snd x)) else psi' (Team.id (snd x))).
  { intros x Hx. rewrite replaceAllAt_last.
    rewrite (lastReaching_replacementFor p rs x Hnd Hne Hok Hdistinct Hx).
    unfold g, nu'. destruct (replacementFor rs (Team.id (snd x))); [reflexivity|].
    now apply Hpsi. }
  unfold memberTotal.
  pose proof (sum_replaced
                (fun x => length (Team.members (replaceAllAt rs (Portfolio.id p)
                            (fst (fst x)) (snd (fst x)) (snd x))))
                (fun x => psi' (Team.id (snd x))) (fun x => nu' (Team.id (snd x)))
                g (placedTeams p)) as Hrep.
  rewrite (list_sum_ext (fun x => length (Team.members (snd x)))
                        (fun x => psi' (Team.id (snd x))) _ Hpsi).
  assert (Hperm : Permutation (map (fun x => Team.id (snd x)) (filter g (placedTeams p)))
                              (map TeamMemberReplacement.teamId rs)).
  { apply NoDup_Permutation; [now apply NoDup_map_filter|exact Hdistinct|].
    intros i. rewrite !in_map_iff. split.
    - intros (x & <- & Hx). apply filter_In in Hx as [Hx Hg]. unfold g in Hg.
      destruct (replacementFor rs (Team.id (snd x))) as [r|] eqn:E; [|discriminate].
      destruct (replacementFor_some _ _ _ E) as [Hr Hid]. now exists r.
    - intros (r & <- & Hr). rewrite Forall_forall in Hok.
      destruct (Hok r Hr) as (_ & loc & t & imported & Hloc & Hd & Hg & Ht & _).
      destruct (enumerateTeams_placed p loc Hloc) as (t' & Hin & Hid').
      exists (AppTeamLocation.divisionId loc, AppTeamLocation.groupId loc, t').
      cbn [snd]. split; [congruence|]. apply filter_In. split; [exact Hin|].
      unfold g. cbn [snd]. rewrite Hid', <- Ht.
      now rewrite (replacementFor_In rs r Hdistinct Hr). }
  assert (Hnu : list_sum (map (fun x => nu' (Team.id (snd x))) (filter g (placedTeams p)))
                = list_sum (map (fun r => length (TeamMemberReplacement.newMembers r)) rs)).
  { rewrite <- (map_map (fun x => Team.id (snd x)) nu').
    rewrite (list_sum_perm _ _ (Permutation_map nu' Hperm)), map_map.
    apply list_sum_ext. intros r Hr. unfold nu'.
    now rewrite (replacementFor_In rs r Hdistinct Hr). }
  assert (Hold : list_sum (map (fun x => psi' (Team.id (snd x))) (filter g (placedTeams p)))
                 = list_sum (map (fun r => psi' (TeamMemberReplacement.teamId r)) rs)).
  { rewrite <- (map_map (fun x => Team.id (snd x)) psi').
    now rewrite (list_sum_perm _ _ (Permutation_map psi' Hperm)), map_map. }
  rewrite Hnu, Hold in Hrep.
  change (list_sum (map (fun r => length (TeamMemberReplacement.newMembers r)) rs)
          + sumLengths TeamChange.removed (ImportState.teamChanges st)
          = list_sum (map (fun r => psi' (TeamMemberReplacement.teamId r)) rs)
            + sumLengths TeamChange.added (ImportState.teamChanges st)) in Hsums.
  assert (Hgoal := Hrep (fun x Hx Hg => eq_trans (Hphi x Hx)
                                          (f_equal (fun b : bool => if b then _ else _) Hg))
                        (fun x Hx Hg => eq_trans (Hphi x Hx)
                                          (f_equal (fun b : bool => if b then _ else _) Hg))).
  lia.
Qed.

Lemma analyseImport_headcount_witness :
  NoDup (map Team.id (allTeams fullPortfolio))
  /\ forallb (fun d => nonEmpty (Division.id d))
             (nullish (Portfolio.divisions fullPortfolio) []) = true
  /\ exists p',
       replaceTeamMembers (snd (analyseImport idsA ledgerCsv fullPortfolio))
                          (OrgData.mk [fullPortfolio]) = OrgData.mk [p']
       /\ portfolioHeadcount p'
          + Summary.membersRemoved
              (ImportReport.summary (fst (analyseImport idsA ledgerCsv fullPortfolio)))
          = portfolioHeadcount fullPortfolio
            + Summary.membersAdded
                (ImportReport.summary (fst (analyseImport idsA ledgerCsv fullPortfolio))).
Proof.
  assert (Hnd : NoDup (map Team.id (allTeams fullPortfolio))).
  { vm_compute. repeat constructor; simpl; intuition discriminate. }
  split; [exact Hnd|]. split; [reflexivity|].
  apply (analyseImport_headcount idsA ledgerCsv fullPortfolio Hnd). reflexivity.
Defined.
